(* ===== verification/_CoqProject ===== *)
-Q . S2P
Prelude.v
GoInt.v
GoStrings.v
FileSys.v
Data.v
Merge.v
Progress.v
SplitPath.v
URLName.v
Iface.v
Download.v
Pool.v
PoolMonitor.v
PoolRuns.v
Session.v
Teardown.v
Pget.v
