(* ===== verification/Prelude.v ===== *)
(** * pget: a verification development for [src/util.go]

    ** The program

    pget downloads one remote file with several workers.  The file of
    [filesize] bytes is cut into [procs] byte ranges; worker [i] fetches its
    range into the partial file [<dirname>/<filename>.<procs>.<i>] of a
    workspace directory; a monitor polls the size of the workspace and drives a
    progress bar until the size reaches the total; the partial files are then
    appended to the output in index order and the workspace is removed.

    [src/util.go] holds the job record [Data] and the methods of the
    interface [Utils] on it: the accessors, [SetDirName] (the workspace's
    name), [IsFree] (is there room on the disk), [MakeRange] (the range of one
    worker), [ProgressBar] with [subDirsize] (the monitor), [BindwithFiles]
    (the merge), [SplitFilePath] (the directory and the file of an output
    path) and [URLFileName] (the output's name, from the URL).  The request
    loop, the HTTP transport and the command line are in other files of the
    repository, which are not under [src/].

    ** The files of the development

    - [Prelude] (this file): Go's [(T, error)] results as [result], panics as
      [run], [errors.Wrap], the notations [let?] and [let!], the tactics
      [case_scrut] and [result_inv], the hint databases [pget] and [pget_rw],
      and lemmas on [seqZ], [concat] and strings that the components share.
    - [GoInt]: [uint64] and [int64] as [Z] with the wrap-around written out
      ([wrap64], [u64_add], [u64_sub], [u64_mul], [to_int64], [i64_add]), and
      the lemmas that remove the wrap when the exact result is in range.
    - [GoStrings]: [strings.Split] and [strings.Join] for a separator of one
      byte, and index and slice expressions on a [[]string] with their bounds
      checks, which panic ([index], [slice_to]); the lemmas that splitting and
      joining are inverse and distribute over appending.  Like [FileSys],
      these state what library and built-in operations do.
    - [FileSys]: the environment.  A file system [fsys] is a finite map from
      paths to nodes (a file with its bytes, or a directory with a flag that
      says whether it can be listed) and a counter [free] of the bytes left on
      the volume.  [os_Stat], [os_Create], [os_Open], [io_Copy], [file_Write],
      [os_MkdirAll], [os_Remove], [os_Remove_open], [file_Close],
      [os_RemoveAll], [filepath_Walk] and [du_Free] state what the library
      calls of [src/util.go] are assumed to do, errors included: a copy writes
      what fits in [free] and reports ENOSPC when it is short; removing a file
      that is not open gives its bytes back; removing a file that is open
      ([os_Remove_open]) takes its name away and gives the bytes back only
      when it is closed ([file_Close]), as unlink does on a POSIX system;
      listing a directory whose flag is off fails with EACCES;
      [filepath.Walk] on a missing root calls its function with a nil
      [FileInfo], and so it does for a path that is gone when it comes to
      its [Lstat] ([lstat_visit]).  These definitions are assumptions about the libraries, not
      translations of code under [src/].
    - [Data]: the record [Data] (lines 20-24), [isDos], the accessors
      [FileName], [FileSize], [DirName], [SetFileSize], [SetFileName],
      [SetDirName], [freeSpace], [IsFree] and [MakeRange], each the
      translation of the method of the same name.  A method with a pointer
      receiver that assigns a field returns the updated record.
      [runtime.GOOS] is the parameter [goos].  [ranges] is the list of the
      ranges of a job, as the repository's request loop builds it (that loop is
      outside [src/]: [ranges] follows the specification).  [Data_wf] and
      [Range_wf] say that the fields of a job and of a range are uint64, and
      [range_spec] is the range in exact arithmetic.  [event] lists what the
      program shows or signals: printed lines, calls on the progress bar,
      sends on [ch.Done] and [ch.Err].
    - [Merge]: [BindwithFiles] (lines 246-292) as a function from the file
      system to an [outcome] (the file system it leaves, the events, the error
      returned); [bind_one] is the body of its loop, [bind_loop] the loop over
      the indices [seqZ 0 procs], [part_name] the [Sprintf] of line 265.  The
      two results of [io.Copy] are dropped at line 273 and so are they here.
      [defer subfp.Close()] of line 270 is inside the loop, so every partial
      file is still open when [os.Remove] is called on it and stays open until
      the function returns: the loop counts the bytes held that way and every
      return after the loop has started gives them back with [file_Close].
    - [Progress]: [subDirsize] (lines 184-194) with the function it gives to
      [filepath.Walk] ([subDirsize_fn], [walk_sum]), and [ProgressBar] (lines
      212-243): [ProgressBar_round] is one pass through the [select],
      [ProgressBar_loop] the [for] around it.  The monitor runs concurrently
      with the workers, so what it finds is not determined by the program: a
      run is taken over a list of [observation]s, one per round, each giving
      whether [ctx.Done()] is closed and the file system at that instant.
      [mon_step] and [mon_run] are the state machine of the specification
      (Polling, Completed, Errored, Cancelled, and Crashed for a panic), and
      [bar_trace] is the reference definition of what the monitor shows, as a
      function of the sizes it measures.

    - [SplitPath]: [SplitFilePath] (lines 71-123), both platform branches.
      [tilde] is the replacement of a tilde by the home directory (lines
      104-110) and [split_tail] the choice of the file and the path, which the
      source writes twice (lines 81-90 and 112-122).  What [homedir.Dir()]
      returns is the parameter [homedir_Dir]; the function's result is
      [Returns (Ok (file, path))], [Returns (Err err)], or [Panics] for a
      failed bounds check.
    - [URLName]: [URLFileName] (lines 131-151): [original_loop] is the loop
      that walks the tokens of the URL from the end, [uniq_loop] the loop
      around [os.Stat] that appends [-1], [-2], ...

    - [Iface]: the interface [Utils] (lines 27-44) as a class with one field
      per method, in the order of the source; [UtilsSpec], the contract a
      caller may rely on (what the setters change, that the workspace is apart
      from the output, that the name [URLFileName] sets is free, when
      [IsFree] accepts, the range [MakeRange] computes, the outcome of
      [BindwithFiles] on partial files that exist, that it touches nothing
      when the output cannot be created and keeps the bytes of the volume,
      that [ProgressBar] runs the monitor's machine); and the instances for
      [Data], whose laws are discharged by the lemmas of the component
      files.
    - [Download]: the caller of the interface, which is not in [src/] and is
      modelled from the specification, with the workers run one after the
      other: [Download] checks the space, makes the workspace, runs one
      [worker] per range ([fetchRange] writes the bytes of the range into the
      worker's partial file) and merges.  It is the reference the concurrent
      pool is compared with.  Its lemmas are proved for every implementation
      that keeps [UtilsSpec]; the theorems state them for [Data].
    - [Pool]: the workers, the monitor and the caller as concurrent tasks.
      A state [pool] holds the file system, what each worker has done
      ([Fetching k]: its file is created and holds the first [k] bytes of its
      range; [Failed k]: it has returned an error), the errors returned, what
      the monitor has found, whether its context is cancelled, and the walk
      of the workspace the monitor is in, if it is in one ([p_walk]).  A run
      is a schedule, a list of [action]s: a worker creates its partial file
      ([Start]), appends the next bytes of its range, as many as the
      transport delivers at once ([Write]: [advance] when they are stored,
      [stop] with ENOSPC when the volume takes only some of them), or fails
      ([Fail]); the monitor makes a round at once ([Poll], [observe]), or
      makes it as [filepath.Walk] does, with no lock between it and the
      workers: it reads the names below the workspace ([WalkBegin],
      [listing]), looks at them one by one ([WalkVisit], the [Lstat] of one
      entry) while the workers go on, and ends the round on the sizes it has
      seen ([WalkEnd], [walk_end]: the observation is the [snapshot] of the
      entries as they were when the walk looked at them); the caller cancels
      the context ([CancelCtx], [cancel_ctx]), which reaches the monitor and
      not the workers, as in the reference design of the specification
      (section 5).  [pool_step] is one step, [pool_run] a schedule; the steps
      of different tasks interleave in any order.  A state is [idle] when the
      monitor is between two rounds and not cancelled.  [pool_inv] is the
      invariant of the workspace on every schedule; [step_result] says what
      each step leaves ([pool_step_spec]); [same_work] relates the states
      that differ in the monitor's part only.
    - [PoolMonitor]: what the monitor finds beside the workers.  [grows]
      orders the file systems by what the workers add; [walk_ok] is the
      invariant of a walk under way (what it has seen is an earlier state of
      files that are there, and what it has seen with what the paths it has
      still to visit hold now is not less than any earlier measurement);
      [walking] is the state of one walk from its beginning; [obs_inv] is the invariant of the observations: rounds that measure
      sizes the workers have reached, in non-decreasing order, then rounds
      that find the context cancelled.
    - [PoolRuns]: what the schedules can do.  [pool_variant] is the number
      of steps the workers have left, [completion] the schedule that brings
      every worker to the end of its range, [transport_errors] the errors of
      the transport in a schedule and [workers_only] the schedule without
      the steps of the monitor and of the caller.
    - [Session]: [runDownload] of the specification on a schedule: the space
      check, the workspace, the pool, and [orchestrate], which waits for the
      workers and the monitor and then merges ([conclude]), or removes the
      workspace ([cleanup]) and returns the first error; the workspace is
      removed after a merge that fails too, as section 7 of the
      specification asks of every abort path.  The specification has the
      orchestrator wait for the workers and for the monitor's signal
      (section 5) and notes that the reference flow waits for the workers
      only (section 9); the model waits for both, and
      [ProgressBar_completion_iff_finished] shows that the two conditions
      hold at the same states while the monitor is not cancelled, and
      [merge_needs_monitor_signal] that the merge has to wait for the signal
      all the same, because it removes the workspace the monitor reads.  The
      monitor is taken through the contract: [UtilsSpec] gives a run of the
      state machine, and the machine is deterministic ([mon_run_det]).  The
      lemmas of this file are proved for every implementation of the
      contract.
    - [Teardown]: the removal of the workspace on the abort path while the
      monitor has not returned: what its next round and the next [Lstat] of
      its walk find.
    - [Pget]: the theorems of the download for [Data], the job of
      [src/util.go], each an instance of a lemma of [Session], [PoolRuns]
      or [Teardown],
      and their witnesses on a job of ten bytes and three workers.

    ** What the theorems show

    - Ranges ([Data]): for [0 < procs <= filesize < 2^64] the ranges of a job
      cover every offset from 0 to [filesize] exactly once
      ([ranges_partition]), stay inside the file and end at [filesize]
      ([ranges_within]), and are contiguous ([ranges_contiguous]); none of the
      uint64 operations wraps there, so the ranges are those of the exact
      arithmetic ([ranges_exact]).  With [split = 0] the upper bound wraps to
      [2^64 - 1] ([MakeRange_zero_split]).  Whatever its arguments,
      [MakeRange] returns uint64 bounds ([MakeRange_typed]).
      The bytes of the ranges, appended in the order of the workers, are the
      resource ([ranges_reassemble]).
    - Space check ([Data]): [IsFree] accepts exactly when [filesize + split]
      bytes are free, as long as the sum is a uint64 ([IsFree_exact],
      [IsFree_refuses]); beyond, the sum wraps ([IsFree_wraps]).
    - Names ([Data], [Merge]): the workspace is not the output and does not
      contain it ([SetDirName_separate]); different indices have different
      partial files ([part_name_distinct]).
    - Merge ([Merge]): [BindwithFiles_files] computes the outcome on any
      workspace whose partial files exist, for any amount of free space.  From
      it: the output is the concatenation of the parts in ascending order and
      the workspace is gone, other paths unchanged, when the free space holds
      the parts once more ([BindwithFiles_merges], [BindwithFiles_run]);
      otherwise the output is that concatenation cut to the free space and
      the merge still returns nil ([BindwithFiles_silent_truncation]).  On
      every file system and every return, the bytes free and the bytes in
      files add up to what they were ([capacity], [BindwithFiles_conserves]):
      each operation of [FileSys] keeps the sum but for the bytes of a file
      removed while open, and the function closes what it holds.  After a
      merge that returned nil nothing is left below the workspace, and
      removing it again changes nothing ([BindwithFiles_cleanup]).  Each
      error return has its theorem: the output cannot be created
      ([BindwithFiles_create_error]); a part is missing
      ([BindwithFiles_missing_part]) or is a directory that [os.Remove]
      cannot remove ([BindwithFiles_remove_error]), where the loop stops
      with the parts before it merged ([BindwithFiles_stops]); the
      workspace cannot be removed ([BindwithFiles_removeall_error]).
    - Monitor ([Progress]): [subDirsize] returns the bytes below the
      workspace ([subDirsize_measures]); the loop shows each size found and
      keeps polling ([ProgressBar_keeps_polling]), completes at the first round
      that finds the total ([ProgressBar_completes]), stops silently on
      cancellation ([ProgressBar_cancelled]), signals a failed measurement
      ([ProgressBar_probe_error]) and panics on a missing workspace
      ([ProgressBar_missing_workspace]).  Every run of the loop is a run of the
      state machine ([ProgressBar_loop_refines]); by induction on the machine's
      runs, completion is signalled at most once and last
      ([ProgressBar_done_once]) and the bar never passes its total
      ([ProgressBar_bounded], [ProgressBar_monotone]).  The loop and the
      machine have the same runs ([ProgressBar_machine_equiv]), and on rounds
      that measure the sizes [szs] the loop shows [bar_trace] of them
      ([ProgressBar_trace]).  [int64(filesize)] is negative from [2^63] on
      ([ProgressBar_int64_total]).

    - Paths ([SplitPath]): with a home directory that is not empty,
      [SplitFilePath] returns on every path what the reference definition
      [split_ref] computes on the list of components without an index
      ([SplitFilePath_reference]), so it does not panic
      ([SplitFilePath_returns]); it inverts joining a
      directory and a file name ([SplitFilePath_join]); a trailing separator
      names the same file ([SplitFilePath_trailing]); a leading tilde stands
      for the home directory ([SplitFilePath_tilde]) and a tilde in second
      place drops the first component ([SplitFilePath_second_tilde]); the
      early returns are [SplitFilePath_plain] and [SplitFilePath_home_error].
    - Names ([URLName]): both loops of [URLFileName] end
      ([URLFileName_terminates]); the name set is the first of [original],
      [original-1], ... that does not exist ([URLFileName_first_free],
      [URLFileName_fresh], [URLFileName_last_segment]); a second call after
      the file has been created chooses another name ([URLFileName_twice]); a
      URL without a non-empty segment panics ([URLFileName_panics]).
    - Job record ([Data], [Iface]): [filesize] is a [uint64] in the
      source and an integer here; that it is in range is the hypothesis
      [Data_wf] of the theorems, which the type of the field gives every
      job of the program.  [Data] keeps the contract [UtilsSpec]
      ([Data_UtilsSpec]).

    - Pipeline ([Download]): with twice [filesize] bytes free, no workspace
      left over and a free output name, the download returns nil in whatever
      order the workers run and leaves the file system as it was but for the
      output, which holds the resource ([Download_correct]); with less than
      [filesize + split] bytes free nothing is touched ([Download_refused]);
      in between, which happens as soon as there are two workers, the check
      passes, the merge fills the volume because the partial files it has
      removed are still open, and the output is the resource cut to
      [free - filesize] bytes, without an error ([Download_truncates]).
      Whatever it returns, the pipeline keeps [capacity]
      ([Download_conserves]).  The lemmas on the workers and on the merge
      are proved for whatever bytes each worker is sent ([workers_fetched],
      [merge_fetched]); for a file shorter than the number of workers,
      where [split = 0] and the upper bounds wrap, every worker is sent the
      whole resource and the output is the resource [procs] times over
      ([Download_short_file]).
    - Workers ([Pool], [PoolRuns], [Pget]): on every schedule and whatever
      the room on the volume, each partial file holds the bytes its worker
      has written, nothing else is below the workspace, the space taken is
      the sum of what the workers wrote, and an error has been returned
      exactly when a worker has failed ([pool_inv], [pool_run_pool_inv]).  A
      round the monitor makes at once measures that sum ([pool_measure]); a
      round made entry by entry while the workers write measures a sum
      between what was written when the walk began and what is written when
      it ends ([walk_between], [subDirsize_beside_workers]), and not less
      than the rounds before ([walk_ok_end]); a walk under way can always
      be ended, one step for each path it has left, whatever the workers do
      ([walk_can_end], [subDirsize_wait_free]).  So on every schedule the measurements succeed, are at
      most what the workers have written and never go down ([obs_inv],
      [pool_run_inv]).  Two schedules on which every worker
      finishes leave the same file system, the one the sequential workers of
      [Download] leave ([pool_schedule_independent]).  A schedule has at most
      [filesize + procs] steps of workers ([pool_run_terminates], by the
      variant [pool_variant]).  A write that does not fit stores what fits
      and stops its worker with ENOSPC ([write_short], [worker_disk_full]), so
      the workers finish only on a volume that had room for the file
      ([finished_room], [runDownload_needs_room]), and the errors of the
      workers are those of the transport and of the volume
      ([pool_run_errs_any]).  With room for the file no worker fails for lack
      of space, which is the case whenever [IsFree] accepts without wrapping
      ([pool_run_errs], [IsFree_room_for_workers]), and from any state in
      which no worker has failed the workers can finish ([pool_can_finish],
      [runDownload_can_finish]); in such a state either every worker has
      finished or one of them can make its next step
      ([pool_deadlock_free]).  The states that differ only in the
      monitor's part form an equivalence ([same_work]) that the steps and the
      invariant respect ([pool_step_proper], [pool_run_proper],
      [pool_inv_proper]): a schedule and the same schedule without the
      steps of the monitor and without the cancellation reach equivalent
      states ([monitor_only_reads]).
    - Monitor beside the workers ([Session], [Pget]): on every schedule,
      the walks of the monitor interleaved with the writes in any way, the
      monitor signals completion only when every worker has written its
      whole range without error ([ProgressBar_no_early_completion]), and a
      round that a monitor which is not cancelled makes at once, between two
      walks, signals it exactly when they have
      ([ProgressBar_completion_iff_finished]); the monitor sends no error,
      does not panic, and the values it shows never go down
      ([ProgressBar_monotone_on_schedules], [runDownload_no_crash]): the
      specification's remark that the monitor needs no lock (section 5) is a
      theorem of the model.  Once the context is cancelled the monitor
      shows nothing more ([cancelled_shows]): a cancellation that comes
      before the completion leaves the download waiting for ever, with the
      workspace on disk, unless a worker fails ([runDownload_cancelled]).
      These theorems are for a workspace that is new: on one that holds the
      files of an earlier download the first round signals completion
      ([ProgressBar_stale_workspace]).  They are also for a workspace that
      is there: when a worker has failed, the orchestrator removes it while
      the monitor has not returned, and the next round of the monitor, or
      the next [Lstat] of its walk, cancelled or not, panics
      ([cleanup_beside_monitor]); so does the next round of a monitor that
      polls when the merge is started on the return of the workers alone
      ([merge_needs_monitor_signal]).
    - Download ([Session], [Pget]): when every worker has finished, one more
      round of the monitor completes and the download returns nil with the
      resource in the output and the file system otherwise as it was
      ([runDownload_correct]); whatever the room for the merge and the state
      of the output name, it then returns what the pipeline [Download] with
      sequential workers returns, after the events of the monitor
      ([runDownload_refines_Download]); when a worker fails, the download
      returns its error ([runDownload_abort]).  [session_cases] lists how a download can
      end on any schedule: still waiting; an error, with the file system
      exactly as it was ([runDownload_failure_atomic]); or nil, with the
      output holding the first [free - filesize] bytes of the resource, which
      is all of it exactly when twice [filesize] bytes were free
      ([runDownload_output]).  However it ends, it keeps [capacity]
      ([runDownload_conserves]).

    Each theorem with hypotheses is applied to a concrete job in a lemma
    named after it with the suffix [_witness].

    ** Bounds and fuel

    Integers keep their width: [filesize], [split], [procs] and [i] of
    [MakeRange] and [IsFree] are uint64 and every operation on them is taken
    modulo [2^64]; the sizes of the monitor are int64.  [procs] of
    [BindwithFiles] and the indices of partial files are Go [int]s used only
    as loop bounds and printed with [%d].  The merge loop is structural on the
    list of indices, and the polling loop, which the program leaves only by
    [return], is structural on the list of observations; a run that exhausts
    the list without returning has the status [Running].  A schedule of the
    pool is a finite list and [pool_run] is structural on it; it is [None]
    when a step cannot happen (a worker that starts twice, a write past the
    end of a range, a step of a worker that has returned, a round begun
    while a walk is under way, a visit when no path is left, the end of a
    walk that has paths left), and a download
    whose schedule ends before the workers have returned and the monitor has
    signalled completion is [Blocked].  The theorems on schedules quantify
    over all of them, of any length.  The two loops of [URLFileName] have no
    bound in the source and run on fuel: the first gets
    the number of tokens plus one (it looks at one token per round and fails
    its bounds check after the last), the second the number of entries of the
    file system (the candidates are pairwise different, so at most that many
    exist); [URLFileName_terminates] shows that neither runs out.  The counter
    [i] of these loops is a Go [int]; it stays below those bounds, so its
    wrap-around is not modelled.

    ** Not modelled

    [defer fh.Close()], which has no effect on the model's file system; a
    platform on which a file that is open cannot be removed (there
    [os.Remove] of line 276 fails; the model follows POSIX); the limit on the
    number of open files, which the deferred closes of the loop can reach;
    the 100 ms sleep between rounds (the passage to the next observation);
    the rendering of the progress bar; the proxy reader of line 272, through
    which the bar advances as the bytes of a part are read (the model shows
    one step per part, of the bytes written to the output, which are fewer
    than the bytes read only when the volume is full); the receiver of
    [ch.Done] and [ch.Err] (the sends of lines 226 and 235 block until they
    are received; they are events followed by the [return]); errors of
    [os.Stat] other than that of a missing file (line 144 takes any error
    for a free name; in the model a name that exists can be inspected);
    and, outside [src/]: the goroutines themselves and the memory they share
    (a schedule of [Pool] interleaves steps that are atomic: the creation of a
    partial file, one write of however many bytes, and of the monitor the
    reading of the names below the workspace and the [Lstat] of one entry;
    the file system changes under a walk between those steps, the monitor
    does not see a write half done, the workspace has no sub-directories,
    since the workers make none, and the names are visited in the order of
    the map, not in the lexical order of [filepath.Walk], which no theorem
    depends on); what the workers that have not returned do after the
    orchestrator has removed the workspace on the abort path; a cancellation that reaches the
    workers (the specification leaves it to implementations that want
    stronger guarantees; here it stops the monitor only); other programs
    that write to the volume during the download (the free space changes
    only by what the download writes and removes); more than one volume
    ([freeSpace] asks for the free space of the root volume, and the model
    has the download on that volume); the HTTP transport (a
    range request delivers the bytes of the range, in pieces of any size, or
    fails at any point; a range that ends beyond the resource is answered
    with the bytes there are, [range_bytes]); the command line. *)

From stdpp Require Export base tactics option list list_numbers numbers strings.
From Stdlib Require Export ZArith Lia.
From Stdlib.Strings Require Import Byte Ascii.

#[local] Open Scope Z_scope.

(** ** Go errors and results *)

(** A Go [error] value is modelled by its message. *)
Definition error : Type := string.

(** [(T, error)] results: either the value or the non-nil error. *)
Inductive result (A : Type) : Type :=
| Ok (a : A)
| Err (e : error).
Arguments Ok {A} a.
Arguments Err {A} e.

(** A call that may panic instead of returning. *)
Inductive run (A : Type) : Type :=
| Returns (a : A)
| Panics (why : string).
Arguments Returns {A} a.
Arguments Panics {A} why.

(** [errors.Wrap(err, msg)] of github.com/pkg/errors: the message of the
    wrapped error is [msg ++ ": " ++ err.Error()]. *)
Definition errors_Wrap (err : error) (msg : string) : error :=
  msg +:+ ": " +:+ err.

(** [errors.Errorf(msg)] with no format verbs. *)
Definition errors_Errorf (msg : string) : error := msg.

Definition is_Ok {A} (r : result A) : bool :=
  match r with Ok _ => true | Err _ => false end.

Definition result_bind {A B} (r : result A) (k : A → result B) : result B :=
  match r with
  | Ok a => k a
  | Err e => Err e
  end.

Definition run_bind {A B} (r : run A) (k : A → run B) : run B :=
  match r with
  | Returns a => k a
  | Panics w => Panics w
  end.

Declare Scope pget_scope.
Delimit Scope pget_scope with pget.

(** [let? x := r in k]: [k] on the value of [r], or the error of [r].
    [let! x := r in k]: [k] on what [r] returns, or the panic of [r]. *)
Notation "'let?' x := r 'in' k" := (result_bind r (λ x, k))
  (at level 10, x name, r at level 100, k at level 200) : pget_scope.
Notation "'let!' x := r 'in' k" := (run_bind r (λ x, k))
  (at level 10, x name, r at level 100, k at level 200) : pget_scope.

#[global] Open Scope pget_scope.

(** The escape [\n] of a Go string literal. *)
Definition newline : string := String "010"%char "".

(** File contents are byte strings. *)
Abbreviation byte := Byte.byte.
Abbreviation bytes := (list Byte.byte).

(** The bytes of a string literal, to write file contents down. *)
Definition bytes_of (s : string) : bytes := String.list_byte_of_string s.

(** ** Tactics *)

(** Case analysis on the scrutinee of the first [match] or [if] of the goal,
    keeping the equation. *)
Ltac case_scrut :=
  match goal with
  | |- context [match ?x with _ => _ end] =>
      lazymatch x with
      | context [match _ with _ => _ end] => fail
      | _ => let E := fresh "E" in destruct x eqn:E
      end
  end.

(** Inversion of equations between results. *)
Ltac result_inv :=
  repeat match goal with
  | H : Ok _ = Ok _ |- _ => injection H as H; try subst
  | H : Err _ = Err _ |- _ => injection H as H; try subst
  | H : Returns _ = Returns _ |- _ => injection H as H; try subst
  | H : Ok _ = Err _ |- _ => discriminate H
  | H : Err _ = Ok _ |- _ => discriminate H
  | H : Returns _ = Panics _ |- _ => discriminate H
  | H : Panics _ = Returns _ |- _ => discriminate H
  end.

(** Turns the quotients and remainders of the goal and the hypotheses into
    variables, for [lia] to treat them as atoms. *)
(** Sums over a list of indices. *)
Lemma sum_list_with_le {A} (f g : A → nat) (l : list A) :
  (∀ x, x ∈ l → (f x ≤ g x)%nat) → (sum_list_with f l ≤ sum_list_with g l)%nat.
Proof.
  induction l as [|x l IH]; intros Hle; simpl; [done|].
  pose proof (Hle x ltac:(by left)). pose proof (IH ltac:(intros; apply Hle; by right)).
  lia.
Qed.

Lemma sum_list_with_ext_in {A} (f g : A → nat) (l : list A) :
  (∀ x, x ∈ l → f x = g x) → sum_list_with f l = sum_list_with g l.
Proof.
  induction l as [|x l IH]; intros Heq; simpl; [done|].
  rewrite (Heq x), IH; [done| |by left]. intros; apply Heq; by right.
Qed.

(** One index gets [n] more. *)
Lemma sum_list_with_update {A} (f g : A → nat) (l : list A) (i : A) (n : nat) :
  NoDup l → i ∈ l → g i = (f i + n)%nat → (∀ j, j ≠ i → g j = f j) →
  sum_list_with g l = (sum_list_with f l + n)%nat.
Proof.
  intros Hnd Hi Hgi Hgj. induction Hnd as [|x l Hx Hnd IH]; [by apply elem_of_nil in Hi|].
  simpl. apply elem_of_cons in Hi as [<-|Hi].
  - rewrite Hgi, (sum_list_with_ext_in g f); [lia|].
    intros j Hj. apply Hgj. by intros ->.
  - rewrite IH, Hgj by (done || by intros ->). lia.
Qed.

(** Terms that are nowhere larger and add up to the same are the same. *)
Lemma sum_list_with_eq_le {A} (f g : A → nat) (l : list A) :
  (∀ x, x ∈ l → (f x ≤ g x)%nat) → sum_list_with f l = sum_list_with g l →
  ∀ x, x ∈ l → f x = g x.
Proof.
  induction l as [|y l IH]; intros Hle Hsum x Hx; [by apply elem_of_nil in Hx|].
  simpl in Hsum. pose proof (Hle y ltac:(by left)).
  pose proof (sum_list_with_le f g l ltac:(intros; apply Hle; by right)).
  apply elem_of_cons in Hx as [->|Hx]; [lia|].
  apply IH; [intros; apply Hle; by right|lia|done].
Qed.

Ltac div_atoms :=
  repeat match goal with
  | |- context [Z.div ?a ?b] =>
      let q := fresh "q" in set (q := Z.div a b) in *; clearbody q
  | |- context [Z.modulo ?a ?b] =>
      let r := fresh "r" in set (r := Z.modulo a b) in *; clearbody r
  | H : context [Z.div ?a ?b] |- _ =>
      let q := fresh "q" in set (q := Z.div a b) in *; clearbody q
  | H : context [Z.modulo ?a ?b] |- _ =>
      let r := fresh "r" in set (r := Z.modulo a b) in *; clearbody r
  end.

Create HintDb pget discriminated.
Create Rewrite HintDb pget_rw.

(** ** Generic lemmas *)

Lemma result_bind_Ok {A B} (r : result A) (k : A → result B) b :
  result_bind r k = Ok b ↔ ∃ a, r = Ok a ∧ k a = Ok b.
Proof.
  destruct r; simpl; split; try done; eauto.
  all: intros (?&?&?); by result_inv.
Qed.

Lemma result_bind_Err {A B} (r : result A) (k : A → result B) e :
  result_bind r k = Err e ↔ r = Err e ∨ ∃ a, r = Ok a ∧ k a = Err e.
Proof.
  destruct r; simpl; split.
  - eauto.
  - intros [|(?&?&?)]; by result_inv.
  - intros [= ->]. by left.
  - intros [|(?&?&?)]; by result_inv.
Qed.

Section lists.
Context {A : Type}.
Implicit Types l k : list A.

Lemma concat_snoc (ls : list (list A)) l : concat (ls ++ [l]) = concat ls ++ l.
Proof. by rewrite concat_app; simpl; rewrite app_nil_r. Qed.

Lemma concat_fmap_snoc {B} (f : B → list A) (bs : list B) b :
  concat (f <$> bs ++ [b]) = concat (f <$> bs) ++ f b.
Proof. rewrite fmap_app. apply concat_snoc. Qed.

Lemma length_concat_fmap {B} (f : B → list A) (bs : list B) :
  length (concat (f <$> bs)) = sum_list_with (length ∘ f) bs.
Proof.
  induction bs as [|b bs IH]; csimpl; [done|]. by rewrite length_app, IH.
Qed.

Lemma seqZ_snoc (m n : Z) : 0 ≤ n → seqZ m (n + 1) = seqZ m n ++ [m + n].
Proof.
  intros Hn. rewrite (seqZ_app m n 1) by lia. f_equal.
Qed.

Lemma seqZ_split (k n : Z) :
  0 ≤ k < n → seqZ 0 n = seqZ 0 k ++ k :: seqZ (k + 1) (n - k - 1).
Proof.
  intros Hk. replace n with (k + (1 + (n - k - 1))) at 1 by lia.
  rewrite seqZ_app by lia. f_equal. rewrite seqZ_cons by lia. simpl.
  do 2 f_equal; lia.
Qed.

End lists.

(** ** Strings *)

Section strings.
Implicit Types s t p : string.

(** [+:+] does not unfold under [simpl]; these two equations do it. *)
Lemma string_app_nil_l s : "" +:+ s = s.
Proof. reflexivity. Qed.

Lemma string_app_cons a s t : String a s +:+ t = String a (s +:+ t).
Proof. reflexivity. Qed.

Lemma string_app_length s t :
  String.length (s +:+ t) = (String.length s + String.length t)%nat.
Proof.
  induction s as [|a s IH]; [done|].
  rewrite string_app_cons; simpl. by rewrite IH.
Qed.

Lemma string_app_assoc s t u : (s +:+ t) +:+ u = s +:+ t +:+ u.
Proof.
  induction s as [|a s IH]; [done|]. by rewrite !string_app_cons, IH.
Qed.

Lemma string_app_nil_r s : s +:+ "" = s.
Proof.
  induction s as [|a s IH]; [done|]. by rewrite string_app_cons, IH.
Qed.

Lemma str_prefix_app p s : String.prefix p (p +:+ s) = true.
Proof.
  induction p as [|a p IH]; [by destruct s|].
  rewrite string_app_cons; simpl. by destruct (Ascii.ascii_dec a a).
Qed.

Lemma str_prefix_inv p s : String.prefix p s = true → ∃ t, s = p +:+ t.
Proof.
  revert s. induction p as [|a p IH]; intros s.
  - by exists s.
  - destruct s as [|b s]; simpl; [done|].
    destruct (Ascii.ascii_dec a b) as [->|]; [|done].
    intros [t ->]%IH. by exists t.
Qed.

Lemma str_prefix_iff p s : String.prefix p s = true ↔ ∃ t, s = p +:+ t.
Proof. split; [apply str_prefix_inv | intros [t ->]; apply str_prefix_app]. Qed.

Lemma str_prefix_length p s :
  String.prefix p s = true → (String.length p ≤ String.length s)%nat.
Proof. intros [t ->]%str_prefix_inv. rewrite string_app_length. lia. Qed.

(** A string is not a proper extension of itself. *)
Lemma string_app_ne s t u : t ≠ "" → s ≠ u +:+ t +:+ s.
Proof.
  intros Ht Heq. apply (f_equal String.length) in Heq.
  rewrite !string_app_length in Heq. destruct t; [done|]. simpl in Heq. lia.
Qed.

End strings.

#[export] Hint Rewrite string_app_nil_l string_app_cons string_app_nil_r
  string_app_length : pget_rw.
