(* ===== verification/GoInt.v ===== *)
(** * Go's fixed-width integers

    [uint64], [int64] and [int] (64 bits wide) as [Z] with the wrap-around of
    Go's arithmetic written out, the conversions between them, and the lemmas
    that remove the wrap when the mathematical result is in range. *)

From S2P Require Import Prelude.

#[local] Open Scope Z_scope.

(** ** [uint64] *)

Definition u64_modulus : Z := 2 ^ 64.

(** The values of [uint64]. *)
Definition is_u64 (z : Z) : Prop := 0 ≤ z < u64_modulus.

(** Reduction of a mathematical integer to [uint64]. *)
Definition wrap64 (z : Z) : Z := z mod u64_modulus.

Definition u64_add (a b : Z) : Z := wrap64 (a + b).
Definition u64_sub (a b : Z) : Z := wrap64 (a - b).
Definition u64_mul (a b : Z) : Z := wrap64 (a * b).

(** ** [int64] and [int] *)

Definition i64_min : Z := - 2 ^ 63.
Definition i64_max : Z := 2 ^ 63 - 1.

Definition is_i64 (z : Z) : Prop := i64_min ≤ z ≤ i64_max.

(** Two's complement reduction: the conversion [int64(x)] and the result of
    signed arithmetic. *)
Definition to_int64 (z : Z) : Z := (z + 2 ^ 63) mod u64_modulus - 2 ^ 63.

Definition i64_add (a b : Z) : Z := to_int64 (a + b).

#[global] Instance is_u64_dec z : Decision (is_u64 z).
Proof. unfold is_u64. apply _. Defined.

#[global] Instance is_i64_dec z : Decision (is_i64 z).
Proof. unfold is_i64. apply _. Defined.

(** ** Lemmas *)

Lemma u64_modulus_eq : u64_modulus = 18446744073709551616.
Proof. reflexivity. Qed.

#[global] Opaque u64_modulus.

(** Unfolds the integer operations down to [mod], and states the modulus as a
    number, so that [lia] sees linear goals. *)
Ltac unfold_int :=
  unfold u64_add, u64_sub, u64_mul, wrap64, i64_add, to_int64,
    is_u64, is_i64, i64_min, i64_max in *;
  rewrite ?u64_modulus_eq in *;
  change (2 ^ 63) with 9223372036854775808 in *;
  change (2 ^ 64) with 18446744073709551616 in *.

Ltac solve_int := unfold_int; lia.

Lemma wrap64_is_u64 z : is_u64 (wrap64 z).
Proof. unfold_int. apply Z.mod_pos_bound. lia. Qed.

Lemma wrap64_small z : is_u64 z → wrap64 z = z.
Proof. unfold_int. intros. by apply Z.mod_small. Qed.

Lemma wrap64_idemp z : wrap64 (wrap64 z) = wrap64 z.
Proof. apply wrap64_small, wrap64_is_u64. Qed.

Lemma u64_add_is_u64 a b : is_u64 (u64_add a b).
Proof. apply wrap64_is_u64. Qed.

Lemma u64_sub_is_u64 a b : is_u64 (u64_sub a b).
Proof. apply wrap64_is_u64. Qed.

Lemma u64_mul_is_u64 a b : is_u64 (u64_mul a b).
Proof. apply wrap64_is_u64. Qed.

Lemma u64_add_small a b : is_u64 (a + b) → u64_add a b = a + b.
Proof. apply wrap64_small. Qed.

Lemma u64_sub_small a b : is_u64 (a - b) → u64_sub a b = a - b.
Proof. apply wrap64_small. Qed.

Lemma u64_mul_small a b : is_u64 (a * b) → u64_mul a b = a * b.
Proof. apply wrap64_small. Qed.

(** Subtraction below zero wraps to the top of the range. *)
Lemma u64_sub_underflow a b :
  is_u64 a → is_u64 b → a < b → u64_sub a b = a - b + u64_modulus.
Proof.
  intros Ha Hb Hlt. unfold u64_sub, wrap64.
  rewrite <-(Z.mod_add _ 1) by (rewrite u64_modulus_eq; lia).
  rewrite Z.mul_1_l. apply Z.mod_small. solve_int.
Qed.

(** Addition past the top wraps to the bottom. *)
Lemma u64_add_overflow a b :
  is_u64 a → is_u64 b → u64_modulus ≤ a + b →
  u64_add a b = a + b - u64_modulus.
Proof.
  intros Ha Hb Hge. unfold u64_add, wrap64.
  replace (a + b) with (a + b - u64_modulus + 1 * u64_modulus) at 1 by lia.
  rewrite Z.mod_add by (rewrite u64_modulus_eq; lia).
  apply Z.mod_small. solve_int.
Qed.

Lemma to_int64_is_i64 z : is_i64 (to_int64 z).
Proof.
  unfold_int.
  pose proof (Z.mod_pos_bound (z + 9223372036854775808) 18446744073709551616).
  lia.
Qed.

Lemma to_int64_small z : is_i64 z → to_int64 z = z.
Proof. unfold_int. intros. rewrite Z.mod_small; lia. Qed.

(** [int64(x)] of a [uint64] at or above [2^63] is negative. *)
Lemma to_int64_high z :
  is_u64 z → 2 ^ 63 ≤ z → to_int64 z = z - u64_modulus.
Proof.
  intros Hz Hhi. unfold to_int64.
  replace (z + 2 ^ 63) with (z + 2 ^ 63 - u64_modulus + 1 * u64_modulus) by lia.
  rewrite Z.mod_add by (rewrite u64_modulus_eq; lia).
  rewrite Z.mod_small by solve_int. lia.
Qed.

Lemma i64_add_small a b : is_i64 (a + b) → i64_add a b = a + b.
Proof. apply to_int64_small. Qed.

Lemma i64_add_is_i64 a b : is_i64 (i64_add a b).
Proof. apply to_int64_is_i64. Qed.

#[export] Hint Resolve wrap64_is_u64 u64_add_is_u64 u64_sub_is_u64
  u64_mul_is_u64 to_int64_is_i64 i64_add_is_i64 : pget.
#[export] Hint Rewrite wrap64_idemp : pget_rw.
