(* ===== verification/GoStrings.v ===== *)
(** * Go's [strings] package and slices of strings

    [strings.Split] and [strings.Join] for a separator of one byte, indexing
    and slicing of a [[]string] with the panics of Go's bounds checks, and the
    lemmas that relate splitting, joining and appending. *)

From S2P Require Import Prelude.
From Stdlib.Strings Require Import Ascii.

#[local] Open Scope Z_scope.

(** ** Definitions *)

(** [strings.Split(s, sep)] for a separator [sep] of one byte: the pieces of
    [s] between the occurrences of [sep]; one piece, [s] itself, when [sep]
    does not occur. *)
Fixpoint strings_Split (s : string) (sep : ascii) : list string :=
  match s with
  | "" => [""]
  | String c s' =>
      if decide (c = sep) then "" :: strings_Split s' sep
      else
        match strings_Split s' sep with
        | [] => [String c ""]
        | t :: ts => String c t :: ts
        end
  end.

(** [strings.Join(l, sep)]. *)
Fixpoint strings_Join (l : list string) (sep : string) : string :=
  match l with
  | [] => ""
  | s :: l' =>
      match l' with
      | [] => s
      | _ :: _ => s +:+ sep +:+ strings_Join l' sep
      end
  end.

(** The byte [c] occurs in [s]. *)
Fixpoint has_char (c : ascii) (s : string) : bool :=
  match s with
  | "" => false
  | String a s' => bool_decide (a = c) || has_char c s'
  end.

(** [len(l)], an [int]. *)
Definition len (l : list string) : Z := Z.of_nat (length l).

(** [l[i]]: panics when [i] is out of range. *)
Definition index (l : list string) (i : Z) : run string :=
  if decide (0 ≤ i) then
    match l !! Z.to_nat i with
    | Some s => Returns s
    | None => Panics "index out of range"
    end
  else Panics "index out of range".

(** [l[:j]]: panics when [j] is negative or beyond the slice. *)
Definition slice_to (l : list string) (j : Z) : run (list string) :=
  if decide (0 ≤ j ≤ Z.of_nat (length l)) then Returns (take (Z.to_nat j) l)
  else Panics "slice bounds out of range".

(** ** Splitting and joining *)

Section split.
Context (sep : ascii).
Implicit Types s t : string.
Implicit Types l : list string.

Lemma Split_cons_sep s : strings_Split (String sep s) sep = "" :: strings_Split s sep.
Proof. simpl. by rewrite decide_True. Qed.

Lemma Split_nonempty s : strings_Split s sep ≠ [].
Proof. destruct s as [|c s]; simpl; [done|]. case_decide; [done|]. by case_match. Qed.

Lemma Split_cons_other c s :
  c ≠ sep →
  ∃ t ts, strings_Split s sep = t :: ts ∧ strings_Split (String c s) sep = String c t :: ts.
Proof.
  intros Hc. simpl. rewrite decide_False by done.
  destruct (strings_Split s sep) as [|t ts] eqn:E; [by apply Split_nonempty in E|]. eauto.
Qed.

Lemma Split_length s : (1 ≤ length (strings_Split s sep))%nat.
Proof. pose proof (Split_nonempty s). destruct (strings_Split s sep); simpl; [done|lia]. Qed.

Lemma Join_cons s l : l ≠ [] → strings_Join (s :: l) (String sep "") = s +:+ String sep (strings_Join l (String sep "")).
Proof. destruct l; [done|]. intros _. cbn [strings_Join]. by rewrite string_app_cons, string_app_nil_l. Qed.

Lemma Join_Split s : strings_Join (strings_Split s sep) (String sep "") = s.
Proof.
  induction s as [|c s IH]; [done|].
  destruct (decide (c = sep)) as [->|Hc].
  - rewrite Split_cons_sep, Join_cons by apply Split_nonempty. by rewrite IH.
  - destruct (Split_cons_other c s Hc) as (t & ts & E & ->). rewrite E in IH.
    destruct ts as [|t' ts]; [by simpl in *; subst|].
    rewrite Join_cons in * by done. rewrite string_app_cons. by rewrite IH.
Qed.

Lemma Split_app s t :
  strings_Split (s +:+ String sep t) sep = strings_Split s sep ++ strings_Split t sep.
Proof.
  induction s as [|c s IH].
  - by rewrite string_app_nil_l, Split_cons_sep.
  - rewrite string_app_cons. destruct (decide (c = sep)) as [->|Hc].
    + by rewrite !Split_cons_sep, IH.
    + destruct (Split_cons_other c s Hc) as (u & us & E & ->).
      destruct (Split_cons_other c (s +:+ String sep t) Hc) as (u' & us' & E' & ->).
      rewrite IH, E in E'. by simplify_eq/=.
Qed.

Lemma Split_no_sep s : has_char sep s = false → strings_Split s sep = [s].
Proof.
  induction s as [|c s IH]; [done|]. simpl. intros [Hc Hs]%orb_false_iff.
  apply bool_decide_eq_false in Hc. rewrite decide_False by done. by rewrite IH.
Qed.

Lemma Split_pieces s t : t ∈ strings_Split s sep → has_char sep t = false.
Proof.
  revert t. induction s as [|c s IH]; intros t.
  - simpl. by intros ->%list_elem_of_singleton.
  - destruct (decide (c = sep)) as [->|Hc].
    + rewrite Split_cons_sep. intros [->|?]%elem_of_cons; [done|by apply IH].
    + destruct (Split_cons_other c s Hc) as (u & us & E & ->). rewrite E in IH.
      intros [->|?]%elem_of_cons.
      * simpl. rewrite bool_decide_eq_false_2 by done. apply IH. by left.
      * apply IH. by right.
Qed.

Lemma Split_single s : length (strings_Split s sep) = 1%nat ↔ has_char sep s = false.
Proof.
  split; [|by intros ->%Split_no_sep].
  intros Hlen. pose proof (Join_Split s) as HJ.
  destruct (strings_Split s sep) as [|t [|??]] eqn:E; simplify_eq/=.
  apply (Split_pieces s). rewrite E. by left.
Qed.

Lemma has_char_app_sep s t : has_char sep (s +:+ String sep t) = true.
Proof.
  induction s as [|a s IH]; rewrite ?string_app_nil_l, ?string_app_cons; simpl.
  - by rewrite bool_decide_eq_true_2.
  - rewrite IH. apply orb_true_r.
Qed.

Lemma len_Split_1 s : len (strings_Split s sep) = 1 ↔ has_char sep s = false.
Proof. rewrite <-Split_single. unfold len. lia. Qed.

Lemma len_Split_ge2 s : has_char sep s = true → 2 ≤ len (strings_Split s sep).
Proof.
  intros Hc. pose proof (Split_length s).
  destruct (decide (len (strings_Split s sep) = 1)) as [E|]; [|unfold len in *; lia].
  apply len_Split_1 in E. congruence.
Qed.

End split.

Lemma Join_app_l (hs pre : list string) s :
  hs ≠ [] → strings_Join (hs ++ pre) s = strings_Join (strings_Join hs s :: pre) s.
Proof.
  induction hs as [|h [|h' hs] IH]; [done|done|]. intros _.
  specialize (IH ltac:(done)). cbn [app strings_Join] in *.
  rewrite IH. destruct pre; [done|]. by rewrite !string_app_assoc.
Qed.

(** ** Indexing and slicing *)

(** Equations between lengths of concrete appends. *)
Ltac solve_len :=
  repeat match goal with n := _ |- _ => subst n end;
  unfold len; rewrite ?length_app; simpl; lia.

Section slices.
Implicit Types l pre : list string.

Lemma len_app l k : len (l ++ k) = len l + len k.
Proof. unfold len. rewrite length_app. lia. Qed.

Lemma len_nonneg l : 0 ≤ len l.
Proof. unfold len. lia. Qed.

Lemma index_lookup l (n : nat) s : l !! n = Some s → index l (Z.of_nat n) = Returns s.
Proof. intros Hl. unfold index. rewrite decide_True by lia. by rewrite Nat2Z.id, Hl. Qed.

Lemma index_app_r l k i :
  0 ≤ i → index (l ++ k) (len l + i) = index k i.
Proof.
  intros Hi. unfold index, len. rewrite !decide_True by lia.
  rewrite lookup_app_r by lia.
  by replace (Z.to_nat (Z.of_nat (length l) + i) - length l)%nat with (Z.to_nat i) by lia.
Qed.

Lemma index_negative l i : i < 0 → index l i = Panics "index out of range".
Proof. intros. unfold index. by rewrite decide_False by lia. Qed.

(** [l[len(l)-1-k]] and [l[:len(l)-k]], for [k] elements after the one
    looked at. *)
Lemma index_app_at l k j x :
  j = len l → index (l ++ x :: k) j = Returns x.
Proof.
  intros ->. replace (len l) with (len l + 0) by lia.
  by rewrite index_app_r.
Qed.

Lemma index_app_next l k j x y :
  j = len l + 1 → index (l ++ x :: y :: k) j = Returns y.
Proof. intros ->. by rewrite index_app_r. Qed.

Lemma slice_to_app l k j : j = len (l ++ k) - len k → slice_to (l ++ k) j = Returns l.
Proof.
  intros ->. rewrite len_app. unfold slice_to, len.
  rewrite length_app, decide_True by lia.
  replace (Z.to_nat _) with (length l) by lia. by rewrite take_app_length.
Qed.

Lemma long_not_short l : 2 ≤ len l → l ≠ [] ∧ l ≠ [""].
Proof. destruct l as [|? [|??]]; unfold len; simpl; intros; split; (done || lia). Qed.

End slices.
