(* ===== verification/FileSys.v ===== *)
(** * The file system the program runs on

    [src/util.go] calls [os.Create], [os.Open], [io.Copy], [os.Remove],
    [os.RemoveAll], [os.Stat], [filepath.Walk] and [du.NewDiskUsage(..).Free].
    This file fixes what those calls are assumed to do: a finite map from path
    names to nodes, a counter of free bytes, and one definition per call,
    with its error cases.  The definitions here belong to the environment, not
    to the program: the component files translate the program's code and call
    them.

    Simplifications: a path is the string the program passes (no
    normalisation, no symbolic links, no working directory); a path is below a
    directory when the directory's name followed by ["/"] is a prefix of it;
    parents of a created file are not required to exist; directories have one
    permission bit, consulted when a directory is listed.  Removing a file
    that is open follows POSIX: the name goes at once, the bytes when the file
    is closed. *)

From S2P Require Import Prelude GoInt.
From stdpp Require Import gmap.

#[local] Open Scope Z_scope.

(** ** State *)

Inductive node : Type :=
| File (data : bytes)
| Dir (readable : bool).

#[global] Instance byte_eq_dec : EqDecision byte := Byte.byte_eq_dec.

#[global] Instance node_eq_dec : EqDecision node.
Proof. solve_decision. Defined.

(** [nodes]: what exists, by path.  [free]: bytes that can still be written
    before the volume is full. *)
Record fsys : Type := Fsys {
  nodes : gmap string node;
  free : nat;
}.

(** [os.FileInfo], as far as the program reads it. *)
Record FileInfo : Type := mkFileInfo {
  fi_IsDir : bool;
  fi_Size : Z;
}.

Definition node_len (n : node) : nat :=
  match n with
  | File data => length data
  | Dir _ => 0
  end.

Definition node_info (n : node) : FileInfo :=
  match n with
  | File data => mkFileInfo false (Z.of_nat (length data))
  | Dir _ => mkFileInfo true 0
  end.

(** [is_under dir p]: [p] names something inside directory [dir]. *)
Definition is_under (dir p : string) : bool := String.prefix (dir +:+ "/") p.

(** The part of the tree a recursive operation on [path] touches. *)
Definition in_tree (path : string) (kv : string * node) : Prop :=
  kv.1 = path ∨ is_under path kv.1 = true.

#[global] Instance in_tree_dec path kv : Decision (in_tree path kv).
Proof. unfold in_tree. apply _. Defined.

Definition below (path : string) (kv : string * node) : Prop :=
  is_under path kv.1 = true.

#[global] Instance below_dec path kv : Decision (below path kv).
Proof. unfold below. apply _. Defined.

(** Total length of the files of a map. *)
Definition du (m : gmap string node) : nat :=
  map_fold (λ _ n acc, (node_len n + acc)%nat) 0%nat m.

(** ** Error messages *)

Definition ENOENT (op path : string) : error :=
  op +:+ " " +:+ path +:+ ": no such file or directory".
Definition EISDIR (op path : string) : error :=
  op +:+ " " +:+ path +:+ ": is a directory".
Definition ENOTEMPTY (op path : string) : error :=
  op +:+ " " +:+ path +:+ ": directory not empty".
Definition EACCES (op path : string) : error :=
  op +:+ " " +:+ path +:+ ": permission denied".
Definition ENOSPC (op path : string) : error :=
  op +:+ " " +:+ path +:+ ": no space left on device".
Definition EBADF (op path : string) : error :=
  op +:+ " " +:+ path +:+ ": bad file descriptor".
Definition ENOTDIR (op path : string) : error :=
  op +:+ " " +:+ path +:+ ": not a directory".

(** ** Operations *)

(** [os.Stat(name)]. *)
Definition os_Stat (name : string) (fs : fsys) : result FileInfo :=
  match nodes fs !! name with
  | Some n => Ok (node_info n)
  | None => Err (ENOENT "stat" name)
  end.

(** [os.Create(name)]: creates the file, or truncates it when it exists. The
    handle it returns is the name. *)
Definition os_Create (name : string) (fs : fsys) : result (string * fsys) :=
  match nodes fs !! name with
  | Some (Dir _) => Err (EISDIR "open" name)
  | Some (File old) =>
      Ok (name, Fsys (<[name := File []]> (nodes fs)) (free fs + length old)%nat)
  | None =>
      if decide (name = "") then Err (ENOENT "open" name)
      else Ok (name, Fsys (<[name := File []]> (nodes fs)) (free fs))
  end.

(** [os.Create(name)] will succeed. *)
Definition creatable (name : string) (fs : fsys) : Prop :=
  match nodes fs !! name with
  | Some (Dir _) => False
  | Some (File _) => True
  | None => name ≠ ""
  end.

#[global] Instance creatable_dec name fs : Decision (creatable name fs).
Proof. unfold creatable. repeat case_match; apply _. Defined.

(** Bytes that truncating [name] gives back. *)
Definition old_len (name : string) (fs : fsys) : nat :=
  from_option node_len 0%nat (nodes fs !! name).

(** [os.Open(name)]: succeeds on whatever exists, directories included. *)
Definition os_Open (name : string) (fs : fsys) : result string :=
  match nodes fs !! name with
  | Some _ => Ok name
  | None => Err (ENOENT "open" name)
  end.

(** [io.Copy(dst, src)] on two handles: appends what [src] holds to [dst], as
    far as the free space goes.  Returns the bytes written and the error. *)
Definition io_Copy (dst src : string) (fs : fsys) : fsys * (Z * option error) :=
  match nodes fs !! src with
  | Some (File data) =>
      match nodes fs !! dst with
      | Some (File out) =>
          let n := Nat.min (length data) (free fs) in
          (Fsys (<[dst := File (out ++ take n data)]> (nodes fs)) (free fs - n)%nat,
           (Z.of_nat n,
            if decide (n < length data)%nat then Some (ENOSPC "write" dst)
            else None))
      | _ => (fs, (0, Some (EBADF "write" dst)))
      end
  | Some (Dir _) => (fs, (0, Some (EISDIR "read" src)))
  | None => (fs, (0, Some (EBADF "read" src)))
  end.

(** [f.Write(data)] on the handle of a file: appends [data] as far as the
    free space goes.  Returns the bytes written and the error. *)
Definition file_Write (dst : string) (data : bytes) (fs : fsys)
    : fsys * (Z * option error) :=
  match nodes fs !! dst with
  | Some (File out) =>
      let n := Nat.min (length data) (free fs) in
      (Fsys (<[dst := File (out ++ take n data)]> (nodes fs)) (free fs - n)%nat,
       (Z.of_nat n,
        if decide (n < length data)%nat then Some (ENOSPC "write" dst)
        else None))
  | _ => (fs, (0, Some (EBADF "write" dst)))
  end.

(** [os.MkdirAll(path, perm)]: nothing to do when the directory exists. *)
Definition os_MkdirAll (path : string) (fs : fsys) : result fsys :=
  match nodes fs !! path with
  | Some (Dir _) => Ok fs
  | Some (File _) => Err (ENOTDIR "mkdir" path)
  | None => Ok (Fsys (<[path := Dir true]> (nodes fs)) (free fs))
  end.

(** [os.Remove(name)]: a file, or an empty directory. *)
Definition os_Remove (name : string) (fs : fsys) : result fsys :=
  match nodes fs !! name with
  | None => Err (ENOENT "remove" name)
  | Some (File data) =>
      Ok (Fsys (delete name (nodes fs)) (free fs + length data)%nat)
  | Some (Dir _) =>
      if decide (filter (below name) (nodes fs) = ∅)
      then Ok (Fsys (delete name (nodes fs)) (free fs))
      else Err (ENOTEMPTY "remove" name)
  end.

(** [os.Remove(name)] of a file on which the caller still holds an open
    descriptor: the name goes at once, the bytes stay allocated until the
    descriptor is closed.  Returns the bytes so held. *)
Definition os_Remove_open (name : string) (fs : fsys) : result (fsys * nat) :=
  match nodes fs !! name with
  | None => Err (ENOENT "remove" name)
  | Some (File data) =>
      Ok (Fsys (delete name (nodes fs)) (free fs), length data)
  | Some (Dir _) =>
      if decide (filter (below name) (nodes fs) = ∅)
      then Ok (Fsys (delete name (nodes fs)) (free fs), 0%nat)
      else Err (ENOTEMPTY "remove" name)
  end.

(** [f.Close()] on the descriptors of removed files that hold [held]
    bytes: the bytes are given back. *)
Definition file_Close (held : nat) (fs : fsys) : fsys :=
  Fsys (nodes fs) (free fs + held).

(** [os.RemoveAll(path)]: the node and everything below it; no error when
    nothing is there, nor for the empty path.  A directory that cannot be
    listed and is not empty is an error. *)
Definition os_RemoveAll (path : string) (fs : fsys) : result fsys :=
  if decide (path = "") then Ok fs
  else
    let gone := filter (in_tree path) (nodes fs) in
    match nodes fs !! path with
    | Some (Dir false) =>
        if decide (filter (below path) (nodes fs) = ∅)
        then Ok (Fsys (delete path (nodes fs)) (free fs))
        else Err (EACCES "open" path)
    | _ =>
        Ok (Fsys (filter (λ kv, ¬ in_tree path kv) (nodes fs))
                 (free fs + du gone)%nat)
    end.

(** One call of the function given to [filepath.Walk]: the path, its
    [FileInfo] (nil when [Lstat] failed) and the error met there. *)
Record visit : Type := mkVisit {
  v_path : string;
  v_info : option FileInfo;
  v_err : option error;
}.

Definition visit_of (kv : string * node) : visit :=
  mkVisit kv.1 (Some (node_info kv.2))
    match kv.2 with
    | Dir false => Some (EACCES "open" kv.1)
    | _ => None
    end.

(** [filepath.Walk(root, fn)]: the calls of [fn] it makes as long as [fn]
    returns nil.  A missing root is one call with a nil [FileInfo]. *)
Definition filepath_Walk (root : string) (fs : fsys) : list visit :=
  match nodes fs !! root with
  | None => [mkVisit root None (Some (ENOENT "lstat" root))]
  | Some (File data) => [visit_of (root, File data)]
  | Some (Dir r) =>
      visit_of (root, Dir r) ::
      (visit_of <$> map_to_list (filter (below root) (nodes fs)))
  end.

(** [filepath.Walk] at a path whose name it has read from its directory:
    the call of [fn] after [Lstat], with a nil [FileInfo] when the path is
    no longer there. *)
Definition lstat_visit (fs : fsys) (p : string) : visit :=
  match nodes fs !! p with
  | Some n => visit_of (p, n)
  | None => mkVisit p None (Some (ENOENT "lstat" p))
  end.

(** Nothing exists at [dir] or below it. *)
Definition vacant (dir : string) (fs : fsys) : Prop :=
  filter (in_tree dir) (nodes fs) = ∅.

#[global] Instance vacant_dec dir fs : Decision (vacant dir fs).
Proof. unfold vacant. apply _. Defined.

(** The size of the volume: the bytes free and the bytes of the files. *)
Definition capacity (fs : fsys) : nat := (free fs + du (nodes fs))%nat.

(** [du.NewDiskUsage(volume).Free()]: one volume holds everything. *)
Definition du_Free (volume : string) (fs : fsys) : Z := wrap64 (Z.of_nat (free fs)).

(** ** Paths *)

Lemma is_under_app dir x : is_under dir (dir +:+ "/" +:+ x) = true.
Proof. unfold is_under. rewrite <-string_app_assoc. apply str_prefix_app. Qed.

Lemma is_under_inv dir p : is_under dir p = true → ∃ x, p = dir +:+ "/" +:+ x.
Proof.
  unfold is_under. intros [x ->]%str_prefix_inv. exists x.
  by rewrite string_app_assoc.
Qed.

Lemma is_under_longer dir p :
  is_under dir p = true → (String.length dir < String.length p)%nat.
Proof.
  intros [x ->]%is_under_inv. rewrite !string_app_length. simpl. lia.
Qed.

Lemma is_under_irrefl p : is_under p p = false.
Proof.
  destruct (is_under p p) eqn:E; [|done].
  apply is_under_longer in E. lia.
Qed.

Lemma in_tree_root path n : in_tree path (path, n).
Proof. by left. Qed.

Lemma in_tree_below path kv : below path kv → in_tree path kv.
Proof. by right. Qed.

#[export] Hint Resolve is_under_app in_tree_root in_tree_below : pget.

(** ** What each operation does, case by case *)

(** ** Disk usage *)

Lemma du_empty : du ∅ = 0%nat.
Proof. apply map_fold_empty. Qed.

Lemma du_insert (m : gmap string node) k n :
  m !! k = None → du (<[k := n]> m) = (node_len n + du m)%nat.
Proof.
  intros Hk. unfold du. rewrite map_fold_insert_L; [done| |done].
  intros; lia.
Qed.

Lemma du_singleton k n : du {[k := n]} = node_len n.
Proof. rewrite <-insert_empty, du_insert, du_empty by done. lia. Qed.

Lemma du_fold (m : gmap string node) b :
  map_fold (λ _ n acc, (node_len n + acc)%nat) b m = (du m + b)%nat.
Proof.
  induction m as [|k n m Hk IH] using map_ind.
  - by rewrite du_empty, map_fold_empty.
  - rewrite du_insert, map_fold_insert_L by (done || intros; lia). lia.
Qed.

Lemma du_union (m1 m2 : gmap string node) :
  m1 ##ₘ m2 → du (m1 ∪ m2) = (du m1 + du m2)%nat.
Proof.
  intros Hdisj. unfold du at 1.
  rewrite map_fold_disj_union by (done || intros; lia). apply du_fold.
Qed.

(** A predicate cuts the bytes of a map in two. *)
Lemma du_filter (P : string * node → Prop) `{!∀ kv, Decision (P kv)}
    (m : gmap string node) :
  (du (filter P m) + du (filter (λ kv, ¬ P kv) m))%nat = du m.
Proof.
  rewrite <-du_union by apply map_disjoint_filter_complement.
  by rewrite map_filter_union_complement.
Qed.

Lemma du_delete (m : gmap string node) k n :
  m !! k = Some n → du m = (node_len n + du (delete k m))%nat.
Proof.
  intros Hk. rewrite <-(insert_delete_id m k n) at 1 by done.
  apply du_insert, lookup_delete_eq.
Qed.

Lemma du_insert_Some (m : gmap string node) k n old :
  m !! k = Some old →
  (du (<[k := n]> m) + node_len old)%nat = (node_len n + du m)%nat.
Proof.
  intros Hk. rewrite <-insert_delete_eq, du_insert by apply lookup_delete_eq.
  rewrite (du_delete m k old) by done. lia.
Qed.

(** The bytes of a map whose entries are named by the indices of a list. *)
Lemma du_indexed (name : Z → string) (f : Z → option node) (idx : list Z) :
  ∀ m : gmap string node,
  NoDup idx → (∀ i j, name i = name j → i = j) →
  (∀ i, i ∈ idx → m !! name i = f i) →
  (∀ p, (∀ i, i ∈ idx → p ≠ name i) → m !! p = None) →
  du m = sum_list_with (λ i, from_option node_len 0%nat (f i)) idx.
Proof.
  induction idx as [|i idx IH]; intros m Hnd Hinj Hin Hout; simpl.
  { rewrite (proj2 (map_empty m)); [apply du_empty|].
    intros p. apply Hout. by intros ? ?%elem_of_nil. }
  apply NoDup_cons in Hnd as [Hi Hnd].
  pose proof (Hin i ltac:(by left)) as Hmi.
  rewrite <-(IH (delete (name i) m)); [|done..| |].
  - destruct (f i) as [n|]; simpl.
    + by apply du_delete.
    + by rewrite delete_id.
  - intros j Hj. rewrite lookup_delete_ne by (intros ?%Hinj; by subst).
    apply Hin. by right.
  - intros p Hp. destruct (decide (p = name i)) as [->|Hne].
    + apply lookup_delete_eq.
    + rewrite lookup_delete_ne by done. apply Hout.
      intros j [->|Hj]%elem_of_cons; [done|by apply Hp].
Qed.

Section ops.
Implicit Types (fs : fsys) (m : gmap string node).

Lemma os_Create_new name fs :
  nodes fs !! name = None → name ≠ "" →
  os_Create name fs = Ok (name, Fsys (<[name := File []]> (nodes fs)) (free fs)).
Proof. intros Hn Hne. unfold os_Create. rewrite Hn. by rewrite decide_False. Qed.

Lemma os_Create_trunc name old fs :
  nodes fs !! name = Some (File old) →
  os_Create name fs =
    Ok (name, Fsys (<[name := File []]> (nodes fs)) (free fs + length old)%nat).
Proof. intros Hn. unfold os_Create. by rewrite Hn. Qed.

Lemma os_Create_dir name r fs :
  nodes fs !! name = Some (Dir r) →
  os_Create name fs = Err (EISDIR "open" name).
Proof. intros Hn. unfold os_Create. by rewrite Hn. Qed.

(** [os.Create] succeeds exactly on a name that is free and not empty, or
    that names a file; the handle is the name and the file is then empty. *)
Lemma os_Create_Ok name fs fh fs' :
  os_Create name fs = Ok (fh, fs') →
  fh = name ∧ nodes fs' = <[name := File []]> (nodes fs) ∧
  (free fs ≤ free fs')%nat ∧ nodes fs !! name ≠ Some (Dir true) ∧
  nodes fs !! name ≠ Some (Dir false).
Proof.
  unfold os_Create. repeat case_scrut; intros; result_inv; simpl.
  all: repeat split; try done; lia.
Qed.

Lemma os_Create_creatable name fs :
  creatable name fs →
  os_Create name fs =
    Ok (name, Fsys (<[name := File []]> (nodes fs))
                   (free fs + old_len name fs)%nat).
Proof.
  unfold creatable, old_len, os_Create.
  destruct (nodes fs !! name) as [[old|r]|]; simpl; [done..|].
  intros Hne. rewrite decide_False by done. by rewrite Nat.add_0_r.
Qed.

Lemma os_Create_not_creatable name fs :
  ¬ creatable name fs → ∃ e, os_Create name fs = Err e.
Proof.
  unfold creatable, os_Create.
  destruct (nodes fs !! name) as [[old|r]|]; simpl; [done|eauto|].
  intros Hne. case_decide; [eauto|done].
Qed.

Lemma os_Open_Ok name fs :
  is_Some (nodes fs !! name) → os_Open name fs = Ok name.
Proof. intros [n Hn]. unfold os_Open. by rewrite Hn. Qed.

Lemma os_Open_Err name fs :
  nodes fs !! name = None → os_Open name fs = Err (ENOENT "open" name).
Proof. intros Hn. unfold os_Open. by rewrite Hn. Qed.

(** A copy between two files writes what fits and fails for the rest. *)
Lemma io_Copy_file dst src data out fs :
  nodes fs !! src = Some (File data) →
  nodes fs !! dst = Some (File out) →
  io_Copy dst src fs =
    (Fsys (<[dst := File (out ++ take (free fs) data)]> (nodes fs))
          (free fs - length data)%nat,
     (Z.of_nat (Nat.min (length data) (free fs)),
      if decide (free fs < length data)%nat then Some (ENOSPC "write" dst)
      else None)).
Proof.
  intros Hs Hd. unfold io_Copy. rewrite Hs, Hd.
  destruct (decide (free fs < length data)%nat).
  - rewrite Nat.min_r by lia. rewrite decide_True by lia.
    by replace (free fs - length data)%nat with (free fs - free fs)%nat by lia.
  - rewrite Nat.min_l by lia. rewrite decide_False by lia.
    by rewrite !take_ge by lia.
Qed.

Lemma io_Copy_fits dst src data out fs :
  nodes fs !! src = Some (File data) →
  nodes fs !! dst = Some (File out) →
  (length data ≤ free fs)%nat →
  io_Copy dst src fs =
    (Fsys (<[dst := File (out ++ data)]> (nodes fs)) (free fs - length data)%nat,
     (Z.of_nat (length data), None)).
Proof.
  intros Hs Hd Hfree. unfold io_Copy. rewrite Hs, Hd.
  rewrite Nat.min_l by done. rewrite firstn_all.
  by rewrite decide_False by lia.
Qed.

Lemma io_Copy_short dst src data out fs :
  nodes fs !! src = Some (File data) →
  nodes fs !! dst = Some (File out) →
  (free fs < length data)%nat →
  io_Copy dst src fs =
    (Fsys (<[dst := File (out ++ take (free fs) data)]> (nodes fs)) 0,
     (Z.of_nat (free fs), Some (ENOSPC "write" dst))).
Proof.
  intros Hs Hd Hfree. unfold io_Copy. rewrite Hs, Hd.
  rewrite Nat.min_r by lia. rewrite Nat.sub_diag.
  by rewrite decide_True by lia.
Qed.

Lemma io_Copy_dir dst src r fs :
  nodes fs !! src = Some (Dir r) →
  io_Copy dst src fs = (fs, (0, Some (EISDIR "read" src))).
Proof. intros Hs. unfold io_Copy. by rewrite Hs. Qed.

(** [io.Copy] from a file is one write of what the file holds. *)
Lemma io_Copy_Write dst src data fs :
  nodes fs !! src = Some (File data) →
  io_Copy dst src fs = file_Write dst data fs.
Proof. intros Hs. unfold io_Copy, file_Write. rewrite Hs. by case_match. Qed.

Lemma file_Write_append dst out data fs :
  nodes fs !! dst = Some (File out) → (length data ≤ free fs)%nat →
  file_Write dst data fs =
    (Fsys (<[dst := File (out ++ data)]> (nodes fs)) (free fs - length data)%nat,
     (Z.of_nat (length data), None)).
Proof.
  intros Hd Hfree. unfold file_Write. rewrite Hd, Nat.min_l by done.
  by rewrite firstn_all, decide_False by lia.
Qed.

Lemma file_Write_fits dst data fs :
  nodes fs !! dst = Some (File []) → (length data ≤ free fs)%nat →
  file_Write dst data fs =
    (Fsys (<[dst := File data]> (nodes fs)) (free fs - length data)%nat,
     (Z.of_nat (length data), None)).
Proof.
  intros Hd Hfree. unfold file_Write. rewrite Hd, Nat.min_l by done.
  by rewrite firstn_all, decide_False by lia.
Qed.

Lemma os_MkdirAll_new path fs :
  nodes fs !! path = None →
  os_MkdirAll path fs = Ok (Fsys (<[path := Dir true]> (nodes fs)) (free fs)).
Proof. intros Hp. unfold os_MkdirAll. by rewrite Hp. Qed.

Lemma os_Remove_file name data fs :
  nodes fs !! name = Some (File data) →
  os_Remove name fs =
    Ok (Fsys (delete name (nodes fs)) (free fs + length data)%nat).
Proof. intros Hn. unfold os_Remove. by rewrite Hn. Qed.

Lemma os_Remove_open_file name data fs :
  nodes fs !! name = Some (File data) →
  os_Remove_open name fs =
    Ok (Fsys (delete name (nodes fs)) (free fs), length data).
Proof. intros Hn. unfold os_Remove_open. by rewrite Hn. Qed.

(** Removing a file and closing its descriptor is removing a closed file. *)
Lemma os_Remove_open_Close name fs :
  os_Remove name fs =
  let? r := os_Remove_open name fs in Ok (file_Close r.2 r.1).
Proof.
  unfold os_Remove, os_Remove_open, file_Close.
  destruct (nodes fs !! name) as [[data|r]|]; simpl; [done| |done].
  case_decide; simpl; [|done]. by rewrite Nat.add_0_r.
Qed.

Lemma os_Remove_missing name fs :
  nodes fs !! name = None → os_Remove name fs = Err (ENOENT "remove" name).
Proof. intros Hn. unfold os_Remove. by rewrite Hn. Qed.

Lemma os_Remove_Ok name fs fs' :
  os_Remove name fs = Ok fs' →
  is_Some (nodes fs !! name) ∧ nodes fs' = delete name (nodes fs).
Proof.
  unfold os_Remove. repeat case_scrut; intros; result_inv; eauto.
Qed.

(** What is left of a map once the tree at [path] is gone. *)
Lemma filter_not_in_tree_lookup path m p :
  filter (λ kv, ¬ in_tree path kv) m !! p =
    if decide (p = path ∨ is_under path p = true) then None else m !! p.
Proof.
  rewrite map_lookup_filter. destruct (m !! p) as [n|] eqn:Ep; simpl.
  - rewrite option_guard_decide. unfold in_tree; simpl.
    repeat case_decide; naive_solver.
  - by case_decide.
Qed.

Lemma filter_in_tree_lookup path m p :
  filter (in_tree path) m !! p =
    if decide (p = path ∨ is_under path p = true) then m !! p else None.
Proof.
  rewrite map_lookup_filter. destruct (m !! p) as [n|] eqn:Ep; simpl.
  - rewrite option_guard_decide. unfold in_tree; simpl.
    repeat case_decide; naive_solver.
  - by case_decide.
Qed.

Lemma filter_below_lookup path m p :
  filter (below path) m !! p =
    if decide (is_under path p = true) then m !! p else None.
Proof.
  rewrite map_lookup_filter. destruct (m !! p) as [n|] eqn:Ep; simpl.
  - rewrite option_guard_decide. unfold below; simpl. by repeat case_decide.
  - by case_decide.
Qed.

Lemma delete_childless path m :
  filter (below path) m = ∅ →
  delete path m = filter (λ kv, ¬ in_tree path kv) m.
Proof.
  intros Hempty. apply map_eq; intros p.
  rewrite filter_not_in_tree_lookup. case_decide as Hp.
  - destruct Hp as [->|Hu]; [by rewrite lookup_delete_eq|].
    rewrite lookup_delete_ne by (intros ->; by rewrite is_under_irrefl in Hu).
    destruct (m !! p) eqn:Ep; [|done].
    exfalso. by eapply (map_filter_empty_not_lookup _ _ p).
  - rewrite lookup_delete_ne; [done|]. intros ->. by apply Hp; left.
Qed.

(** After a successful [os.RemoveAll] nothing of the tree is left and the
    rest is untouched. *)
Lemma os_RemoveAll_Ok path fs fs' :
  path ≠ "" → os_RemoveAll path fs = Ok fs' →
  nodes fs' = filter (λ kv, ¬ in_tree path kv) (nodes fs).
Proof.
  intros Hne. unfold os_RemoveAll. rewrite decide_False by done.
  repeat case_scrut; intros; result_inv; simpl; try done.
  by apply delete_childless.
Qed.
Lemma os_RemoveAll_listable path fs :
  path ≠ "" → nodes fs !! path ≠ Some (Dir false) →
  os_RemoveAll path fs =
    Ok (Fsys (filter (λ kv, ¬ in_tree path kv) (nodes fs))
             (free fs + du (filter (in_tree path) (nodes fs)))%nat).
Proof.
  intros Hne Hperm. unfold os_RemoveAll. rewrite decide_False by done.
  by destruct (nodes fs !! path) as [[|[|]]|].
Qed.

Lemma os_RemoveAll_empty_path fs : os_RemoveAll "" fs = Ok fs.
Proof. done. Qed.

Lemma fsys_eta fs : Fsys (nodes fs) (free fs) = fs.
Proof. by destruct fs. Qed.

Lemma vacant_lookup dir fs p :
  vacant dir fs → p = dir ∨ is_under dir p = true → nodes fs !! p = None.
Proof.
  intros Hv Hp. destruct (nodes fs !! p) as [n|] eqn:E; [|done].
  assert (filter (in_tree dir) (nodes fs) !! p = Some n) as Hf
    by by apply map_lookup_filter_Some.
  by rewrite Hv in Hf.
Qed.

(** What [os.RemoveAll] leaves is vacant, and removing again changes
    nothing. *)
Lemma vacant_filter path m f :
  vacant path (Fsys (filter (λ kv, ¬ in_tree path kv) m) f).
Proof.
  apply map_eq. intros p. rewrite filter_in_tree_lookup, lookup_empty. simpl.
  case_decide; [|done]. by rewrite filter_not_in_tree_lookup, decide_True.
Qed.

Lemma os_RemoveAll_vacant path fs fs' :
  path ≠ "" → os_RemoveAll path fs = Ok fs' → vacant path fs'.
Proof.
  intros Hne Hr. pose proof (os_RemoveAll_Ok _ _ _ Hne Hr) as Hn.
  unfold vacant. rewrite Hn. apply (vacant_filter path (nodes fs) 0).
Qed.

Lemma os_RemoveAll_absent path fs : vacant path fs → os_RemoveAll path fs = Ok fs.
Proof.
  intros Hv. unfold os_RemoveAll. case_decide; [done|].
  rewrite (vacant_lookup path fs path) by auto.
  unfold vacant in Hv. rewrite Hv, du_empty, Nat.add_0_r.
  rewrite <-(fsys_eta fs) at 3. do 2 f_equal.
  apply map_eq. intros p. rewrite filter_not_in_tree_lookup. case_decide; [|done].
  symmetry. by apply (vacant_lookup path).
Qed.

End ops.

(** ** The size of the volume

    No operation changes [capacity], but for the bytes a removed file keeps
    while it is open. *)

Section capacity.
Implicit Types (fs : fsys).

Lemma append_capacity dst out data n fs :
  nodes fs !! dst = Some (File out) → (n ≤ free fs)%nat → n = length data →
  capacity (Fsys (<[dst := File (out ++ data)]> (nodes fs)) (free fs - n))
  = capacity fs.
Proof.
  intros Hd Hn ->. unfold capacity; simpl.
  pose proof (du_insert_Some (nodes fs) dst (File (out ++ data)) _ Hd) as Hdu.
  simpl in Hdu. rewrite length_app in Hdu. lia.
Qed.

Lemma os_Create_capacity name fs fh fs' :
  os_Create name fs = Ok (fh, fs') → capacity fs' = capacity fs.
Proof.
  unfold os_Create, capacity.
  destruct (nodes fs !! name) as [[old|r]|] eqn:E; [|done|case_decide; [done|]].
  - pose proof (du_insert_Some (nodes fs) name (File []) _ E).
    intros; result_inv; simpl in *. lia.
  - pose proof (du_insert (nodes fs) name (File []) E).
    intros; result_inv; simpl in *. lia.
Qed.

Lemma file_Write_capacity dst data fs :
  capacity (file_Write dst data fs).1 = capacity fs.
Proof.
  unfold file_Write. destruct (nodes fs !! dst) as [[out|r]|] eqn:E; [|done..].
  simpl. apply append_capacity; [done|lia|]. rewrite length_take. lia.
Qed.

Lemma io_Copy_capacity dst src fs : capacity (io_Copy dst src fs).1 = capacity fs.
Proof.
  unfold io_Copy. destruct (nodes fs !! src) as [[data|r]|]; [|done..].
  destruct (nodes fs !! dst) as [[out|r]|] eqn:E; [|done..].
  simpl. apply append_capacity; [done|lia|]. rewrite length_take. lia.
Qed.

Lemma os_MkdirAll_capacity path fs fs' :
  os_MkdirAll path fs = Ok fs' → capacity fs' = capacity fs.
Proof.
  unfold os_MkdirAll, capacity.
  destruct (nodes fs !! path) as [[old|r]|] eqn:E; intros; result_inv; [done|].
  simpl. by rewrite du_insert.
Qed.

(** A file removed while it is open keeps its bytes. *)
Lemma os_Remove_open_capacity name fs fs' held :
  os_Remove_open name fs = Ok (fs', held) →
  (capacity fs' + held)%nat = capacity fs.
Proof.
  unfold os_Remove_open, capacity.
  destruct (nodes fs !! name) as [[data|r]|] eqn:E; [| |done];
    [|case_decide; [|done]]; intros; result_inv; simpl;
    rewrite (du_delete (nodes fs) name _ E); simpl; lia.
Qed.

Lemma file_Close_capacity held fs :
  capacity (file_Close held fs) = (capacity fs + held)%nat.
Proof. unfold capacity; simpl. lia. Qed.

Lemma os_Remove_capacity name fs fs' :
  os_Remove name fs = Ok fs' → capacity fs' = capacity fs.
Proof.
  unfold os_Remove, capacity.
  destruct (nodes fs !! name) as [[data|r]|] eqn:E; [| |done];
    [|case_decide; [|done]]; intros; result_inv; simpl;
    rewrite (du_delete (nodes fs) name _ E); simpl; lia.
Qed.

Lemma os_RemoveAll_capacity path fs fs' :
  os_RemoveAll path fs = Ok fs' → capacity fs' = capacity fs.
Proof.
  unfold os_RemoveAll, capacity. case_decide; [by intros; result_inv|].
  pose proof (du_filter (in_tree path) (nodes fs)).
  destruct (nodes fs !! path) as [[data|[]]|] eqn:E;
    try (intros; result_inv; simpl; lia).
  case_decide; [|done]. intros; result_inv; simpl.
  rewrite (du_delete (nodes fs) path _ E); simpl; lia.
Qed.

End capacity.
