(* ===== verification/Data.v ===== *)
(** * The download job: [Data], its accessors, ranges and the space check

    Translates [Data] and the methods of [src/util.go] that read or set its
    fields, [SetDirName], [isDos], [freeSpace], [IsFree] and [MakeRange], and
    proves what the ranges of a job cover, that they are the ranges of the
    exact arithmetic, and when the space check is exact. *)

From S2P Require Import Prelude GoInt FileSys.
From stdpp Require Import pretty.

#[local] Open Scope Z_scope.

(** ** Data *)

(** [type Data struct]: [filesize] is a [uint64]. *)
Record Data : Type := mkData {
  filename : string;
  filesize : Z;
  dirname : string;
}.

(** [type Range struct] of the repository's request code, as [MakeRange]
    builds it: three [uint64]. *)
Record Range : Type := mkRange {
  low : Z;
  high : Z;
  worker : Z;
}.

#[global] Instance Data_eq_dec : EqDecision Data.
Proof. solve_decision. Defined.

#[global] Instance Range_eq_dec : EqDecision Range.
Proof. solve_decision. Defined.

(** [runtime.GOOS == "windows"]; [goos] is the value of [runtime.GOOS]. *)
Definition isDos (goos : string) : bool := bool_decide (goos = "windows").

Definition FileName (d : Data) : string := filename d.
Definition FileSize (d : Data) : Z := filesize d.
Definition DirName (d : Data) : string := dirname d.

Definition SetFileSize (d : Data) (size : Z) : Data :=
  mkData (filename d) size (dirname d).

Definition SetFileName (d : Data) (output : string) : Data :=
  mkData output (filesize d) (dirname d).

(** [fmt.Sprintf("%d", n)] for an [int]. *)
Definition fmt_d (n : Z) : string := pretty n.

Definition SetDirName (d : Data) (path filename' : string) (procs : Z) : Data :=
  if decide (path = "") then
    mkData (filename d) (filesize d) ("_" +:+ filename' +:+ "." +:+ fmt_d procs)
  else
    mkData (filename d) (filesize d)
      (path +:+ "/_" +:+ filename' +:+ "." +:+ fmt_d procs).

Definition freeSpace (goos : string) (d : Data) (fs : fsys) : Z :=
  if isDos goos then du_Free "C:\" fs else du_Free "/" fs.

Definition IsFree (goos : string) (d : Data) (split : Z) (fs : fsys) : option error :=
  let want := u64_add (filesize d) split in
  if freeSpace goos d fs <? want
  then Some (errors_Errorf "there is not sufficient free space in a disk")
  else None.

Definition MakeRange (d : Data) (i split procs : Z) : Range :=
  let low := u64_mul split i in
  let high := u64_sub (u64_add low split) 1 in
  let high := if decide (i = u64_sub procs 1) then FileSize d else high in
  mkRange low high i.

(** The ranges of a job: the repository's download loop calls [MakeRange] for
    [i] from [0] to [procs - 1] with [split = filesize / procs]. *)
Definition ranges (d : Data) (procs : Z) : list Range :=
  (λ i, MakeRange d i (filesize d / procs) procs) <$> seqZ 0 procs.

(** The range of worker [i] as the specification writes it, on unbounded
    integers: [split] bytes from [split * i], and up to [size] for the last
    worker. *)
Definition range_spec (size procs i : Z) : Range :=
  let split := size / procs in
  mkRange (split * i)
    (if decide (i = procs - 1) then size else split * (i + 1) - 1) i.

(** The bytes of a resource a range asks for, as a server answers the request
    for the offsets [low .. high]: what lies beyond the end is left out. *)
Definition range_bytes (content : bytes) (r : Range) : bytes :=
  take (Z.to_nat (high r + 1 - low r)) (drop (Z.to_nat (low r)) content).

(** A byte offset is requested by a range. *)
Definition in_range (b : Z) (r : Range) : Prop := low r ≤ b ≤ high r.

#[global] Instance in_range_dec b r : Decision (in_range b r).
Proof. unfold in_range. apply _. Defined.

(** Well-formed job: the size is a [uint64]. *)
Definition Data_wf (d : Data) : Prop := is_u64 (filesize d).

(** Well-formed range: its three fields are [uint64]. *)
Definition Range_wf (r : Range) : Prop :=
  is_u64 (low r) ∧ is_u64 (high r) ∧ is_u64 (worker r).

#[global] Instance Range_wf_dec r : Decision (Range_wf r).
Proof. unfold Range_wf, is_u64. apply _. Defined.

(** The output and the workspace do not overlap. *)
Definition separate (d : Data) : Prop :=
  dirname d ≠ "" ∧ filename d ≠ dirname d ∧
  is_under (dirname d) (filename d) = false.

#[global] Instance separate_dec d : Decision (separate d).
Proof. unfold separate. apply _. Defined.

(** ** What the program shows and signals

    Lines printed with [fmt.Println], calls on the progress bar of
    [gopkg.in/cheggaaa/pb.v1], and sends on the two channels of [Ch]. *)
Inductive event : Type :=
| Println (line : string)
| BarStart (total : Z)
| BarSet (value : Z)
| BarAdd (n : Z)
| BarFinish
| SendDone
| SendErr (e : error).

#[global] Instance event_eq_dec : EqDecision event.
Proof. solve_decision. Defined.

(** ** A small job, to evaluate the theorems on: 1000 bytes, 4 workers *)
Definition ex_job : Data := mkData "file" 1000 "_file.4".

(** ** Ranges *)

(** Whatever its arguments, [MakeRange] fills the range with [uint64]s:
    [low] and [high] are reduced modulo [2^64], [high] of the last worker is
    the size and [worker] is the index given. *)
Lemma MakeRange_wf d i split procs :
  Data_wf d → is_u64 i → Range_wf (MakeRange d i split procs).
Proof.
  intros Hd Hi. unfold MakeRange, Range_wf; simpl.
  split_and!; [apply u64_mul_is_u64| |done].
  case_decide; [done|apply u64_sub_is_u64].
Qed.

Section job.
Context (d : Data) (procs : Z).
Hypothesis Hwf : Data_wf d.
Hypothesis Hprocs : 0 < procs ≤ filesize d.

Let split := filesize d / procs.

Lemma split_bounds :
  1 ≤ split ∧ split * procs ≤ filesize d < split * procs + procs.
Proof using Hprocs.
  subst split. pose proof (Z.div_mod (filesize d) procs ltac:(lia)).
  pose proof (Z.mod_pos_bound (filesize d) procs ltac:(lia)).
  split; [apply Z.div_le_lower_bound; lia | nia].
Qed.

(** A worker before the last gets [split] bytes, with no wrap-around. *)
Lemma MakeRange_inner i :
  0 ≤ i < procs - 1 →
  MakeRange d i split procs = mkRange (split * i) (split * (i + 1) - 1) i.
Proof using Hwf Hprocs.
  intros Hi. pose proof split_bounds as [? ?]. unfold Data_wf in Hwf.
  unfold MakeRange.
  rewrite u64_mul_small by (unfold_int; nia).
  rewrite u64_add_small by (unfold_int; nia).
  rewrite !u64_sub_small by (unfold_int; nia).
  rewrite decide_False by lia. f_equal. lia.
Qed.

(** The last worker's range ends at [filesize]. *)
Lemma MakeRange_last :
  MakeRange d (procs - 1) split procs =
    mkRange (split * (procs - 1)) (filesize d) (procs - 1).
Proof using Hwf Hprocs.
  pose proof split_bounds as [? ?]. unfold Data_wf in Hwf. unfold MakeRange.
  rewrite u64_mul_small by (unfold_int; nia).
  rewrite (u64_sub_small procs) by (unfold_int; nia).
  by rewrite decide_True by lia.
Qed.

Lemma elem_of_ranges r :
  r ∈ ranges d procs ↔ ∃ i, 0 ≤ i < procs ∧ r = MakeRange d i split procs.
Proof.
  unfold ranges. rewrite list_elem_of_fmap. setoid_rewrite elem_of_seqZ.
  naive_solver lia.
Qed.

Lemma ranges_cover b :
  0 ≤ b ≤ filesize d → ∃ r, r ∈ ranges d procs ∧ in_range b r.
Proof using Hwf Hprocs.
  intros Hb. pose proof split_bounds as [? ?].
  destruct (decide (b < split * (procs - 1))) as [Hlt|Hge].
  - exists (MakeRange d (b / split) split procs).
    assert (0 ≤ b / split < procs - 1).
    { split; [apply Z.div_pos; lia | apply Z.div_lt_upper_bound; lia]. }
    split; [apply elem_of_ranges; exists (b / split); split; [lia|done]|].
    rewrite MakeRange_inner by done. unfold in_range; simpl.
    pose proof (Z.div_mod b split ltac:(lia)).
    pose proof (Z.mod_pos_bound b split ltac:(lia)). nia.
  - exists (MakeRange d (procs - 1) split procs).
    split; [apply elem_of_ranges; exists (procs - 1); split; [lia|done]|].
    rewrite MakeRange_last. unfold in_range; simpl. lia.
Qed.

Lemma ranges_disjoint b r1 r2 :
  r1 ∈ ranges d procs → r2 ∈ ranges d procs →
  in_range b r1 → in_range b r2 → r1 = r2.
Proof using Hwf Hprocs.
  pose proof split_bounds as [? ?].
  intros (i & Hi & ->)%elem_of_ranges (j & Hj & ->)%elem_of_ranges.
  destruct (decide (i = procs - 1)) as [->|];
    destruct (decide (j = procs - 1)) as [->|]; try done.
  all: rewrite ?MakeRange_last, ?MakeRange_inner by lia.
  all: unfold in_range; simpl; intros.
  all: try (exfalso; nia).
  assert (i = j) by nia. by subst.
Qed.

(** In this regime [MakeRange] computes the specification's range. *)
Lemma MakeRange_spec i :
  0 ≤ i < procs → MakeRange d i split procs = range_spec (filesize d) procs i.
Proof using Hwf Hprocs.
  intros Hi. unfold range_spec. fold split. case_decide as Hlast.
  - subst i. apply MakeRange_last.
  - rewrite MakeRange_inner by lia. done.
Qed.

(** The list of the ranges, as the specification writes them. *)
Lemma ranges_spec :
  ranges d procs = range_spec (filesize d) procs <$> seqZ 0 procs.
Proof using Hwf Hprocs.
  unfold ranges. apply list_fmap_ext.
  intros _ i [??]%list_elem_of_lookup_2%elem_of_seqZ.
  rewrite <-MakeRange_spec by lia. done.
Qed.

(** The pieces of the workers before [k], in order, are the first
    [split * k] bytes. *)
Lemma range_bytes_prefix content (k : nat) :
  Z.of_nat k ≤ procs - 1 →
  concat (range_bytes content ∘ range_spec (filesize d) procs <$> seqZ 0 (Z.of_nat k))
  = take (Z.to_nat (split * Z.of_nat k)) content.
Proof using Hprocs.
  pose proof split_bounds as [? ?].
  induction k as [|k IH]; intros Hk; [by rewrite Z.mul_0_r|].
  rewrite Nat2Z.inj_succ, <-Z.add_1_r, seqZ_snoc, concat_fmap_snoc, IH by lia. unfold compose, range_bytes, range_spec; fold split; simpl.
  rewrite decide_False by lia. rewrite take_take_drop. f_equal. nia.
Qed.

Lemma range_bytes_last content :
  Z.of_nat (length content) = filesize d →
  range_bytes content (range_spec (filesize d) procs (procs - 1))
  = drop (Z.to_nat (split * (procs - 1))) content.
Proof using Hprocs.
  intros Hlen. pose proof split_bounds as [? ?].
  unfold range_bytes, range_spec; fold split; simpl.
  rewrite decide_True by done. apply take_ge. rewrite length_drop. nia.
Qed.

Lemma range_spec_reassemble content :
  Z.of_nat (length content) = filesize d →
  concat (range_bytes content ∘ range_spec (filesize d) procs <$> seqZ 0 procs)
  = content.
Proof using Hprocs.
  intros Hlen. replace procs with (Z.of_nat (Z.to_nat (procs - 1)) + 1) at 2 by lia.
  rewrite seqZ_snoc, concat_fmap_snoc, range_bytes_prefix by lia.
  rewrite Z.add_0_l, Z2Nat.id by lia. unfold compose.
  rewrite range_bytes_last by done. apply take_drop.
Qed.

(** C8: range coverage.  For a job of [procs] workers on a file of at least
    [procs] bytes, every offset from [0] to [filesize] is requested by exactly
    one of the ranges [MakeRange] computes for the workers [0 .. procs-1] with
    [split = filesize / procs]: the ranges leave no gap and do not overlap. *)
Theorem ranges_partition b :
  0 ≤ b ≤ filesize d →
  ∃ r, (r ∈ ranges d procs ∧ in_range b r) ∧
       ∀ r', r' ∈ ranges d procs ∧ in_range b r' → r' = r.
Proof using Hwf Hprocs.
  intros (r & Hr & Hb)%ranges_cover. exists r. split; [done|].
  intros r' [Hr' Hb']. by eapply ranges_disjoint.
Qed.

(** No range asks for an offset outside [0 .. filesize], and the last
    range ends at [filesize] itself, one past the last byte of the file (the
    boundary the specification documents). *)
Theorem ranges_within r :
  r ∈ ranges d procs →
  0 ≤ low r ∧ low r ≤ high r ∧ high r ≤ filesize d ∧
  (worker r = procs - 1 → high r = filesize d).
Proof using Hwf Hprocs.
  pose proof split_bounds as [? ?].
  intros (i & Hi & ->)%elem_of_ranges.
  destruct (decide (i = procs - 1)) as [->|].
  - rewrite MakeRange_last; simpl. repeat split; nia.
  - rewrite MakeRange_inner by lia; simpl. repeat split; nia.
Qed.

(** Consecutive ranges are contiguous: the range of worker [i + 1] starts
    at the offset after the end of the range of worker [i], and the first
    range starts at offset 0. *)
Theorem ranges_contiguous i :
  0 ≤ i < procs - 1 →
  low (MakeRange d (i + 1) split procs) = high (MakeRange d i split procs) + 1 ∧
  low (MakeRange d 0 split procs) = 0.
Proof using Hwf Hprocs.
  intros Hi. pose proof split_bounds as [? ?]. unfold Data_wf in Hwf. split.
  - rewrite (MakeRange_inner i) by done. unfold MakeRange; simpl.
    rewrite u64_mul_small by (unfold_int; nia). lia.
  - unfold MakeRange, u64_mul; simpl. by rewrite Z.mul_0_r.
Qed.

(** C4: the ranges reassemble the file.  For a resource of [filesize]
    bytes, the bytes the workers [0 .. procs-1] are sent for their ranges,
    appended in the order of the workers, are the resource: no byte is
    missing, repeated or out of place. *)
Theorem ranges_reassemble content :
  Z.of_nat (length content) = filesize d →
  concat (range_bytes content <$> ranges d procs) = content.
Proof using Hwf Hprocs.
  intros Hlen. rewrite <-(range_spec_reassemble content Hlen) at 2.
  by rewrite ranges_spec, <-list_fmap_compose.
Qed.

(** C26: the machine arithmetic agrees with the exact one.  For
    [0 < procs <= filesize < 2^64] the ranges [MakeRange] computes in
    [uint64], with wrap-around, for the workers [0 .. procs-1] are the ranges
    of the specification computed on unbounded integers ([range_spec]), and
    every field of them is a [uint64]. *)
Theorem ranges_exact :
  ranges d procs = range_spec (filesize d) procs <$> seqZ 0 procs ∧
  Forall Range_wf (ranges d procs).
Proof using Hwf Hprocs.
  split; [apply ranges_spec|]. unfold ranges. apply Forall_fmap, Forall_forall.
  intros i [??]%elem_of_seqZ. apply MakeRange_wf; [done|].
  unfold Data_wf in Hwf. unfold_int. lia.
Qed.

End job.

(** With [split = 0] (a file shorter than the number of workers) the
    upper bound of every range but the last wraps around: [low + split - 1]
    is [2^64 - 1], so each of those workers asks for the whole file from
    offset 0. *)
Theorem MakeRange_zero_split d i procs :
  i ≠ u64_sub procs 1 →
  MakeRange d i 0 procs = mkRange 0 (u64_modulus - 1) i.
Proof.
  intros Hi. unfold MakeRange. rewrite decide_False by done. by f_equal.
Qed.

(** [MakeRange] is well typed.  For a job whose size is a [uint64] and an
    index that is one, and whatever [split] and [procs] are, the three fields
    of the range [MakeRange] returns are [uint64]: the products and sums are
    reduced modulo [2^64], never out of range. *)
Theorem MakeRange_typed d i split procs :
  Data_wf d → is_u64 i → Range_wf (MakeRange d i split procs).
Proof. apply MakeRange_wf. Qed.

(** ** The space check *)

Lemma freeSpace_eq goos d fs :
  is_u64 (Z.of_nat (free fs)) → freeSpace goos d fs = Z.of_nat (free fs).
Proof.
  intros Hf. unfold freeSpace, du_Free. rewrite wrap64_small by done.
  by destruct (isDos goos).
Qed.

Lemma IsFree_error goos d split fs err :
  IsFree goos d split fs = Some err →
  err = "there is not sufficient free space in a disk".
Proof. unfold IsFree. case_match; [by intros [= <-]|done]. Qed.

(** The check compares the free space with [filesize + split]. *)
Lemma IsFree_iff goos d split fs :
  is_u64 (Z.of_nat (free fs)) → is_u64 (filesize d + split) →
  IsFree goos d split fs = None ↔ filesize d + split ≤ Z.of_nat (free fs).
Proof.
  intros Hf Hsum. unfold IsFree. rewrite freeSpace_eq by done.
  rewrite u64_add_small by done. case_match; split; try done; lia.
Qed.

(** C9: admission control.  When [filesize + split] does not overflow,
    [IsFree] returns nil exactly when the volume has at least
    [filesize + split] bytes free, on either platform. *)
Theorem IsFree_exact goos d split fs :
  is_u64 (Z.of_nat (free fs)) → is_u64 (filesize d + split) →
  IsFree goos d split fs = None ↔ filesize d + split ≤ Z.of_nat (free fs).
Proof. apply IsFree_iff. Qed.

(** With less free space than [filesize + split], [IsFree] returns the
    error "there is not sufficient free space in a disk". *)
Theorem IsFree_refuses goos d split fs :
  is_u64 (Z.of_nat (free fs)) → is_u64 (filesize d + split) →
  Z.of_nat (free fs) < filesize d + split →
  IsFree goos d split fs = Some "there is not sufficient free space in a disk".
Proof.
  intros Hf Hsum Hlt. unfold IsFree. rewrite freeSpace_eq by done.
  rewrite u64_add_small by done. case_match; [done|lia].
Qed.

(** C38: when [filesize + split] exceeds [2^64 - 1] the sum wraps, and
    [IsFree] compares the free space with the wrapped value: it accepts as
    soon as [filesize + split - 2^64] bytes are free. *)
Theorem IsFree_wraps goos d split fs :
  is_u64 (Z.of_nat (free fs)) → is_u64 (filesize d) → is_u64 split →
  u64_modulus ≤ filesize d + split →
  IsFree goos d split fs = None ↔
  filesize d + split - u64_modulus ≤ Z.of_nat (free fs).
Proof.
  intros Hf Hd Hs Hsum. unfold IsFree. rewrite freeSpace_eq by done.
  rewrite u64_add_overflow by done. case_match; split; try done; lia.
Qed.

(** ** The workspace name *)

Lemma SetDirName_filename d path fn procs :
  filename (SetDirName d path fn procs) = filename d.
Proof. unfold SetDirName. by case_decide. Qed.

Lemma SetDirName_longer d path procs :
  (String.length (filename d) <
   String.length (dirname (SetDirName d path (filename d) procs)))%nat.
Proof.
  unfold SetDirName. case_decide; simpl; rewrite !string_app_length; simpl; lia.
Qed.

(** The workspace named after the output is apart from it. *)
Lemma SetDirName_apart d path procs :
  separate (SetDirName d path (filename d) procs).
Proof.
  pose proof (SetDirName_longer d path procs) as Hlen.
  unfold separate. rewrite SetDirName_filename. split_and!.
  - intros E. rewrite E in Hlen. simpl in Hlen. lia.
  - intros E. rewrite <-E in Hlen. lia.
  - destruct (is_under _ _) eqn:E; [|done]. apply is_under_longer in E. lia.
Qed.

(** The workspace directory [SetDirName] names for a job's own file name
    is not empty, differs from the output's name and does not contain the
    output: removing the workspace cannot remove the merged file. *)
Theorem SetDirName_separate d path procs :
  separate (SetDirName d path (filename d) procs).
Proof. apply SetDirName_apart. Qed.

(** ** Witnesses *)

Lemma ex_job_wf : Data_wf ex_job.
Proof. by vm_compute. Qed.

Lemma ranges_partition_witness :
  ∃ r, (r ∈ ranges ex_job 4 ∧ in_range 500 r) ∧
       ∀ r', r' ∈ ranges ex_job 4 ∧ in_range 500 r' → r' = r.
Proof. apply (ranges_partition ex_job 4 ex_job_wf); simpl; lia. Defined.

Lemma ranges_reassemble_witness :
  concat (range_bytes (bytes_of "0123456789") <$> ranges (mkData "f" 10 "_f.3") 3)
  = bytes_of "0123456789".
Proof. by apply (ranges_reassemble (mkData "f" 10 "_f.3") 3). Defined.

Lemma ranges_within_witness :
  0 ≤ low (mkRange 750 1000 3) ∧ low (mkRange 750 1000 3) ≤ high (mkRange 750 1000 3) ∧
  high (mkRange 750 1000 3) ≤ filesize ex_job ∧
  (worker (mkRange 750 1000 3) = 4 - 1 → high (mkRange 750 1000 3) = filesize ex_job).
Proof.
  apply (ranges_within ex_job 4 ex_job_wf); [simpl; lia|].
  vm_compute. do 3 right. left.
Defined.

Lemma ranges_contiguous_witness :
  low (MakeRange ex_job (1 + 1) (filesize ex_job / 4) 4) =
    high (MakeRange ex_job 1 (filesize ex_job / 4) 4) + 1 ∧
  low (MakeRange ex_job 0 (filesize ex_job / 4) 4) = 0.
Proof. apply (ranges_contiguous ex_job 4 ex_job_wf); simpl; lia. Defined.

Lemma ranges_exact_witness :
  ranges ex_job 4 = range_spec 1000 4 <$> seqZ 0 4 ∧
  Forall Range_wf (ranges ex_job 4).
Proof. apply (ranges_exact ex_job 4 ex_job_wf); simpl; lia. Defined.

Lemma MakeRange_typed_witness :
  Range_wf (MakeRange ex_job (2 ^ 64 - 1) (2 ^ 63) 4).
Proof. apply MakeRange_typed; [apply ex_job_wf|by vm_compute]. Defined.

Lemma MakeRange_zero_split_witness :
  MakeRange (mkData "file" 3 "_file.4") 1 0 4 = mkRange 0 (u64_modulus - 1) 1.
Proof. apply MakeRange_zero_split. by vm_compute. Defined.

Lemma IsFree_exact_witness :
  IsFree "linux" ex_job 250 (Fsys ∅ 1250) = None ↔ filesize ex_job + 250 ≤ Z.of_nat 1250.
Proof. apply (IsFree_exact "linux" ex_job 250 (Fsys ∅ 1250)); by vm_compute. Defined.

Lemma IsFree_refuses_witness :
  IsFree "windows" ex_job 250 (Fsys ∅ 1249) =
    Some "there is not sufficient free space in a disk".
Proof. apply (IsFree_refuses "windows" ex_job 250 (Fsys ∅ 1249)); by vm_compute. Defined.

Lemma IsFree_wraps_witness :
  IsFree "linux" (mkData "file" (u64_modulus - 1) "_file.4") 2 (Fsys ∅ 1) = None ↔
  (u64_modulus - 1) + 2 - u64_modulus ≤ Z.of_nat 1.
Proof.
  apply (IsFree_wraps "linux" (mkData "file" (u64_modulus - 1) "_file.4") 2 (Fsys ∅ 1));
    rewrite ?u64_modulus_eq; by vm_compute.
Defined.
