(* ===== verification/Merge.v ===== *)
(** * Merge: [BindwithFiles]

    Translates [BindwithFiles] of [src/util.go]: the output file is created,
    the partial files are appended to it in ascending index order, each one is
    removed after its copy, and the workspace directory is removed at the
    end.  The partial files are closed by deferred calls, when the function
    returns: until then a removed partial file keeps its bytes. *)

From S2P Require Import Prelude GoInt FileSys Data.
From stdpp Require Import gmap pretty.

#[local] Open Scope Z_scope.

(** [fmt.Sprintf("%s/%s.%d.%d", dirname, filename, procs, i)]. *)
Definition part_name (d : Data) (procs i : Z) : string :=
  dirname d +:+ "/" +:+ filename d +:+ "." +:+ fmt_d procs +:+ "." +:+ fmt_d i.

(** What a call leaves behind: the file system, what was shown, and the
    error it returns ([None] is [nil]). *)
Definition outcome : Type := fsys * list event * option error.

(** What the loop leaves behind: the second component counts the bytes of
    the partial files removed so far.  Each of them is removed while [subfp]
    is open, and [defer subfp.Close()] closes it only when [BindwithFiles]
    returns: until then its bytes are not given back. *)
Definition merging : Type := fsys * nat * list event * option error.

(** One iteration of the loop, for index [i]; [fh] is the output's handle.
    What [io.Copy] returns is dropped, as in the source. *)
Definition bind_one (d : Data) (procs : Z) (fh : string) (i : Z) (fs : fsys)
    : merging :=
  let f := part_name d procs i in
  match os_Open f fs with
  | Err err =>
      (fs, 0%nat, [],
       Some (errors_Wrap err ("failed to open " +:+ f +:+ " in download location")))
  | Ok subfp =>
      let '(fs1, (n, _)) := io_Copy fh subfp fs in
      match os_Remove_open f fs1 with
      | Err err =>
          (fs1, 0%nat, [BarAdd n],
           Some (errors_Wrap err "failed to remove a file in download location"))
      | Ok (fs2, held) => (fs2, held, [BarAdd n], None)
      end
  end.

(** The loop [for i := 0; i < procs; i++], over the indices it visits; it
    stops at the first error. *)
Fixpoint bind_loop (d : Data) (procs : Z) (fh : string) (idx : list Z) (fs : fsys)
    : merging :=
  match idx with
  | [] => (fs, 0%nat, [], None)
  | i :: idx' =>
      match bind_one d procs fh i fs with
      | (fs1, held, out, Some err) => (fs1, held, out, Some err)
      | (fs1, held, out, None) =>
          let '(fs2, held', out', e) := bind_loop d procs fh idx' fs1 in
          (fs2, (held + held')%nat, out ++ out', e)
      end
  end.

(** The deferred [Close] calls run at each [return] after the loop has
    started: [file_Close] gives back the bytes of the removed partial files. *)
Definition BindwithFiles (d : Data) (procs : Z) (fs : fsys) : outcome :=
  let hello := [Println (newline +:+ "binding with files...")] in
  match os_Create (filename d) fs with
  | Err err =>
      (fs, hello,
       Some (errors_Wrap err "failed to create a file in download location"))
  | Ok (fh, fs1) =>
      let bar := [BarStart (to_int64 (filesize d))] in
      match bind_loop d procs fh (seqZ 0 procs) fs1 with
      | (fs2, held, out, Some err) =>
          (file_Close held fs2, hello ++ bar ++ out, Some err)
      | (fs2, held, out, None) =>
          match os_RemoveAll (dirname d) fs2 with
          | Err err =>
              (file_Close held fs2, hello ++ bar ++ out ++ [BarFinish],
               Some (errors_Wrap err "failed to remove download location"))
          | Ok fs3 =>
              (file_Close held fs3,
               hello ++ bar ++ out ++ [BarFinish; Println "Complete"], None)
          end
      end
  end.

Definition fs_of (o : outcome) : fsys := o.1.1.
Definition events_of (o : outcome) : list event := o.1.2.
Definition err_of (o : outcome) : option error := o.2.

(** ** Specification *)

(** The partial files are given by their contents, [pd i] for index [i].
    With [free] bytes left on the volume, the copy of a part writes what
    fits; removing the part does not give its bytes back before the end. *)
Fixpoint copied (pd : Z → bytes) (idx : list Z) (free : nat) : bytes :=
  match idx with
  | [] => []
  | i :: idx' => take free (pd i) ++ copied pd idx' (free - length (pd i))
  end.

Fixpoint bar_adds (pd : Z → bytes) (idx : list Z) (free : nat) : list event :=
  match idx with
  | [] => []
  | i :: idx' =>
      BarAdd (Z.of_nat (Nat.min (length (pd i)) free))
        :: bar_adds pd idx' (free - length (pd i))
  end.

(** The bytes of the partial files [idx] together. *)
Definition parts_total (pd : Z → bytes) (idx : list Z) : nat :=
  sum_list_with (length ∘ pd) idx.

(** The bytes of the remote file, reassembled: the parts in ascending order. *)
Definition merged (pd : Z → bytes) (procs : Z) : bytes :=
  concat (pd <$> seqZ 0 procs).

(** The map without the partial files of the indices [idx]. *)
Definition drop_parts (d : Data) (procs : Z) (idx : list Z)
    (m : gmap string node) : gmap string node :=
  foldr (λ i, delete (part_name d procs i)) m idx.

(** Every partial file of the job is a file, with the contents [pd] gives. *)
Definition parts_are_files (d : Data) (procs : Z) (pd : Z → bytes) (fs : fsys)
    : Prop :=
  ∀ i, 0 ≤ i < procs → nodes fs !! part_name d procs i = Some (File (pd i)).

(** What [BindwithFiles] shows before the first copy. *)
Definition hello (d : Data) : list event :=
  [Println (newline +:+ "binding with files...");
   BarStart (to_int64 (filesize d))].

(** ** Lemmas *)

Lemma parts_total_cons pd i idx :
  parts_total pd (i :: idx) = (length (pd i) + parts_total pd idx)%nat.
Proof. reflexivity. Qed.

Lemma parts_total_concat pd idx :
  parts_total pd idx = length (concat (pd <$> idx)).
Proof. symmetry. apply length_concat_fmap. Qed.

(** The copies write as much of the parts, in order, as there is room for. *)
Lemma copied_take pd idx free :
  copied pd idx free = take free (concat (pd <$> idx)).
Proof.
  revert free. induction idx as [|i idx IH]; intros free; csimpl.
  - by rewrite take_nil.
  - by rewrite take_app, IH.
Qed.

(** When the parts fit together, every copy is complete. *)
Lemma copied_fits pd idx free :
  (parts_total pd idx ≤ free)%nat → copied pd idx free = concat (pd <$> idx).
Proof.
  revert free. induction idx as [|i idx IH]; intros free Hfit; csimpl; [done|].
  rewrite parts_total_cons in Hfit.
  rewrite take_ge, IH by lia. done.
Qed.

Lemma bar_adds_fits pd idx free :
  (parts_total pd idx ≤ free)%nat →
  bar_adds pd idx free = (λ i, BarAdd (Z.of_nat (length (pd i)))) <$> idx.
Proof.
  revert free. induction idx as [|i idx IH]; intros free Hfit; csimpl; [done|].
  rewrite parts_total_cons in Hfit.
  rewrite Nat.min_l, IH by lia. done.
Qed.

(** What is written is what fits of the whole. *)
Lemma copied_length pd idx free :
  length (copied pd idx free) = Nat.min free (parts_total pd idx).
Proof.
  revert free. induction idx as [|i idx IH]; intros free; [simpl; lia|].
  cbn [copied]. rewrite parts_total_cons, length_app, length_take, IH. lia.
Qed.

Lemma foldr_delete_comm {A} (f : A → string) (m : gmap string node) k l :
  foldr (λ i, delete (f i)) (delete k m) l =
  delete k (foldr (λ i, delete (f i)) m l).
Proof.
  induction l as [|a l IH]; simpl; [done|]. by rewrite IH, delete_delete.
Qed.

Section merge.
Context (d : Data) (procs : Z).
Implicit Types (fs : fsys) (i j : Z) (pd : Z → bytes) (idx : list Z).
Implicit Types (m : gmap string node).

Lemma part_name_inj i j : part_name d procs i = part_name d procs j → i = j.
Proof.
  unfold part_name, fmt_d. intros H.
  repeat apply String.app_inj in H. by apply pretty_Z_inj in H.
Qed.

Lemma part_name_under i : is_under (dirname d) (part_name d procs i) = true.
Proof. apply is_under_app. Qed.

Lemma part_name_ne_filename i : filename d ≠ part_name d procs i.
Proof.
  intros H. apply (f_equal String.length) in H. unfold part_name in H.
  rewrite !string_app_length in H. simpl in H. lia.
Qed.

Lemma part_name_nonempty i : part_name d procs i ≠ "".
Proof.
  intros E%(f_equal String.length). unfold part_name in E.
  rewrite !string_app_length in E. simpl in E. lia.
Qed.

Lemma part_name_ne_dirname i : dirname d ≠ part_name d procs i.
Proof.
  intros E. pose proof (part_name_under i) as Hu.
  rewrite <-E in Hu. by rewrite is_under_irrefl in Hu.
Qed.

Lemma drop_parts_lookup_ne idx m p :
  (∀ i, i ∈ idx → p ≠ part_name d procs i) →
  drop_parts d procs idx m !! p = m !! p.
Proof.
  induction idx as [|i idx IH]; intros Hp; simpl; [done|].
  rewrite lookup_delete_ne by (symmetry; apply Hp; left).
  apply IH. intros j Hj. apply Hp. by right.
Qed.

Lemma drop_parts_lookup idx m i :
  i ∈ idx → drop_parts d procs idx m !! part_name d procs i = None.
Proof.
  induction idx as [|j idx IH]; [by intros ?%elem_of_nil|]; simpl.
  destruct (decide (i = j)) as [->|Hne]; [by rewrite lookup_delete_eq|].
  intros [?|Hi]%elem_of_cons; [done|].
  rewrite lookup_delete_ne by (intros ?%part_name_inj; done). by apply IH.
Qed.

Lemma filter_drop_parts idx m :
  filter (λ kv, ¬ in_tree (dirname d) kv) (drop_parts d procs idx m) =
  filter (λ kv, ¬ in_tree (dirname d) kv) m.
Proof.
  induction idx as [|i idx IH]; simpl; [done|].
  rewrite map_filter_delete_not; [done|].
  intros y _ Hnot. apply Hnot. right. apply part_name_under.
Qed.

(** One iteration on a part that is a file. *)
Lemma bind_one_file fh i fs data out :
  nodes fs !! part_name d procs i = Some (File data) →
  nodes fs !! fh = Some (File out) →
  fh ≠ part_name d procs i →
  bind_one d procs fh i fs =
    (Fsys (delete (part_name d procs i)
             (<[fh := File (out ++ take (free fs) data)]> (nodes fs)))
          (free fs - length data),
     length data,
     [BarAdd (Z.of_nat (Nat.min (length data) (free fs)))], None).
Proof.
  intros Hp Hfh Hne. unfold bind_one.
  rewrite os_Open_Ok by eauto.
  rewrite (io_Copy_file _ _ data out) by done.
  by erewrite os_Remove_open_file by (simpl; by rewrite lookup_insert_ne).
Qed.

Lemma bind_one_missing fh i fs :
  nodes fs !! part_name d procs i = None →
  bind_one d procs fh i fs =
    (fs, 0%nat, [],
     Some (errors_Wrap (ENOENT "open" (part_name d procs i))
       ("failed to open " +:+ part_name d procs i +:+ " in download location"))).
Proof. intros Hp. unfold bind_one. by rewrite os_Open_Err. Qed.

(** One iteration on a part that is a directory with something in it: the
    copy fails, which is dropped, and the removal fails, which is not. *)
Lemma bind_one_directory fh i fs r :
  nodes fs !! part_name d procs i = Some (Dir r) →
  filter (below (part_name d procs i)) (nodes fs) ≠ ∅ →
  bind_one d procs fh i fs =
    (fs, 0%nat, [BarAdd 0],
     Some (errors_Wrap (ENOTEMPTY "remove" (part_name d procs i))
       "failed to remove a file in download location")).
Proof.
  intros Hp Hin. unfold bind_one, io_Copy, os_Remove_open.
  rewrite os_Open_Ok by eauto. rewrite Hp. cbn [nodes]. rewrite Hp.
  by rewrite decide_False.
Qed.

(** The loop over parts that are files: no error, whatever the space. *)
Lemma bind_loop_files fh pd idx : ∀ fs out,
  NoDup idx →
  (∀ i, i ∈ idx → nodes fs !! part_name d procs i = Some (File (pd i))) →
  nodes fs !! fh = Some (File out) →
  (∀ i, i ∈ idx → fh ≠ part_name d procs i) →
  bind_loop d procs fh idx fs =
    (Fsys (drop_parts d procs idx
             (<[fh := File (out ++ copied pd idx (free fs))]> (nodes fs)))
          (free fs - parts_total pd idx),
     parts_total pd idx, bar_adds pd idx (free fs), None).
Proof.
  induction idx as [|i idx IH]; intros fs out Hnd Hparts Hfh Hne.
  { simpl. rewrite app_nil_r, Nat.sub_0_r. rewrite insert_id by done.
    by destruct fs. }
  apply NoDup_cons in Hnd as [Hi Hnd]. cbn [bind_loop copied bar_adds].
  rewrite (bind_one_file fh i fs (pd i) out)
    by first [done | apply Hparts; by left | apply Hne; by left].
  rewrite (IH _ (out ++ take (free fs) (pd i))); cbn [nodes free]; try done.
  - unfold drop_parts. cbn [foldr app]. rewrite <-foldr_delete_comm, <-app_assoc.
    rewrite parts_total_cons. f_equal. f_equal. f_equal. f_equal; [|lia].
    rewrite <-(delete_insert_ne _ (part_name d procs i) fh)
      by (symmetry; apply Hne; left).
    by rewrite insert_insert_eq.
  - intros j Hj. rewrite lookup_delete_ne by (intros ?%part_name_inj; set_solver).
    rewrite lookup_insert_ne by (apply Hne; by right). apply Hparts; by right.
  - rewrite lookup_delete_ne by (symmetry; apply Hne; left).
    by rewrite lookup_insert_eq.
  - intros j Hj. apply Hne; by right.
Qed.

(** The loop on [idx1 ++ idx2] runs [idx1], then [idx2] unless [idx1] failed. *)
Lemma bind_loop_app fh idx1 idx2 fs :
  bind_loop d procs fh (idx1 ++ idx2) fs =
    match bind_loop d procs fh idx1 fs with
    | (fs1, held, out, Some err) => (fs1, held, out, Some err)
    | (fs1, held, out, None) =>
        let '(fs2, held', out', e) := bind_loop d procs fh idx2 fs1 in
        (fs2, (held + held')%nat, out ++ out', e)
    end.
Proof.
  revert fs. induction idx1 as [|i idx1 IH]; intros fs; simpl.
  { by destruct (bind_loop _ _ _ idx2 fs) as [[[? ?] ?] ?]. }
  destruct (bind_one d procs fh i fs) as [[[fs1 h1] out] [err|]]; [done|].
  rewrite IH.
  destruct (bind_loop _ _ _ idx1 fs1) as [[[fs2 h2] out2] [err|]]; [done|].
  destruct (bind_loop _ _ _ idx2 fs2) as [[[fs3 h3] out3] e].
  by rewrite app_assoc, Nat.add_assoc.
Qed.

(** The whole call on a workspace whose parts are files: the exact outcome. *)
Lemma BindwithFiles_files pd fs :
  separate d → creatable (filename d) fs →
  nodes fs !! dirname d ≠ Some (Dir false) →
  parts_are_files d procs pd fs →
  let space := (free fs + old_len (filename d) fs)%nat in
  let m := <[filename d := File (copied pd (seqZ 0 procs) space)]> (nodes fs) in
  BindwithFiles d procs fs =
    (Fsys (filter (λ kv, ¬ in_tree (dirname d) kv) m)
          (space - parts_total pd (seqZ 0 procs) +
           du (filter (in_tree (dirname d)) (drop_parts d procs (seqZ 0 procs) m)) +
           parts_total pd (seqZ 0 procs)),
     hello d ++ bar_adds pd (seqZ 0 procs) space
       ++ [BarFinish; Println "Complete"],
     None).
Proof.
  intros (Hdir & Hfd & Hunder) Hcreate Hperm Hparts space m. subst m.
  unfold BindwithFiles. rewrite os_Create_creatable by done.
  rewrite (bind_loop_files (filename d) pd _ _ []); simpl.
  - rewrite insert_insert_eq, os_RemoveAll_listable; simpl; [|done|].
    + by rewrite filter_drop_parts.
    + rewrite drop_parts_lookup_ne by (intros; apply part_name_ne_dirname).
      by rewrite lookup_insert_ne.
  - apply NoDup_seqZ.
  - intros i Hi%elem_of_seqZ.
    rewrite lookup_insert_ne by apply part_name_ne_filename. apply Hparts. lia.
  - by rewrite lookup_insert_eq.
  - intros i _. apply part_name_ne_filename.
Qed.

(** The file system once the parts [0 .. k-1] are merged. *)
Definition merged_to pd (k : Z) fs : fsys :=
  let space := (free fs + old_len (filename d) fs)%nat in
  Fsys (drop_parts d procs (seqZ 0 k)
          (<[filename d := File (copied pd (seqZ 0 k) space)]> (nodes fs)))
       (space - parts_total pd (seqZ 0 k)).

Lemma merged_to_lookup pd k fs p :
  p ≠ filename d → (∀ i, 0 ≤ i < k → p ≠ part_name d procs i) →
  nodes (merged_to pd k fs) !! p = nodes fs !! p.
Proof.
  intros Hout Hp. unfold merged_to. cbn [nodes].
  rewrite drop_parts_lookup_ne by (intros i [??]%elem_of_seqZ; apply Hp; lia).
  by rewrite lookup_insert_ne.
Qed.

(** The merge stops at the first part on which an iteration fails: the
    output keeps the parts before it, which are removed, and the deferred
    closes give their bytes back. *)
Lemma BindwithFiles_stops pd fs k evs err :
  creatable (filename d) fs → 0 ≤ k < procs →
  (∀ i, 0 ≤ i < k → nodes fs !! part_name d procs i = Some (File (pd i))) →
  bind_one d procs (filename d) k (merged_to pd k fs)
  = (merged_to pd k fs, 0%nat, evs, Some err) →
  BindwithFiles d procs fs =
    (file_Close (parts_total pd (seqZ 0 k)) (merged_to pd k fs),
     hello d ++ bar_adds pd (seqZ 0 k) (free fs + old_len (filename d) fs) ++ evs,
     Some err).
Proof.
  intros Hcreate Hk Hparts Hone.
  unfold BindwithFiles. rewrite os_Create_creatable by done.
  rewrite (seqZ_split k) by done. rewrite bind_loop_app.
  rewrite (bind_loop_files (filename d) pd _ _ []); simpl.
  - rewrite insert_insert_eq. fold (merged_to pd k fs). rewrite Hone. simpl.
    by rewrite Nat.add_0_r.
  - apply NoDup_seqZ.
  - intros i Hi%elem_of_seqZ.
    rewrite lookup_insert_ne by apply part_name_ne_filename. apply Hparts. lia.
  - by rewrite lookup_insert_eq.
  - intros i _. apply part_name_ne_filename.
Qed.

(** The output is outside the tree that is removed. *)
Lemma lookup_output_kept (m : gmap string node) n :
  separate d →
  filter (λ kv, ¬ in_tree (dirname d) kv) (<[filename d := n]> m) !! filename d
  = Some n.
Proof.
  intros (Hdir & Hfd & Hunder).
  rewrite filter_not_in_tree_lookup, decide_False, lookup_insert_eq; [done|].
  intros [?|?]; congruence.
Qed.

(** *** The size of the volume *)

(** An iteration keeps the size of the volume, counting what it holds. *)
Lemma bind_one_capacity fh i fs :
  (capacity (bind_one d procs fh i fs).1.1.1 + (bind_one d procs fh i fs).1.1.2)%nat
  = capacity fs.
Proof.
  unfold bind_one. destruct (os_Open _ fs) as [subfp|err0]; simpl; [|lia].
  pose proof (io_Copy_capacity fh subfp fs) as Hcopy.
  destruct (io_Copy fh subfp fs) as [fs1 [n e]]; simpl in Hcopy.
  destruct (os_Remove_open _ fs1) as [[fs2 held]|err] eqn:E; simpl; [|lia].
  apply os_Remove_open_capacity in E. lia.
Qed.

Lemma bind_loop_capacity fh idx : ∀ fs,
  (capacity (bind_loop d procs fh idx fs).1.1.1
   + (bind_loop d procs fh idx fs).1.1.2)%nat = capacity fs.
Proof.
  induction idx as [|i idx IH]; intros fs; cbn [bind_loop]; [simpl; lia|].
  pose proof (bind_one_capacity fh i fs) as H1.
  destruct (bind_one d procs fh i fs) as [[[fs1 held] out] [err|]]; [done|].
  pose proof (IH fs1) as H2.
  destruct (bind_loop d procs fh idx fs1) as [[[fs2 held'] out'] e].
  simpl in *. lia.
Qed.

(** Whatever it returns, [BindwithFiles] has closed what it opened. *)
Lemma BindwithFiles_capacity fs :
  capacity (BindwithFiles d procs fs).1.1 = capacity fs.
Proof.
  unfold BindwithFiles.
  destruct (os_Create _ fs) as [[fh fs1]|err] eqn:Hc; [|done].
  apply os_Create_capacity in Hc.
  pose proof (bind_loop_capacity fh (seqZ 0 procs) fs1) as Hl.
  destruct (bind_loop d procs fh (seqZ 0 procs) fs1) as [[[fs2 held] out] [err|]];
    simpl in Hl; [simpl; rewrite file_Close_capacity; lia|].
  destruct (os_RemoveAll _ fs2) as [fs3|err] eqn:Hr; simpl;
    rewrite file_Close_capacity; [|lia].
  apply os_RemoveAll_capacity in Hr. lia.
Qed.

(** After a nil return the workspace is gone. *)
Lemma BindwithFiles_vacant fs :
  dirname d ≠ "" → (BindwithFiles d procs fs).2 = None →
  vacant (dirname d) (BindwithFiles d procs fs).1.1.
Proof.
  intros Hne. unfold BindwithFiles.
  destruct (os_Create _ fs) as [[fh fs1]|err]; [|done].
  destruct (bind_loop d procs fh (seqZ 0 procs) fs1) as [[[fs2 held] out] [err|]];
    [done|].
  destruct (os_RemoveAll _ fs2) as [fs3|err] eqn:Hr; [|done]. intros _.
  unfold vacant; simpl. by apply (os_RemoveAll_vacant _ fs2).
Qed.

End merge.

(** ** A small job, to evaluate the theorems on

    Three parts holding "A", "B" and "C" (written to the workspace in the
    order 1, 0, 2), another file beside them, ten bytes free. *)
Definition ex_d : Data := mkData "f" 3 "_f.3".

Definition ex_pd (i : Z) : bytes :=
  if decide (i = 0) then bytes_of "A"
  else if decide (i = 1) then bytes_of "B"
  else if decide (i = 2) then bytes_of "C"
  else [].

Definition ex_nodes : gmap string node :=
  list_to_map
    [("_f.3", Dir true);
     ("_f.3/f.3.1", File (bytes_of "B"));
     ("_f.3/f.3.0", File (bytes_of "A"));
     ("_f.3/f.3.2", File (bytes_of "C"));
     ("other", File (bytes_of "x"))].

Definition ex_fs : fsys := Fsys ex_nodes 10.

(** The same job on a volume with two bytes free: one less than the merge
    writes. *)
Definition ex_fs_tight : fsys := Fsys ex_nodes 2.

(** The same job whose part 1 is missing. *)
Definition ex_fs_gap : fsys := Fsys (delete "_f.3/f.3.1" ex_nodes) 10.

(** The same job when the name of part 1 is that of a directory with a file
    in it. *)
Definition ex_fs_partdir : fsys :=
  Fsys (<["_f.3/f.3.1/x" := File (bytes_of "x")]>
          (<["_f.3/f.3.1" := Dir true]> ex_nodes)) 10.

(** The same job when the workspace cannot be listed and holds another
    file. *)
Definition ex_fs_locked : fsys :=
  Fsys (<["_f.3/.DS_Store" := File (bytes_of "x")]>
          (<["_f.3" := Dir false]> ex_nodes)) 10.

(** The same job when the output's name is taken by a directory. *)
Definition ex_fs_dir : fsys := Fsys (<["f" := Dir true]> ex_nodes) 10.

Lemma ex_parts_are_files free : parts_are_files ex_d 3 ex_pd (Fsys ex_nodes free).
Proof.
  intros i Hi.
  assert (i = 0 ∨ i = 1 ∨ i = 2) as [->|[->| ->]] by lia; by vm_compute.
Qed.

(** ** Theorems *)

Section merge_thms.
Context (d : Data) (procs : Z).
Implicit Types (fs : fsys) (i j k : Z) (pd : Z → bytes).

(** [BindwithFiles] on a workspace whose partial files all exist, whatever
    the free space: it returns nil, the output holds what the copies could
    write ([copied]: every part in ascending index order, each cut to the
    space left at its turn), everything at and below the workspace directory is
    gone, nothing else changed, and the console shows the greeting, one
    progress step per part and "Complete". *)
Theorem BindwithFiles_run pd fs :
  separate d → creatable (filename d) fs →
  nodes fs !! dirname d ≠ Some (Dir false) →
  parts_are_files d procs pd fs →
  let space := (free fs + old_len (filename d) fs)%nat in
  let o := BindwithFiles d procs fs in
  err_of o = None ∧
  nodes (fs_of o) =
    filter (λ kv, ¬ in_tree (dirname d) kv)
      (<[filename d := File (copied pd (seqZ 0 procs) space)]> (nodes fs)) ∧
  events_of o =
    hello d ++ bar_adds pd (seqZ 0 procs) space
      ++ [BarFinish; Println "Complete"].
Proof.
  intros Hsep Hcreate Hperm Hparts space o. subst o.
  by rewrite (BindwithFiles_files d procs pd fs).
Qed.

(** C3: merge correctness.  When every partial file exists and the free
    space holds them all once more (a removed partial file stays open, and
    allocated, until the function returns), [BindwithFiles] returns nil and
    leaves the output file holding the parts concatenated in ascending index
    order ([merged]); the workspace directory and everything below it no
    longer exist; every other path is as before. *)
Theorem BindwithFiles_merges pd fs :
  separate d → creatable (filename d) fs →
  nodes fs !! dirname d ≠ Some (Dir false) →
  parts_are_files d procs pd fs →
  (parts_total pd (seqZ 0 procs) ≤ free fs + old_len (filename d) fs)%nat →
  let fs' := fs_of (BindwithFiles d procs fs) in
  err_of (BindwithFiles d procs fs) = None ∧
  nodes fs' !! filename d = Some (File (merged pd procs)) ∧
  (∀ p, p = dirname d ∨ is_under (dirname d) p = true → nodes fs' !! p = None) ∧
  (∀ p, p ≠ filename d → p ≠ dirname d → is_under (dirname d) p = false →
        nodes fs' !! p = nodes fs !! p).
Proof.
  intros Hsep Hcreate Hperm Hparts Hfit fs'. subst fs'.
  rewrite (BindwithFiles_files d procs pd fs) by done. unfold fs_of; simpl.
  rewrite copied_fits by done.
  split_and!; [done|by apply lookup_output_kept| |];
    destruct Hsep as (Hdir & Hfd & Hunder).
  - intros p Hp. by rewrite filter_not_in_tree_lookup, decide_True.
  - intros p Hpf Hpd Hpu. rewrite filter_not_in_tree_lookup, decide_False.
    + by rewrite lookup_insert_ne.
    + intros [?|?]; congruence.
Qed.

(** C21: a copy that runs out of space is not reported.  When the partial
    files together are longer than the free space, [BindwithFiles] still
    returns nil, and the output it leaves is a proper prefix of the
    reassembled file: the result of [io.Copy] is dropped at line 273 of
    util.go. *)
Theorem BindwithFiles_silent_truncation pd fs :
  separate d → creatable (filename d) fs →
  nodes fs !! dirname d ≠ Some (Dir false) →
  parts_are_files d procs pd fs →
  let space := (free fs + old_len (filename d) fs)%nat in
  (space < parts_total pd (seqZ 0 procs))%nat →
  err_of (BindwithFiles d procs fs) = None ∧
  nodes (fs_of (BindwithFiles d procs fs)) !! filename d
    = Some (File (take space (merged pd procs))) ∧
  (space < length (merged pd procs))%nat.
Proof.
  intros Hsep Hcreate Hperm Hparts space Hlong.
  rewrite (BindwithFiles_files d procs pd fs) by done. unfold fs_of; simpl.
  rewrite lookup_output_kept, copied_take by done.
  split_and!; [done..|]. unfold merged. by rewrite <-parts_total_concat.
Qed.

(** When the output cannot be created (its name is a directory, or
    empty), [BindwithFiles] returns the error of [os.Create] wrapped with
    "failed to create a file in download location", after printing the
    greeting only, and the file system is unchanged. *)
Theorem BindwithFiles_create_error fs :
  ¬ creatable (filename d) fs →
  ∃ e, os_Create (filename d) fs = Err e ∧
  BindwithFiles d procs fs =
    (fs, [Println (newline +:+ "binding with files...")],
     Some (errors_Wrap e "failed to create a file in download location")).
Proof.
  intros [e He]%os_Create_not_creatable. exists e. split; [done|].
  unfold BindwithFiles. by rewrite He.
Qed.

(** C28: a missing partial file aborts the merge.  When parts [0 .. k-1] exist
    and part [k] does not, [BindwithFiles] returns "failed to open <name> in
    download location" wrapping the error of [os.Open]; the output keeps the
    parts copied so far, those parts are removed, the workspace directory is
    not, and "Complete" is not printed. *)
Theorem BindwithFiles_missing_part pd fs k :
  creatable (filename d) fs →
  0 ≤ k < procs →
  (∀ i, 0 ≤ i < k → nodes fs !! part_name d procs i = Some (File (pd i))) →
  nodes fs !! part_name d procs k = None →
  let space := (free fs + old_len (filename d) fs)%nat in
  BindwithFiles d procs fs =
    (Fsys (drop_parts d procs (seqZ 0 k)
             (<[filename d := File (copied pd (seqZ 0 k) space)]> (nodes fs)))
          (space - parts_total pd (seqZ 0 k) + parts_total pd (seqZ 0 k)),
     hello d ++ bar_adds pd (seqZ 0 k) space,
     Some (errors_Wrap (ENOENT "open" (part_name d procs k))
       ("failed to open " +:+ part_name d procs k +:+ " in download location"))).
Proof.
  intros Hcreate Hk Hparts Hmiss space.
  erewrite (BindwithFiles_stops d procs pd fs k []); [|done..|].
  - by rewrite app_nil_r.
  - apply bind_one_missing. rewrite merged_to_lookup; [done|..].
    + symmetry. apply part_name_ne_filename.
    + intros i Hi ?%part_name_inj. lia.
Qed.

(** C29: a partial file that is a directory.  When parts [0 .. k-1] exist and
    the name of part [k] is that of a directory with something in it,
    [os.Open] succeeds, the copy fails and its error is dropped, and
    [os.Remove] fails: [BindwithFiles] returns "failed to remove a file in
    download location"; the output keeps the parts copied so far, the
    workspace stays, and "Complete" is not printed. *)
Theorem BindwithFiles_remove_error pd fs k r q n :
  creatable (filename d) fs → 0 ≤ k < procs →
  (∀ i, 0 ≤ i < k → nodes fs !! part_name d procs i = Some (File (pd i))) →
  nodes fs !! part_name d procs k = Some (Dir r) →
  nodes fs !! q = Some n → is_under (part_name d procs k) q = true →
  q ≠ filename d → (∀ i, 0 ≤ i < k → q ≠ part_name d procs i) →
  BindwithFiles d procs fs =
    (file_Close (parts_total pd (seqZ 0 k)) (merged_to d procs pd k fs),
     hello d ++ bar_adds pd (seqZ 0 k) (free fs + old_len (filename d) fs)
       ++ [BarAdd 0],
     Some (errors_Wrap (ENOTEMPTY "remove" (part_name d procs k))
       "failed to remove a file in download location")).
Proof.
  intros Hcreate Hk Hparts Hdir Hq Hunder Hout Hne.
  apply BindwithFiles_stops; [done..|].
  apply (bind_one_directory d procs _ k _ r).
  - rewrite merged_to_lookup; [done|..].
    + symmetry. apply part_name_ne_filename.
    + intros i Hi ?%part_name_inj. lia.
  - intros Hempty.
    assert (filter (below (part_name d procs k)) (nodes (merged_to d procs pd k fs))
              !! q = Some n) as Hin
      by (apply map_lookup_filter_Some; split; [by rewrite merged_to_lookup|done]).
    by rewrite Hempty in Hin.
Qed.

(** A workspace that cannot be emptied.  When every partial file exists
    and the workspace directory cannot be listed and holds something else,
    the loop merges and removes the parts, [os.RemoveAll] fails and
    [BindwithFiles] returns "failed to remove download location": the output
    is written, the workspace stays, and "Complete" is not printed. *)
Theorem BindwithFiles_removeall_error pd fs q n :
  separate d → creatable (filename d) fs →
  nodes fs !! dirname d = Some (Dir false) →
  parts_are_files d procs pd fs →
  nodes fs !! q = Some n → is_under (dirname d) q = true →
  q ≠ filename d → (∀ i, 0 ≤ i < procs → q ≠ part_name d procs i) →
  BindwithFiles d procs fs =
    (file_Close (parts_total pd (seqZ 0 procs)) (merged_to d procs pd procs fs),
     hello d ++ bar_adds pd (seqZ 0 procs) (free fs + old_len (filename d) fs)
       ++ [BarFinish],
     Some (errors_Wrap (EACCES "open" (dirname d))
       "failed to remove download location")).
Proof.
  intros (Hdir & Hfd & _) Hcreate Hlocked Hparts Hq Hunder Hout Hne.
  unfold BindwithFiles. rewrite os_Create_creatable by done.
  rewrite (bind_loop_files d procs (filename d) pd _ _ []); simpl.
  - rewrite insert_insert_eq. fold (merged_to d procs pd procs fs).
    unfold os_RemoveAll. rewrite decide_False by done.
    rewrite merged_to_lookup, Hlocked;
      [|done|intros; apply part_name_ne_dirname].
    rewrite decide_False; [done|]. intros Hempty.
    assert (filter (below (dirname d)) (nodes (merged_to d procs pd procs fs))
              !! q = Some n) as Hin
      by (apply map_lookup_filter_Some; split; [by rewrite merged_to_lookup|done]).
    by rewrite Hempty in Hin.
  - apply NoDup_seqZ.
  - intros i Hi%elem_of_seqZ.
    rewrite lookup_insert_ne by apply part_name_ne_filename. apply Hparts. lia.
  - by rewrite lookup_insert_eq.
  - intros i _. apply part_name_ne_filename.
Qed.

(** The partial files of a job have pairwise distinct names: the names
    of two different worker indices differ, so no copy or removal of the loop
    touches another worker's file. *)
Theorem part_name_distinct i j :
  i ≠ j → part_name d procs i ≠ part_name d procs j.
Proof. intros Hne Heq. by apply Hne, (part_name_inj d procs). Qed.

(** C31: cleanup is idempotent.  Whatever the file system, after a call of
    [BindwithFiles] that returned nil nothing exists at the workspace
    directory or below it, and removing the workspace once more is not an
    error and changes nothing. *)
Theorem BindwithFiles_cleanup fs :
  dirname d ≠ "" → err_of (BindwithFiles d procs fs) = None →
  let fs' := fs_of (BindwithFiles d procs fs) in
  vacant (dirname d) fs' ∧ os_RemoveAll (dirname d) fs' = Ok fs'.
Proof.
  intros Hne Hnil fs'. assert (vacant (dirname d) fs') as Hv
    by by apply BindwithFiles_vacant.
  split; [done|by apply os_RemoveAll_absent].
Qed.

(** C19: the merge leaks no space.  Whatever the file system and whatever it
    returns (nil or any of its errors, the partial files complete, cut,
    missing or directories), [BindwithFiles] leaves the volume with as many
    bytes, free and in files together, as it found: every partial file it
    removed while open is closed when it returns. *)
Theorem BindwithFiles_conserves fs :
  capacity (fs_of (BindwithFiles d procs fs)) = capacity fs.
Proof. apply BindwithFiles_capacity. Qed.

End merge_thms.

(** ** Witnesses *)

Lemma BindwithFiles_run_witness :
  err_of (BindwithFiles ex_d 3 ex_fs) = None ∧
  nodes (fs_of (BindwithFiles ex_d 3 ex_fs)) =
    filter (λ kv, ¬ in_tree "_f.3" kv)
      (<["f" := File (copied ex_pd (seqZ 0 3) 10)]> ex_nodes) ∧
  events_of (BindwithFiles ex_d 3 ex_fs) =
    hello ex_d ++ bar_adds ex_pd (seqZ 0 3) 10 ++ [BarFinish; Println "Complete"].
Proof.
  apply (BindwithFiles_run ex_d 3 ex_pd ex_fs);
    [by vm_compute.. | apply ex_parts_are_files].
Defined.

Lemma BindwithFiles_merges_witness :
  err_of (BindwithFiles ex_d 3 ex_fs) = None ∧
  nodes (fs_of (BindwithFiles ex_d 3 ex_fs)) !! "f" = Some (File (bytes_of "ABC")) ∧
  (∀ p, p = "_f.3" ∨ is_under "_f.3" p = true →
        nodes (fs_of (BindwithFiles ex_d 3 ex_fs)) !! p = None) ∧
  (∀ p, p ≠ "f" → p ≠ "_f.3" → is_under "_f.3" p = false →
        nodes (fs_of (BindwithFiles ex_d 3 ex_fs)) !! p = ex_nodes !! p).
Proof.
  apply (BindwithFiles_merges ex_d 3 ex_pd ex_fs);
    [by vm_compute.. | apply ex_parts_are_files | vm_compute; lia].
Defined.

Lemma BindwithFiles_silent_truncation_witness :
  err_of (BindwithFiles ex_d 3 ex_fs_tight) = None ∧
  nodes (fs_of (BindwithFiles ex_d 3 ex_fs_tight)) !! "f"
    = Some (File (take 2 (merged ex_pd 3))) ∧
  (2 < length (merged ex_pd 3))%nat.
Proof.
  apply (BindwithFiles_silent_truncation ex_d 3 ex_pd ex_fs_tight);
    [by vm_compute.. | apply ex_parts_are_files | vm_compute; lia].
Defined.

Lemma BindwithFiles_cleanup_witness :
  vacant "_f.3" (fs_of (BindwithFiles ex_d 3 ex_fs)) ∧
  os_RemoveAll "_f.3" (fs_of (BindwithFiles ex_d 3 ex_fs))
  = Ok (fs_of (BindwithFiles ex_d 3 ex_fs)).
Proof. apply (BindwithFiles_cleanup ex_d 3 ex_fs); by vm_compute. Defined.

Lemma BindwithFiles_create_error_witness :
  ∃ e, os_Create "f" ex_fs_dir = Err e ∧
  BindwithFiles ex_d 3 ex_fs_dir =
    (ex_fs_dir, [Println (newline +:+ "binding with files...")],
     Some (errors_Wrap e "failed to create a file in download location")).
Proof. apply (BindwithFiles_create_error ex_d 3 ex_fs_dir). by vm_compute. Defined.

Lemma BindwithFiles_missing_part_witness :
  BindwithFiles ex_d 3 ex_fs_gap =
    (Fsys (drop_parts ex_d 3 (seqZ 0 1)
             (<["f" := File (copied ex_pd (seqZ 0 1) 10)]> (nodes ex_fs_gap)))
          (10 - parts_total ex_pd (seqZ 0 1) + parts_total ex_pd (seqZ 0 1)),
     hello ex_d ++ bar_adds ex_pd (seqZ 0 1) 10,
     Some (errors_Wrap (ENOENT "open" "_f.3/f.3.1")
       ("failed to open " +:+ "_f.3/f.3.1" +:+ " in download location"))).
Proof.
  apply (BindwithFiles_missing_part ex_d 3 ex_pd ex_fs_gap 1);
    [by vm_compute | lia | | by vm_compute].
  intros i Hi. assert (i = 0) as -> by lia. by vm_compute.
Defined.

Lemma BindwithFiles_remove_error_witness :
  BindwithFiles ex_d 3 ex_fs_partdir =
    (file_Close (parts_total ex_pd (seqZ 0 1)) (merged_to ex_d 3 ex_pd 1 ex_fs_partdir),
     hello ex_d ++ bar_adds ex_pd (seqZ 0 1) (10 + old_len "f" ex_fs_partdir)
       ++ [BarAdd 0],
     Some (errors_Wrap (ENOTEMPTY "remove" "_f.3/f.3.1")
       "failed to remove a file in download location")).
Proof.
  apply (BindwithFiles_remove_error ex_d 3 ex_pd ex_fs_partdir 1 true
           "_f.3/f.3.1/x" (File (bytes_of "x")));
    try (by vm_compute); try lia;
    intros i Hi; assert (i = 0) as -> by lia; by vm_compute.
Defined.

Example ex_partdir_output :
  nodes (fs_of (BindwithFiles ex_d 3 ex_fs_partdir)) !! "f" = Some (File (bytes_of "A")) ∧
  nodes (fs_of (BindwithFiles ex_d 3 ex_fs_partdir)) !! "_f.3/f.3.2"
    = Some (File (bytes_of "C")).
Proof. by vm_compute. Qed.

Lemma BindwithFiles_removeall_error_witness :
  BindwithFiles ex_d 3 ex_fs_locked =
    (file_Close (parts_total ex_pd (seqZ 0 3)) (merged_to ex_d 3 ex_pd 3 ex_fs_locked),
     hello ex_d ++ bar_adds ex_pd (seqZ 0 3) (10 + old_len "f" ex_fs_locked)
       ++ [BarFinish],
     Some (errors_Wrap (EACCES "open" "_f.3") "failed to remove download location")).
Proof.
  apply (BindwithFiles_removeall_error ex_d 3 ex_pd ex_fs_locked
           "_f.3/.DS_Store" (File (bytes_of "x")));
    try (by vm_compute);
    intros i Hi; assert (i = 0 ∨ i = 1 ∨ i = 2) as [->|[->| ->]] by lia;
    by vm_compute.
Defined.

Lemma part_name_distinct_witness : part_name ex_d 3 0 ≠ part_name ex_d 3 1.
Proof. apply (part_name_distinct ex_d 3 0 1). lia. Defined.
