(* ===== verification/Progress.v ===== *)
(** * Progress: [subDirsize] and [ProgressBar]

    Translates the polling loop of [src/util.go]: each round looks at the
    cancellation signal, measures the workspace with [filepath.Walk], and
    either shows the size, or shows the total and signals completion, or
    signals the error of the measurement.  The instants at which the loop
    looks are given from outside, as the list of what it finds there.  The
    loop is compared with the state machine of the specification and with
    [bar_trace], the events as a function of the sizes measured. *)

From S2P Require Import Prelude GoInt FileSys Data.
From stdpp Require Import gmap sorting.

#[local] Open Scope Z_scope.

(** ** [subDirsize] *)

(** The function literal given to [filepath.Walk]: [size] is the variable it
    captures; it returns the error it was given.  [info] is nil when [Walk]
    could not stat the path, and [info.IsDir()] then panics. *)
Definition subDirsize_fn (size : Z) (v : visit) : run (Z * option error) :=
  match v_info v with
  | None => Panics "invalid memory address or nil pointer dereference"
  | Some info =>
      let size' :=
        if negb (fi_IsDir info) then i64_add size (fi_Size info) else size in
      Returns (size', v_err v)
  end.

(** [filepath.Walk] calling the function on each visit, until it returns an
    error. *)
Fixpoint walk_sum (vs : list visit) (size : Z) : run (Z * option error) :=
  match vs with
  | [] => Returns (size, None)
  | v :: vs' =>
      match subDirsize_fn size v with
      | Panics why => Panics why
      | Returns (size', Some err) => Returns (size', Some err)
      | Returns (size', None) => walk_sum vs' size'
      end
  end.

Definition subDirsize (d : Data) (dirname' : string) (fs : fsys)
    : run (Z * option error) :=
  walk_sum (filepath_Walk dirname' fs) 0.

(** ** [ProgressBar] *)

(** What one round of the loop finds: whether [ctx.Done()] is closed, and the
    file system at that instant. *)
Definition observation : Type := bool * fsys.

(** One round of [for { select { ... } }]: the events it causes and whether
    the loop goes on. *)
Definition ProgressBar_round (d : Data) (o : observation)
    : run (list event * bool) :=
  let filesize' := to_int64 (filesize d) in
  let dirname' := dirname d in
  if o.1 then Returns ([], false)
  else
    match subDirsize d dirname' o.2 with
    | Panics why => Panics why
    | Returns (size, Some err) =>
        Returns ([SendErr (errors_Wrap err "failed to get directory size")], false)
    | Returns (size, None) =>
        if size <? filesize' then Returns ([BarSet size], true)
        else Returns ([BarSet filesize'; BarFinish; SendDone], false)
    end.

(** How far a run of the monitor got on the observations it was given. *)
Inductive status : Type :=
| Running
| Returned
| Panicked (why : string).

#[global] Instance status_eq_dec : EqDecision status.
Proof. solve_decision. Defined.

Fixpoint ProgressBar_loop (d : Data) (obs : list observation)
    : list event * status :=
  match obs with
  | [] => ([], Running)
  | o :: obs' =>
      match ProgressBar_round d o with
      | Panics why => ([], Panicked why)
      | Returns (evs, false) => (evs, Returned)
      | Returns (evs, true) =>
          let '(evs', st) := ProgressBar_loop d obs' in (evs ++ evs', st)
      end
  end.

Definition ProgressBar (d : Data) (obs : list observation)
    : list event * status :=
  let '(evs, st) := ProgressBar_loop d obs in
  (BarStart (to_int64 (filesize d)) :: evs, st).

(** ** The monitor as a state machine

    The specification's monitor: it polls until it terminates, and it
    terminates by completion, by an error of the measurement or by
    cancellation; a panic of the measurement is a fourth way out. *)
Inductive mon_state : Type :=
| Polling
| Completed
| Errored (e : error)
| Cancelled
| Crashed (why : string).

#[global] Instance mon_state_eq_dec : EqDecision mon_state.
Proof. solve_decision. Defined.

Definition status_of (s : mon_state) : status :=
  match s with
  | Polling => Running
  | Crashed why => Panicked why
  | _ => Returned
  end.

(** The bar's total: [int64(d.filesize)]. *)
Definition total (d : Data) : Z := to_int64 (filesize d).

(** One transition, on one observation, with the events it causes. *)
Inductive mon_step (d : Data)
    : mon_state → observation → list event → mon_state → Prop :=
| mon_cancel fs :
    mon_step d Polling (true, fs) [] Cancelled
| mon_progress fs size :
    subDirsize d (dirname d) fs = Returns (size, None) → size < total d →
    mon_step d Polling (false, fs) [BarSet size] Polling
| mon_complete fs size :
    subDirsize d (dirname d) fs = Returns (size, None) → total d ≤ size →
    mon_step d Polling (false, fs)
      [BarSet (total d); BarFinish; SendDone] Completed
| mon_error fs size err :
    subDirsize d (dirname d) fs = Returns (size, Some err) →
    mon_step d Polling (false, fs)
      [SendErr (errors_Wrap err "failed to get directory size")]
      (Errored (errors_Wrap err "failed to get directory size"))
| mon_crash fs why :
    subDirsize d (dirname d) fs = Panics why →
    mon_step d Polling (false, fs) [] (Crashed why).

(** Runs: a terminated monitor ignores what comes after. *)
Inductive mon_run (d : Data)
    : mon_state → list observation → list event → mon_state → Prop :=
| run_nil s : mon_run d s [] [] s
| run_halted s o obs : s ≠ Polling → mon_run d s (o :: obs) [] s
| run_step s o evs s' obs evs' s'' :
    mon_step d s o evs s' → mon_run d s' obs evs' s'' →
    mon_run d s (o :: obs) (evs ++ evs') s''.

(** ** Vocabulary of the theorems *)

(** A round that finds [size] bytes, fewer than the total. *)
Definition in_progress (d : Data) (o : observation) (size : Z) : Prop :=
  o.1 = false ∧ subDirsize d (dirname d) o.2 = Returns (size, None) ∧
  size < total d.

(** A round that finds the total reached. *)
Definition at_total (d : Data) (o : observation) : Prop :=
  o.1 = false ∧
  ∃ size, subDirsize d (dirname d) o.2 = Returns (size, None) ∧ total d ≤ size.

(** A round that finds the context cancelled. *)
Definition cancelled (o : observation) : Prop := o.1 = true.

(** A round, not cancelled, whose measurement succeeds and finds [size]
    bytes. *)
Definition measured (d : Data) (o : observation) (size : Z) : Prop :=
  o.1 = false ∧ subDirsize d (dirname d) o.2 = Returns (size, None).

(** What the monitor does with the sizes it finds, as a function of the
    sizes alone: it shows each size below the total and completes at the
    first size that reaches it. *)
Fixpoint bar_trace (total : Z) (sizes : list Z) : list event * status :=
  match sizes with
  | [] => ([], Running)
  | size :: sizes' =>
      if size <? total then
        let '(evs, st) := bar_trace total sizes' in (BarSet size :: evs, st)
      else ([BarSet total; BarFinish; SendDone], Returned)
  end.

(** The values the bar was set to. *)
Definition shown (evs : list event) : list Z :=
  omap (λ e, match e with BarSet v => Some v | _ => None end) evs.

Definition listable (n : node) : Prop := n ≠ Dir false.

#[global] Instance listable_dec n : Decision (listable n).
Proof. unfold listable. apply _. Defined.

(** The directory exists and it and the directories below it can be listed. *)
Definition measurable (dir : string) (fs : fsys) : Prop :=
  nodes fs !! dir = Some (Dir true) ∧
  map_Forall (λ _ n, listable n) (filter (below dir) (nodes fs)).

(** Bytes in the files below [dir]. *)
Definition measure (dir : string) (fs : fsys) : Z :=
  Z.of_nat (du (filter (below dir) (nodes fs))).

Definition sum_lens (l : list (string * node)) : nat :=
  foldr (λ kv acc, (node_len kv.2 + acc)%nat) 0%nat l.

(** ** A small job, to evaluate the theorems on: 100 bytes, 2 workers *)
Definition ex_mon : Data := mkData "f" 100 "_f.2".

(** The workspace when the workers have written [a] and [b] bytes. *)
Definition ex_snap (a b : nat) : fsys :=
  Fsys (list_to_map
          [("_f.2", Dir true);
           ("_f.2/f.2.0", File (replicate a Byte.x00));
           ("_f.2/f.2.1", File (replicate b Byte.x00));
           ("unrelated", File (replicate 7 Byte.x00))]) 1000.

(** Three rounds of progress: 0, 40 and 90 bytes. *)
Definition ex_rounds : list observation :=
  [(false, ex_snap 0 0); (false, ex_snap 20 20); (false, ex_snap 50 40)].

(** The workspace made unlistable, and the workspace gone. *)
Definition ex_locked : fsys := Fsys {["_f.2" := Dir false]} 1000.
Definition ex_gone : fsys := Fsys ∅ 1000.

(** ** Lemmas on the measurement *)

Lemma du_sum_lens m : du m = sum_lens (map_to_list m).
Proof.
  unfold du, sum_lens. rewrite map_fold_foldr.
  induction (map_to_list m) as [|[k n] l IH]; simpl; [done|by rewrite IH].
Qed.

Lemma subDirsize_fn_listable size kv :
  listable kv.2 → is_i64 (size + Z.of_nat (node_len kv.2)) →
  subDirsize_fn size (visit_of kv) =
    Returns (size + Z.of_nat (node_len kv.2), None).
Proof.
  destruct kv as [p [data|[|]]]; unfold listable, subDirsize_fn; simpl;
    intros Hl Hsz; try done.
  - by rewrite i64_add_small.
  - by rewrite Z.add_0_r.
Qed.

Lemma walk_sum_listable l : ∀ size,
  Forall (λ kv, listable kv.2) l → 0 ≤ size →
  size + Z.of_nat (sum_lens l) ≤ i64_max →
  walk_sum (visit_of <$> l) size = Returns (size + Z.of_nat (sum_lens l), None).
Proof.
  induction l as [|kv l IH]; intros size Hl Hsz Hmax.
  { simpl. by rewrite Z.add_0_r. }
  apply Forall_cons in Hl as [Hkv Hl]. simpl in Hmax.
  rewrite fmap_cons. cbn [walk_sum].
  rewrite subDirsize_fn_listable by (done || unfold_int; lia).
  rewrite IH by (done || lia). do 2 f_equal. simpl. lia.
Qed.

Section progress.
Context (d : Data).
Implicit Types (fs : fsys) (o : observation) (obs pre post : list observation).
Implicit Types (s : mon_state) (evs : list event) (sizes : list Z).

Lemma subDirsize_missing dir fs :
  nodes fs !! dir = None →
  subDirsize d dir fs =
    Panics "invalid memory address or nil pointer dereference".
Proof. intros Hn. unfold subDirsize, filepath_Walk. by rewrite Hn. Qed.

Lemma subDirsize_unlistable dir fs :
  nodes fs !! dir = Some (Dir false) →
  subDirsize d dir fs = Returns (0, Some (EACCES "open" dir)).
Proof. intros Hn. unfold subDirsize, filepath_Walk. by rewrite Hn. Qed.

(** On a workspace that can be listed the walk adds the lengths of the
    files. *)
Lemma subDirsize_walk dir fs :
  measurable dir fs → measure dir fs ≤ i64_max →
  subDirsize d dir fs = Returns (measure dir fs, None).
Proof.
  intros [Hroot Hall] Hmax. unfold subDirsize, filepath_Walk. rewrite Hroot.
  cbn [walk_sum].
  rewrite (subDirsize_fn_listable 0 (dir, Dir true))
    by (done || unfold_int; simpl; lia).
  simpl. unfold measure in *. rewrite du_sum_lens in *.
  rewrite walk_sum_listable; [done| |done|done].
  apply Forall_forall. intros [p n] Hin%elem_of_map_to_list. by eapply Hall.
Qed.

(** ** Lemmas on one round and on the loop *)

Lemma round_progress o size :
  in_progress d o size → ProgressBar_round d o = Returns ([BarSet size], true).
Proof.
  destruct o as [c fs]. intros (Hc & Hs & Hlt). simpl in *. subst c.
  unfold ProgressBar_round; simpl.
  rewrite Hs. unfold total in Hlt. by rewrite (proj2 (Z.ltb_lt _ _)).
Qed.

Lemma round_complete o :
  at_total d o →
  ProgressBar_round d o =
    Returns ([BarSet (total d); BarFinish; SendDone], false).
Proof.
  destruct o as [c fs]. intros (Hc & size & Hs & Hge). simpl in *. subst c.
  unfold ProgressBar_round; simpl.
  rewrite Hs. unfold total in Hge. by rewrite (proj2 (Z.ltb_ge _ _)).
Qed.

Lemma round_error fs size err :
  subDirsize d (dirname d) fs = Returns (size, Some err) →
  ProgressBar_round d (false, fs) =
    Returns ([SendErr (errors_Wrap err "failed to get directory size")], false).
Proof. intros Hs. unfold ProgressBar_round; simpl. by rewrite Hs. Qed.

Lemma round_panic fs why :
  subDirsize d (dirname d) fs = Panics why →
  ProgressBar_round d (false, fs) = Panics why.
Proof. intros Hs. unfold ProgressBar_round; simpl. by rewrite Hs. Qed.

(** Rounds of progress, then whatever the rest does. *)
Lemma loop_progress pre sizes obs :
  Forall2 (in_progress d) pre sizes →
  ProgressBar_loop d (pre ++ obs) =
    ((BarSet <$> sizes) ++ (ProgressBar_loop d obs).1,
     (ProgressBar_loop d obs).2).
Proof.
  induction 1 as [|o size pre sizes Ho _ IH]; simpl.
  { by destruct (ProgressBar_loop d obs). }
  rewrite (round_progress o size) by done. by rewrite IH.
Qed.

(** The run up to a round that ends the loop with the events [evs]. *)
Lemma ProgressBar_stops pre sizes o post evs :
  Forall2 (in_progress d) pre sizes →
  ProgressBar_round d o = Returns (evs, false) →
  ProgressBar d (pre ++ o :: post) =
    (BarStart (total d) :: (BarSet <$> sizes) ++ evs, Returned).
Proof.
  intros Hpre Ho. unfold ProgressBar. rewrite (loop_progress pre sizes) by done.
  simpl. by rewrite Ho.
Qed.

(** Each round of the program is a transition of the machine. *)
Lemma round_refines o :
  match ProgressBar_round d o with
  | Returns (evs, true) => mon_step d Polling o evs Polling
  | Returns (evs, false) =>
      ∃ s, mon_step d Polling o evs s ∧ s ≠ Polling ∧ status_of s = Returned
  | Panics why => mon_step d Polling o [] (Crashed why)
  end.
Proof.
  destruct o as [[|] fs]; unfold ProgressBar_round; simpl.
  { exists Cancelled. by repeat split; try constructor. }
  destruct (subDirsize d (dirname d) fs) as [[size [err|]]|why] eqn:Hs.
  - eexists. split; [by econstructor|done].
  - fold (total d). destruct (Z.ltb_spec size (total d)).
    + by constructor.
    + exists Completed. split; [by econstructor|done].
  - by constructor.
Qed.

(** ** Invariants of the machine, by induction on its runs *)

Lemma mon_run_halted s obs : s ≠ Polling → mon_run d s obs [] s.
Proof. destruct obs; by constructor. Qed.

Lemma mon_step_from s o evs s' : mon_step d s o evs s' → s = Polling.
Proof. by destruct 1. Qed.

(** A terminated monitor stays where it is and says nothing. *)
Lemma mon_run_terminal s obs evs s' :
  s ≠ Polling → mon_run d s obs evs s' → evs = [] ∧ s' = s.
Proof.
  intros Hs Hrun. destruct Hrun; [done..|].
  match goal with H : mon_step _ _ _ _ _ |- _ => by apply mon_step_from in H end.
Qed.

(** A run in two parts. *)
Lemma mon_run_app s obs1 evs1 s1 obs2 evs2 s2 :
  mon_run d s obs1 evs1 s1 → mon_run d s1 obs2 evs2 s2 →
  mon_run d s (obs1 ++ obs2) (evs1 ++ evs2) s2.
Proof.
  induction 1 as [s|s o obs Hs|s o evs s' obs evs' s'' Hstep Hrun IH]; intros H2.
  - done.
  - apply mon_run_terminal in H2 as [-> ->]; [|done]. by constructor.
  - rewrite <-app_assoc. econstructor; [done|by apply IH].
Qed.

(** The first round that finds the context cancelled ends the run, without
    an event; a monitor that has terminated stays as it is. *)
Definition after_cancel (s : mon_state) (more : list observation) : mon_state :=
  match s, more with
  | Polling, _ :: _ => Cancelled
  | _, _ => s
  end.

Lemma mon_run_cancelled s more :
  Forall cancelled more → mon_run d s more [] (after_cancel s more).
Proof.
  destruct (decide (s = Polling)) as [->|Hs];
    [|replace (after_cancel s more) with s by (by destruct s, more);
      intros _; by apply mon_run_halted].
  destruct more as [|[c fs] more]; [constructor|]. intros [Hc _]%Forall_cons.
  unfold cancelled in Hc. simpl in Hc. subst c. rewrite <-(app_nil_r []).
  econstructor; [constructor|by apply mon_run_halted].
Qed.

Lemma mon_run_then_cancelled obs evs s more :
  mon_run d Polling obs evs s → Forall cancelled more →
  mon_run d Polling (obs ++ more) evs (after_cancel s more).
Proof.
  intros Hrun Hmore. rewrite <-(app_nil_r evs).
  eapply mon_run_app; [done|by apply mon_run_cancelled].
Qed.

(** What a transition shows, by the state it leads to. *)
Lemma mon_step_events s o evs s' :
  mon_step d s o evs s' →
  match s' with
  | Polling => ∃ size, evs = [BarSet size] ∧ size < total d
  | Completed => evs = [BarSet (total d); BarFinish; SendDone]
  | Errored e => evs = [SendErr e]
  | Cancelled | Crashed _ => evs = []
  end.
Proof. destruct 1; eauto. Qed.

(** Completion is signalled at most once, as the last event, and never
    together with an error. *)
Lemma mon_run_done s obs evs s' :
  mon_run d s obs evs s' → SendDone ∈ evs →
  s' = Completed ∧ ∃ evs0, evs = evs0 ++ [SendDone] ∧ SendDone ∉ evs0 ∧
  ∀ e, SendErr e ∉ evs0.
Proof.
  induction 1 as [s|s o obs Hs|s o evs s' obs evs' s'' Hstep Hrun IH];
    [by intros ?%elem_of_nil..|].
  apply mon_step_events in Hstep. destruct (decide (s' = Polling)) as [->|Hne].
  - destruct Hstep as (size & -> & _).
    intros [Hin|Hin]%elem_of_app; [set_solver|].
    destruct (IH Hin) as (-> & evs0 & -> & Hn & He). split; [done|].
    exists (BarSet size :: evs0). split; [done|]. set_solver.
  - apply mon_run_terminal in Hrun as [-> ->]; [|done]. rewrite app_nil_r.
    destruct s'; subst; try done; [|set_solver..].
    intros _. split; [done|]. exists [BarSet (total d); BarFinish]. set_solver.
Qed.

Lemma mon_run_bounded s obs evs s' v :
  mon_run d s obs evs s' → BarSet v ∈ evs → v ≤ total d.
Proof.
  induction 1 as [s|s o obs Hs|s o evs s' obs evs' s'' Hstep Hrun IH];
    [by intros ?%elem_of_nil..|].
  intros [Hin|Hin]%elem_of_app; [|by apply IH].
  apply mon_step_events in Hstep.
  destruct s'; [destruct Hstep as (size & -> & ?)|subst..]; set_solver by lia.
Qed.

(** The machine is deterministic: what is observed fixes the run. *)
Lemma mon_step_det s o evs1 s1 evs2 s2 :
  mon_step d s o evs1 s1 → mon_step d s o evs2 s2 → evs1 = evs2 ∧ s1 = s2.
Proof.
  destruct 1; inversion 1; subst; try done;
    match goal with
    | H1 : subDirsize _ _ _ = _, H2 : subDirsize _ _ _ = _ |- _ =>
        rewrite H1 in H2; simplify_eq
    end; done || lia.
Qed.

Lemma mon_run_det s obs evs1 s1 : ∀ evs2 s2,
  mon_run d s obs evs1 s1 → mon_run d s obs evs2 s2 → evs1 = evs2 ∧ s1 = s2.
Proof.
  intros evs2 s2 Hrun. revert evs2 s2.
  induction Hrun as [s|s o obs Hs|s o evs s' obs evs' s'' Hstep Hrun IH];
    intros evs2 s2; inversion 1; simplify_eq; try done;
    try by match goal with H : mon_step _ _ _ _ _ |- _ => apply mon_step_from in H end.
  match goal with H : mon_step _ _ _ _ _ |- _ =>
    destruct (mon_step_det _ _ _ _ _ _ Hstep H) as [-> ->] end.
  by edestruct IH as [-> ->].
Qed.

(** The run on rounds of progress. *)
Lemma mon_run_progress obs sizes :
  Forall2 (in_progress d) obs sizes →
  mon_run d Polling obs (BarSet <$> sizes) Polling.
Proof.
  induction 1 as [|[c fs] sz obs sizes (Hc & Hs & Hlt) _ IH]; simpl in *.
  - constructor.
  - subst. change (BarSet sz :: ?l) with ([BarSet sz] ++ l).
    econstructor; [by constructor|done].
Qed.

(** The run on rounds of progress followed by a round at the total. *)
Lemma mon_run_completes pre sizes o post :
  Forall2 (in_progress d) pre sizes → at_total d o →
  mon_run d Polling (pre ++ o :: post)
    ((BarSet <$> sizes) ++ [BarSet (total d); BarFinish; SendDone]) Completed.
Proof.
  intros Hpre (Hc & size & Hs & Hge).
  induction Hpre as [|[c fs] sz pre sizes (Hc' & Hs' & Hlt) _ IH]; simpl in *.
  - destruct o as [c fs]; simpl in *; subst.
    rewrite <-(app_nil_r [_; _; _]).
    econstructor; [by econstructor|by apply mon_run_halted].
  - subst. change (BarSet sz :: ?l) with ([BarSet sz] ++ l).
    econstructor; [by constructor|done].
Qed.

(** On rounds that measure, the machine does what [bar_trace] says. *)
Lemma mon_run_measured obs sizes :
  Forall2 (measured d) obs sizes →
  mon_run d Polling obs (bar_trace (total d) sizes).1
    (if (bar_trace (total d) sizes).2 is Running then Polling else Completed).
Proof.
  induction 1 as [|[c fs] size obs sizes [Hc Hs] _ IH]; simpl in *; [constructor|].
  subst c. destruct (Z.ltb_spec size (total d)).
  - destruct (bar_trace (total d) sizes) as [evs st]. simpl in *.
    change (BarSet size :: evs) with ([BarSet size] ++ evs).
    econstructor; [by constructor|done].
  - simpl. rewrite <-(app_nil_r [_; _; _]).
    econstructor; [by econstructor|by apply mon_run_halted].
Qed.

(** What [bar_trace] shows: the sizes before the first that reaches the
    total, and the completion if there is one. *)
Lemma bar_trace_below tot sizes :
  Forall (λ v, v < tot) sizes → bar_trace tot sizes = (BarSet <$> sizes, Running).
Proof.
  induction 1 as [|v sizes Hv _ IH]; simpl; [done|].
  by rewrite (proj2 (Z.ltb_lt _ _)), IH by done.
Qed.

Lemma bar_trace_app tot szs v rest :
  Forall (λ v, v < tot) szs → tot ≤ v →
  bar_trace tot (szs ++ v :: rest)
  = ((BarSet <$> szs) ++ [BarSet tot; BarFinish; SendDone], Returned).
Proof.
  intros Hpre Hv. induction Hpre as [|u szs Hu _ IH]; simpl.
  - by rewrite (proj2 (Z.ltb_ge _ _)).
  - by rewrite (proj2 (Z.ltb_lt _ _)), IH by done.
Qed.

(** The sizes split at the first that reaches the total, if any. *)
Lemma sizes_split tot sizes :
  Forall (λ v, v < tot) sizes ∨
  ∃ szs v rest, sizes = szs ++ v :: rest ∧ Forall (λ v, v < tot) szs ∧ tot ≤ v.
Proof.
  induction sizes as [|u sizes [IH|(szs & v & rest & -> & Hpre & Hv)]]; [by left|..].
  - destruct (decide (u < tot)); [left; by constructor|].
    right. exists [], u, sizes. split_and!; [done|constructor|lia].
  - destruct (decide (u < tot)).
    + right. exists (u :: szs), v, rest. split_and!; [done|by constructor|done].
    + right. exists [], u, (szs ++ v :: rest). split_and!; [done|constructor|lia].
Qed.

(** A size that reaches the total completes the trace. *)
Lemma bar_trace_reaches tot sizes v :
  v ∈ sizes → tot ≤ v →
  ∃ szs, Forall (λ u, u < tot) szs ∧
         bar_trace tot sizes
         = ((BarSet <$> szs) ++ [BarSet tot; BarFinish; SendDone], Returned).
Proof.
  intros Hv Hle.
  destruct (sizes_split tot sizes) as [Hlt|(szs & u & rest & -> & Hlt & Hu)].
  - rewrite Forall_forall in Hlt. specialize (Hlt v Hv). lia.
  - exists szs. split; [done|by apply bar_trace_app].
Qed.

(** The trace shows the first sizes, those below the total, and then
    either polls on or completes; it sends no error. *)
Lemma bar_trace_cases tot sizes :
  ∃ szs (done : bool), szs `prefix_of` sizes ∧ Forall (λ u, u < tot) szs ∧
    bar_trace tot sizes
    = ((BarSet <$> szs) ++ (if done then [BarSet tot; BarFinish; SendDone] else []),
       if done then Returned else Running).
Proof.
  destruct (sizes_split tot sizes) as [Hlt|(szs & u & rest & -> & Hlt & Hu)].
  - exists sizes, false. rewrite app_nil_r. split_and!; [done..|].
    by apply bar_trace_below.
  - exists szs, true. split_and!; [by eexists|done|by apply bar_trace_app].
Qed.

(** Completion shows that a size reached the total. *)
Lemma bar_trace_done tot sizes :
  SendDone ∈ (bar_trace tot sizes).1 → ∃ v, v ∈ sizes ∧ tot ≤ v.
Proof.
  destruct (sizes_split tot sizes) as [Hlt|(szs & v & rest & -> & Hpre & Hv)].
  - rewrite bar_trace_below by done. simpl.
    intros (? & ? & ?)%list_elem_of_fmap. done.
  - intros _. exists v. split; [|done]. apply elem_of_app. right. by left.
Qed.

(** Every run of the loop is a run of the machine. *)
Lemma loop_refines obs :
  ∃ s, mon_run d Polling obs (ProgressBar_loop d obs).1 s ∧
       (ProgressBar_loop d obs).2 = status_of s.
Proof.
  induction obs as [|o obs (s & Hrun & Hst)]; simpl.
  { exists Polling. split; [constructor|done]. }
  pose proof (round_refines o) as Hr.
  destruct (ProgressBar_round d o) as [[evs [|]]|why].
  - destruct (ProgressBar_loop d obs) as [evs' st]. exists s.
    split; [by econstructor|done].
  - destruct Hr as (s' & Hstep & Hne & Hret). exists s'. simpl.
    split; [|done]. rewrite <-(app_nil_r evs).
    econstructor; [done|by apply mon_run_halted].
  - exists (Crashed why). split; [|done]. change [] with ([] ++ @nil event).
    econstructor; [done|by apply mon_run_halted].
Qed.

End progress.

Lemma shown_BarSet sizes : shown (BarSet <$> sizes) = sizes.
Proof. induction sizes as [|v l IH]; csimpl; [done|by rewrite IH]. Qed.

Lemma Sorted_le_prefix (l1 l2 : list Z) :
  l1 `prefix_of` l2 → Sorted Z.le l2 → Sorted Z.le l1.
Proof.
  intros [k ->] Hs. apply StronglySorted_Sorted.
  eapply StronglySorted_app_1_l, Sorted_StronglySorted, Hs. apply _.
Qed.

Lemma Sorted_le_snoc (l : list Z) (x : Z) :
  Sorted Z.le l → Forall (λ y, y ≤ x) l → Sorted Z.le (l ++ [x]).
Proof.
  induction 1 as [|y l Hl IH Hhd]; intros Hall; simpl.
  { repeat constructor. }
  apply Forall_cons in Hall as [Hy Hall]. constructor; [by apply IH|].
  destruct Hhd; simpl; by constructor.
Qed.

(** ** Theorems *)

Section progress_thms.
Context (d : Data).
Implicit Types (fs : fsys) (o : observation) (obs pre post : list observation).
Implicit Types (sizes : list Z).

(** The size [subDirsize] reports.  For a workspace directory that
    exists and can be listed, with listable directories below it and fewer
    than [2^63] bytes in all, [subDirsize] returns the total length of the
    files below the directory, and no error. *)
Theorem subDirsize_measures dir fs :
  measurable dir fs → measure dir fs ≤ i64_max →
  subDirsize d dir fs = Returns (measure dir fs, None).
Proof. apply subDirsize_walk. Qed.

(** C5: completion.  After any number of rounds that find fewer bytes than
    the total, the first round that finds the total reached sets the bar to
    the total, finishes it, signals completion once and ends the loop,
    whatever would be observed afterwards; before that the bar was set to
    each size found, in order. *)
Theorem ProgressBar_completes pre sizes o post :
  Forall2 (in_progress d) pre sizes → at_total d o →
  ProgressBar d (pre ++ o :: post) =
    (BarStart (total d) :: (BarSet <$> sizes)
       ++ [BarSet (total d); BarFinish; SendDone],
     Returned).
Proof. intros Hpre Ho. by apply ProgressBar_stops, round_complete. Qed.

(** Progress is monotone.  When the sizes found grow from round to round,
    the values the bar is set to are non-decreasing and the last one is
    exactly the total. *)
Theorem ProgressBar_monotone pre sizes o post :
  Forall2 (in_progress d) pre sizes → at_total d o → Sorted Z.le sizes →
  let values := shown (ProgressBar d (pre ++ o :: post)).1 in
  values = sizes ++ [total d] ∧ Sorted Z.le values ∧ last values = Some (total d).
Proof.
  intros Hpre Ho Hsorted values. subst values.
  rewrite (ProgressBar_stops d pre sizes o post _ Hpre (round_complete d o Ho)).
  simpl.
  unfold shown. rewrite omap_app. fold (shown (BarSet <$> sizes)).
  rewrite shown_BarSet. simpl. split_and!; [done| |by rewrite last_snoc].
  apply Sorted_le_snoc; [done|]. apply Forall_forall. intros v Hv.
  apply (Forall2_Forall_r _ (λ v, v < total d)) in Hpre.
  - rewrite Forall_forall in Hpre. specialize (Hpre v Hv). lia.
  - apply Forall_forall. by intros o' _ v' (_ & _ & ?).
Qed.

(** As long as every round finds fewer bytes than the total and the
    context is not cancelled, the monitor neither returns nor signals
    anything: it has set the bar to each size found and is still polling. *)
Theorem ProgressBar_keeps_polling obs sizes :
  Forall2 (in_progress d) obs sizes →
  ProgressBar d obs = (BarStart (total d) :: (BarSet <$> sizes), Running).
Proof.
  intros Hobs. unfold ProgressBar.
  rewrite <-(app_nil_r obs), (loop_progress d obs sizes) by done. simpl.
  by rewrite app_nil_r.
Qed.

(** Cancellation.  A round that finds the context cancelled ends the
    loop without any event: no bar update, no completion, no error. *)
Theorem ProgressBar_cancelled pre sizes fs post :
  Forall2 (in_progress d) pre sizes →
  ProgressBar d (pre ++ (true, fs) :: post) =
    (BarStart (total d) :: (BarSet <$> sizes), Returned).
Proof.
  intros Hpre. rewrite (ProgressBar_stops d pre sizes _ post []) by done.
  by rewrite app_nil_r.
Qed.

(** C34: an error of the measurement is signalled.  When the workspace
    directory cannot be listed, the round sends
    "failed to get directory size: open <dirname>: permission denied" on the
    error channel and ends the loop, without signalling completion. *)
Theorem ProgressBar_probe_error pre sizes fs post :
  Forall2 (in_progress d) pre sizes →
  nodes fs !! dirname d = Some (Dir false) →
  ProgressBar d (pre ++ (false, fs) :: post) =
    (BarStart (total d) :: (BarSet <$> sizes)
       ++ [SendErr (errors_Wrap (EACCES "open" (dirname d))
                      "failed to get directory size")],
     Returned).
Proof.
  intros Hpre Hdir. apply ProgressBar_stops; [done|].
  by eapply round_error, subDirsize_unlistable.
Qed.

(** C33: a missing workspace panics.  When the workspace directory does not
    exist at a round, [filepath.Walk] hands the function a nil [FileInfo],
    [info.IsDir()] panics, and the monitor signals neither error nor
    completion. *)
Theorem ProgressBar_missing_workspace pre sizes fs post :
  Forall2 (in_progress d) pre sizes →
  nodes fs !! dirname d = None →
  ProgressBar d (pre ++ (false, fs) :: post) =
    (BarStart (total d) :: (BarSet <$> sizes),
     Panicked "invalid memory address or nil pointer dereference").
Proof.
  intros Hpre Hdir. unfold ProgressBar.
  rewrite (loop_progress d pre sizes) by done. simpl.
  rewrite (round_panic d fs _ (subDirsize_missing d _ fs Hdir)). simpl.
  by rewrite app_nil_r.
Qed.

(** C40: [int64(d.filesize)] is negative for a size of [2^63] or more: the
    first round whose measurement succeeds then reports completion at once,
    with a negative total, whatever the workspace holds. *)
Theorem ProgressBar_int64_total fs size post :
  is_u64 (filesize d) → 2 ^ 63 ≤ filesize d →
  subDirsize d (dirname d) fs = Returns (size, None) → 0 ≤ size →
  total d = filesize d - u64_modulus ∧ total d < 0 ∧
  ProgressBar d ((false, fs) :: post) =
    ([BarStart (total d); BarSet (total d); BarFinish; SendDone], Returned).
Proof.
  intros Hu Hhi Hs Hsize.
  assert (total d = filesize d - u64_modulus) as Ht by by apply to_int64_high.
  assert (total d < 0) by (rewrite Ht; solve_int).
  split_and!; [done..|].
  apply (ProgressBar_stops d [] [] (false, fs) post); [constructor|].
  apply round_complete. split; [done|]. exists size. split; [done|lia].
Qed.

(** The program refines the state machine.  On every list of
    observations the events of [ProgressBar_loop] are those of a run of the
    machine from [Polling], and its status is the one of the state that run
    ends in. *)
Theorem ProgressBar_loop_refines obs :
  ∃ s, mon_run d Polling obs (ProgressBar_loop d obs).1 s ∧
       (ProgressBar_loop d obs).2 = status_of s.
Proof. apply loop_refines. Qed.

(** The monitor is a function of the sizes it finds.  On rounds that are
    not cancelled and whose measurements succeed, [ProgressBar] starts the
    bar and then does what the reference function [bar_trace] computes from
    the list of the sizes found alone: one [Set64] per size below the total,
    and at the first size that reaches the total the final [Set64],
    [Finish] and the completion signal, after which it has returned. *)
Theorem ProgressBar_trace obs sizes :
  Forall2 (measured d) obs sizes →
  ProgressBar d obs =
    (BarStart (total d) :: (bar_trace (total d) sizes).1,
     (bar_trace (total d) sizes).2).
Proof.
  intros Hobs%mon_run_measured.
  destruct (loop_refines d obs) as (s & Hrun & Hst). unfold ProgressBar.
  destruct (ProgressBar_loop d obs) as [evs st]. simpl in *.
  destruct (mon_run_det d _ _ _ _ _ _ Hrun Hobs) as [-> ->]. rewrite Hst.
  fold (total d).
  destruct (sizes_split (total d) sizes) as [Hlt|(szs & v & rest & -> & Hlt & Hv)].
  - by rewrite bar_trace_below.
  - by rewrite bar_trace_app.
Qed.

(** C20: the loop and the machine are the same.  [ProgressBar] returns the
    events [evs] after the start of the bar and the status [st] on a list of
    observations exactly when the state machine of the specification has a
    run on those observations with the events [evs] to a state whose status
    is [st]: the program refines the machine and, the machine being
    deterministic, has every run of it. *)
Theorem ProgressBar_machine_equiv obs evs st :
  ProgressBar d obs = (BarStart (total d) :: evs, st) ↔
  ∃ s, mon_run d Polling obs evs s ∧ st = status_of s.
Proof.
  destruct (loop_refines d obs) as (s & Hrun & Hst). unfold ProgressBar, total.
  destruct (ProgressBar_loop d obs) as [evs0 st0]. simpl in *. split.
  - intros [= <- <-]. eauto.
  - intros (s' & Hrun' & ->).
    destruct (mon_run_det d _ _ _ _ _ _ Hrun Hrun') as [-> ->]. by rewrite Hst.
Qed.

(** C24: completion fires at most once.  In every run of [ProgressBar], if
    completion is signalled then it is the last event, it occurs once, no
    error was signalled, and the monitor has returned. *)
Theorem ProgressBar_done_once obs :
  SendDone ∈ (ProgressBar d obs).1 →
  (ProgressBar d obs).2 = Returned ∧
  ∃ evs0, (ProgressBar d obs).1 = evs0 ++ [SendDone] ∧ SendDone ∉ evs0 ∧
          ∀ e, SendErr e ∉ evs0.
Proof.
  destruct (loop_refines d obs) as (s & Hrun & Hst).
  unfold ProgressBar. destruct (ProgressBar_loop d obs) as [evs st]; simpl in *.
  intros [?|Hin]%elem_of_cons; [done|].
  destruct (mon_run_done d _ _ _ _ Hrun Hin) as (-> & evs0 & -> & Hn & He).
  split; [done|]. exists (BarStart (to_int64 (filesize d)) :: evs0).
  split; [done|]. set_solver.
Qed.

(** The bar never exceeds its total: every value [ProgressBar] sets the
    bar to is at most [int64(filesize)]. *)
Theorem ProgressBar_bounded obs v :
  BarSet v ∈ (ProgressBar d obs).1 → v ≤ total d.
Proof.
  destruct (loop_refines d obs) as (s & Hrun & Hst).
  unfold ProgressBar. destruct (ProgressBar_loop d obs) as [evs st]; simpl in *.
  intros [?|Hin]%elem_of_cons; [done|]. by eapply mon_run_bounded.
Qed.

End progress_thms.

(** ** Witnesses *)

(** Rounds of progress on closed observations, by evaluation. *)
Ltac solve_rounds :=
  repeat (constructor; [split; [|split]; by vm_compute|]); constructor.

Lemma ex_rounds_in_progress : Forall2 (in_progress ex_mon) ex_rounds [0; 40; 90].
Proof. unfold ex_rounds. solve_rounds. Qed.

Lemma ex_at_total : at_total ex_mon (false, ex_snap 50 50).
Proof. split; [done|]. exists 100. split; by vm_compute. Qed.

Lemma subDirsize_measures_witness :
  subDirsize ex_mon "_f.2" (ex_snap 20 20) =
    Returns (measure "_f.2" (ex_snap 20 20), None).
Proof.
  apply (subDirsize_measures ex_mon "_f.2" (ex_snap 20 20)).
  - split; [by vm_compute|]. apply (bool_decide_unpack _). by vm_compute.
  - by vm_compute.
Defined.

Lemma ProgressBar_trace_witness :
  ProgressBar ex_mon (ex_rounds ++ [(false, ex_snap 50 50); (false, ex_snap 50 50)])
  = (BarStart 100 :: (bar_trace 100 [0; 40; 90; 100; 100]).1,
     (bar_trace 100 [0; 40; 90; 100; 100]).2).
Proof.
  apply (ProgressBar_trace ex_mon _ [0; 40; 90; 100; 100]).
  repeat constructor; by vm_compute.
Defined.

Lemma ProgressBar_completes_witness :
  ProgressBar ex_mon (ex_rounds ++ (false, ex_snap 50 50) :: [(false, ex_snap 50 50)]) =
    (BarStart (total ex_mon) :: (BarSet <$> [0; 40; 90])
       ++ [BarSet (total ex_mon); BarFinish; SendDone],
     Returned).
Proof.
  apply (ProgressBar_completes ex_mon ex_rounds [0; 40; 90]);
    [apply ex_rounds_in_progress | apply ex_at_total].
Defined.

Lemma ProgressBar_monotone_witness :
  shown (ProgressBar ex_mon (ex_rounds ++ (false, ex_snap 50 50) :: [])).1 =
    [0; 40; 90] ++ [total ex_mon] ∧
  Sorted Z.le (shown (ProgressBar ex_mon (ex_rounds ++ (false, ex_snap 50 50) :: [])).1) ∧
  last (shown (ProgressBar ex_mon (ex_rounds ++ (false, ex_snap 50 50) :: [])).1) =
    Some (total ex_mon).
Proof.
  apply (ProgressBar_monotone ex_mon ex_rounds [0; 40; 90] (false, ex_snap 50 50) []);
    [apply ex_rounds_in_progress | apply ex_at_total |].
  repeat constructor; lia.
Defined.

Lemma ProgressBar_keeps_polling_witness :
  ProgressBar ex_mon ex_rounds =
    (BarStart (total ex_mon) :: (BarSet <$> [0; 40; 90]), Running).
Proof.
  apply (ProgressBar_keeps_polling ex_mon ex_rounds [0; 40; 90]).
  apply ex_rounds_in_progress.
Defined.

Lemma ProgressBar_cancelled_witness :
  ProgressBar ex_mon (ex_rounds ++ (true, ex_snap 50 50) :: [(false, ex_snap 50 50)]) =
    (BarStart (total ex_mon) :: (BarSet <$> [0; 40; 90]), Returned).
Proof.
  apply (ProgressBar_cancelled ex_mon ex_rounds [0; 40; 90]).
  apply ex_rounds_in_progress.
Defined.

Lemma ProgressBar_probe_error_witness :
  ProgressBar ex_mon (ex_rounds ++ (false, ex_locked) :: []) =
    (BarStart (total ex_mon) :: (BarSet <$> [0; 40; 90])
       ++ [SendErr (errors_Wrap (EACCES "open" (dirname ex_mon))
                      "failed to get directory size")],
     Returned).
Proof.
  apply (ProgressBar_probe_error ex_mon ex_rounds [0; 40; 90] ex_locked []);
    [apply ex_rounds_in_progress | by vm_compute].
Defined.

Lemma ProgressBar_missing_workspace_witness :
  ProgressBar ex_mon (ex_rounds ++ (false, ex_gone) :: []) =
    (BarStart (total ex_mon) :: (BarSet <$> [0; 40; 90]),
     Panicked "invalid memory address or nil pointer dereference").
Proof.
  apply (ProgressBar_missing_workspace ex_mon ex_rounds [0; 40; 90] ex_gone []);
    [apply ex_rounds_in_progress | by vm_compute].
Defined.

Lemma ProgressBar_int64_total_witness :
  total (mkData "f" (2 ^ 63) "_f.2") = 2 ^ 63 - u64_modulus ∧
  total (mkData "f" (2 ^ 63) "_f.2") < 0 ∧
  ProgressBar (mkData "f" (2 ^ 63) "_f.2") ((false, ex_snap 0 0) :: []) =
    ([BarStart (total (mkData "f" (2 ^ 63) "_f.2"));
      BarSet (total (mkData "f" (2 ^ 63) "_f.2")); BarFinish; SendDone],
     Returned).
Proof.
  apply (ProgressBar_int64_total (mkData "f" (2 ^ 63) "_f.2") (ex_snap 0 0) 0 []);
    rewrite ?u64_modulus_eq; by vm_compute.
Defined.

Lemma ProgressBar_done_once_witness :
  (ProgressBar ex_mon [(false, ex_snap 50 50)]).2 = Returned ∧
  ∃ evs0, (ProgressBar ex_mon [(false, ex_snap 50 50)]).1 = evs0 ++ [SendDone] ∧
          SendDone ∉ evs0 ∧ ∀ e, SendErr e ∉ evs0.
Proof.
  apply (ProgressBar_done_once ex_mon [(false, ex_snap 50 50)]).
  vm_compute. do 3 right. left.
Defined.

Lemma ProgressBar_bounded_witness : 40 ≤ total ex_mon.
Proof.
  apply (ProgressBar_bounded ex_mon ex_rounds 40). vm_compute. do 2 right. left.
Defined.
