(* ===== verification/SplitPath.v ===== *)
(** * Splitting an output path: [SplitFilePath]

    Translates [SplitFilePath] of [src/util.go]: the path is split at the
    separator of the platform, a tilde in the first or second component is
    replaced by the home directory (not on Windows), and the last component,
    or the one before a trailing separator, is the file.  Proves that the
    function computes what a reference definition on the list of components
    computes, that it does not panic, that it inverts joining a directory
    and a file name, and what it does with a trailing separator and with a
    tilde. *)

From S2P Require Import Prelude GoStrings Data.
From Stdlib.Strings Require Import Ascii.

#[local] Open Scope Z_scope.

(** ** Definitions *)

(** The end of both branches (lines 81-89 and 113-122): the file is the last
    component, or the one before it when the last is empty; the path is the
    join of what precedes the file. *)
Definition split_tail (split : list string) (sep : string)
    : run (result (string * string)) :=
  let! last := index split (len split - 1) in
  if decide (last = "") then
    let! file := index split (len split - 2) in
    let! pre := slice_to split (len split - 2) in
    Returns (Ok (file, strings_Join pre sep))
  else
    let! file := index split (len split - 1) in
    let! pre := slice_to split (len split - 1) in
    Returns (Ok (file, strings_Join pre sep)).

(** Lines 104-110: [split[0] = home], or [split[1] = home] followed by
    [split = split[1:]]. *)
Definition tilde (split : list string) (home : string) : run (list string) :=
  let! s0 := index split 0 in
  if decide (s0 = "~") then Returns (<[0%nat := home]> split)
  else
    let! s1 := index split 1 in
    if decide (s1 = "~") then Returns (drop 1 (<[1%nat := home]> split))
    else Returns split.

(** [homedir_Dir] is what [homedir.Dir()] returns.  The result is the pair
    [(file, path)] or the error; a panic is a failed bounds check. *)
Definition SplitFilePath (goos : string) (homedir_Dir : result string) (d : Data)
    (output : string) : run (result (string * string)) :=
  if isDos goos then
    let split := strings_Split output "\" in
    if decide (len split = 1) then Returns (Ok (output, ""))
    else split_tail split "\"
  else
    let split := strings_Split output "/" in
    if decide (len split = 1) then Returns (Ok (output, ""))
    else
      match homedir_Dir with
      | Err err => Returns (Err err)
      | Ok home =>
          let! split := tilde split home in
          split_tail split "/"
      end.

(** ** Vocabulary of the theorems *)

(** The separator [SplitFilePath] splits at. *)
Definition separator (goos : string) : ascii :=
  if isDos goos then "\"%char else "/"%char.

(** Neither of the first two components is a tilde. *)
Definition tilde_free (l : list string) : Prop :=
  l !! 0%nat ≠ Some "~" ∧ l !! 1%nat ≠ Some "~".

#[global] Instance tilde_free_dec l : Decision (tilde_free l).
Proof. unfold tilde_free. apply _. Defined.

(** A list of components is empty, the single empty component, ends with a
    non-empty component, or ends with a component and an empty one. *)
Inductive shape : list string → Prop :=
| shape_nil : shape []
| shape_empty : shape [""]
| shape_file pre file : file ≠ "" → shape (pre ++ [file])
| shape_trailing pre file : shape (pre ++ [file; ""]).

(** *** The reference definition

    What [SplitFilePath] computes, on the list of the components and
    without an index: the tilde among the first two components is replaced
    by the home directory, the file is the last component, or the one
    before an empty last component, and the path is what precedes it. *)

Definition expand (home : string) (l : list string) : list string :=
  match l with
  | s0 :: ts =>
      if decide (s0 = "~") then home :: ts
      else
        match ts with
        | s1 :: ts' => if decide (s1 = "~") then home :: ts' else l
        | [] => l
        end
  | [] => l
  end.

Definition file_of (l : list string) : string * list string :=
  match reverse l with
  | last :: rest =>
      if decide (last = "") then
        match rest with
        | file :: pre => (file, reverse pre)
        | [] => ("", [])
        end
      else (last, reverse rest)
  | [] => ("", [])
  end.

Definition split_ref (goos : string) (home output : string) : string * string :=
  let sep := separator goos in
  if has_char sep output then
    let l := strings_Split output sep in
    let '(file, pre) := file_of (if isDos goos then l else expand home l) in
    (file, strings_Join pre (String sep ""))
  else (output, "").

(** ** The end of the function *)

Lemma shape_of l : shape l.
Proof.
  induction l as [|x l _] using rev_ind; [apply shape_nil|].
  destruct (decide (x = "")) as [->|]; [|by apply shape_file].
  induction l as [|y l _] using rev_ind; [apply shape_empty|].
  rewrite <-(assoc_L (++)). apply shape_trailing.
Qed.

Section tail.
Context (sep : string).
Implicit Types l pre : list string.

(** The last component is the file when it is not empty. *)
Lemma split_tail_file pre file :
  file ≠ "" →
  split_tail (pre ++ [file]) sep = Returns (Ok (file, strings_Join pre sep)).
Proof.
  intros Hf. unfold split_tail. set (n := len (pre ++ [file])).
  rewrite (index_app_at pre [] (n - 1)) by solve_len.
  rewrite (slice_to_app pre [file] (n - 1)) by solve_len.
  simpl. by rewrite decide_False.
Qed.

(** With a trailing separator the component before it is the file. *)
Lemma split_tail_trailing pre file :
  split_tail (pre ++ [file; ""]) sep = Returns (Ok (file, strings_Join pre sep)).
Proof.
  unfold split_tail. set (n := len (pre ++ [file; ""])).
  rewrite (index_app_next pre [] (n - 1)) by solve_len.
  rewrite (index_app_at pre [""] (n - 2)) by solve_len.
  by rewrite (slice_to_app pre [file; ""] (n - 2)) by solve_len.
Qed.

(** The indices of the code find what the reference finds. *)
Lemma split_tail_ref l :
  l ≠ [] → l ≠ [""] →
  split_tail l sep = Returns (Ok ((file_of l).1, strings_Join (file_of l).2 sep)).
Proof.
  intros Hnil Hemp. unfold file_of. destruct (shape_of l); try done.
  - rewrite split_tail_file, reverse_snoc, decide_False by done.
    simpl. by rewrite reverse_involutive.
  - rewrite split_tail_trailing, reverse_app.
    change (reverse [file; ""]) with [""; file]. simpl.
    by rewrite reverse_involutive.
Qed.

Lemma split_tail_returns l :
  l ≠ [] → l ≠ [""] → ∃ file path, split_tail l sep = Returns (Ok (file, path)).
Proof.
  intros Hnil Hemp. destruct (shape_of l); try done.
  - rewrite split_tail_file by done. eauto.
  - rewrite split_tail_trailing. eauto.
Qed.

Lemma split_tail_snoc_empty l :
  last l ≠ Some "" → split_tail (l ++ [""]) sep = split_tail l sep.
Proof.
  intros Hlast. destruct (shape_of l) as [| |pre file ?|pre file]; try done.
  - rewrite <-(assoc_L (++)). cbn [app].
    by rewrite split_tail_trailing, split_tail_file.
  - by rewrite last_app in Hlast.
Qed.

End tail.

(** ** The tilde *)

Section tilde.
Context (home : string).
Implicit Types l ts : list string.

Lemma tilde_first ts : tilde ("~" :: ts) home = Returns (home :: ts).
Proof. reflexivity. Qed.

Lemma tilde_second s0 ts :
  s0 ≠ "~" → tilde (s0 :: "~" :: ts) home = Returns (home :: ts).
Proof. intros. unfold tilde; simpl. by rewrite decide_False. Qed.

Lemma tilde_none s0 s1 ts :
  s0 ≠ "~" → s1 ≠ "~" → tilde (s0 :: s1 :: ts) home = Returns (s0 :: s1 :: ts).
Proof. intros. unfold tilde; simpl. by rewrite !decide_False. Qed.

(** Case analysis on a list of at least two components, by where its tilde
    is. *)
Lemma tilde_ind (P : list string → list string → Prop) :
  (∀ ts, P ("~" :: ts) (home :: ts)) →
  (∀ s0 ts, s0 ≠ "~" → P (s0 :: "~" :: ts) (home :: ts)) →
  (∀ s0 s1 ts, s0 ≠ "~" → s1 ≠ "~" → P (s0 :: s1 :: ts) (s0 :: s1 :: ts)) →
  ∀ l, 2 ≤ len l → ∃ l', tilde l home = Returns l' ∧ P l l'.
Proof.
  intros H1 H2 H3 [|s0 [|s1 ts]]; [unfold len; simpl; lia..|]. intros _.
  destruct (decide (s0 = "~")) as [->|]; [rewrite tilde_first; eauto|].
  destruct (decide (s1 = "~")) as [->|]; [rewrite tilde_second by done; eauto|].
  rewrite tilde_none by done; eauto.
Qed.

Lemma tilde_expand l : 2 ≤ len l → tilde l home = Returns (expand home l).
Proof.
  intros Hlen.
  destruct (tilde_ind (λ l l', l' = expand home l)) with l as (l' & -> & ->);
    try done; intros; simpl; by rewrite ?decide_True, ?decide_False by done.
Qed.

Lemma tilde_cases l :
  2 ≤ len l → ∃ l', tilde l home = Returns l' ∧ (l' = l ∨ ∃ ts, l' = home :: ts).
Proof. apply (tilde_ind (λ l l', l' = l ∨ ∃ ts, l' = home :: ts)); eauto. Qed.

Lemma tilde_free_id l : 2 ≤ len l → tilde_free l → tilde l home = Returns l.
Proof.
  intros Hlen [H0 H1].
  destruct (tilde_ind (λ l l', tilde_free l → l' = l)) with l
    as (l' & -> & Hl'); try done.
  - by intros ts [? _].
  - by intros s0 ts _ [_ ?].
  - by rewrite Hl'.
Qed.

(** What follows the first two components is kept. *)
Lemma tilde_snoc l k :
  2 ≤ len l → ∃ l', tilde l home = Returns l' ∧ tilde (l ++ k) home = Returns (l' ++ k).
Proof.
  apply (tilde_ind (λ l l', tilde (l ++ k) home = Returns (l' ++ k))); intros; simpl.
  - apply tilde_first.
  - by apply tilde_second.
  - by apply tilde_none.
Qed.

Lemma tilde_last l :
  2 ≤ len l → home ≠ "" → last l ≠ Some "" →
  ∃ l', tilde l home = Returns l' ∧ last l' ≠ Some "".
Proof.
  intros Hlen Hhome Hlast.
  destruct (tilde_ind (λ l l', last l ≠ Some "" → last l' ≠ Some "")) with l
    as (l' & Hl' & HP); eauto.
  - intros [|??]; [by intros ? [=]|done].
  - intros s0 [|??] _; [by intros ? [=]|done].
Qed.

Lemma tilde_free_app l k : 2 ≤ len l → tilde_free l → tilde_free (l ++ k).
Proof.
  destruct l as [|s0 [|s1 ts]]; [unfold len; simpl; lia..|]. by intros _ [??].
Qed.

End tilde.

(** ** [SplitFilePath] *)

Section SplitFilePath.
Context (goos : string) (d : Data).
Implicit Types output path file home rest : string.

#[local] Abbreviation sep := (separator goos).

(** With a separator in [output], the code goes past the early return. *)
Lemma SplitFilePath_sep homedir output :
  has_char sep output = true →
  SplitFilePath goos homedir d output =
  if isDos goos then split_tail (strings_Split output sep) (String sep "")
  else
    match homedir with
    | Err err => Returns (Err err)
    | Ok home =>
        let! split := tilde (strings_Split output sep) home in
        split_tail split (String sep "")
    end.
Proof.
  intros Hsep. unfold SplitFilePath, separator in *.
  destruct (isDos goos); rewrite decide_False; try done.
  all: rewrite len_Split_1; congruence.
Qed.

Lemma Split_tilde : isDos goos = false → strings_Split "~" sep = ["~"].
Proof. unfold separator. by intros ->. Qed.

Lemma SplitFilePath_no_sep homedir output :
  has_char sep output = false →
  SplitFilePath goos homedir d output = Returns (Ok (output, "")).
Proof.
  intros Hsep. unfold SplitFilePath, separator in *.
  destruct (isDos goos); by rewrite decide_True by by apply len_Split_1.
Qed.

(** A name without separator is the file, in no directory.  When the
    separator of the platform does not occur in [output], [SplitFilePath]
    returns [output] as the file and the empty path, whatever
    [homedir.Dir()] returns: the home directory is not looked at. *)
Theorem SplitFilePath_plain homedir output :
  has_char sep output = false →
  SplitFilePath goos homedir d output = Returns (Ok (output, "")).
Proof. apply SplitFilePath_no_sep. Qed.

(** Every index and slice expression is within bounds. *)
Lemma SplitFilePath_total homedir output :
  homedir ≠ Ok "" →
  ∃ r, SplitFilePath goos homedir d output = Returns r.
Proof.
  intros Hhome. destruct (has_char sep output) eqn:Hsep;
    [|rewrite SplitFilePath_no_sep by done; eauto].
  rewrite SplitFilePath_sep by done.
  pose proof (len_Split_ge2 _ _ Hsep) as Hlen.
  pose proof (long_not_short _ Hlen) as [??].
  destruct (isDos goos); [edestruct split_tail_returns as (?&?&->); eauto|].
  destruct homedir as [home|err]; [|eauto].
  destruct (tilde_cases home _ Hlen) as (l' & -> & [->|[ts ->]]); simpl.
  - edestruct split_tail_returns as (?&?&->); eauto.
  - edestruct (split_tail_returns (String sep "") (home :: ts)) as (?&?&->); eauto.
    intros [= -> ->]. done.
Qed.

(** C30: the code and its reference agree.  For every output path, on either
    platform, when the home directory is known (and, off Windows, not
    empty), [SplitFilePath] panics at none of its index and slice
    expressions, returns no error, and returns the file and the path of the
    reference definition [split_ref], which takes the components of the
    path apart without an index: the tilde among the first two is replaced
    by the home directory, the file is the last component that is not the
    empty one after a trailing separator, and the path is what precedes
    it. *)
Theorem SplitFilePath_reference home output :
  (isDos goos = false → home ≠ "") →
  SplitFilePath goos (Ok home) d output = Returns (Ok (split_ref goos home output)).
Proof.
  intros Hhome. unfold split_ref. fold sep.
  destruct (has_char sep output) eqn:Hsep; [|by apply SplitFilePath_no_sep].
  rewrite SplitFilePath_sep by done.
  pose proof (len_Split_ge2 _ _ Hsep) as Hlen.
  pose proof (long_not_short _ Hlen) as [??].
  destruct (isDos goos) eqn:Hos.
  - rewrite split_tail_ref by done. by destruct (file_of _).
  - rewrite tilde_expand by done. simpl.
    destruct (tilde_cases home _ Hlen) as (l' & Hl' & Hcases).
    rewrite tilde_expand in Hl' by done. injection Hl' as <-.
    rewrite split_tail_ref; [by destruct (file_of _)|..];
      destruct Hcases as [->|[ts ->]]; try done; intros [= -> ->]; by apply Hhome.
Qed.

(** [SplitFilePath] does not panic.  As long as [homedir.Dir()] does not
    return an empty home directory without an error, every index and slice
    expression of the function is within bounds, for every [output]. *)
Theorem SplitFilePath_returns homedir output :
  homedir ≠ Ok "" →
  ∃ r, SplitFilePath goos homedir d output = Returns r.
Proof. apply SplitFilePath_total. Qed.

(** Splitting inverts joining.  For a directory [path] and a file name
    [file] that is not empty and holds no separator, [SplitFilePath] of
    [path], the separator and [file] returns [file] and [path]; off Windows
    this needs that neither of the first two components is a tilde. *)
Theorem SplitFilePath_join home path file :
  file ≠ "" → has_char sep file = false →
  (isDos goos = false → tilde_free (strings_Split path sep ++ [file])) →
  SplitFilePath goos (Ok home) d (path +:+ String sep file) =
  Returns (Ok (file, path)).
Proof.
  intros Hfile Hnosep Htilde.
  pose proof (has_char_app_sep sep path file) as Hsep.
  pose proof (len_Split_ge2 _ _ Hsep) as Hlen.
  rewrite SplitFilePath_sep by done.
  rewrite Split_app, (Split_no_sep _ file) in * by done.
  destruct (isDos goos); [|rewrite tilde_free_id by auto; simpl].
  all: by rewrite split_tail_file, Join_Split.
Qed.

(** A trailing separator names the same file.  When [output] does not
    end with a separator, [SplitFilePath] returns for [output] followed by a
    separator what it returns for [output] (the home directory being known
    and [output] not the tilde alone). *)
Theorem SplitFilePath_trailing home output :
  home ≠ "" → output ≠ "~" → last (strings_Split output sep) ≠ Some "" →
  SplitFilePath goos (Ok home) d (output +:+ String sep "") =
  SplitFilePath goos (Ok home) d output.
Proof.
  intros Hhome Hout Hlast.
  rewrite (SplitFilePath_sep _ (output +:+ _)) by apply has_char_app_sep.
  rewrite Split_app. change (strings_Split "" sep) with [""].
  destruct (has_char sep output) eqn:Hsep.
  - pose proof (len_Split_ge2 _ _ Hsep) as Hlen. rewrite SplitFilePath_sep by done.
    destruct (isDos goos); [apply split_tail_snoc_empty, Hlast|].
    destruct (tilde_snoc home _ [""] Hlen) as (l' & Hl' & ->).
    destruct (tilde_last home _ Hlen Hhome Hlast) as (l'' & Hl'' & Hlast').
    rewrite Hl' in Hl'' |- *. injection Hl'' as <-.
    apply split_tail_snoc_empty, Hlast'.
  - rewrite SplitFilePath_no_sep, Split_no_sep by done.
    destruct (isDos goos); [done|]. cbn [app]. by rewrite tilde_none.
Qed.

(** The tilde stands for the home directory.  Off Windows, for a home
    directory that holds a separator and no tilde in its first two
    components, [SplitFilePath] returns for a tilde followed by a separator
    and a non-empty [rest] what it returns for the home directory followed by
    the same. *)
Theorem SplitFilePath_tilde home rest :
  isDos goos = false → has_char sep home = true →
  tilde_free (strings_Split home sep) → rest ≠ "" →
  SplitFilePath goos (Ok home) d ("~" +:+ String sep rest) =
  SplitFilePath goos (Ok home) d (home +:+ String sep rest).
Proof.
  intros Hos Hhome Hfree Hrest.
  rewrite !SplitFilePath_sep by apply has_char_app_sep. rewrite Hos, !Split_app.
  pose proof (len_Split_ge2 _ _ Hhome) as Hlen.
  rewrite (Split_tilde Hos). cbn [app].
  rewrite tilde_first, tilde_free_id
    by (rewrite ?len_app; pose proof (len_nonneg (strings_Split rest sep));
        eauto using tilde_free_app with lia).
  simpl. pose proof (Join_Split sep rest) as HJ.
  destruct (shape_of (strings_Split rest sep)) as [| |pre file ?|pre file];
    [by subst..| |].
  all: rewrite (assoc_L (++)), app_comm_cons.
  all: rewrite ?split_tail_file, ?split_tail_trailing by done.
  all: by rewrite Join_app_l, Join_Split by apply Split_nonempty.
Qed.

(** A tilde in the second place drops the first component.  Off Windows,
    for a first component [a] that is not a tilde, [SplitFilePath] of [a], a
    separator, a tilde and the rest returns what it returns without [a]: the
    path is taken from the home directory and [a] is lost. *)
Theorem SplitFilePath_second_tilde home a rest :
  isDos goos = false → a ≠ "~" → has_char sep a = false →
  SplitFilePath goos (Ok home) d (a +:+ String sep ("~" +:+ String sep rest)) =
  SplitFilePath goos (Ok home) d ("~" +:+ String sep rest).
Proof.
  intros Hos Ha Hnosep.
  rewrite !SplitFilePath_sep by apply has_char_app_sep. rewrite Hos, !Split_app.
  rewrite (Split_no_sep _ a), (Split_tilde Hos) by done. cbn [app].
  by rewrite tilde_first, tilde_second.
Qed.

(** The error of [homedir.Dir()] is returned.  Off Windows, when
    [output] holds a separator and the home directory cannot be determined,
    [SplitFilePath] returns that error, also for a path without tilde. *)
Theorem SplitFilePath_home_error err output :
  isDos goos = false → has_char sep output = true →
  SplitFilePath goos (Err err) d output = Returns (Err err).
Proof. intros Hos Hsep. by rewrite SplitFilePath_sep, Hos. Qed.

End SplitFilePath.

(** ** Witnesses *)

(** An empty home directory makes the bounds check of [split[len(split)-2]]
    fail: the hypothesis of [SplitFilePath_returns] is needed. *)
Example SplitFilePath_empty_home :
  SplitFilePath "linux" (Ok "") ex_job "/~" = Panics "index out of range".
Proof. reflexivity. Qed.

Lemma SplitFilePath_plain_witness :
  SplitFilePath "linux" (Err "no home") ex_job "file.bin" =
  Returns (Ok ("file.bin", "")).
Proof. by apply (SplitFilePath_plain "linux" ex_job). Defined.

Lemma SplitFilePath_returns_witness :
  ∃ r, SplitFilePath "linux" (Ok "/home/u") ex_job "/~" = Returns r.
Proof. by apply (SplitFilePath_returns "linux" ex_job). Defined.

Lemma SplitFilePath_join_witness :
  SplitFilePath "linux" (Ok "/home/u") ex_job ("/tmp/dl" +:+ "/file.bin") =
    Returns (Ok ("file.bin", "/tmp/dl")) ∧
  SplitFilePath "windows" (Ok "") ex_job ("C:\Users\me" +:+ "\file.bin") =
    Returns (Ok ("file.bin", "C:\Users\me")).
Proof.
  split.
  - by apply (SplitFilePath_join "linux" ex_job "/home/u" "/tmp/dl" "file.bin").
  - by apply (SplitFilePath_join "windows" ex_job "" "C:\Users\me" "file.bin").
Defined.

Lemma SplitFilePath_trailing_witness :
  SplitFilePath "linux" (Ok "/home/u") ex_job ("/tmp/dl/file.bin" +:+ "/") =
  SplitFilePath "linux" (Ok "/home/u") ex_job "/tmp/dl/file.bin".
Proof.
  by apply (SplitFilePath_trailing "linux" ex_job "/home/u" "/tmp/dl/file.bin").
Defined.

Lemma SplitFilePath_tilde_witness :
  SplitFilePath "linux" (Ok "/home/u") ex_job ("~" +:+ "/dl/file.bin") =
  SplitFilePath "linux" (Ok "/home/u") ex_job ("/home/u" +:+ "/dl/file.bin").
Proof.
  by apply (SplitFilePath_tilde "linux" ex_job "/home/u" "dl/file.bin").
Defined.

Lemma SplitFilePath_second_tilde_witness :
  SplitFilePath "linux" (Ok "/home/u") ex_job ("data" +:+ "/~/file.bin") =
  SplitFilePath "linux" (Ok "/home/u") ex_job "~/file.bin".
Proof.
  by apply (SplitFilePath_second_tilde "linux" ex_job "/home/u" "data" "file.bin").
Defined.

Lemma SplitFilePath_home_error_witness :
  SplitFilePath "linux" (Err "no home") ex_job "dl/file.bin" =
  Returns (Err "no home").
Proof. by apply (SplitFilePath_home_error "linux" ex_job). Defined.

Lemma SplitFilePath_reference_witness :
  SplitFilePath "linux" (Ok "/home/u") ex_job "data/~/dl/file.bin/"
    = Returns (Ok ("file.bin", "/home/u/dl")) ∧
  SplitFilePath "windows" (Ok "") ex_job "C:\Users\me\~\file.bin"
    = Returns (Ok ("file.bin", "C:\Users\me\~")).
Proof.
  split.
  - by apply (SplitFilePath_reference "linux" ex_job "/home/u" "data/~/dl/file.bin/").
  - by apply (SplitFilePath_reference "windows" ex_job "" "C:\Users\me\~\file.bin").
Defined.
