(* ===== verification/URLName.v ===== *)
(** * The output's name: [URLFileName]

    Translates [URLFileName] of [src/util.go]: the name is the last non-empty
    segment of the URL, followed by [-1], [-2], ... as long as a file of that
    name exists.  Both loops of the function are unbounded in the source;
    here they run on fuel, and the theorems show that the fuel the function
    takes is never exhausted, that the name chosen is free, and that it is
    the first free one. *)

From S2P Require Import Prelude GoStrings FileSys Data.
From stdpp Require Import gmap pretty.
From Stdlib.Strings Require Import Ascii.

#[local] Open Scope Z_scope.

(** ** Definitions *)

(** [for i := 1; original == ""; i++ { original = token[len(token)-i] }]:
    [None] when the fuel runs out. *)
Fixpoint original_loop (fuel : nat) (token : list string) (i : Z)
    (original : string) : option (run string) :=
  if decide (original = "") then
    match fuel with
    | O => None
    | S fuel' =>
        match index token (len token - i) with
        | Panics why => Some (Panics why)
        | Returns t => original_loop fuel' token (i + 1) t
        end
    end
  else Some (Returns original).

(** [for i := 1; true; i++] around [os.Stat(filename)]: the loop is left when
    [os.Stat] fails; [None] when the fuel runs out. *)
Fixpoint uniq_loop (fuel : nat) (original : string) (i : Z) (filename' : string)
    (fs : fsys) : option string :=
  match os_Stat filename' fs with
  | Err _ => Some filename'
  | Ok _ =>
      match fuel with
      | O => None
      | S fuel' =>
          uniq_loop fuel' original (i + 1) (original +:+ "-" +:+ fmt_d i) fs
      end
  end.

(** The first loop gets one unit of fuel per token and one more; the second
    one unit per entry of the file system. *)
Definition URLFileName (d : Data) (url : string) (fs : fsys)
    : option (run Data) :=
  let token := strings_Split url "/" in
  match original_loop (S (length token)) token 1 "" with
  | None => None
  | Some (Panics why) => Some (Panics why)
  | Some (Returns original) =>
      match uniq_loop (size (nodes fs)) original 1 original fs with
      | None => None
      | Some filename' =>
          Some (Returns (mkData filename' (filesize d) (dirname d)))
      end
  end.

(** ** Specification *)

(** The first non-empty segment, from the end. *)
Fixpoint last_segment (rtoken : list string) : option string :=
  match rtoken with
  | [] => None
  | t :: ts => if decide (t = "") then last_segment ts else Some t
  end.

(** The names the second loop tries: [original], [original-1], ... *)
Definition candidate (original : string) (k : Z) : string :=
  if decide (k = 0) then original else original +:+ "-" +:+ fmt_d k.

Definition present (fs : fsys) (name : string) : Prop :=
  is_Some (nodes fs !! name).

#[global] Instance present_dec fs name : Decision (present fs name).
Proof. unfold present. apply _. Defined.

(** ** The first loop *)

Section original.
Implicit Types token : list string.

(** From [i] on, the loop looks at the reversed tokens one after the other. *)
Lemma original_loop_spec token fuel (k : nat) :
  (k ≤ length token)%nat → (length token - k < fuel)%nat →
  original_loop fuel token (Z.of_nat k + 1) "" =
  Some (match last_segment (drop k (reverse token)) with
        | Some t => Returns t
        | None => Panics "index out of range"
        end).
Proof.
  revert k. induction fuel as [|fuel IH]; intros k Hk Hfuel; [lia|].
  cbn [original_loop]. rewrite decide_True by done.
  destruct (decide (k = length token)) as [->|Hne].
  - rewrite index_negative by (unfold len; lia).
    by rewrite drop_ge by (rewrite length_reverse; lia).
  - assert (is_Some (reverse token !! k)) as [t Ht]
      by (apply lookup_lt_is_Some; rewrite length_reverse; lia).
    rewrite (drop_S _ t) by done. cbn [last_segment].
    rewrite reverse_lookup in Ht by lia.
    replace (len token - (Z.of_nat k + 1))
      with (Z.of_nat (length token - S k)) by (unfold len; lia).
    rewrite (index_lookup _ _ t) by done.
    destruct (decide (t = "")) as [->|Ht'].
    + replace (Z.of_nat k + 1 + 1) with (Z.of_nat (S k) + 1) by lia.
      apply IH; lia.
    + destruct fuel; cbn [original_loop]; by rewrite decide_False.
Qed.

End original.

(** ** The second loop *)

Section uniq.
Context (original : string) (fs : fsys).
Implicit Types k i j : Z.

Lemma candidate_succ k :
  0 ≤ k → candidate original (k + 1) = original +:+ "-" +:+ fmt_d (k + 1).
Proof. intros. unfold candidate. by rewrite decide_False by lia. Qed.

Lemma candidate_inj j k :
  0 ≤ j → 0 ≤ k → candidate original j = candidate original k → j = k.
Proof.
  unfold candidate, fmt_d. intros Hj Hk. repeat case_decide; try lia.
  1,2: intros Heq%(f_equal String.length).
  1,2: rewrite string_app_length in Heq; simpl in Heq; lia.
  intros Heq. repeat apply String.app_inj in Heq. by apply pretty_Z_inj in Heq.
Qed.

Lemma os_Stat_present name :
  (∃ info, os_Stat name fs = Ok info) ↔ present fs name.
Proof.
  unfold os_Stat, present. destruct (nodes fs !! name); split.
  all: try by eauto. all: by intros [? ?].
Qed.

(** What the loop returns from the [k]-th candidate on: the first candidate
    that is not present; it runs out of fuel only when [fuel + 1] candidates
    in a row are present. *)
Lemma uniq_loop_spec fuel k :
  0 ≤ k →
  match uniq_loop fuel original (k + 1) (candidate original k) fs with
  | Some name =>
      ∃ j, k ≤ j ≤ k + Z.of_nat fuel ∧ name = candidate original j ∧
           ¬ present fs name ∧ ∀ i, k ≤ i < j → present fs (candidate original i)
  | None => ∀ i, k ≤ i ≤ k + Z.of_nat fuel → present fs (candidate original i)
  end.
Proof.
  revert k. induction fuel as [|fuel IH]; intros k Hk; cbn [uniq_loop].
  all: destruct (os_Stat (candidate original k) fs) as [info|err] eqn:E.
  all: try (exists k; do 2 (split; [done || lia|]); split; [|intros; lia];
            rewrite <-os_Stat_present; intros [? ?]; congruence).
  all: assert (present fs (candidate original k)) as Hk'
         by (apply os_Stat_present; eauto).
  - intros i Hi. by replace i with k by lia.
  - rewrite <-candidate_succ by done. specialize (IH (k + 1) ltac:(lia)).
    destruct (uniq_loop _ _ _ _ _) as [name|].
    + destruct IH as (j & Hj & -> & Hfree & Hbefore). exists j.
      do 3 (split; [done || lia|]). intros i Hi. destruct (decide (i = k)) as [->|]; [done|apply Hbefore; lia].
    + intros i Hi. destruct (decide (i = k)) as [->|]; [done|apply IH; lia].
Qed.

(** There are no more present candidates than entries in the file system. *)
Lemma candidates_bounded (n : nat) :
  (∀ i, 0 ≤ i ≤ Z.of_nat n → present fs (candidate original i)) →
  (n < size (nodes fs))%nat.
Proof.
  intros Hall. set (l := candidate original <$> seqZ 0 (Z.of_nat n + 1)).
  assert (NoDup l) as Hnd.
  { apply NoDup_fmap_2_strong; [|apply NoDup_seqZ].
    intros j k [??]%elem_of_seqZ [??]%elem_of_seqZ. apply candidate_inj; lia. }
  assert (list_to_set l ⊆ dom (nodes fs)) as Hsub.
  { intros x [k [-> [??]%elem_of_seqZ]]%elem_of_list_to_set%list_elem_of_fmap.
    apply elem_of_dom, Hall. lia. }
  apply subseteq_size in Hsub.
  rewrite size_list_to_set, size_dom in Hsub by done.
  subst l. rewrite length_fmap, length_seqZ in Hsub. lia.
Qed.

(** With one unit of fuel per entry the loop finds a name. *)
Lemma uniq_loop_terminates :
  ∃ name j, uniq_loop (size (nodes fs)) original 1 original fs = Some name ∧
    0 ≤ j ∧ name = candidate original j ∧ ¬ present fs name ∧
    ∀ i, 0 ≤ i < j → present fs (candidate original i).
Proof.
  pose proof (uniq_loop_spec (size (nodes fs)) 0 ltac:(done)) as H.
  change (0 + 1) with 1 in H. change (candidate original 0) with original in H.
  destruct (uniq_loop _ _ _ _ _) as [name|].
  - destruct H as (j & ? & ? & ? & ?). exists name, j. split_and!; auto with lia.
  - apply candidates_bounded in H. lia.
Qed.

End uniq.

(** ** [URLFileName] *)

Section URLFileName.
Context (d : Data).
Implicit Types (url original : string) (fs : fsys) (j i : Z).

#[local] Abbreviation segment url := (last_segment (reverse (strings_Split url "/"))).

(** The job with the [j]-th candidate as its file name. *)
Definition renamed (original : string) (j : Z) : Data :=
  mkData (candidate original j) (filesize d) (dirname d).

Lemma original_loop_segment url :
  original_loop (S (length (strings_Split url "/"))) (strings_Split url "/") 1 "" =
  Some (match segment url with
        | Some t => Returns t
        | None => Panics "index out of range"
        end).
Proof. apply (original_loop_spec _ _ 0); lia. Qed.

(** A URL with a non-empty segment: the name is the first candidate, counted
    from the segment itself, that is not present. *)
Lemma URLFileName_segment url original fs :
  segment url = Some original →
  ∃ j, 0 ≤ j ∧ URLFileName d url fs = Some (Returns (renamed original j)) ∧
       ¬ present fs (candidate original j) ∧
       ∀ i, 0 ≤ i < j → present fs (candidate original i).
Proof.
  intros Hseg. unfold URLFileName. rewrite original_loop_segment, Hseg.
  destruct (uniq_loop_terminates original fs) as (name & j & -> & ? & -> & ? & ?).
  by exists j.
Qed.

Lemma URLFileName_no_segment url fs :
  segment url = None → URLFileName d url fs = Some (Panics "index out of range").
Proof.
  intros Hseg. unfold URLFileName. by rewrite original_loop_segment, Hseg.
Qed.

Lemma last_segment_nonempty (l : list string) t : last_segment l = Some t → t ≠ "".
Proof.
  induction l as [|x l IH]; [done|]. cbn [last_segment].
  case_decide; [done|]. by intros [= <-].
Qed.

Lemma candidate_nonempty original j : original ≠ "" → candidate original j ≠ "".
Proof.
  unfold candidate. case_decide; [done|]. by destruct original.
Qed.

Lemma URLFileName_inv url fs d' :
  URLFileName d url fs = Some (Returns d') →
  ∃ original j, segment url = Some original ∧ 0 ≤ j ∧ d' = renamed original j ∧
    ¬ present fs (candidate original j) ∧
    ∀ i, 0 ≤ i < j → present fs (candidate original i).
Proof.
  destruct (segment url) as [original|] eqn:Hseg;
    [|by rewrite URLFileName_no_segment].
  destruct (URLFileName_segment url original fs Hseg) as (j & ? & -> & ? & ?).
  intros [= <-]. by exists original, j.
Qed.

Lemma last_segment_snoc (l : list string) name :
  name ≠ "" → last_segment (reverse (l ++ [name])) = Some name.
Proof. intros. rewrite reverse_snoc. cbn [last_segment]. by rewrite decide_False. Qed.

Lemma last_segment_empty (l : list string) :
  Forall (λ t, t = "") l → last_segment l = None.
Proof.
  induction 1 as [|t l -> _ IH]; [done|]. cbn [last_segment]. by rewrite decide_True.
Qed.

(** The name set is free and not empty. *)
Lemma URLFileName_created url fs d' :
  URLFileName d url fs = Some (Returns d') →
  nodes fs !! filename d' = None ∧ filename d' ≠ "" ∧
  filesize d' = filesize d ∧ dirname d' = dirname d.
Proof.
  intros (original & j & Hseg%last_segment_nonempty & _ & -> & Hfree & _)%URLFileName_inv.
  split_and!; [|by apply candidate_nonempty|done..].
  by apply eq_None_not_Some.
Qed.

(** Neither loop runs out of fuel. *)
Lemma URLFileName_result url fs : ∃ r, URLFileName d url fs = Some r.
Proof.
  destruct (segment url) as [original|] eqn:Hseg.
  - destruct (URLFileName_segment url original fs Hseg) as (j & _ & -> & _). eauto.
  - rewrite URLFileName_no_segment by done. eauto.
Qed.

(** C25: [URLFileName] terminates.  Neither loop of the function has a bound
    in the source; on every URL and every file system the first ends within
    one round per segment of the URL and the second within one round per
    entry of the file system, by returning or by a panic. *)
Theorem URLFileName_terminates url fs : ∃ r, URLFileName d url fs = Some r.
Proof. apply URLFileName_result. Qed.

(** The name chosen is free.  When [URLFileName] returns, no entry of
    the file system has the name it set, and the size and the workspace name
    of the job are unchanged. *)
Theorem URLFileName_fresh url fs d' :
  URLFileName d url fs = Some (Returns d') →
  ¬ present fs (filename d') ∧ filesize d' = filesize d ∧ dirname d' = dirname d.
Proof. by intros (original & j & _ & _ & -> & ? & _)%URLFileName_inv. Qed.

(** C32: the name is the first free candidate.  For a URL whose last
    non-empty segment is [original], [URLFileName] sets the name to
    [original] when no such entry exists, and else to [original-j] for the
    least [j >= 1] for which no such entry exists. *)
Theorem URLFileName_first_free url original fs :
  segment url = Some original →
  ∃ j, 0 ≤ j ∧ URLFileName d url fs = Some (Returns (renamed original j)) ∧
       ¬ present fs (candidate original j) ∧
       ∀ i, 0 ≤ i < j → present fs (candidate original i).
Proof. apply URLFileName_segment. Qed.

(** The name comes from the end of the URL.  For a URL that ends with a
    slash and a non-empty [name] without slash, and no entry called [name],
    [URLFileName] sets the file name to [name]. *)
Theorem URLFileName_last_segment pre name fs :
  name ≠ "" → has_char "/" name = false → ¬ present fs name →
  URLFileName d (pre +:+ String "/" name) fs =
  Some (Returns (mkData name (filesize d) (dirname d))).
Proof.
  intros Hname Hslash Hfree.
  destruct (URLFileName_segment (pre +:+ String "/" name) name fs)
    as (j & Hj & -> & _ & Hbefore).
  { rewrite Split_app, (Split_no_sep _ name) by done.
    by apply last_segment_snoc. }
  destruct (decide (j = 0)) as [->|]; [done|].
  destruct Hfree. apply (Hbefore 0). lia.
Qed.

(** C36: two downloads of one URL get different names.  When [URLFileName]
    has chosen a name and a file of that name has been created, a second
    call for the same URL chooses another name. *)
Theorem URLFileName_twice url fs d1 fh fs' :
  URLFileName d url fs = Some (Returns d1) →
  os_Create (filename d1) fs = Ok (fh, fs') →
  ∃ d2, URLFileName d url fs' = Some (Returns d2) ∧ filename d2 ≠ filename d1.
Proof.
  intros (original & j & Hseg & _ & -> & _)%URLFileName_inv.
  intros (_ & Hnodes & _)%os_Create_Ok.
  destruct (URLFileName_segment url original fs' Hseg) as (j' & _ & -> & Hfree & _).
  eexists; split; [done|]. simpl. intros Heq. apply Hfree.
  unfold present. rewrite Heq, Hnodes. by rewrite lookup_insert_eq.
Qed.

(** C39: a URL without a non-empty segment panics.  When every piece of the
    URL between slashes is empty, the first loop runs past the first token
    and [token[len(token)-i]] fails its bounds check. *)
Theorem URLFileName_panics url fs :
  Forall (λ t, t = "") (strings_Split url "/") →
  URLFileName d url fs = Some (Panics "index out of range").
Proof.
  intros Hall. apply URLFileName_no_segment, last_segment_empty.
  by apply Forall_reverse.
Qed.

End URLFileName.

(** ** Witnesses *)

(** A directory that holds [file] and [file-1]. *)
Definition ex_dir : fsys :=
  Fsys (list_to_map [("file", File []); ("file-1", File []); ("other", Dir true)]) 100.

Lemma URLFileName_fresh_witness :
  ¬ present ex_dir (filename (mkData "file-2" 1000 "_file.4")) ∧
  filesize (mkData "file-2" 1000 "_file.4") = filesize ex_job ∧
  dirname (mkData "file-2" 1000 "_file.4") = dirname ex_job.
Proof. by apply (URLFileName_fresh ex_job "http://host/dir/file" ex_dir). Defined.

Lemma URLFileName_first_free_witness :
  ∃ j, 0 ≤ j ∧
    URLFileName ex_job "http://host/dir/file/" ex_dir =
      Some (Returns (renamed ex_job "file" j)) ∧
    ¬ present ex_dir (candidate "file" j) ∧
    ∀ i, 0 ≤ i < j → present ex_dir (candidate "file" i).
Proof. by apply (URLFileName_first_free ex_job "http://host/dir/file/" "file" ex_dir). Defined.

Lemma URLFileName_last_segment_witness :
  URLFileName ex_job ("http://host/dir" +:+ "/file.bin") ex_dir =
  Some (Returns (mkData "file.bin" 1000 "_file.4")).
Proof.
  apply (URLFileName_last_segment ex_job "http://host/dir" "file.bin" ex_dir);
    [done|done|].
  apply (bool_decide_unpack _). by vm_compute.
Defined.

Lemma URLFileName_twice_witness :
  ∃ d2, URLFileName ex_job "http://host/file"
          (Fsys {["file" := File []]} 100) = Some (Returns d2) ∧
        filename d2 ≠ filename (mkData "file" 1000 "_file.4").
Proof.
  by apply (URLFileName_twice ex_job "http://host/file" (Fsys ∅ 100)
              (mkData "file" 1000 "_file.4") "file").
Defined.

Lemma URLFileName_panics_witness :
  URLFileName ex_job "//" ex_dir = Some (Panics "index out of range").
Proof.
  apply (URLFileName_panics ex_job "//" ex_dir). by repeat constructor.
Defined.
