(* ===== verification/Iface.v ===== *)
(** * The interface [Utils]

    The Go interface [Utils] of [src/util.go] as a class of operations,
    [UtilsSpec], what a caller of the interface may rely on, and the instance
    for [Data], whose laws follow from the lemmas of the component files.
    The download pipeline is proved against [UtilsSpec] alone. *)

From S2P Require Import Prelude GoInt GoStrings FileSys Data Merge Progress.
From S2P Require Import SplitPath URLName.
From stdpp Require Import gmap.

#[local] Open Scope Z_scope.

(** ** The operations *)

(** [type Utils interface], method by method in the order of the source.
    What a method reads from its surroundings is an argument: the platform,
    the result of [homedir.Dir()], the file system, the observations of the
    monitor.  A method with a pointer receiver returns the new receiver. *)
Class Utils (T : Type) : Type := {
  U_SplitFilePath :
    string → result string → T → string → run (result (string * string));
  U_ProgressBar : T → list observation → list event * status;
  U_BindwithFiles : T → Z → fsys → outcome;
  U_IsFree : string → T → Z → fsys → option error;
  U_MakeRange : T → Z → Z → Z → Range;
  U_SetFileName : T → string → T;
  U_URLFileName : T → string → fsys → option (run T);
  U_SetDirName : T → string → string → Z → T;
  U_SetFileSize : T → Z → T;
  U_FileName : T → string;
  U_FileSize : T → Z;
  U_DirName : T → string;
}.

#[global] Instance Data_Utils : Utils Data := {|
  U_SplitFilePath := SplitFilePath;
  U_ProgressBar := ProgressBar;
  U_BindwithFiles := BindwithFiles;
  U_IsFree := IsFree;
  U_MakeRange := MakeRange;
  U_SetFileName := SetFileName;
  U_URLFileName := URLFileName;
  U_SetDirName := SetDirName;
  U_SetFileSize := SetFileSize;
  U_FileName := FileName;
  U_FileSize := FileSize;
  U_DirName := DirName;
|}.

(** What the getters show of an implementation. *)
Definition view `{Utils T} (t : T) : Data :=
  mkData (U_FileName t) (U_FileSize t) (U_DirName t).

(** ** The contract *)

(** What [BindwithFiles] leaves when the partial files exist with the
    contents [pd]: the output holds what the copies could write, the tree of
    the workspace is gone, and the space of the partial files, held while
    they were open, is free again once the function has returned. *)
Definition merge_outcome (d : Data) (procs : Z) (pd : Z → bytes) (fs : fsys)
    : outcome :=
  let space := (free fs + old_len (filename d) fs)%nat in
  let m := <[filename d := File (copied pd (seqZ 0 procs) space)]> (nodes fs) in
  (Fsys (filter (λ kv, ¬ in_tree (dirname d) kv) m)
        (space - parts_total pd (seqZ 0 procs) +
         du (filter (in_tree (dirname d)) (drop_parts d procs (seqZ 0 procs) m)) +
         parts_total pd (seqZ 0 procs)),
   hello d ++ bar_adds pd (seqZ 0 procs) space ++ [BarFinish; Println "Complete"],
   None).

Class UtilsSpec (T : Type) `{Utils T} : Prop := {
  (** A setter changes its field and no other. *)
  view_SetFileName t output :
    view (U_SetFileName t output) = mkData output (U_FileSize t) (U_DirName t);
  view_SetFileSize t size :
    view (U_SetFileSize t size) = mkData (U_FileName t) size (U_DirName t);
  view_SetDirName t path fn procs :
    U_FileName (U_SetDirName t path fn procs) = U_FileName t ∧
    U_FileSize (U_SetDirName t path fn procs) = U_FileSize t;
  (** The workspace named after the output is apart from it. *)
  separate_SetDirName t path procs :
    separate (view (U_SetDirName t path (U_FileName t) procs));
  (** The name [URLFileName] sets can be created. *)
  URLFileName_total t url fs : is_Some (U_URLFileName t url fs);
  URLFileName_free t url fs t' :
    U_URLFileName t url fs = Some (Returns t') →
    nodes fs !! U_FileName t' = None ∧ U_FileName t' ≠ "" ∧
    U_FileSize t' = U_FileSize t ∧ U_DirName t' = U_DirName t;
  (** [SplitFilePath] returns. *)
  SplitFilePath_safe goos homedir t output :
    homedir ≠ Ok "" → ∃ r, U_SplitFilePath goos homedir t output = Returns r;
  (** [IsFree] accepts exactly when [size + split] bytes are free. *)
  IsFree_spec goos t split fs :
    is_u64 (Z.of_nat (free fs)) → is_u64 (U_FileSize t + split) →
    U_IsFree goos t split fs = None ↔ U_FileSize t + split ≤ Z.of_nat (free fs);
  IsFree_message goos t split fs err :
    U_IsFree goos t split fs = Some err →
    err = "there is not sufficient free space in a disk";
  (** [MakeRange] computes the specification's range. *)
  MakeRange_range t procs i :
    is_u64 (U_FileSize t) → 0 < procs ≤ U_FileSize t → 0 ≤ i < procs →
    U_MakeRange t i (U_FileSize t / procs) procs
    = range_spec (U_FileSize t) procs i;
  (** [BindwithFiles] on partial files that exist. *)
  BindwithFiles_outcome t procs pd fs :
    separate (view t) → creatable (U_FileName t) fs →
    nodes fs !! U_DirName t ≠ Some (Dir false) →
    parts_are_files (view t) procs pd fs →
    U_BindwithFiles t procs fs = merge_outcome (view t) procs pd fs;
  (** [BindwithFiles] touches nothing when it cannot create the output. *)
  BindwithFiles_uncreatable t procs fs :
    ¬ creatable (U_FileName t) fs →
    fs_of (U_BindwithFiles t procs fs) = fs ∧
    is_Some (err_of (U_BindwithFiles t procs fs));
  (** [BindwithFiles] leaves the volume the size it had. *)
  BindwithFiles_volume t procs fs :
    capacity (fs_of (U_BindwithFiles t procs fs)) = capacity fs;
  (** [ProgressBar] starts the bar and runs the monitor's machine. *)
  ProgressBar_machine t obs :
    ∃ evs s,
      U_ProgressBar t obs
        = (BarStart (Progress.total (view t)) :: evs, status_of s) ∧
      mon_run (view t) Polling obs evs s;
}.

(** ** [Data] keeps the contract *)

Lemma view_Data (d : Data) : view d = d.
Proof. by destruct d. Qed.

#[global] Instance Data_UtilsSpec : UtilsSpec Data.
Proof.
  split; intros; rewrite ?view_Data in *; simpl in *.
  - done.
  - done.
  - unfold SetDirName. by case_decide.
  - apply SetDirName_apart.
  - destruct (URLFileName_result t url fs) as [r ->]. done.
  - by apply (URLFileName_created t url fs).
  - by apply SplitFilePath_total.
  - by apply IsFree_iff.
  - by eapply IsFree_error.
  - by apply MakeRange_spec.
  - by apply BindwithFiles_files.
  - match goal with Hc : ¬ creatable _ _ |- _ =>
      destruct (BindwithFiles_create_error _ procs _ Hc) as (e & _ & ->)
    end. by split; [|eexists].
  - apply BindwithFiles_capacity.
  - unfold ProgressBar, Progress.total.
    destruct (loop_refines t obs) as (s & Hrun & Hst).
    destruct (ProgressBar_loop t obs) as [evs st]. simpl in *. subst st. eauto.
Qed.
