(* ===== verification/Download.v ===== *)
(** * The download pipeline

    The caller of the interface [Utils]: the space check, the workspace, one
    fetch per range into the partial file of its worker, and the merge.  This
    code is not in [src/util.go]; it is modelled from the specification.  The
    workers run one after the other in an arbitrary order, each writing its
    partial file in one step.  The lemmas on the workers and on the merge
    are proved for whatever bytes each worker is sent ([workers_fetched],
    [merge_fetched]) and for every implementation that keeps the contract
    [UtilsSpec]; the theorems hold for [Data] by its instance.  For a file
    shorter than the number of workers the ranges of [MakeRange] wrap, and
    the output is the resource once for each worker
    ([Download_short_file]). *)

From S2P Require Import Prelude GoInt FileSys Data Merge Progress Iface.
From stdpp Require Import gmap.

#[local] Open Scope Z_scope.

(** ** Definitions *)

Section pipeline.
Context `{UtilsSpec T}.
Context (goos : string) (content : bytes).

(** [fetchRange(url, low, high, dest)]: the bytes of the range are written to
    a new file [dest].  [content] is the resource behind the URL. *)
Definition fetchRange (r : Range) (dest : string) (fs : fsys)
    : fsys * option error :=
  match os_Create dest fs with
  | Err err => (fs, Some err)
  | Ok (fh, fs1) =>
      let '(fs2, (_, err)) := file_Write fh (range_bytes content r) fs1 in
      (fs2, err)
  end.

(** Worker [i]: its range, into its partial file. *)
Definition worker (t : T) (procs i : Z) (fs : fsys) : fsys * option error :=
  fetchRange (U_MakeRange t i (U_FileSize t / procs) procs)
    (part_name (view t) procs i) fs.

(** The workers, in the order in which they get to run.  Every worker runs;
    the error is the first one met. *)
Fixpoint workers (t : T) (procs : Z) (order : list Z) (fs : fsys)
    : fsys * option error :=
  match order with
  | [] => (fs, None)
  | i :: order' =>
      let '(fs1, e1) := worker t procs i fs in
      let '(fs2, e2) := workers t procs order' fs1 in
      (fs2, if e1 is Some _ then e1 else e2)
  end.

(** The pipeline: space check, workspace, workers, merge. *)
Definition Download (t : T) (procs : Z) (order : list Z) (fs : fsys) : outcome :=
  let split := U_FileSize t / procs in
  match U_IsFree goos t split fs with
  | Some err => (fs, [], Some err)
  | None =>
      match os_MkdirAll (U_DirName t) fs with
      | Err err => (fs, [], Some err)
      | Ok fs1 =>
          match workers t procs order fs1 with
          | (fs2, Some err) => (fs2, [], Some err)
          | (fs2, None) => U_BindwithFiles t procs fs2
          end
      end
  end.

(** ** Vocabulary *)

(** What worker [i] is sent. *)
Definition part (size procs i : Z) : bytes :=
  range_bytes content (range_spec size procs i).

(** The partial files of the workers [idx] when worker [i] has written
    [pd i], as a map. *)
Definition files_map (t : T) (procs : Z) (pd : Z → bytes) (idx : list Z)
    : gmap string node :=
  list_to_map ((λ i, (part_name (view t) procs i, File (pd i))) <$> idx).

(** The file system when every worker has written its file in the new
    workspace. *)
Definition fetched (t : T) (procs : Z) (pd : Z → bytes) (fs : fsys)
    : gmap string node :=
  files_map t procs pd (seqZ 0 procs) ∪ <[U_DirName t := Dir true]> (nodes fs).

(** The partial files of the workers [idx], as a map, and their total
    length. *)
Definition parts_map (t : T) (procs : Z) (idx : list Z) : gmap string node :=
  files_map t procs (part (U_FileSize t) procs) idx.

Definition parts_size (t : T) (procs : Z) (idx : list Z) : nat :=
  sum_list_with (length ∘ part (U_FileSize t) procs) idx.

End pipeline.

(** The fields of [view t] are the getters of [t]. *)
Ltac fold_view :=
  repeat match goal with
  | |- context [filename (view ?t)] =>
      change (filename (view t)) with (U_FileName t)
  | |- context [dirname (view ?t)] =>
      change (dirname (view t)) with (U_DirName t)
  | |- context [filesize (view ?t)] =>
      change (filesize (view t)) with (U_FileSize t)
  end.

(** ** The workers *)

(** Workers that are sent [pd i] for the range [MakeRange] computes for
    them. *)
Section fetch.
Context `{HU : UtilsSpec T}.
Context (content : bytes) (t : T) (procs : Z) (pd : Z → bytes).
Hypothesis Hpd : ∀ i, 0 ≤ i < procs →
  range_bytes content (U_MakeRange t i (U_FileSize t / procs) procs) = pd i.

#[local] Abbreviation pname := (part_name (view t) procs).
Implicit Types (fs : fsys) (i j : Z) (idx order : list Z).

(** A worker whose partial file does not exist and fits writes it. *)
Lemma worker_fetches i fs :
  0 ≤ i < procs → nodes fs !! pname i = None → (length (pd i) ≤ free fs)%nat →
  worker content t procs i fs =
    (Fsys (<[pname i := File (pd i)]> (nodes fs)) (free fs - length (pd i))%nat,
     None).
Proof using HU Hpd.
  intros Hi Hnone Hfit. unfold worker, fetchRange. rewrite Hpd by done.
  rewrite os_Create_new by (done || apply part_name_nonempty).
  rewrite file_Write_fits; simpl; [|by rewrite lookup_insert_eq|done].
  by rewrite insert_insert_eq.
Qed.

Lemma files_map_lookup idx i :
  i ∈ idx → files_map t procs pd idx !! pname i = Some (File (pd i)).
Proof using Type.
  clear Hpd. unfold files_map.
  induction idx as [|j idx IH]; [by intros ?%elem_of_nil|].
  csimpl. destruct (decide (i = j)) as [->|Hne]; [by rewrite lookup_insert_eq|].
  intros [?|Hi]%elem_of_cons; [done|].
  rewrite lookup_insert_ne by (intros ?%part_name_inj; done). by apply IH.
Qed.

Lemma files_map_lookup_None idx p :
  (∀ i, i ∈ idx → p ≠ pname i) → files_map t procs pd idx !! p = None.
Proof using Type.
  clear Hpd. unfold files_map.
  induction idx as [|j idx IH]; intros Hp; csimpl; [done|].
  rewrite lookup_insert_ne by (symmetry; apply Hp; by left).
  apply IH. intros; apply Hp. by right.
Qed.

(** Workers whose partial files do not exist and fit together write them, in
    whatever order they run. *)
Lemma workers_fetch order : ∀ fs,
  NoDup order →
  (∀ i, i ∈ order → 0 ≤ i < procs ∧ nodes fs !! pname i = None) →
  (parts_total pd order ≤ free fs)%nat →
  workers content t procs order fs =
    (Fsys (files_map t procs pd order ∪ nodes fs)
          (free fs - parts_total pd order)%nat, None).
Proof using HU Hpd.
  induction order as [|i order IH]; intros fs Hnd Hin Hfit.
  { simpl. unfold files_map, parts_total; simpl.
    by rewrite (left_id_L ∅ (∪)), Nat.sub_0_r, fsys_eta. }
  apply NoDup_cons in Hnd as [Hi Hnd]. destruct (Hin i) as [Hr Hnone]; [by left|].
  unfold parts_total in *. cbn [workers sum_list_with compose] in *.
  rewrite worker_fetches by (done || lia). rewrite IH; simpl.
  - f_equal. f_equal; [|lia]. unfold files_map at 2. csimpl.
    rewrite <-insert_union_l. symmetry. apply insert_union_r.
    apply files_map_lookup_None. intros j Hj ?%part_name_inj. by subst.
  - done.
  - intros j Hj. destruct (Hin j) as [? ?]; [by right|]. split; [done|].
    rewrite lookup_insert_ne; [done|]. intros ?%part_name_inj. by subst.
  - lia.
Qed.

(** The order of the workers does not matter for what they write. *)
Lemma files_map_perm idx1 idx2 :
  NoDup idx1 → idx1 ≡ₚ idx2 →
  files_map t procs pd idx1 = files_map t procs pd idx2.
Proof using Type.
  clear Hpd. intros Hnd Hperm. apply list_to_map_proper; [|by rewrite Hperm].
  rewrite <-list_fmap_compose. apply NoDup_fmap_2_strong; [|done].
  intros i j _ _. apply part_name_inj.
Qed.

(** What the workers leave in a new workspace, in whatever order they run. *)
Lemma workers_fetched order fs :
  vacant (U_DirName t) fs → order ≡ₚ seqZ 0 procs →
  (parts_total pd (seqZ 0 procs) ≤ free fs)%nat →
  workers content t procs order
    (Fsys (<[U_DirName t := Dir true]> (nodes fs)) (free fs))
  = (Fsys (fetched t procs pd fs) (free fs - parts_total pd (seqZ 0 procs))%nat,
     None).
Proof using HU Hpd.
  intros Hvac Hperm Hfree.
  assert (NoDup order) as Hnd by (rewrite Hperm; apply NoDup_seqZ).
  assert (parts_total pd order = parts_total pd (seqZ 0 procs)) as Htot
    by (unfold parts_total; by rewrite Hperm).
  rewrite workers_fetch; simpl; [|done| |lia].
  - by rewrite Htot, (files_map_perm order (seqZ 0 procs)).
  - intros i Hi. rewrite Hperm in Hi. apply elem_of_seqZ in Hi. split; [lia|].
    rewrite lookup_insert_ne by apply (part_name_ne_dirname (view t)).
    apply (vacant_lookup (U_DirName t)); [done|]. right.
    apply (part_name_under (view t)).
Qed.

End fetch.

(** Workers that are sent the bytes of the ranges of the specification. *)
Section workers.
Context `{HU : UtilsSpec T}.
Context (goos : string) (content : bytes) (t : T) (procs : Z).
Hypothesis Hwf : is_u64 (U_FileSize t).
Hypothesis Hprocs : 0 < procs ≤ U_FileSize t.
Hypothesis Hlen : Z.of_nat (length content) = U_FileSize t.

#[local] Abbreviation d := (view t).
#[local] Abbreviation pd := (part content (U_FileSize t) procs).
#[local] Abbreviation pname := (part_name (view t) procs).
Implicit Types (fs : fsys) (i j : Z) (idx order : list Z).

Lemma part_sent i :
  0 ≤ i < procs →
  range_bytes content (U_MakeRange t i (U_FileSize t / procs) procs) = pd i.
Proof using HU Hwf Hprocs. intros Hi. by rewrite MakeRange_range. Qed.

Lemma worker_writes i fs :
  0 ≤ i < procs → nodes fs !! pname i = None → (length (pd i) ≤ free fs)%nat →
  worker content t procs i fs =
    (Fsys (<[pname i := File (pd i)]> (nodes fs)) (free fs - length (pd i))%nat,
     None).
Proof using HU Hwf Hprocs. apply worker_fetches, part_sent. Qed.

Lemma parts_map_lookup idx i :
  i ∈ idx → parts_map content t procs idx !! pname i = Some (File (pd i)).
Proof using Type. apply files_map_lookup. Qed.

Lemma parts_map_lookup_None idx p :
  (∀ i, i ∈ idx → p ≠ pname i) → parts_map content t procs idx !! p = None.
Proof using Type. apply files_map_lookup_None. Qed.

Lemma workers_write order fs :
  NoDup order →
  (∀ i, i ∈ order → 0 ≤ i < procs ∧ nodes fs !! pname i = None) →
  (parts_size content t procs order ≤ free fs)%nat →
  workers content t procs order fs =
    (Fsys (parts_map content t procs order ∪ nodes fs)
          (free fs - parts_size content t procs order)%nat, None).
Proof using HU Hwf Hprocs. apply (workers_fetch content t procs pd), part_sent. Qed.

(** The order of the workers does not matter for what they write. *)
#[global] Instance parts_size_proper :
  Proper ((≡ₚ) ==> (=)) (parts_size content t procs).
Proof using Type. intros idx1 idx2 Hperm. unfold parts_size. by rewrite Hperm. Qed.

Lemma parts_map_perm idx1 idx2 :
  NoDup idx1 → idx1 ≡ₚ idx2 →
  parts_map content t procs idx1 = parts_map content t procs idx2.
Proof using Type. apply files_map_perm. Qed.

(** Together the parts are as long as the resource. *)
Lemma parts_size_all :
  parts_size content t procs (seqZ 0 procs) = length content.
Proof using Hprocs Hlen.
  unfold parts_size. rewrite <-length_concat_fmap.
  f_equal. by apply (range_spec_reassemble (view t)).
Qed.

End workers.

(** ** The merge after the workers *)

(** A workspace in which worker [i] has written [pd i]. *)
Section fetched.
Context `{HU : UtilsSpec T}.
Context (t : T) (procs : Z) (pd : Z → bytes) (fs : fsys).
Hypothesis Hsep : separate (view t).
Hypothesis Hvac : vacant (U_DirName t) fs.

#[local] Abbreviation out := (U_FileName t).
#[local] Abbreviation dir := (U_DirName t).
#[local] Abbreviation idx := (seqZ 0 procs).
#[local] Abbreviation pname := (part_name (view t) procs).
#[local] Abbreviation files := (files_map t procs pd idx).

#[local] Abbreviation ws := (fetched t procs pd fs).

Lemma out_not_in_tree p : p = dir ∨ is_under dir p = true → p ≠ out.
Proof using Hsep.
  destruct Hsep as (_ & Hne & Hunder). simpl in *.
  intros [Hp|Hp] E; subst p; congruence.
Qed.

Lemma files_not_outside p :
  ¬ (p = dir ∨ is_under dir p = true) → files !! p = None.
Proof using Type.
  intros Hp. apply files_map_lookup_None. intros i _ ->.
  apply Hp. right. apply (part_name_under (view t)).
Qed.

Lemma fetched_lookup_part i :
  0 ≤ i < procs → ws !! pname i = Some (File (pd i)).
Proof using Type.
  intros Hi. apply lookup_union_Some_l, files_map_lookup, elem_of_seqZ. lia.
Qed.

Lemma fetched_lookup_other p :
  (∀ i, 0 ≤ i < procs → p ≠ pname i) →
  ws !! p = <[dir := Dir true]> (nodes fs) !! p.
Proof using Type.
  intros Hp. apply lookup_union_r, files_map_lookup_None.
  intros i [??]%elem_of_seqZ. apply Hp. lia.
Qed.

(** Without the tree of the workspace, what is left is what was there, and
    the output. *)
Lemma fetched_nodes n :
  filter (λ kv, ¬ in_tree dir kv) (<[out := n]> ws) = <[out := n]> (nodes fs).
Proof using Hsep Hvac.
  apply map_eq. intros p. rewrite filter_not_in_tree_lookup. case_decide as Hp.
  - rewrite lookup_insert_ne by (symmetry; by apply out_not_in_tree).
    symmetry. by apply (vacant_lookup dir).
  - destruct (decide (p = out)) as [->|]; [by rewrite !lookup_insert_eq|].
    rewrite !lookup_insert_ne by done. unfold fetched.
    rewrite lookup_union_r by by apply files_not_outside.
    rewrite lookup_insert_ne; [done|]. intros <-. apply Hp. by left.
Qed.

(** Once the files are removed, the tree of the workspace is the directory
    alone. *)
Lemma fetched_tree n :
  filter (in_tree dir) (drop_parts (view t) procs idx (<[out := n]> ws))
  = {[dir := Dir true]}.
Proof using Hsep Hvac.
  apply map_eq. intros p. rewrite filter_in_tree_lookup. case_decide as Hp.
  2:{ rewrite lookup_singleton_ne; [done|]. intros <-. apply Hp. by left. }
  destruct (decide (Exists (λ i, p = pname i) idx)) as [Hex|Hnex].
  { apply Exists_exists in Hex as (i & Hi & ->).
    rewrite drop_parts_lookup by done. symmetry. apply lookup_singleton_ne.
    apply (part_name_ne_dirname (view t)). }
  rewrite drop_parts_lookup_ne by (intros i Hi ->; apply Hnex, Exists_exists; eauto).
  rewrite lookup_insert_ne by (symmetry; by apply out_not_in_tree).
  rewrite fetched_lookup_other.
  - destruct (decide (p = dir)) as [->|].
    + by rewrite lookup_insert_eq, lookup_singleton_eq.
    + rewrite lookup_insert_ne, lookup_singleton_ne by done. by apply (vacant_lookup dir).
  - intros i Hi ->. apply Hnex, Exists_exists. exists i. split; [|done].
    apply elem_of_seqZ. lia.
Qed.

(** With a free name for the output, the merge finds every file. *)
Lemma merge_fetched room :
  nodes fs !! out = None → out ≠ "" →
  U_BindwithFiles t procs (Fsys ws room)
  = merge_outcome (view t) procs pd (Fsys ws room) ∧
  old_len out (Fsys ws room) = 0%nat.
Proof using HU Hsep Hvac.
  intros Hout Hname.
  assert (ws !! out = None) as Hout2.
  { rewrite fetched_lookup_other
      by (intros; apply (part_name_ne_filename (view t))).
    destruct Hsep as (_ & ? & _). by rewrite lookup_insert_ne. }
  split; [|by unfold old_len; simpl; rewrite Hout2].
  apply BindwithFiles_outcome; [done|..].
  - unfold creatable. simpl. by rewrite Hout2.
  - simpl. rewrite fetched_lookup_other
      by (intros; apply (part_name_ne_dirname (view t))).
    by rewrite lookup_insert_eq.
  - intros i Hi. by apply fetched_lookup_part.
Qed.

(** The merge returns nil, and the output holds what the copies could
    write. *)
Lemma merge_fetched_output room :
  nodes fs !! out = None → out ≠ "" →
  err_of (U_BindwithFiles t procs (Fsys ws room)) = None ∧
  nodes (fs_of (U_BindwithFiles t procs (Fsys ws room))) !! out
    = Some (File (copied pd idx room)).
Proof using HU Hsep Hvac.
  intros Hout Hname. destruct (merge_fetched room Hout Hname) as [-> Hold].
  unfold merge_outcome, err_of, fs_of. fold_view. rewrite Hold. simpl.
  by rewrite fetched_nodes, lookup_insert_eq, Nat.add_0_r.
Qed.

End fetched.

(** The workspace in which every worker has written the bytes of its range
    of the specification. *)
Section merge.
Context `{HU : UtilsSpec T}.
Context (content : bytes) (t : T) (procs : Z) (fs : fsys).
Hypothesis Hsep : separate (view t).
Hypothesis Hvac : vacant (U_DirName t) fs.

#[local] Abbreviation out := (U_FileName t).
#[local] Abbreviation dir := (U_DirName t).
#[local] Abbreviation idx := (seqZ 0 procs).
#[local] Abbreviation pd := (part content (U_FileSize t) procs).
#[local] Abbreviation pname := (part_name (view t) procs).

Definition downloaded : gmap string node := fetched t procs pd fs.

Lemma downloaded_lookup_part i :
  0 ≤ i < procs → downloaded !! pname i = Some (File (pd i)).
Proof using Type. apply fetched_lookup_part. Qed.

Lemma downloaded_lookup_other p :
  (∀ i, 0 ≤ i < procs → p ≠ pname i) →
  downloaded !! p = <[dir := Dir true]> (nodes fs) !! p.
Proof using Type. apply fetched_lookup_other. Qed.

Lemma merged_nodes n :
  filter (λ kv, ¬ in_tree dir kv) (<[out := n]> downloaded) = <[out := n]> (nodes fs).
Proof using Hsep Hvac. by apply fetched_nodes. Qed.

Lemma merged_tree n :
  filter (in_tree dir) (drop_parts (view t) procs idx (<[out := n]> downloaded))
  = {[dir := Dir true]}.
Proof using Hsep Hvac. by apply fetched_tree. Qed.

End merge.

(** ** The pipeline *)

Section pipeline_thms.
Context `{HU : UtilsSpec T}.
Context (goos : string) (content : bytes) (t : T) (procs : Z).
Hypothesis Hwf : is_u64 (U_FileSize t).
Hypothesis Hprocs : 0 < procs ≤ U_FileSize t.
Hypothesis Hlen : Z.of_nat (length content) = U_FileSize t.

#[local] Abbreviation size := (U_FileSize t).
#[local] Abbreviation split := (U_FileSize t / procs).
#[local] Abbreviation rest := (U_FileSize t mod procs).
#[local] Abbreviation pd := (part content (U_FileSize t) procs).
Implicit Types (fs : fsys) (i : Z) (order : list Z).

(** Every part has [split] bytes; the last has the remainder of the division
    as well. *)
Lemma part_length i :
  0 ≤ i < procs →
  Z.of_nat (length (pd i)) = if decide (i = procs - 1) then split + rest else split.
Proof using Hprocs Hlen.
  intros Hi. pose proof (split_bounds (view t) procs Hprocs) as [? ?]. simpl in *.
  pose proof (Z.div_mod size procs ltac:(lia)).
  unfold part, range_bytes, range_spec; simpl.
  rewrite length_take, length_drop.
  set (q := split) in *. set (r := rest) in *. clearbody q r.
  assert (q * (i + 1) = q * i + q ∧ q * (procs - 1) = q * procs - q) as [? ?] by lia.
  assert (0 ≤ q * i ∧ q * i + q ≤ q * procs) as [? ?] by nia.
  case_decide; [subst i|assert (q * i + q ≤ q * procs - q) by nia]; lia.
Qed.

(** The parts, in the order of the workers, are the resource. *)
Lemma parts_reassemble : concat (pd <$> seqZ 0 procs) = content.
Proof using Hprocs Hlen.
  exact (range_spec_reassemble (view t) procs Hprocs content Hlen).
Qed.

(** What the workers leave in a new workspace, in whatever order they run. *)
Lemma workers_downloaded order fs :
  vacant (U_DirName t) fs → order ≡ₚ seqZ 0 procs →
  size ≤ Z.of_nat (free fs) →
  workers content t procs order
    (Fsys (<[U_DirName t := Dir true]> (nodes fs)) (free fs))
  = (Fsys (downloaded content t procs fs) (free fs - length content)%nat, None).
Proof using HU Hwf Hprocs Hlen.
  intros Hvac Hperm Hfree.
  pose proof (parts_size_all content t procs Hprocs Hlen) as Htot.
  rewrite (workers_fetched content t procs pd (part_sent content t procs Hwf Hprocs))
    by (done || unfold parts_total, parts_size in *; lia).
  unfold parts_total, parts_size in *. by rewrite Htot.
Qed.

(** The file system after the space check, the workspace and the workers. *)
Lemma Download_workers order fs :
  separate (view t) → vacant (U_DirName t) fs →
  order ≡ₚ seqZ 0 procs →
  is_u64 (Z.of_nat (free fs)) → size + split ≤ Z.of_nat (free fs) →
  Download goos content t procs order fs =
  U_BindwithFiles t procs
    (Fsys (downloaded content t procs fs) (free fs - length content)%nat).
Proof using HU Hwf Hprocs Hlen.
  intros Hsep Hvac Hperm Hu Hfree. unfold Download.
  assert (0 ≤ split) by (apply Z.div_pos; lia).
  destruct (U_IsFree goos t split fs) as [err|] eqn:E.
  { apply eq_None_ne_Some_1 with (x := err) in E; [done|].
    apply IsFree_spec; [done|unfold_int; lia|done]. }
  rewrite os_MkdirAll_new by (apply (vacant_lookup (U_DirName t)); auto).
  by rewrite workers_downloaded by (done || lia).
Qed.

(** Every part has a byte at least. *)
Lemma part_positive i : 0 ≤ i < procs → (0 < length (pd i))%nat.
Proof using Hprocs Hlen.
  intros Hi. pose proof (part_length i Hi) as Hl.
  pose proof (split_bounds (view t) procs Hprocs) as [? _]. simpl in *.
  pose proof (Z.mod_pos_bound size procs ltac:(lia)).
  case_decide; div_atoms; lia.
Qed.

(** Together the parts are as long as the resource. *)
Lemma parts_total_all : parts_total pd (seqZ 0 procs) = length content.
Proof using Hprocs Hlen. by apply parts_size_all. Qed.

(** The check asks for no more than twice the size. *)
Lemma split_le_size : 0 ≤ split ≤ size.
Proof using Hprocs.
  clear Hlen. split; [apply Z.div_pos; lia|]. apply Z.div_le_upper_bound; nia.
Qed.

(** *** The merge on what the workers leave *)

Section merge_downloaded.
Context (fs : fsys).
Hypothesis Hsep : separate (view t).
Hypothesis Hvac : vacant (U_DirName t) fs.
Hypothesis Hout : nodes fs !! U_FileName t = None.
Hypothesis Hname : U_FileName t ≠ "".

#[local] Abbreviation fs2 :=
  (Fsys (downloaded content t procs fs) (free fs - length content)%nat).

(** With a free name for the output, the merge finds every part. *)
Lemma merge_downloaded :
  U_BindwithFiles t procs fs2 = merge_outcome (view t) procs pd fs2 ∧
  old_len (U_FileName t) fs2 = 0%nat.
Proof using HU Hsep Hvac Hout Hname.
  clear Hlen Hprocs Hwf. by apply merge_fetched.
Qed.

(** With room for the output beside the partial files, the output is the
    resource. *)
Lemma merge_correct :
  size + size ≤ Z.of_nat (free fs) →
  U_BindwithFiles t procs fs2 =
    (Fsys (<[U_FileName t := File content]> (nodes fs))
          (free fs - length content)%nat,
     hello (view t) ++ ((λ i, BarAdd (Z.of_nat (length (pd i)))) <$> seqZ 0 procs)
       ++ [BarFinish; Println "Complete"],
     None).
Proof using HU Hprocs Hlen Hsep Hvac Hout Hname.
  intros Hfree. destruct merge_downloaded as [-> Hold].
  unfold merge_outcome. fold_view. rewrite Hold. simpl.
  rewrite copied_fits, bar_adds_fits by (rewrite parts_total_all; lia).
  rewrite (merged_nodes content t procs fs), (merged_tree content t procs fs) by done.
  rewrite du_singleton, parts_total_all, parts_reassemble.
  do 3 f_equal. cbn [node_len]. lia.
Qed.

(** Whatever the room, the merge returns nil, the output holds what fitted
    beside the partial files and nothing else has changed. *)
Lemma merge_result :
  (length content ≤ free fs)%nat →
  let output := take (free fs - length content) content in
  U_BindwithFiles t procs fs2 =
    (Fsys (<[U_FileName t := File output]> (nodes fs)) (free fs - length output),
     hello (view t) ++ bar_adds pd (seqZ 0 procs) (free fs - length content)
       ++ [BarFinish; Println "Complete"],
     None).
Proof using HU Hprocs Hlen Hsep Hvac Hout Hname.
  intros Hfree output. destruct merge_downloaded as [-> Hold].
  unfold merge_outcome. fold_view. rewrite Hold. simpl.
  rewrite (merged_nodes content t procs fs), (merged_tree content t procs fs) by done.
  rewrite du_singleton, parts_total_all, copied_take, parts_reassemble, Nat.add_0_r.
  do 3 f_equal. cbn [node_len]. unfold output. rewrite length_take. lia.
Qed.

Lemma merge_output :
  err_of (U_BindwithFiles t procs fs2) = None ∧
  nodes (fs_of (U_BindwithFiles t procs fs2)) !! U_FileName t
    = Some (File (take (free fs - length content) content)).
Proof using HU Hprocs Hlen Hsep Hvac Hout Hname.
  destruct (merge_fetched_output t procs pd fs Hsep Hvac
              (free fs - length content) Hout Hname) as [He Hn].
  split; [exact He|]. etrans; [exact Hn|].
  by rewrite copied_take, parts_reassemble.
Qed.

(** Without that room, the output is a proper prefix of the resource. *)
Lemma merge_truncates :
  Z.of_nat (free fs) < size + size →
  let room := (free fs - length content)%nat in
  err_of (U_BindwithFiles t procs fs2) = None ∧
  nodes (fs_of (U_BindwithFiles t procs fs2)) !! U_FileName t
    = Some (File (take room content)) ∧
  (room < length content)%nat.
Proof using HU Hprocs Hlen Hsep Hvac Hout Hname.
  intros Htight room. destruct merge_output as [-> ->].
  split_and!; [done..|]. unfold room. lia.
Qed.

End merge_downloaded.

(** The pipeline with room for the output beside the partial files: the
    output is the resource. *)
Lemma pipeline_correct order fs :
  separate (view t) → vacant (U_DirName t) fs →
  nodes fs !! U_FileName t = None → U_FileName t ≠ "" →
  order ≡ₚ seqZ 0 procs →
  is_u64 (Z.of_nat (free fs)) → size + size ≤ Z.of_nat (free fs) →
  Download goos content t procs order fs =
    (Fsys (<[U_FileName t := File content]> (nodes fs))
          (free fs - length content)%nat,
     hello (view t) ++ ((λ i, BarAdd (Z.of_nat (length (pd i)))) <$> seqZ 0 procs)
       ++ [BarFinish; Println "Complete"],
     None).
Proof using HU Hwf Hprocs Hlen.
  intros Hsep Hvac Hout Hname Hperm Hu Hfree. pose proof split_le_size.
  rewrite Download_workers by (done || div_atoms; lia). by apply merge_correct.
Qed.

(** The pipeline when the check passes and the output does not fit beside the
    partial files: the output is a proper prefix of the resource. *)
Lemma pipeline_truncates order fs :
  separate (view t) → vacant (U_DirName t) fs →
  nodes fs !! U_FileName t = None → U_FileName t ≠ "" →
  order ≡ₚ seqZ 0 procs →
  is_u64 (Z.of_nat (free fs)) →
  size + split ≤ Z.of_nat (free fs) < size + size →
  let room := (free fs - length content)%nat in
  err_of (Download goos content t procs order fs) = None ∧
  nodes (fs_of (Download goos content t procs order fs)) !! U_FileName t
    = Some (File (take room content)) ∧
  (room < length content)%nat.
Proof using HU Hwf Hprocs Hlen.
  intros Hsep Hvac Hout Hname Hperm Hu [Hfree Htight].
  rewrite Download_workers by done. by apply merge_truncates.
Qed.

(** The pipeline leaves the volume the size it had, whatever it returns. *)
Lemma fetchRange_capacity r dest fs :
  capacity (fetchRange content r dest fs).1 = capacity fs.
Proof using Type.
  unfold fetchRange. destruct (os_Create dest fs) as [[fh fs1]|err] eqn:E; [|done].
  apply os_Create_capacity in E. pose proof (file_Write_capacity fh
    (range_bytes content r) fs1) as Hw.
  destruct (file_Write _ _ fs1) as [fs2 [n e]]. simpl in *. lia.
Qed.

Lemma workers_capacity order : ∀ fs,
  capacity (workers content t procs order fs).1 = capacity fs.
Proof using Type.
  induction order as [|i order IH]; intros fs; cbn [workers]; [done|].
  pose proof (fetchRange_capacity (U_MakeRange t i split procs)
    (part_name (view t) procs i) fs) as H1. fold (worker content t procs i fs) in H1.
  destruct (worker content t procs i fs) as [fs1 e1]. pose proof (IH fs1) as H2.
  destruct (workers content t procs order fs1) as [fs2 e2]. simpl in *. lia.
Qed.

Lemma pipeline_conserves order fs :
  capacity (fs_of (Download goos content t procs order fs)) = capacity fs.
Proof using HU.
  unfold Download. destruct (U_IsFree goos t split fs); [done|].
  destruct (os_MkdirAll _ fs) as [fs1|err] eqn:E; [|done].
  apply os_MkdirAll_capacity in E.
  pose proof (workers_capacity order fs1) as Hw.
  destruct (workers content t procs order fs1) as [fs2 [err|]]; simpl in Hw.
  - unfold fs_of; simpl. lia.
  - rewrite BindwithFiles_volume. lia.
Qed.

(** The pipeline when the check fails. *)
Lemma pipeline_refused order fs :
  is_u64 (Z.of_nat (free fs)) → is_u64 (size + split) →
  Z.of_nat (free fs) < size + split →
  Download goos content t procs order fs =
    (fs, [], Some "there is not sufficient free space in a disk").
Proof using HU.
  intros Hu Hsum Hlt. unfold Download.
  destruct (U_IsFree goos t split fs) as [err|] eqn:E.
  - by rewrite (IsFree_message _ _ _ _ _ E).
  - apply IsFree_spec in E; [lia|done..].
Qed.

End pipeline_thms.

(** ** The pipeline on [Data] *)

Section pget.
Context (goos : string) (content : bytes) (d : Data) (procs : Z).
Hypothesis Hwf : Data_wf d.
Hypothesis Hprocs : 0 < procs ≤ filesize d.
Hypothesis Hlen : Z.of_nat (length content) = filesize d.
Implicit Types (fs : fsys) (order : list Z).

#[local] Abbreviation split := (filesize d / procs).
#[local] Abbreviation rest := (filesize d mod procs).

(** The download is correct.  For a job of [procs] workers on a resource
    of [filesize] bytes, on a volume with twice [filesize] bytes free (the
    partial files, and the output beside them while the merge holds them
    open), with no workspace left over and a free name for the output:
    whatever the order in which the workers run, the pipeline of [IsFree],
    [MakeRange] and [BindwithFiles] returns nil and leaves the file system as
    it was but for the output, which holds the bytes of the resource; the
    console shows the greeting, one progress step per part and "Complete". *)
Theorem Download_correct order fs :
  separate d → vacant (dirname d) fs →
  nodes fs !! filename d = None → filename d ≠ "" →
  order ≡ₚ seqZ 0 procs →
  is_u64 (Z.of_nat (free fs)) →
  filesize d + filesize d ≤ Z.of_nat (free fs) →
  Download goos content d procs order fs =
    (Fsys (<[filename d := File content]> (nodes fs))
          (free fs - length content)%nat,
     hello d
       ++ ((λ i, BarAdd (Z.of_nat (length (part content (filesize d) procs i))))
             <$> seqZ 0 procs)
       ++ [BarFinish; Println "Complete"],
     None).
Proof using Hwf Hprocs Hlen.
  pose proof (pipeline_correct goos content d procs Hwf Hprocs Hlen order fs) as Hp.
  rewrite view_Data in Hp. exact Hp.
Qed.

(** C10: the margin of the space check is too small.  [IsFree] asks for
    [filesize + split] bytes; the merge needs [filesize] bytes beside the
    partial files, because a partial file it has removed stays open, and its
    bytes allocated, until [BindwithFiles] returns.  On a volume that passes
    the check with less than twice [filesize] free, every worker succeeds,
    the copies of the merge fill the volume and stop, and the pipeline
    returns nil with an output that is a proper prefix of the resource. *)
Theorem Download_truncates order fs :
  separate d → vacant (dirname d) fs →
  nodes fs !! filename d = None → filename d ≠ "" →
  order ≡ₚ seqZ 0 procs →
  is_u64 (Z.of_nat (free fs)) →
  filesize d + split ≤ Z.of_nat (free fs) < filesize d + filesize d →
  let room := (free fs - length content)%nat in
  err_of (Download goos content d procs order fs) = None ∧
  nodes (fs_of (Download goos content d procs order fs)) !! filename d
    = Some (File (take room content)) ∧
  (room < length content)%nat.
Proof using Hwf Hprocs Hlen.
  pose proof (pipeline_truncates goos content d procs Hwf Hprocs Hlen order fs)
    as Hp.
  rewrite view_Data in Hp. exact Hp.
Qed.

(** The space check comes first.  With less than [filesize + split]
    bytes free the pipeline returns the error of [IsFree] and leaves the file
    system as it was: no workspace is created and no worker runs. *)
Theorem Download_refused order fs :
  is_u64 (Z.of_nat (free fs)) → is_u64 (filesize d + split) →
  Z.of_nat (free fs) < filesize d + split →
  Download goos content d procs order fs =
    (fs, [], Some "there is not sufficient free space in a disk").
Proof using Type.
  intros. by apply (pipeline_refused goos content d procs).
Qed.

(** The download leaks no space.  Whatever the file system, the order of
    the workers and the result (nil or an error of any step), the volume has
    as many bytes, free and in files together, after the pipeline as before:
    what the workers wrote is either in the output or free again. *)
Theorem Download_conserves order fs :
  capacity (fs_of (Download goos content d procs order fs)) = capacity fs.
Proof using Type. apply pipeline_conserves. Qed.

End pget.

(** ** A file shorter than the number of workers *)

Section short.
Context (goos : string) (content : bytes) (d : Data) (procs : Z).
Hypothesis Hwf : Data_wf d.
Hypothesis Hshort : 0 < filesize d < procs.
Hypothesis Hprocs : is_u64 procs.
Hypothesis Hlen : Z.of_nat (length content) = filesize d.
Implicit Types (fs : fsys) (order : list Z).

#[local] Abbreviation whole := (λ _ : Z, content).

(** With [split = 0] every range begins at 0 and ends at the end of the
    resource or beyond: every worker is sent the whole resource. *)
Lemma short_sent i :
  0 ≤ i < procs →
  range_bytes content (MakeRange d i (filesize d / procs) procs) = content.
Proof using Hwf Hshort Hprocs Hlen.
  intros Hi. rewrite Z.div_small by lia.
  unfold MakeRange, range_bytes, FileSize. cbn [low high].
  replace (u64_mul 0 i) with 0 by (by unfold u64_mul).
  replace (u64_sub (u64_add 0 0) 1) with 18446744073709551615 by (by vm_compute).
  rewrite drop_0, take_ge; [done|]. revert Hwf. unfold Data_wf.
  case_decide; unfold_int; lia.
Qed.

Lemma whole_total idx : parts_total whole idx = (length idx * length content)%nat.
Proof using Type.
  unfold parts_total. induction idx as [|i idx IH]; simpl; [done|]. by rewrite IH.
Qed.

Lemma whole_merged : merged whole procs = concat (replicate (Z.to_nat procs) content).
Proof using Type.
  unfold merged. by rewrite (const_fmap _ _ content), length_seqZ.
Qed.

(** C37: a file shorter than the number of workers.  [split] is
    [filesize / procs = 0], so [low + split - 1] wraps and every worker asks
    for the whole file from offset 0 (the last one for the offsets 0 to
    [filesize]).  For a server that answers a range that ends beyond the
    resource with the bytes that are there, every partial file holds the
    whole resource: with room on the volume the download returns nil, and
    the output is the resource [procs] times over. *)
Theorem Download_short_file order fs :
  separate d → vacant (dirname d) fs →
  nodes fs !! filename d = None → filename d ≠ "" →
  order ≡ₚ seqZ 0 procs →
  is_u64 (Z.of_nat (free fs)) →
  2 * (procs * filesize d) ≤ Z.of_nat (free fs) →
  err_of (Download goos content d procs order fs) = None ∧
  nodes (fs_of (Download goos content d procs order fs)) !! filename d
    = Some (File (concat (replicate (Z.to_nat procs) content))).
Proof using Hwf Hshort Hprocs Hlen.
  intros Hsep Hvac Hout Hname Hperm Hu Hfree.
  assert (parts_total whole (seqZ 0 procs) = (Z.to_nat procs * length content)%nat)
    as Htot by (by rewrite whole_total, length_seqZ).
  unfold Download. simpl. unfold FileSize, DirName. rewrite Z.div_small by lia.
  assert (is_u64 (filesize d + 0)) as Hsum by (by rewrite Z.add_0_r).
  rewrite (proj2 (IsFree_iff goos d 0 fs Hu Hsum)) by nia.
  rewrite os_MkdirAll_new by (apply (vacant_lookup (dirname d)); auto).
  pose proof (workers_fetched content d procs whole) as Hw.
  rewrite (Hw short_sent) by (done || nia).
  pose proof (merge_fetched_output d procs whole fs) as Hm. rewrite view_Data in Hm.
  destruct (Hm Hsep Hvac (free fs - parts_total whole (seqZ 0 procs))%nat Hout Hname)
    as [He Hn].
  simpl in *. destruct (BindwithFiles d procs _) as [[fs' evs] err].
  unfold err_of, fs_of, FileName in *. simpl in *. subst err. split; [done|].
  rewrite Hn, copied_fits by nia. by rewrite <-whole_merged.
Qed.

End short.

(** ** Witnesses *)

(** A resource of ten bytes for three workers: parts of 3, 3 and 4 bytes. *)
Definition ex_resource : bytes := bytes_of "0123456789".
Definition ex_target : Data := mkData "f" 10 "_f.3".
Definition ex_disk (free : nat) : fsys :=
  Fsys {["other" := File (bytes_of "x")]} free.

Lemma ex_order : [1; 0; 2] ≡ₚ seqZ 0 3.
Proof. apply perm_swap. Qed.

(** The hypotheses of the pipeline's theorems on that job. *)
Ltac solve_job :=
  first [apply ex_order | apply (bool_decide_unpack _); by vm_compute
        | by vm_compute].

Lemma Download_correct_witness :
  Download "linux" ex_resource ex_target 3 [1; 0; 2] (ex_disk 20) =
    (Fsys (<["f" := File ex_resource]> (nodes (ex_disk 20))) 10,
     hello ex_target ++ [BarAdd 3; BarAdd 3; BarAdd 4]
       ++ [BarFinish; Println "Complete"],
     None).
Proof.
  apply (Download_correct "linux" ex_resource ex_target 3
           ltac:(solve_job) ltac:(solve_job) ltac:(solve_job)
           [1; 0; 2] (ex_disk 20)); solve_job.
Defined.

(** A resource of two bytes for three workers: the output has six. *)
Definition ex_short : Data := mkData "f" 2 "_f.3".

Lemma Download_short_file_witness :
  err_of (Download "linux" (bytes_of "ab") ex_short 3 [1; 0; 2] (ex_disk 20)) = None ∧
  nodes (fs_of (Download "linux" (bytes_of "ab") ex_short 3 [1; 0; 2] (ex_disk 20)))
    !! "f" = Some (File (concat (replicate (Z.to_nat 3) (bytes_of "ab")))).
Proof.
  apply (Download_short_file "linux" (bytes_of "ab") ex_short 3
           ltac:(solve_job) ltac:(solve_job) ltac:(solve_job) ltac:(solve_job)
           [1; 0; 2] (ex_disk 20)); solve_job.
Defined.

Lemma Download_truncates_witness :
  err_of (Download "linux" ex_resource ex_target 3 [1; 0; 2] (ex_disk 17))
    = None ∧
  nodes (fs_of (Download "linux" ex_resource ex_target 3 [1; 0; 2] (ex_disk 17)))
    !! "f" = Some (File (bytes_of "0123456")) ∧
  (7 < length ex_resource)%nat.
Proof.
  apply (Download_truncates "linux" ex_resource ex_target 3
           ltac:(solve_job) ltac:(solve_job) ltac:(solve_job)
           [1; 0; 2] (ex_disk 17)); solve_job.
Defined.

Lemma Download_refused_witness :
  Download "linux" ex_resource ex_target 3 [1; 0; 2] (ex_disk 12) =
    (ex_disk 12, [], Some "there is not sufficient free space in a disk").
Proof.
  apply (Download_refused "linux" ex_resource ex_target 3 [1; 0; 2] (ex_disk 12));
    solve_job.
Defined.
