(* ===== verification/Pool.v ===== *)
(** * The worker pool

    The workers of the download run concurrently: each creates its partial
    file and writes the bytes of its range as they arrive, and the monitor
    looks at the workspace in between.  A run of the pool is a schedule, the
    list of the steps in the order in which they happen: a worker starts,
    a worker writes some more bytes, the transfer of a worker fails, the
    monitor makes a round, at once or one file at a time while the workers
    write, the caller cancels the context.  The pool is not in
    [src/util.go]; it is modelled from the specification, on the interface
    [Utils].

    The invariant of the pool ([pool_inv]) says what the workspace holds at
    any instant of any schedule, whatever the room on the volume: each
    partial file is the part of its range received so far.  It gives that
    all schedules that finish leave the same file system.  What the monitor
    finds is in [PoolMonitor], what the schedules of the pool can and cannot
    do in [PoolRuns]. *)

From S2P Require Import Prelude GoInt FileSys Data Merge Progress Iface Download.
From stdpp Require Import gmap sorting.

#[local] Open Scope Z_scope.

(** ** Definitions *)

(** A step of a run: worker [i] creates its partial file; worker [i] writes
    the next [n] bytes of its range; the transfer of worker [i] fails; the
    monitor makes a round at once; the context of the monitor is cancelled;
    the monitor begins a round (it looks at its context and lists the
    workspace), looks at the next file of the list, ends the round. *)
Inductive action : Type :=
| Start (i : Z)
| Write (i : Z) (n : nat)
| Fail (i : Z) (err : error)
| Poll
| CancelCtx
| WalkBegin
| WalkVisit
| WalkEnd.

(** A step of a worker, as opposed to one of the monitor or of the caller. *)
Definition of_worker (a : action) : Prop :=
  match a with
  | Start _ | Write _ _ | Fail _ _ => True
  | _ => False
  end.

#[global] Instance of_worker_dec a : Decision (of_worker a).
Proof. destruct a; apply _. Defined.

(** A worker that has started: the bytes it has written, and whether it has
    returned an error. *)
Inductive wstatus : Type :=
| Fetching (k : nat)
| Failed (k : nat).

#[global] Instance action_eq_dec : EqDecision action.
Proof. solve_decision. Defined.

#[global] Instance wstatus_eq_dec : EqDecision wstatus.
Proof. solve_decision. Defined.

Definition got (w : wstatus) : nat :=
  match w with
  | Fetching k | Failed k => k
  end.

(** A walk of the workspace in progress: the paths [filepath.Walk] has
    listed and not looked at yet, and what it found at those it has looked
    at. *)
Record walk : Type := Walk {
  w_pending : list string;
  w_seen : gmap string node;
}.

(** The pool: the file system, the workers that have started, the errors
    the workers returned and what the monitor found, both in order, whether
    the context has been cancelled, and the walk of the monitor when it is in
    the middle of a round. *)
Record pool : Type := Pool {
  p_fs : fsys;
  p_workers : gmap Z wstatus;
  p_errs : list error;
  p_obs : list observation;
  p_cancelled : bool;
  p_walk : option walk;
}.

Definition pool_init (fs : fsys) : pool := Pool fs ∅ [] [] false None.

(** Worker [i] has the status [w] and leaves the file system [fs]. *)
Definition advance (i : Z) (w : wstatus) (fs : fsys) (st : pool) : pool :=
  Pool fs (<[i := w]> (p_workers st)) (p_errs st) (p_obs st) (p_cancelled st)
    (p_walk st).

(** Worker [i] returns [err] after [k] bytes. *)
Definition stop (i : Z) (k : nat) (err : error) (fs : fsys) (st : pool) : pool :=
  Pool fs (<[i := Failed k]> (p_workers st)) (p_errs st ++ [err]) (p_obs st)
    (p_cancelled st) (p_walk st).

(** A round of the monitor: what [ctx.Done()] and the file system are at
    that instant. *)
Definition observe (st : pool) : pool :=
  Pool (p_fs st) (p_workers st) (p_errs st)
    (p_obs st ++ [(p_cancelled st, p_fs st)]) (p_cancelled st) (p_walk st).

(** The cancellation reaches the monitor only: the workers go on. *)
Definition cancel_ctx (st : pool) : pool :=
  Pool (p_fs st) (p_workers st) (p_errs st) (p_obs st) true (p_walk st).

(** The paths below [dir], as [filepath.Walk] lists them. *)
Definition listing (dir : string) (fs : fsys) : list string :=
  (map_to_list (filter (below dir) (nodes fs))).*1.

(** The walk of the monitor is at [w]. *)
Definition walk_to (w : walk) (st : pool) : pool :=
  Pool (p_fs st) (p_workers st) (p_errs st) (p_obs st) (p_cancelled st) (Some w).

(** What a walk that has found [seen] takes the workspace for: the files
    as they were when it looked at each of them. *)
Definition snapshot (dir : string) (seen : gmap string node) (fs : fsys) : fsys :=
  Fsys (seen ∪ filter (λ kv, ¬ below dir kv) (nodes fs)) (free fs).

(** The end of a round that began with the context open and has found
    [seen]. *)
Definition walk_end (dir : string) (seen : gmap string node) (st : pool) : pool :=
  Pool (p_fs st) (p_workers st) (p_errs st)
    (p_obs st ++ [(false, snapshot dir seen (p_fs st))]) (p_cancelled st) None.

(** The monitor is between two rounds and its context is open. *)
Definition idle (st : pool) : Prop := p_cancelled st = false ∧ p_walk st = None.

#[global] Instance idle_dec st : Decision (idle st).
Proof. unfold idle. apply _. Defined.

(** The bytes worker [i] has written, none before it starts. *)
Definition got_of (st : pool) (i : Z) : nat :=
  from_option got 0%nat (p_workers st !! i).

Section pool.
Context `{UtilsSpec T}.
Context (content : bytes) (t : T) (procs : Z).

(** The bytes worker [i] is sent: those of the range [MakeRange] gives it. *)
Definition wanted (i : Z) : bytes :=
  range_bytes content (U_MakeRange t i (U_FileSize t / procs) procs).

(** One step; [None] when the step cannot happen in this state.  A worker
    that cannot create its file, or that cannot write all it received,
    returns the error.  A round of the monitor is one step ([Poll]), or a
    walk that the workers' steps interleave with: [WalkBegin] looks at the
    context, as the [select] of [ProgressBar] does before [subDirsize], and
    lists the workspace; [WalkVisit] is the [Lstat] of the next path listed
    (the workers remove no file, so the path is there); [WalkEnd] is the rest
    of the round, on the sizes found. *)
Definition pool_step (a : action) (st : pool) : option pool :=
  match a with
  | Start i =>
      if decide (0 ≤ i < procs ∧ p_workers st !! i = None) then
        match os_Create (part_name (view t) procs i) (p_fs st) with
        | Err err => Some (stop i 0 err (p_fs st) st)
        | Ok (_, fs1) => Some (advance i (Fetching 0) fs1 st)
        end
      else None
  | Write i n =>
      match p_workers st !! i with
      | Some (Fetching k) =>
          if decide (0 < n ∧ k + n ≤ length (wanted i))%nat then
            let '(fs1, (m, err)) :=
              file_Write (part_name (view t) procs i)
                (take n (drop k (wanted i))) (p_fs st) in
            match err with
            | Some e => Some (stop i (k + Z.to_nat m) e fs1 st)
            | None => Some (advance i (Fetching (k + n)) fs1 st)
            end
          else None
      | _ => None
      end
  | Fail i err =>
      match p_workers st !! i with
      | Some (Fetching k) =>
          if decide (k < length (wanted i))%nat
          then Some (stop i k err (p_fs st) st)
          else None
      | _ => None
      end
  | Poll => if p_walk st is None then Some (observe st) else None
  | CancelCtx => Some (cancel_ctx st)
  | WalkBegin =>
      match p_walk st with
      | Some _ => None
      | None =>
          if p_cancelled st then Some (observe st)
          else Some (walk_to (Walk (listing (U_DirName t) (p_fs st)) ∅) st)
      end
  | WalkVisit =>
      match p_walk st with
      | Some (Walk (p :: rest) seen) =>
          match nodes (p_fs st) !! p with
          | Some n => Some (walk_to (Walk rest (<[p := n]> seen)) st)
          | None => None
          end
      | _ => None
      end
  | WalkEnd =>
      match p_walk st with
      | Some (Walk [] seen) => Some (walk_end (U_DirName t) seen st)
      | _ => None
      end
  end.

(** A schedule, step by step. *)
Fixpoint pool_run (sched : list action) (st : pool) : option pool :=
  match sched with
  | [] => Some st
  | a :: sched' => st' ← pool_step a st; pool_run sched' st'
  end.

(** Every worker has written its range and returned without error. *)
Definition finished (st : pool) : Prop :=
  Forall (λ i, p_workers st !! i = Some (Fetching (length (wanted i))))
    (seqZ 0 procs).

#[global] Instance finished_dec st : Decision (finished st).
Proof. unfold finished. apply _. Defined.

(** The bytes the workers have written together. *)
Definition pool_total (st : pool) : nat :=
  sum_list_with (got_of st) (seqZ 0 procs).

(** The schedule in which the workers run one after the other, each writing
    its range in one piece: what [workers] of [Download] does. *)
Definition sequential (order : list Z) : list action :=
  order ≫= λ i, [Start i; Write i (length (wanted i))].

End pool.

(** A schedule in two parts. *)
Lemma pool_run_app `{UtilsSpec T} content (t : T) procs s1 s2 st :
  pool_run content t procs (s1 ++ s2) st
  = pool_run content t procs s1 st ≫= pool_run content t procs s2.
Proof.
  revert st. induction s1 as [|a s1 IH]; intros st; simpl; [done|].
  destruct (pool_step content t procs a st); simpl; [apply IH|done].
Qed.

(** ** States with the same work done

    Two states of the pool in which the same work is done differ at most in
    what the monitor has found, in how far it is in its round and in the
    cancellation of its context.  The steps of the workers respect this
    equivalence. *)

Definition same_work (st1 st2 : pool) : Prop :=
  p_fs st1 = p_fs st2 ∧ p_workers st1 = p_workers st2 ∧ p_errs st1 = p_errs st2.

#[global] Instance same_work_equivalence : Equivalence same_work.
Proof.
  split; [done|by intros ?? (? & ? & ?)|].
  intros ??? (? & ? & ?) (? & ? & ?). split_and!; congruence.
Qed.

#[global] Instance p_fs_proper : Proper (same_work ==> eq) p_fs.
Proof. by intros ?? (? & _). Qed.

#[global] Instance p_errs_proper : Proper (same_work ==> eq) p_errs.
Proof. by intros ?? (_ & _ & ?). Qed.

#[global] Instance p_workers_proper : Proper (same_work ==> eq) p_workers.
Proof. by intros ?? (_ & ? & _). Qed.

Lemma observe_same_work st : same_work (observe st) st.
Proof. done. Qed.

Lemma cancel_ctx_same_work st : same_work (cancel_ctx st) st.
Proof. done. Qed.

Lemma walk_to_same_work w st : same_work (walk_to w st) st.
Proof. done. Qed.

Lemma walk_end_same_work dir seen st : same_work (walk_end dir seen st) st.
Proof. done. Qed.

Section same_work.
Context `{HU : UtilsSpec T}.
Context (content : bytes) (t : T) (procs : Z).

#[global] Instance finished_proper :
  Proper (same_work ==> iff) (finished content t procs).
Proof. intros st1 st2 (_ & Hw & _). unfold finished. by rewrite Hw. Qed.

#[global] Instance pool_total_proper : Proper (same_work ==> eq) (pool_total procs).
Proof.
  intros st1 st2 (_ & Hw & _). unfold pool_total, got_of. by rewrite Hw.
Qed.

Lemma pool_step_proper a :
  of_worker a →
  Proper (same_work ==> option_Forall2 same_work) (pool_step content t procs a).
Proof.
  intros Ha [fs1 w1 e1 o1 c1 k1] [fs2 w2 e2 o2 c2 k2] (Hfs & Hw & He).
  simpl in *. subst.
  destruct a as [i|i n|i err| | | | |]; try done; simpl; repeat case_match;
    by constructor.
Qed.

Lemma pool_run_proper sched :
  Forall of_worker sched →
  Proper (same_work ==> option_Forall2 same_work) (pool_run content t procs sched).
Proof.
  induction sched as [|a sched IH]; intros Hsched st1 st2 Hst; simpl;
    [by constructor|].
  apply Forall_cons in Hsched as [Ha Hsched].
  destruct (pool_step_proper a Ha st1 st2 Hst) as [st1' st2' Hst'|]; simpl;
    [by apply IH|constructor].
Qed.

(** The steps of the monitor and of the caller leave the work as it is. *)
Lemma pool_step_same_work a st st' :
  ¬ of_worker a → pool_step content t procs a st = Some st' → same_work st' st.
Proof.
  destruct a as [i|i n|i err| | | | |]; simpl; intros Ha; try (by destruct Ha);
    repeat case_match; by intros [= <-].
Qed.

End same_work.

(** ** The invariant *)

Section invariant.
Context `{HU : UtilsSpec T}.
Context (content : bytes) (t : T) (procs : Z) (fs0 : fsys).
Hypothesis Hwf : is_u64 (U_FileSize t).
Hypothesis Hprocs : 0 < procs ≤ U_FileSize t.
Hypothesis Hlen : Z.of_nat (length content) = U_FileSize t.
Hypothesis Hvac : vacant (U_DirName t) fs0.
Hypothesis Hmax : U_FileSize t ≤ i64_max.

#[local] Abbreviation dir := (U_DirName t).
#[local] Abbreviation pd := (part content (U_FileSize t) procs).
#[local] Abbreviation pname := (part_name (view t) procs).
#[local] Abbreviation step := (pool_step content t procs).
#[local] Abbreviation total := (pool_total procs).
Implicit Types (st : pool) (i j : Z) (k n : nat) (w : wstatus) (a : action).

(** At any instant: the workers that have started are workers of the job
    and have not written more than their part, a failed one less; the
    partial file of a worker holds what it has written, which is the
    beginning of its part; nothing else has changed since the workspace
    was made; the bytes written are missing from the free space; an error
    has been returned exactly when a worker has failed. *)
Record pool_inv (st : pool) : Prop := {
  inv_range i w :
    p_workers st !! i = Some w → 0 ≤ i < procs ∧ (got w ≤ length (pd i))%nat;
  inv_failed i k :
    p_workers st !! i = Some (Failed k) → (k < length (pd i))%nat;
  inv_part i :
    0 ≤ i < procs →
    nodes (p_fs st) !! pname i
    = (λ w, File (take (got w) (pd i))) <$> (p_workers st !! i);
  inv_other p :
    (∀ i, 0 ≤ i < procs → p ≠ pname i) →
    nodes (p_fs st) !! p = <[dir := Dir true]> (nodes fs0) !! p;
  inv_free : (free (p_fs st) + total st)%nat = free fs0;
  inv_errs : p_errs st = [] ↔ ∀ i k, p_workers st !! i ≠ Some (Failed k);
}.

(** The ranges of the workers are those of the specification. *)
Lemma wanted_part i : 0 ≤ i < procs → wanted content t procs i = pd i.
Proof using HU Hwf Hprocs.
  intros Hi. unfold wanted, part. by rewrite MakeRange_range.
Qed.

(** The workers have not written more than the resource holds. *)
Lemma total_le st :
  (∀ i w, p_workers st !! i = Some w → (got w ≤ length (pd i))%nat) →
  (total st ≤ length content)%nat.
Proof using Hprocs Hlen.
  clear Hvac Hmax. intros Hle.
  rewrite <-(parts_size_all content t procs Hprocs Hlen).
  apply sum_list_with_le. intros i _. unfold got_of, compose.
  destruct (p_workers st !! i) as [w|] eqn:E; simpl; [by apply Hle|lia].
Qed.

(** One worker advances by [n] bytes. *)
Lemma total_insert st st' i w n :
  0 ≤ i < procs → p_workers st' = <[i := w]> (p_workers st) →
  got w = (got_of st i + n)%nat → total st' = (total st + n)%nat.
Proof using Type.
  clear Hvac Hlen Hmax. intros Hi Hst Hw. apply sum_list_with_update with (i := i).
  - apply NoDup_seqZ.
  - apply elem_of_seqZ. lia.
  - unfold got_of at 1. by rewrite Hst, lookup_insert_eq.
  - intros j Hj. unfold got_of. by rewrite Hst, lookup_insert_ne.
Qed.

Lemma total_mono st st' i w n :
  0 ≤ i < procs → p_workers st' = <[i := w]> (p_workers st) →
  got w = (got_of st i + n)%nat → (total st ≤ total st')%nat.
Proof using Type.
  clear Hvac Hlen Hmax. intros. rewrite (total_insert st st' i w n) by done. lia.
Qed.

(** The invariant holds when the workspace has just been made. *)
Lemma pool_inv_init :
  pool_inv (pool_init (Fsys (<[dir := Dir true]> (nodes fs0)) (free fs0))).
Proof using Hvac.
  clear Hlen Hmax. split; simpl; try done.
  - intros i Hi. rewrite lookup_insert_ne by apply (part_name_ne_dirname (view t)).
    rewrite lookup_empty. simpl. apply (vacant_lookup dir); [done|].
    right. apply (part_name_under (view t)).
  - unfold pool_total, got_of; simpl. rewrite Nat.add_comm.
    rewrite (sum_list_with_ext_in _ (λ _, 0%nat)) by done.
    by induction (seqZ 0 procs).
Qed.

(** The invariant is about the work done. *)
#[global] Instance pool_inv_proper : Proper (same_work ==> iff) pool_inv.
Proof using Type.
  clear Hvac Hlen Hmax.
  assert (∀ st1 st2, same_work st1 st2 → pool_inv st1 → pool_inv st2) as Himp.
  { intros st1 st2 Hst [H1 H2 H3 H4 H5 H6].
    pose proof (pool_total_proper procs _ _ Hst) as Htot.
    destruct Hst as (Hfs & Hw & He). split; rewrite <-?Hfs, <-?Hw, <-?He; try done.
    by rewrite <-Htot. }
  intros st1 st2 Hst. split; apply Himp; [done|by symmetry].
Qed.

(** Worker [i], which had not failed, takes the status [w], having written
    [n] more bytes. *)
Lemma pool_inv_update st st' i w n :
  pool_inv st → 0 ≤ i < procs → (∀ k, p_workers st !! i ≠ Some (Failed k)) →
  p_workers st' = <[i := w]> (p_workers st) →
  got w = (got_of st i + n)%nat → (got w ≤ length (pd i))%nat →
  (∀ k, w = Failed k → (k < length (pd i))%nat) →
  nodes (p_fs st') = <[pname i := File (take (got w) (pd i))]> (nodes (p_fs st)) →
  (free (p_fs st') + n)%nat = free (p_fs st) →
  (if w is Failed _ then p_errs st' ≠ [] else p_errs st' = p_errs st) →
  pool_inv st'.
Proof using Type.
  clear Hlen Hvac Hmax. intros Hinv Hi Hold Hws Hgot Hle Hfail Hnodes Hfs Herrs.
  split; rewrite ?Hws.
  - intros j w'. destruct (decide (j = i)) as [->|Hne].
    + rewrite lookup_insert_eq. by intros [= <-].
    + rewrite lookup_insert_ne by done. apply Hinv.
  - intros j k. destruct (decide (j = i)) as [->|Hne].
    + rewrite lookup_insert_eq. intros [= ->]. by apply Hfail.
    + rewrite lookup_insert_ne by done. apply Hinv.
  - intros j Hj. rewrite Hnodes. destruct (decide (j = i)) as [->|Hne].
    + by rewrite !lookup_insert_eq.
    + rewrite !lookup_insert_ne by (done || by intros ?%part_name_inj).
      by apply Hinv.
  - intros p Hp. rewrite Hnodes, lookup_insert_ne by (symmetry; by apply Hp).
    by apply Hinv.
  - rewrite (total_insert st st' i w n) by done.
    pose proof (inv_free st Hinv). lia.
  - destruct w as [k|k].
    + rewrite Herrs, (inv_errs st Hinv). split; intros Hno j k'.
      * destruct (decide (j = i)) as [->|Hne];
          [by rewrite lookup_insert_eq|by rewrite lookup_insert_ne].
      * destruct (decide (j = i)) as [->|Hne]; [done|].
        specialize (Hno j k'). by rewrite lookup_insert_ne in Hno.
    + split; [done|]. intros Hno. specialize (Hno i k).
      by rewrite lookup_insert_eq in Hno.
Qed.

(** What a worker that is fetching has on disk. *)
Lemma pool_inv_fetching st i k :
  pool_inv st → p_workers st !! i = Some (Fetching k) →
  0 ≤ i < procs ∧ (k ≤ length (pd i))%nat ∧
  nodes (p_fs st) !! pname i = Some (File (take k (pd i))).
Proof using Type.
  intros Hinv Hi. destruct (inv_range st Hinv i _ Hi) as [Hr Hk].
  do 2 (split; [done|]). by rewrite (inv_part st Hinv i Hr), Hi.
Qed.

(** What a write of the next [n] bytes does to the file system: the bytes
    that fit are appended, and the write is short when there are fewer
    than [n] bytes free. *)
Lemma pool_write st i k n :
  pool_inv st → p_workers st !! i = Some (Fetching k) →
  (k + n ≤ length (pd i))%nat →
  let m := Nat.min n (free (p_fs st)) in
  file_Write (pname i) (take n (drop k (pd i))) (p_fs st)
  = (Fsys (<[pname i := File (take (k + m) (pd i))]> (nodes (p_fs st)))
       (free (p_fs st) - m),
     (Z.of_nat m,
      if decide (m < n)%nat then Some (ENOSPC "write" (pname i)) else None)).
Proof using Type.
  clear Hlen Hvac Hmax. intros Hinv Hi Hkn m.
  destruct (pool_inv_fetching st i k Hinv Hi) as (_ & _ & Hfile).
  assert (length (take n (drop k (pd i))) = n) as Hdata
    by (rewrite length_take, length_drop; lia).
  unfold file_Write. rewrite Hfile, Hdata. fold m.
  rewrite take_take, (Nat.min_l m n) by (unfold m; lia).
  by rewrite take_take_drop.
Qed.

(** The state after a step, for each kind of step.  With the invariant a
    worker can create its file; a write stores its bytes, or fills the
    volume and returns ENOSPC. *)
Definition step_result (a : action) (st st' : pool) : Prop :=
  let fs := p_fs st in
  match a with
  | Start i =>
      0 ≤ i < procs ∧ p_workers st !! i = None ∧
      st' = advance i (Fetching 0)
              (Fsys (<[pname i := File []]> (nodes fs)) (free fs)) st
  | Write i n =>
      ∃ k, p_workers st !! i = Some (Fetching k) ∧
           (0 < n ∧ k + n ≤ length (pd i))%nat ∧
           (((n ≤ free fs)%nat ∧
             st' = advance i (Fetching (k + n))
                     (Fsys (<[pname i := File (take (k + n) (pd i))]> (nodes fs))
                        (free fs - n)) st) ∨
            ((free fs < n)%nat ∧
             st' = stop i (k + free fs) (ENOSPC "write" (pname i))
                     (Fsys (<[pname i := File (take (k + free fs) (pd i))]> (nodes fs))
                        0) st))
  | Fail i err =>
      ∃ k, p_workers st !! i = Some (Fetching k) ∧ (k < length (pd i))%nat ∧
           st' = stop i k err fs st
  | Poll => p_walk st = None ∧ st' = observe st
  | CancelCtx => st' = cancel_ctx st
  | WalkBegin =>
      p_walk st = None ∧
      st' = if p_cancelled st then observe st
            else walk_to (Walk (listing dir fs) ∅) st
  | WalkVisit =>
      ∃ p rest seen nd,
        p_walk st = Some (Walk (p :: rest) seen) ∧ nodes fs !! p = Some nd ∧
        st' = walk_to (Walk rest (<[p := nd]> seen)) st
  | WalkEnd =>
      ∃ seen, p_walk st = Some (Walk [] seen) ∧ st' = walk_end dir seen st
  end.

(** The steps of the monitor and of the caller, in any state. *)
Lemma monitor_step_spec a st st' :
  ¬ of_worker a → step a st = Some st' ↔ step_result a st st'.
Proof using Type.
  clear Hwf Hprocs Hlen Hvac Hmax.
  destruct a as [i|i n|i err| | | | |]; simpl; intros Ha; try (by destruct Ha).
  - destruct (p_walk st); [split; [done|by intros [? _]]|].
    split; [by intros [= <-]|by intros [_ ->]].
  - split; [by intros [= <-]|by intros ->].
  - destruct (p_walk st); [split; [done|by intros [? _]]|].
    destruct (p_cancelled st); (split; [by intros [= <-]|by intros [_ ->]]).
  - destruct (p_walk st) as [[[|p rest] seen]|];
      [split; [done|by intros (? & ? & ? & ? & ? & _)]| |
       split; [done|by intros (? & ? & ? & ? & ? & _)]].
    destruct (nodes (p_fs st) !! p) as [nd|] eqn:E; split.
    + intros [= <-]. by exists p, rest, seen, nd.
    + by intros (? & ? & ? & ? & [= <- <- <-] & [= <-]%(eq_trans (eq_sym E)) & ->).
    + done.
    + by intros (? & ? & ? & ? & [= <- <- <-] & ?%(eq_trans (eq_sym E)) & _).
  - destruct (p_walk st) as [[[|p rest] seen]|];
      [|split; [done|by intros (? & ? & _)]..].
    split; [intros [= <-]; by exists seen|by intros (? & [= <-] & ->)].
Qed.

Lemma step_result_same_work a st st' :
  ¬ of_worker a → step_result a st st' → same_work st' st.
Proof using HU.
  clear Hwf Hprocs Hlen Hvac Hmax. intros Ha Hres%monitor_step_spec; [|done].
  by eapply pool_step_same_work.
Qed.

Lemma pool_step_spec a st st' :
  pool_inv st → step a st = Some st' ↔ step_result a st st'.
Proof using HU Hwf Hprocs Hlen.
  intros Hinv. destruct (decide (of_worker a)) as [Ha|Ha];
    [|by apply monitor_step_spec].
  destruct a as [i|i n|i err| | | | |]; try done; simpl.
  - case_decide as Hc; [|split; [done|by intros (? & ? & _); destruct Hc]].
    destruct Hc as [Hr Hnone].
    rewrite os_Create_new
      by (apply part_name_nonempty || by rewrite (inv_part st Hinv i Hr), Hnone).
    split; [by intros [= <-]|by intros (_ & _ & ->)].
  - destruct (p_workers st !! i) as [[k|k]|] eqn:Hi;
      [|split; [done|by intros (? & ? & _)]..].
    destruct (pool_inv_fetching st i k Hinv Hi) as (Hr & Hk & Hfile).
    rewrite (wanted_part i Hr).
    case_decide as Hn;
      [|split; [done|by intros (? & [= <-] & ? & _); destruct Hn]].
    destruct Hn as [Hn Hkn]. rewrite (pool_write st i k n Hinv Hi Hkn).
    destruct (decide (n ≤ free (p_fs st))%nat) as [Hfit|Hshort].
    + rewrite Nat.min_l, decide_False by lia.
      split; [intros [= <-]; exists k; split_and!; [done..|by left]|].
      intros (? & [= <-] & _ & [[_ ->]|[? _]]); [done|lia].
    + rewrite Nat.min_r, decide_True, Nat2Z.id, Nat.sub_diag by lia.
      split; [intros [= <-]; exists k; split_and!; [done..|right; split; [lia|done]]|].
      intros (? & [= <-] & _ & [[? _]|[_ ->]]); [lia|done].
  - destruct (p_workers st !! i) as [[k|k]|] eqn:Hi;
      [|split; [done|by intros (? & ? & _)]..].
    destruct (pool_inv_fetching st i k Hinv Hi) as (Hr & Hk & Hfile).
    rewrite (wanted_part i Hr).
    case_decide as Hn; [|split; [done|by intros (? & [= <-] & ? & _)]].
    split; [intros [= <-]; by exists k|by intros (? & [= <-] & _ & ->)].
Qed.

Lemma pool_step_result a st st' :
  pool_inv st → step a st = Some st' → step_result a st st'.
Proof using HU Hwf Hprocs Hlen. intros Hinv. by apply pool_step_spec. Qed.

(** With the invariant, a step whose result is described can happen. *)
Lemma pool_step_enabled a st st' :
  pool_inv st → step_result a st st' → step a st = Some st'.
Proof using HU Hwf Hprocs Hlen. intros Hinv. by apply pool_step_spec. Qed.

(** Every step keeps the invariant. *)
Lemma step_result_inv a st st' : pool_inv st → step_result a st st' → pool_inv st'.
Proof using Type.
  clear Hlen Hvac Hmax. intros Hinv.
  destruct a as [i|i n|i err| | | | |]; simpl.
  - intros (Hr & Hnone & ->).
    apply (pool_inv_update st _ i (Fetching 0) 0);
      unfold got_of; rewrite ?Hnone; simpl; done || lia.
  - intros (k & Hi & (Hn & Hkn) & [[Hfit ->]|[Hshort ->]]);
      destruct (pool_inv_fetching st i k Hinv Hi) as (Hr & _).
    + apply (pool_inv_update st _ i (Fetching (k + n)) n);
        unfold got_of; rewrite ?Hi; simpl; done || lia.
    + apply (pool_inv_update st _ i (Failed (k + free (p_fs st))) (free (p_fs st)));
        unfold got_of; rewrite ?Hi; simpl; try (done || lia).
      * intros ? [= <-]. lia.
      * by destruct (p_errs st).
  - intros (k & Hi & Hk & ->).
    destruct (pool_inv_fetching st i k Hinv Hi) as (Hr & _ & Hfile).
    apply (pool_inv_update st _ i (Failed k) 0);
      unfold got_of; rewrite ?Hi; simpl; try (done || lia).
    + by intros ? [= <-].
    + by rewrite insert_id.
    + by destruct (p_errs st).
  - intros [_ ->]. by rewrite observe_same_work.
  - intros ->. by rewrite cancel_ctx_same_work.
  - intros [_ ->]. destruct (p_cancelled st);
      by rewrite ?observe_same_work, ?walk_to_same_work.
  - intros (? & ? & ? & ? & _ & _ & ->). by rewrite walk_to_same_work.
  - intros (? & _ & ->). by rewrite walk_end_same_work.
Qed.

Lemma pool_step_inv a st st' : pool_inv st → step a st = Some st' → pool_inv st'.
Proof using HU Hwf Hprocs Hlen.
  intros Hinv Hstep. eapply step_result_inv; [done|by apply pool_step_result].
Qed.

(** The workers only add bytes. *)
Lemma step_result_total a st st' :
  pool_inv st → step_result a st st' → (total st ≤ total st')%nat.
Proof using HU.
  clear Hlen Hvac Hmax. intros Hinv.
  destruct (decide (of_worker a)) as [Ha|Ha].
  2:{ intros Hres%step_result_same_work; [|done].
      by rewrite (pool_total_proper procs _ _ Hres). }
  destruct a as [i|i n|i err| | | | |]; try done; simpl.
  - intros (Hr & Hnone & ->).
    apply (total_mono st _ i (Fetching 0) 0); [done..|].
    unfold got_of. by rewrite Hnone.
  - intros (k & Hi & _ & [[_ ->]|[_ ->]]);
      destruct (pool_inv_fetching st i k Hinv Hi) as (Hr & _).
    + apply (total_mono st _ i (Fetching (k + n)) n); [done..|].
      unfold got_of. by rewrite Hi.
    + apply (total_mono st _ i (Failed (k + free (p_fs st))) (free (p_fs st)));
        [done..|].
      unfold got_of. by rewrite Hi.
  - intros (k & Hi & _ & ->).
    destruct (pool_inv_fetching st i k Hinv Hi) as (Hr & _).
    apply (total_mono st _ i (Failed k) 0); [done..|].
    unfold got_of. by rewrite Hi.
Qed.

(** Along every schedule: what every step keeps beside the invariant holds
    at the end. *)
Lemma pool_run_ind (P : pool → Prop) :
  (∀ a st st', pool_inv st → P st → step_result a st st' → P st') →
  ∀ sched st st', pool_inv st → P st →
    pool_run content t procs sched st = Some st' → pool_inv st' ∧ P st'.
Proof using HU Hwf Hprocs Hlen.
  clear Hvac Hmax. intros HP.
  induction sched as [|a sched IH]; intros st st' Hinv Hst; simpl;
    [by intros [= <-]|].
  destruct (step a st) as [st1|] eqn:E; [|done]. simpl.
  apply pool_step_result in E; [|done].
  apply IH; [by eapply step_result_inv|by eapply HP].
Qed.

Lemma pool_run_pool_inv sched st st' :
  pool_inv st → pool_run content t procs sched st = Some st' → pool_inv st'.
Proof using HU Hwf Hprocs Hlen.
  clear Hvac Hmax. intros Hinv Hrun.
  by destruct (pool_run_ind (λ _, True) (λ _ _ _ _ _ _, I) sched st st').
Qed.

(** *** When the workers are done *)

Lemma finished_got st i :
  pool_inv st → finished content t procs st → 0 ≤ i < procs →
  p_workers st !! i = Some (Fetching (length (pd i))).
Proof using HU Hwf Hprocs.
  clear Hlen Hvac Hmax. intros Hinv Hfin Hi. unfold finished in Hfin.
  rewrite Forall_forall in Hfin. rewrite <-(wanted_part i Hi).
  apply Hfin, elem_of_seqZ. lia.
Qed.

Lemma finished_total st :
  pool_inv st → finished content t procs st → total st = length content.
Proof using HU Hwf Hprocs Hlen.
  clear Hvac Hmax. intros Hinv Hfin.
  rewrite <-(parts_size_all content t procs Hprocs Hlen).
  apply sum_list_with_ext_in. intros i [??]%elem_of_seqZ.
  unfold got_of, compose. by rewrite (finished_got st i) by (done || lia).
Qed.

Lemma finished_no_error st :
  pool_inv st → finished content t procs st → p_errs st = [].
Proof using HU Hwf Hprocs.
  clear Hlen Hvac Hmax. intros Hinv Hfin.
  apply (inv_errs st Hinv). intros i k Hi.
  destruct (inv_range st Hinv i _ Hi) as [Hr _].
  by rewrite (finished_got st i) in Hi.
Qed.

(** All the bytes are there only when every worker is done. *)
Lemma total_finished st :
  pool_inv st → total st = length content → finished content t procs st.
Proof using HU Hwf Hprocs Hlen.
  clear Hvac Hmax. intros Hinv Htot. apply Forall_forall.
  intros i Hi. pose proof Hi as [??]%elem_of_seqZ.
  assert (0 ≤ i < procs) as Hr by lia. rewrite (wanted_part i Hr).
  rewrite <-(parts_size_all content t procs Hprocs Hlen) in Htot.
  pose proof (sum_list_with_eq_le (got_of st) (length ∘ pd) (seqZ 0 procs)) as Heq.
  specialize (Heq ltac:(intros j _; unfold got_of, compose;
    destruct (p_workers st !! j) as [w|] eqn:E; simpl;
    [by apply (inv_range st Hinv j)|lia]) Htot i Hi).
  pose proof (part_positive content t procs Hprocs Hlen i Hr). unfold got_of, compose in Heq.
  destruct (p_workers st !! i) as [[k|k]|] eqn:E; simpl in *; [by subst| |lia].
  pose proof (inv_failed st Hinv i k E). lia.
Qed.

(** Every schedule that finishes leaves what the workers leave when they
    run one after the other. *)
Lemma finished_fs st :
  pool_inv st → finished content t procs st →
  p_fs st = Fsys (downloaded content t procs fs0) (free fs0 - length content)%nat.
Proof using HU Hwf Hprocs Hlen.
  clear Hvac Hmax. intros Hinv Hfin.
  rewrite <-(fsys_eta (p_fs st)). f_equal.
  - apply map_eq. intros p.
    destruct (decide (Exists (λ i, p = pname i) (seqZ 0 procs))) as [Hex|Hn].
    + apply Exists_exists in Hex as (i & [??]%elem_of_seqZ & ->).
      rewrite downloaded_lookup_part, (inv_part st Hinv) by lia.
      rewrite (finished_got st i) by (done || lia). simpl. by rewrite take_ge.
    + assert (∀ i, 0 ≤ i < procs → p ≠ pname i) as Hp.
      { intros i Hi ->. apply Hn, Exists_exists. exists i.
        split; [apply elem_of_seqZ; lia|done]. }
      by rewrite downloaded_lookup_other, (inv_other st Hinv).
  - pose proof (inv_free st Hinv). rewrite finished_total in * by done. lia.
Qed.

End invariant.
