(* ===== verification/PoolMonitor.v ===== *)
(** * What the monitor finds in the pool

    The monitor reads the workspace while the workers write to it, without
    a lock.  A round of the monitor is one step of a schedule ([Poll]) or a
    walk that the steps of the workers interleave with ([WalkBegin],
    [WalkVisit], [WalkEnd]): the sizes such a walk adds up were never
    there together.  The files of the workspace only grow ([grows]), so what
    a walk finds lies between the bytes written when it began and the bytes
    written when it ends ([walk_ok], [walk_between]); the sizes the monitor
    finds never go down and never pass what the workers have written
    ([obs_inv]), on every schedule ([pool_run_inv]). *)

From S2P Require Import Prelude GoInt FileSys Data Merge Progress Iface Download Pool.
From stdpp Require Import gmap sorting.

#[local] Open Scope Z_scope.

(** ** Files that only grow *)

(** Every file of [fs] is in [fs'], at least as long. *)
Definition grows (fs fs' : fsys) : Prop :=
  ∀ p bs, nodes fs !! p = Some (File bs) →
    ∃ bs', nodes fs' !! p = Some (File bs') ∧ (length bs ≤ length bs')%nat.

#[global] Instance grows_preorder : PreOrder grows.
Proof.
  split; [intros fs p bs ?; eauto|].
  intros fs1 fs2 fs3 H12 H23 p bs Hp.
  destruct (H12 p bs Hp) as (bs2 & Hp2 & ?).
  destruct (H23 p bs2 Hp2) as (bs3 & ? & ?). exists bs3. split; [done|lia].
Qed.

(** A file is replaced by a longer one, or created. *)
Lemma grows_insert fs q new fr :
  (∀ bs, nodes fs !! q = Some (File bs) → (length bs ≤ length new)%nat) →
  grows fs (Fsys (<[q := File new]> (nodes fs)) fr).
Proof.
  intros Hq p bs Hp. simpl. destruct (decide (p = q)) as [->|Hne].
  - exists new. rewrite lookup_insert_eq. split; [done|by apply Hq].
  - exists bs. by rewrite lookup_insert_ne.
Qed.

(** The bytes at the paths of a list, as they are in [fs]. *)
Definition pending_len (fs : fsys) (l : list string) : nat :=
  sum_list_with (λ p, from_option node_len 0%nat (nodes fs !! p)) l.

Lemma pending_len_grows fs fs' l :
  Forall (λ p, ∃ bs, nodes fs !! p = Some (File bs)) l → grows fs fs' →
  (pending_len fs l ≤ pending_len fs' l)%nat.
Proof.
  intros Hl Hg. apply sum_list_with_le. intros p Hp.
  rewrite Forall_forall in Hl. destruct (Hl p Hp) as (bs & Hbs).
  destruct (Hg p bs Hbs) as (bs' & Hbs' & ?). by rewrite Hbs, Hbs'.
Qed.

(** A map whose files are all in another, at least as long, holds no more
    bytes. *)
Lemma du_le (m1 : gmap string node) : ∀ m2 : gmap string node,
  (∀ p n, m1 !! p = Some n →
     ∃ n', m2 !! p = Some n' ∧ (node_len n ≤ node_len n')%nat) →
  (du m1 ≤ du m2)%nat.
Proof.
  induction m1 as [|k n m Hk IH] using map_ind; intros m2 Hle.
  { rewrite du_empty. lia. }
  destruct (Hle k n) as (n' & Hk2 & ?); [by rewrite lookup_insert_eq|].
  rewrite du_insert, (du_delete m2 k n') by done.
  assert (du m ≤ du (delete k m2))%nat; [|lia]. apply IH. intros p n0 Hp.
  assert (p ≠ k) by (by intros ->; rewrite Hk in Hp).
  rewrite lookup_delete_ne by done. apply Hle. by rewrite lookup_insert_ne.
Qed.

(** The bytes below a directory are those at the paths of its listing. *)
Lemma pending_len_listing dir fs :
  pending_len fs (listing dir fs) = du (filter (below dir) (nodes fs)).
Proof.
  unfold pending_len, listing. rewrite du_sum_lens.
  assert (∀ l : list (string * node),
    (∀ p n, (p, n) ∈ l → nodes fs !! p = Some n) →
    sum_list_with (λ p, from_option node_len 0%nat (nodes fs !! p)) l.*1
    = sum_lens l) as Hsum.
  { induction l as [|[p n] l IH]; intros Hl; [done|].
    rewrite fmap_cons. cbn [sum_list_with fst]. rewrite (Hl p n) by (by left).
    rewrite IH; [done|]. intros; apply Hl. by right. }
  apply Hsum. intros p n Hp%elem_of_map_to_list.
  by apply map_lookup_filter_Some in Hp as [? _].
Qed.

(** ** The workspace at an instant *)

Section monitor.
Context `{HU : UtilsSpec T}.
Context (content : bytes) (t : T) (procs : Z) (fs0 : fsys).
Hypothesis Hwf : is_u64 (U_FileSize t).
Hypothesis Hprocs : 0 < procs ≤ U_FileSize t.
Hypothesis Hlen : Z.of_nat (length content) = U_FileSize t.
Hypothesis Hvac : vacant (U_DirName t) fs0.
Hypothesis Hmax : U_FileSize t ≤ i64_max.

#[local] Abbreviation dir := (U_DirName t).
#[local] Abbreviation pd := (part content (U_FileSize t) procs).
#[local] Abbreviation pname := (part_name (view t) procs).
#[local] Abbreviation total := (pool_total procs).
#[local] Abbreviation pool_inv := (pool_inv content t procs fs0).
#[local] Abbreviation step_result := (step_result content t procs).
Implicit Types (st : pool) (i j : Z) (k : nat) (a : action).
Implicit Types (ks : list nat) (pre post : list observation).

(** Below the workspace there are the partial files and nothing else. *)
Lemma pool_below_part st i :
  pool_inv st → 0 ≤ i < procs →
  filter (below dir) (nodes (p_fs st)) !! pname i
  = (λ w, File (take (got w) (pd i))) <$> (p_workers st !! i).
Proof using Type.
  intros Hinv Hi. rewrite filter_below_lookup, decide_True
    by apply (part_name_under (view t)).
  by apply (inv_part _ _ _ _ st Hinv).
Qed.

Lemma pool_below_other st p :
  pool_inv st → (∀ i, 0 ≤ i < procs → p ≠ pname i) →
  filter (below dir) (nodes (p_fs st)) !! p = None.
Proof using Hvac.
  intros Hinv Hp. rewrite filter_below_lookup. case_decide as Hu; [|done].
  rewrite (inv_other _ _ _ _ st Hinv p Hp), lookup_insert_ne.
  - apply (vacant_lookup dir); auto.
  - intros <-. by rewrite is_under_irrefl in Hu.
Qed.

Lemma pool_below_file st p n :
  pool_inv st → filter (below dir) (nodes (p_fs st)) !! p = Some n →
  ∃ bs, n = File bs.
Proof using Hvac.
  intros Hinv Hp.
  destruct (decide (Exists (λ i, p = pname i) (seqZ 0 procs))) as [Hex|Hn].
  - apply Exists_exists in Hex as (i & [??]%elem_of_seqZ & ->).
    rewrite pool_below_part in Hp by (done || lia).
    destruct (p_workers st !! i); simpl in Hp; simplify_eq. eauto.
  - rewrite pool_below_other in Hp; [done..|].
    intros i Hi ->. apply Hn, Exists_exists. exists i.
    split; [apply elem_of_seqZ; lia|done].
Qed.

Lemma pool_root st : pool_inv st → nodes (p_fs st) !! dir = Some (Dir true).
Proof using Type.
  intros Hinv. rewrite (inv_other _ _ _ _ st Hinv), lookup_insert_eq; [done|].
  intros i _. apply (part_name_ne_dirname (view t)).
Qed.

Lemma pool_measurable st : pool_inv st → measurable dir (p_fs st).
Proof using Hvac.
  intros Hinv. split; [by apply pool_root|]. intros p n Hp.
  by destruct (pool_below_file st p n Hinv Hp) as [bs ->].
Qed.

Lemma pool_du st :
  pool_inv st → du (filter (below dir) (nodes (p_fs st))) = total st.
Proof using Hvac.
  intros Hinv.
  rewrite (du_indexed pname
             (λ i, (λ w, File (take (got w) (pd i))) <$> (p_workers st !! i))
             (seqZ 0 procs)).
  - apply sum_list_with_ext_in. intros i _. unfold got_of.
    destruct (p_workers st !! i) as [w|] eqn:E; simpl; [|done].
    destruct (inv_range _ _ _ _ st Hinv i w E) as [_ Hle]. rewrite length_take. lia.
  - apply NoDup_seqZ.
  - intros i j. apply part_name_inj.
  - intros i [??]%elem_of_seqZ. apply pool_below_part; [done|lia].
  - intros p Hp. apply pool_below_other; [done|].
    intros i Hi. apply Hp, elem_of_seqZ. lia.
Qed.

Lemma pool_measure st : pool_inv st → measure dir (p_fs st) = Z.of_nat (total st).
Proof using Hvac. intros Hinv. unfold measure. by rewrite pool_du. Qed.

Lemma pool_total_le st : pool_inv st → (total st ≤ length content)%nat.
Proof using Hprocs Hlen.
  intros Hinv. apply (total_le content t procs Hprocs Hlen).
  intros i w Hi. apply (inv_range _ _ _ _ st Hinv i w Hi).
Qed.

(** The monitor measures what the workers have written. *)
Lemma pool_subDirsize st :
  pool_inv st →
  subDirsize (view t) dir (p_fs st) = Returns (Z.of_nat (total st), None).
Proof using Hprocs Hlen Hvac Hmax.
  intros Hinv. rewrite <-pool_measure by done.
  apply subDirsize_walk; [by apply pool_measurable|].
  rewrite pool_measure by done. pose proof (pool_total_le st Hinv). lia.
Qed.

(** Every step leaves the files at least as long as they were. *)
Lemma step_result_grows a st st' :
  pool_inv st → step_result a st st' → grows (p_fs st) (p_fs st').
Proof using HU.
  clear Hwf Hprocs Hlen Hvac Hmax. intros Hinv.
  destruct (decide (of_worker a)) as [Ha|Ha].
  2:{ intros Hres%step_result_same_work; [|done].
      by rewrite (p_fs_proper _ _ Hres). }
  destruct a as [i|i n|i err| | | | |]; try done; simpl.
  - intros (Hr & Hnone & ->). apply grows_insert. intros bs.
    by rewrite (inv_part _ _ _ _ st Hinv i Hr), Hnone.
  - intros (k & Hi & _ & Hst).
    destruct (pool_inv_fetching _ _ _ _ st i k Hinv Hi) as (_ & _ & Hfile).
    destruct Hst as [[_ ->]|[_ ->]]; apply grows_insert; intros bs;
      rewrite Hfile; intros [= <-]; rewrite !length_take; lia.
  - by intros (k & _ & _ & ->).
Qed.

(** A step of a worker leaves the monitor where it is. *)
Lemma worker_step_monitor a st st' :
  of_worker a → step_result a st st' →
  p_obs st' = p_obs st ∧ p_cancelled st' = p_cancelled st ∧ p_walk st' = p_walk st.
Proof using Type.
  clear Hwf Hprocs Hlen Hvac Hmax.
  destruct a as [i|i n|i err| | | | |]; try done; simpl; intros _.
  - by intros (_ & _ & ->).
  - by intros (k & _ & _ & [[_ ->]|[_ ->]]).
  - by intros (k & _ & _ & ->).
Qed.

(** ** A walk in progress *)

(** A walk that began after the rounds that found [ks]: the paths it has
    still to look at are different files of the workspace, what it has found
    is files of the workspace no longer than they are now, and the bytes it
    has found and those at the paths it has still to look at are together at
    least each of [ks]. *)
Definition walk_ok (fs : fsys) ks (w : walk) : Prop :=
  NoDup (w_pending w) ∧
  Forall (λ p, w_seen w !! p = None ∧ is_under dir p = true ∧
               ∃ bs, nodes fs !! p = Some (File bs)) (w_pending w) ∧
  map_Forall (λ p n, is_under dir p = true ∧
                ∃ bs bs', n = File bs ∧ nodes fs !! p = Some (File bs') ∧
                          (length bs ≤ length bs')%nat) (w_seen w) ∧
  Forall (λ k, (k ≤ du (w_seen w) + pending_len fs (w_pending w))%nat) ks.

Lemma walk_ok_grows fs fs' ks w : walk_ok fs ks w → grows fs fs' → walk_ok fs' ks w.
Proof using Type.
  clear Hwf Hprocs Hlen Hvac Hmax. intros (Hnd & Hpend & Hseen & Hks) Hg.
  split_and!; [done| | |].
  - eapply Forall_impl; [done|]. intros p (? & ? & bs & Hbs).
    destruct (Hg p bs Hbs) as (bs' & ? & _). eauto.
  - eapply map_Forall_impl; [done|]. intros p n (? & bs & bs1 & -> & Hbs & ?).
    destruct (Hg p bs1 Hbs) as (bs' & ? & ?). split; [done|].
    exists bs, bs'. split_and!; [done..|lia].
  - assert (pending_len fs (w_pending w) ≤ pending_len fs' (w_pending w))%nat
      by (apply pending_len_grows; [|done];
          eapply Forall_impl; [done|]; by intros p (_ & _ & ?)).
    eapply Forall_impl; [done|]. simpl. intros; lia.
Qed.

(** The walk begins: it lists the workspace. *)
Lemma walk_ok_begin st ks :
  pool_inv st → Forall (λ k, (k ≤ total st)%nat) ks →
  walk_ok (p_fs st) ks (Walk (listing dir (p_fs st)) ∅).
Proof using Hvac.
  intros Hinv Hks. split_and!; simpl.
  - apply NoDup_fst_map_to_list.
  - apply Forall_forall. intros p [[p' n] [-> Hp%elem_of_map_to_list]]%list_elem_of_fmap.
    destruct (pool_below_file st _ n Hinv Hp) as [bs ->].
    rewrite filter_below_lookup in Hp. case_decide; [|done]. eauto.
  - apply map_Forall_empty.
  - by rewrite du_empty, pending_len_listing, pool_du.
Qed.

(** The walk looks at the next path. *)
Lemma walk_ok_visit fs ks p rest seen nd :
  walk_ok fs ks (Walk (p :: rest) seen) → nodes fs !! p = Some nd →
  walk_ok fs ks (Walk rest (<[p := nd]> seen)).
Proof using Type.
  clear Hwf Hprocs Hlen Hvac Hmax. intros (Hnd & Hpend & Hseen & Hks) Hp. simpl in *.
  apply NoDup_cons in Hnd as [Hfresh Hnd].
  apply Forall_cons in Hpend as [(Hnew & Hu & bs & Hbs) Hpend].
  assert (nd = File bs) as -> by congruence.
  split_and!; simpl; [done| | |].
  - apply Forall_forall. intros q Hq. rewrite Forall_forall in Hpend.
    destruct (Hpend q Hq) as (? & ? & ?).
    rewrite lookup_insert_ne by (by intros ->). eauto.
  - apply map_Forall_insert_2; [|done]. split; [done|]. by exists bs, bs.
  - rewrite du_insert by done. unfold pending_len in *. simpl in Hks.
    rewrite Hbs in Hks. simpl in *.
    eapply Forall_impl; [done|]. simpl. intros; lia.
Qed.

(** What the walk has found is below the workspace of [snapshot], and
    nothing else is. *)
Lemma snapshot_below fs ks seen :
  walk_ok fs ks (Walk [] seen) →
  filter (below dir) (nodes (snapshot dir seen fs)) = seen.
Proof using Type.
  clear Hwf Hprocs Hlen Hvac Hmax. intros (_ & _ & Hseen & _). simpl in *.
  apply map_eq. intros p. rewrite filter_below_lookup, lookup_union.
  case_decide as Hu.
  - rewrite (map_lookup_filter_None_2 _ (nodes fs) p), (right_id_L None _); [done|].
    right. intros n _ Hn. by apply Hn.
  - destruct (seen !! p) as [n|] eqn:E; [|done].
    by destruct (Hseen p n E) as [? _].
Qed.

(** The walk ends: the monitor takes the sizes it has found for the
    workspace. *)
Lemma walk_ok_end st ks seen :
  pool_inv st → walk_ok (p_fs st) ks (Walk [] seen) →
  measured (view t) (false, snapshot dir seen (p_fs st)) (Z.of_nat (du seen)) ∧
  (du seen ≤ total st)%nat ∧ Forall (λ k, (k ≤ du seen)%nat) ks.
Proof using Hprocs Hlen Hvac Hmax.
  intros Hinv Hw. pose proof (snapshot_below _ _ _ Hw) as Hbelow.
  destruct Hw as (_ & _ & Hseen & Hks). simpl in Hseen, Hks.
  assert (du seen ≤ total st)%nat as Hle.
  { rewrite <-pool_du by done. apply du_le. intros p n Hp.
    destruct (Hseen p n Hp) as (Hu & bs & bs' & -> & Hbs & ?). exists (File bs').
    by rewrite filter_below_lookup, decide_True. }
  split_and!; [|done|].
  - split; [done|]. simpl.
    replace (Z.of_nat (du seen)) with (measure dir (snapshot dir seen (p_fs st)))
      by (unfold measure; by rewrite Hbelow).
    pose proof (pool_total_le st Hinv).
    apply subDirsize_walk; [|unfold measure; rewrite Hbelow; lia].
    split; [|rewrite Hbelow; intros p n Hp; by destruct (Hseen p n Hp) as (_ & ? & ? & -> & _)].
    simpl. rewrite lookup_union_r.
    + apply map_lookup_filter_Some. split; [by apply pool_root|].
      unfold below. simpl. by rewrite is_under_irrefl.
    + destruct (seen !! dir) as [n|] eqn:E; [|done].
      destruct (Hseen _ n E) as [Hu _]. by rewrite is_under_irrefl in Hu.
  - eapply Forall_impl; [done|]. unfold pending_len. simpl. intros; lia.
Qed.

(** ** What the monitor has found *)

(** What the monitor has found so far: at each of its rounds before the
    cancellation, a number of bytes that the workers had written by then,
    and these numbers never go down; at the rounds after it, that the
    context is cancelled; and in the middle of a round, that the walk is as
    [walk_ok] says. *)
Definition obs_at st pre post ks : Prop :=
  p_obs st = pre ++ post ∧
  Forall2 (measured (view t)) pre (Z.of_nat <$> ks) ∧
  Forall (λ k, (k ≤ total st)%nat) ks ∧
  Sorted Z.le (Z.of_nat <$> ks) ∧
  Forall cancelled post ∧
  (p_cancelled st = false → post = []) ∧
  (∀ w, p_walk st = Some w → post = [] ∧ walk_ok (p_fs st) ks w).

Definition obs_inv st : Prop := ∃ pre post ks, obs_at st pre post ks.

Lemma obs_inv_init fs : obs_inv (pool_init fs).
Proof using Type. exists [], [], []. by split_and!; constructor. Qed.

(** A step that leaves the monitor where it is. *)
Lemma obs_at_same st st' pre post ks :
  obs_at st pre post ks →
  p_obs st' = p_obs st → (p_cancelled st' = false → p_cancelled st = false) →
  p_walk st' = p_walk st → (total st ≤ total st')%nat →
  grows (p_fs st) (p_fs st') → obs_at st' pre post ks.
Proof using Type.
  clear Hwf Hprocs Hlen Hvac Hmax.
  intros (Hobs & Hmeas & Hks & Hsorted & Hpost & Hlive & Hwalk) Ho Hc Hw Hle Hg.
  split_and!; [congruence|done| |done|done|by intros ?%Hc%Hlive|].
  - eapply Forall_impl; [done|]. simpl. intros; lia.
  - intros w Hw'. rewrite Hw in Hw'. destruct (Hwalk w Hw') as [-> ?].
    split; [done|]. by eapply walk_ok_grows.
Qed.

(** The walk of the monitor moves on. *)
Lemma obs_at_walk st pre post ks (w : walk) :
  obs_at st pre post ks → post = [] → walk_ok (p_fs st) ks w →
  obs_at (walk_to w st) pre post ks.
Proof using Type.
  clear Hwf Hprocs Hlen Hvac Hmax.
  intros (Hobs & Hmeas & Hks & Hsorted & Hpost & Hlive & _) -> Hw.
  split_and!; try done. by intros ? [= <-].
Qed.

(** A round that measures [k] bytes. *)
Lemma obs_at_measured st st' pre post ks o k :
  obs_at st pre post ks → post = [] →
  measured (view t) o (Z.of_nat k) → (k ≤ total st)%nat →
  Forall (λ k', (k' ≤ k)%nat) ks →
  p_obs st' = p_obs st ++ [o] → p_cancelled st' = p_cancelled st →
  p_walk st' = None → total st' = total st →
  obs_at st' (pre ++ [o]) [] (ks ++ [k]).
Proof using Type.
  clear Hwf Hprocs Hlen Hvac Hmax.
  intros (Hobs & Hmeas & Hks & Hsorted & _ & _ & _) -> Ho Hk Hle Hobs' Hc Hw Ht.
  rewrite app_nil_r in Hobs.
  split_and!; rewrite ?Hobs', ?Hobs, ?app_nil_r, ?fmap_app, ?Ht, ?Hw; try done.
  - apply Forall2_app; [done|]. constructor; [done|constructor].
  - apply Forall_app. split; [done|]. by apply Forall_singleton.
  - apply Sorted_le_snoc; [done|]. apply Forall_fmap.
    eapply Forall_impl; [exact Hle|]. simpl. intros; lia.
Qed.

(** A round that finds the context cancelled. *)
Lemma obs_at_cancelled st st' pre post ks fs :
  obs_at st pre post ks → p_walk st = None →
  p_obs st' = p_obs st ++ [(true, fs)] → p_cancelled st' = true →
  p_walk st' = None → total st' = total st →
  obs_at st' pre (post ++ [(true, fs)]) ks.
Proof using Type.
  clear Hwf Hprocs Hlen Hvac Hmax.
  intros (Hobs & Hmeas & Hks & Hsorted & Hpost & _ & _) Hidle Hobs' Hc Hw Ht.
  split_and!; rewrite ?Hobs', ?Hobs, ?Ht, ?Hw, ?Hc, ?app_assoc; try done.
  apply Forall_app. by repeat constructor.
Qed.

Lemma obs_observe st :
  pool_inv st → obs_inv st → p_walk st = None → obs_inv (observe st).
Proof using Hprocs Hlen Hvac Hmax.
  intros Hinv (pre & post & ks & Hat) Hidle. destruct (p_cancelled st) eqn:Hc.
  - exists pre, (post ++ [(true, p_fs st)]), ks.
    apply (obs_at_cancelled st); try done. simpl. by rewrite Hc.
  - pose proof Hat as (_ & _ & Hks & _ & _ & Hlive & _).
    exists (pre ++ [(false, p_fs st)]), [], (ks ++ [total st]).
    apply (obs_at_measured st _ pre post); try done; [by apply Hlive| |by simpl; rewrite Hc].
    split; [done|]. by apply pool_subDirsize.
Qed.

(** Every step keeps what the monitor has found as [obs_inv] says. *)
Lemma step_result_obs a st st' :
  pool_inv st → obs_inv st → step_result a st st' → obs_inv st'.
Proof using HU Hprocs Hlen Hvac Hmax.
  intros Hinv Hseen Hres. pose proof Hseen as (pre & post & ks & Hat).
  pose proof (step_result_total _ _ _ _ a st st' Hinv Hres) as Hle.
  pose proof (step_result_grows a st st' Hinv Hres) as Hg.
  pose proof Hat as (_ & _ & Hks & _ & _ & Hlive & Hwalk).
  destruct (decide (of_worker a)) as [Ha|Ha].
  { destruct (worker_step_monitor a st st' Ha Hres) as (? & Hc & ?).
    exists pre, post, ks. apply (obs_at_same st); by rewrite ?Hc. }
  destruct a as [i|i n|i err| | | | |]; try (by destruct Ha).
  - destruct Hres as [Hidle ->]. by apply obs_observe.
  - simpl in Hres. subst st'. exists pre, post, ks. by apply (obs_at_same st).
  - destruct Hres as [Hidle ->]. destruct (p_cancelled st) eqn:Hc;
      [by apply obs_observe|].
    exists pre, post, ks.
    apply obs_at_walk; [done|by apply Hlive|by apply walk_ok_begin].
  - destruct Hres as (p & rest & seen & nd & Hw & Hp & ->).
    destruct (Hwalk _ Hw) as [Hpost Hok]. exists pre, post, ks.
    apply obs_at_walk; [done..|]. by eapply walk_ok_visit.
  - destruct Hres as (seen & Hw & ->). destruct (Hwalk _ Hw) as [Hpost Hok].
    destruct (walk_ok_end st ks seen Hinv Hok) as (Hm & Hk & Hle').
    exists (pre ++ [(false, snapshot dir seen (p_fs st))]), [], (ks ++ [du seen]).
    by apply (obs_at_measured st _ pre post).
Qed.

(** Along every schedule. *)
Lemma pool_run_inv sched st st' :
  pool_inv st → obs_inv st →
  pool_run content t procs sched st = Some st' → pool_inv st' ∧ obs_inv st'.
Proof using HU Hwf Hprocs Hlen Hvac Hmax.
  apply pool_run_ind; [done..|]. intros a. apply step_result_obs.
Qed.

(** While the context is not cancelled, every round has measured. *)
Lemma obs_inv_live st :
  obs_inv st → p_cancelled st = false →
  ∃ ks, Forall2 (measured (view t)) (p_obs st) (Z.of_nat <$> ks) ∧
        Forall (λ k, (k ≤ total st)%nat) ks ∧ Sorted Z.le (Z.of_nat <$> ks).
Proof using Type.
  clear Hwf Hprocs Hlen Hvac Hmax.
  intros (pre & post & ks & Hobs & Hmeas & Hks & Hsorted & _ & Hlive & _) Hc.
  rewrite (Hlive Hc), app_nil_r in Hobs. exists ks. by rewrite Hobs.
Qed.

(** ** One walk, from its beginning to its end *)

(** The monitor is in a walk that began when [k0] bytes were written, and
    its earlier rounds are [obs]. *)
Definition walking (k0 : nat) (obs : list observation) st : Prop :=
  p_obs st = obs ∧ ∃ w, p_walk st = Some w ∧ walk_ok (p_fs st) [k0] w.

(** Every step but the end of the walk leaves the monitor in it. *)
Lemma step_result_walking k0 obs a st st' :
  a ≠ WalkEnd → pool_inv st → walking k0 obs st → step_result a st st' →
  walking k0 obs st'.
Proof using HU.
  clear Hwf Hprocs Hlen Hvac Hmax. intros Ha Hinv (Hobs & w & Hw & Hok) Hres.
  destruct (decide (of_worker a)) as [Hwk|Hwk].
  { destruct (worker_step_monitor a st st' Hwk Hres) as (Ho & _ & Hw').
    split; [congruence|]. exists w. split; [congruence|].
    eapply walk_ok_grows; [done|]. by eapply step_result_grows. }
  destruct a as [i|i n|i err| | | | |]; try (by destruct Hwk); try done.
  - destruct Hres as [Hidle _]. congruence.
  - simpl in Hres. subst st'. split; [done|]. by exists w.
  - destruct Hres as [Hidle _]. congruence.
  - destruct Hres as (p & rest & seen & nd & Hw' & Hp & ->).
    assert (w = Walk (p :: rest) seen) as -> by congruence.
    split; [done|]. eexists. split; [done|]. by eapply walk_ok_visit.
Qed.

Lemma pool_run_walking k0 obs sched st st' :
  WalkEnd ∉ sched → pool_inv st → walking k0 obs st →
  pool_run content t procs sched st = Some st' → pool_inv st' ∧ walking k0 obs st'.
Proof using HU Hwf Hprocs Hlen.
  clear Hvac Hmax. revert st.
  induction sched as [|a sched IH]; intros st Hend Hinv Hw; simpl;
    [by intros [= <-]|].
  apply not_elem_of_cons in Hend as [Ha Hend].
  destruct (pool_step content t procs a st) as [st1|] eqn:E; [|done]. simpl.
  apply (pool_step_result content t procs fs0) in E; [|done..].
  apply IH; [done|by eapply step_result_inv|by eapply step_result_walking].
Qed.

(** A walk that the workers write beside measures a number of bytes
    between what was written when it began and what is written when it
    ends. *)
Lemma walk_between sched st st' :
  pool_inv st → idle st →
  WalkEnd ∉ sched →
  pool_run content t procs (WalkBegin :: sched ++ [WalkEnd]) st = Some st' →
  ∃ o k, p_obs st' = p_obs st ++ [o] ∧ measured (view t) o (Z.of_nat k) ∧
         (total st ≤ k ≤ total st')%nat.
Proof using HU Hwf Hprocs Hlen Hvac Hmax.
  intros Hinv [Hlive Hidle] Hend.
  change (WalkBegin :: sched ++ [WalkEnd]) with ([WalkBegin] ++ sched ++ [WalkEnd]).
  rewrite pool_run_app. simpl. rewrite Hidle, Hlive. simpl.
  set (st1 := walk_to _ st). rewrite pool_run_app.
  assert (pool_inv st1) as Hinv1.
  { apply (step_result_inv content t procs fs0 WalkBegin st); [done..|].
    simpl. by rewrite Hlive. }
  assert (walking (total st) (p_obs st) st1) as Hw1.
  { split; [done|]. eexists. split; [done|].
    apply (walk_ok_begin st [total st] Hinv). by apply Forall_singleton. }
  destruct (pool_run content t procs sched st1) as [st2|] eqn:E; [|done]. simpl.
  destruct (pool_run_walking _ _ _ _ _ Hend Hinv1 Hw1 E) as (Hinv2 & Hobs & w & Hw & Hok).
  rewrite Hw. destruct w as [[|p rest] seen]; [|done]. intros [= <-].
  destruct (walk_ok_end st2 [total st] seen Hinv2 Hok) as (Hm & Hle & Hge).
  rewrite Forall_singleton in Hge.
  exists (false, snapshot dir seen (p_fs st2)), (du seen).
  split; [by simpl; rewrite Hobs|]. split; [exact Hm|]. split; [exact Hge|exact Hle].
Qed.

(** ** The walk is never kept waiting *)

(** Whatever the workers have done since the names were read, the monitor
    can look at every path it has left, one step each, and end its round:
    no step of its walk waits for a worker, and none fails. *)
Lemma walk_can_end ks pend : ∀ st seen,
  pool_inv st →
  p_walk st = Some (Walk pend seen) → walk_ok (p_fs st) ks (Walk pend seen) →
  ∃ st' o k,
    pool_run content t procs (replicate (length pend) WalkVisit ++ [WalkEnd]) st
    = Some st' ∧
    same_work st' st ∧ p_walk st' = None ∧ p_cancelled st' = p_cancelled st ∧
    p_obs st' = p_obs st ++ [o] ∧ measured (view t) o (Z.of_nat k) ∧
    (k ≤ total st)%nat.
Proof using Hprocs Hlen Hvac Hmax.
  induction pend as [|p rest IH]; intros st seen Hinv Hw Hok; simpl.
  { rewrite Hw. simpl.
    destruct (walk_ok_end st ks seen Hinv Hok) as (Hm & Hle & _).
    eexists _, _, _. by split_and!. }
  pose proof Hok as (_ & (_ & _ & bs & Hp)%Forall_cons_1%proj1 & _).
  simpl in Hp. rewrite Hw, Hp. simpl.
  set (st1 := walk_to (Walk rest (<[p := File bs]> seen)) st).
  destruct (IH st1 (<[p := File bs]> seen))
    as (st' & o & k & Hrun & Hsame & ? & ? & ? & ? & ?);
    [by apply (pool_inv_proper content t procs fs0 st1 st)|done
    |by eapply walk_ok_visit|].
  exists st', o, k. split; [done|]. split_and!; [|done..]. by rewrite Hsame.
Qed.

End monitor.
