(* ===== verification/PoolRuns.v ===== *)
(** * The runs of the worker pool

    What the schedules of the pool of [Pool] can and cannot do.  The steps
    of the workers use up a variant, so the workers terminate; a write that
    does not fit on the volume is short and stops its worker with ENOSPC, so
    the transfers complete only on a volume that has room for the resource;
    with that room the only errors are those of the transport and the
    workers can always be brought to the end of their ranges; no step changes
    the size of the volume; neither the rounds of the monitor, at once or
    file by file, nor the cancellation of its context change what the workers
    do. *)

From S2P Require Import Prelude GoInt FileSys Data Merge Progress Iface Download Pool.
From stdpp Require Import gmap sorting.

#[local] Open Scope Z_scope.

(** ** Definitions *)

Section runs_defs.
Context `{UtilsSpec T}.
Context (content : bytes) (t : T) (procs : Z).

#[local] Abbreviation wanted := (Pool.wanted content t procs).

(** The steps worker [i] can still make, at most: its start and one write
    per byte that is missing; none once it has returned an error. *)
Definition todo (st : pool) (i : Z) : nat :=
  match p_workers st !! i with
  | None => length (wanted i) + 1
  | Some (Fetching k) => length (wanted i) - k
  | Some (Failed _) => 0
  end.

Definition pool_variant (st : pool) : nat :=
  sum_list_with (todo st) (seqZ 0 procs).

(** The steps that bring worker [i] to the end of its range, and the
    schedule that does so for every worker. *)
Definition finish_worker (st : pool) (i : Z) : list action :=
  match p_workers st !! i with
  | None => [Start i; Write i (length (wanted i))]
  | Some (Fetching k) =>
      if decide (k < length (wanted i))%nat
      then [Write i (length (wanted i) - k)] else []
  | Some (Failed _) => []
  end.

Definition completion (st : pool) : list action :=
  seqZ 0 procs ≫= finish_worker st.

End runs_defs.

(** The errors of the transport in a schedule, in order. *)
Definition transport_errors (sched : list action) : list error :=
  omap (λ a, if a is Fail _ err then Some err else None) sched.

(** The steps of the workers in a schedule, and their number. *)
Definition workers_only (sched : list action) : list action :=
  filter of_worker sched.

Definition worker_steps (sched : list action) : nat :=
  sum_list_with (λ a, if decide (of_worker a) then 1 else 0)%nat sched.

Lemma worker_steps_cons a sched :
  worker_steps (a :: sched) = (worker_steps [a] + worker_steps sched)%nat.
Proof. unfold worker_steps. simpl. lia. Qed.

Lemma transport_errors_cons a sched :
  transport_errors (a :: sched) = transport_errors [a] ++ transport_errors sched.
Proof. unfold transport_errors. by destruct a. Qed.

Section runs.
Context `{HU : UtilsSpec T}.
Context (content : bytes) (t : T) (procs : Z) (fs0 : fsys).
Hypothesis Hwf : is_u64 (U_FileSize t).
Hypothesis Hprocs : 0 < procs ≤ U_FileSize t.
Hypothesis Hlen : Z.of_nat (length content) = U_FileSize t.
Hypothesis Hvac : vacant (U_DirName t) fs0.
Hypothesis Hmax : U_FileSize t ≤ i64_max.

#[local] Abbreviation dir := (U_DirName t).
#[local] Abbreviation pd := (part content (U_FileSize t) procs).
#[local] Abbreviation pname := (part_name (view t) procs).
#[local] Abbreviation step := (pool_step content t procs).
#[local] Abbreviation total := (pool_total procs).
#[local] Abbreviation pool_inv := (pool_inv content t procs fs0).
#[local] Abbreviation step_result := (step_result content t procs).
#[local] Abbreviation pool_step_result :=
  (pool_step_result content t procs fs0 Hwf Hprocs Hlen).
#[local] Abbreviation pool_step_enabled :=
  (pool_step_enabled content t procs fs0 Hwf Hprocs Hlen).
#[local] Abbreviation step_result_inv := (step_result_inv content t procs fs0).
#[local] Abbreviation step_result_same_work :=
  (step_result_same_work content t procs).
#[local] Abbreviation wanted_part := (wanted_part content t procs Hwf Hprocs).
Implicit Types (st : pool) (i j : Z) (k n : nat) (w : wstatus) (a : action).

(** *** The workers terminate *)

(** One worker changes its status. *)
Lemma variant_insert st st' i w n :
  0 ≤ i < procs → p_workers st' = <[i := w]> (p_workers st) →
  todo content t procs st i = (todo content t procs st' i + n)%nat →
  pool_variant content t procs st = (pool_variant content t procs st' + n)%nat.
Proof using Type.
  clear Hvac Hlen Hmax. intros Hi Hst Hw.
  apply sum_list_with_update with (i := i); [apply NoDup_seqZ| |done|].
  - apply elem_of_seqZ. lia.
  - intros j Hj. unfold todo. by rewrite Hst, lookup_insert_ne.
Qed.

(** Every step of a worker uses up one of the steps it had left. *)
Lemma step_result_variant a st st' :
  pool_inv st → step_result a st st' →
  (pool_variant content t procs st' + worker_steps [a]
   ≤ pool_variant content t procs st)%nat.
Proof using HU Hwf Hprocs.
  clear Hvac Hlen Hmax. intros Hinv. destruct (decide (of_worker a)) as [Ha|Ha].
  2:{ intros (_ & Hw & _)%step_result_same_work; [|done].
      unfold worker_steps, pool_variant, todo. simpl.
      rewrite decide_False, Hw by done. lia. }
  destruct a as [i|i n|i err| | | | |]; try done;
    cbn [Pool.step_result worker_steps sum_list_with].
  - intros (Hr & Hnone & Hst).
    rewrite (variant_insert st st' i (Fetching 0) 1); [simpl; lia|done|by subst|].
    unfold todo. subst st'; simpl. rewrite Hnone, lookup_insert_eq. lia.
  - intros (k & Hi & (Hn & Hkn) & [[_ Hst]|[_ Hst]]);
      destruct (pool_inv_fetching _ _ _ _ st i k Hinv Hi) as (Hr & _).
    + rewrite (variant_insert st st' i (Fetching (k + n)) n);
        [simpl; lia|done|by subst|].
      unfold todo. subst st'; simpl.
      rewrite Hi, lookup_insert_eq, (wanted_part i Hr). lia.
    + rewrite (variant_insert st st' i (Failed (k + free (p_fs st)))
                 (length (pd i) - k)); [simpl; lia|done|by subst|].
      unfold todo. subst st'; simpl.
      by rewrite Hi, lookup_insert_eq, (wanted_part i Hr).
  - intros (k & Hi & Hk & Hst).
    destruct (pool_inv_fetching _ _ _ _ st i k Hinv Hi) as (Hr & _).
    rewrite (variant_insert st st' i (Failed k) (length (pd i) - k));
      [simpl; lia|done|by subst|].
    unfold todo. subst st'; simpl.
    by rewrite Hi, lookup_insert_eq, (wanted_part i Hr).
Qed.

Lemma pool_run_variant sched : ∀ st st',
  pool_inv st → pool_run content t procs sched st = Some st' →
  (pool_variant content t procs st' + worker_steps sched
   ≤ pool_variant content t procs st)%nat.
Proof using HU Hwf Hprocs Hlen.
  clear Hvac Hmax. induction sched as [|a sched IH]; intros st st' Hinv.
  { intros [= <-]. unfold worker_steps. simpl. lia. }
  rewrite worker_steps_cons. cbn [pool_run].
  destruct (step a st) as [st1|] eqn:E; [|done]. cbn [mbind option_bind]. intros Hrun.
  apply pool_step_result in E; [|done].
  pose proof (step_result_variant a st st1 Hinv E).
  pose proof (IH st1 st' (step_result_inv a st st1 Hinv E) Hrun). lia.
Qed.

(** At the start every worker has its whole range to write. *)
Lemma variant_init fs :
  pool_variant content t procs (pool_init fs)
  = (length content + Z.to_nat procs)%nat.
Proof using HU Hwf Hprocs Hlen.
  clear Hvac Hmax.
  rewrite <-(parts_size_all content t procs Hprocs Hlen).
  unfold pool_variant, parts_size.
  assert (∀ l, Forall (λ i, 0 ≤ i < procs) l →
    sum_list_with (todo content t procs (pool_init fs)) l
    = (sum_list_with (length ∘ pd) l + length l)%nat) as Hsum.
  { induction 1 as [|i l Hi _ IH]; simpl; [done|].
    rewrite IH. unfold todo at 1, compose; simpl.
    rewrite lookup_empty, (wanted_part i Hi). lia. }
  rewrite Hsum, length_seqZ; [done|].
  apply Forall_forall. intros i ?%elem_of_seqZ. lia.
Qed.

(** *** A volume that is full

    A worker whose bytes do not fit writes those that do and returns ENOSPC:
    the volume is then full. *)
Lemma write_short st i k n :
  pool_inv st → p_workers st !! i = Some (Fetching k) →
  (0 < n)%nat → (k + n ≤ length (pd i))%nat → (free (p_fs st) < n)%nat →
  step (Write i n) st
  = Some (stop i (k + free (p_fs st)) (ENOSPC "write" (pname i))
            (Fsys (<[pname i := File (take (k + free (p_fs st)) (pd i))]>
                     (nodes (p_fs st))) 0) st).
Proof using HU Hwf Hprocs Hlen.
  clear Hvac Hmax. intros Hinv Hi Hn Hkn Hshort. apply pool_step_enabled; [done|].
  exists k. split_and!; [done..|by right].
Qed.

(** The transfers are complete only when the volume had room for the
    resource. *)
Lemma finished_room st :
  pool_inv st → finished content t procs st → (length content ≤ free fs0)%nat.
Proof using HU Hwf Hprocs Hlen.
  clear Hvac Hmax. intros Hinv Hfin.
  pose proof (finished_total content t procs fs0 Hwf Hprocs Hlen st Hinv Hfin).
  pose proof (inv_free _ _ _ _ st Hinv). lia.
Qed.

(** The errors of the workers are those of the transport and those of the
    volume. *)
Definition worker_error (sched : list action) (e : error) : Prop :=
  e ∈ transport_errors sched ∨ ∃ i, e = ENOSPC "write" (pname i).

Lemma step_result_errs_any a st st' :
  step_result a st st' →
  ∃ es, p_errs st' = p_errs st ++ es ∧ Forall (worker_error [a]) es.
Proof using HU.
  clear Hlen Hvac Hmax Hprocs Hwf. destruct (decide (of_worker a)) as [Ha|Ha].
  2:{ intros (_ & _ & He)%step_result_same_work; [|done].
      exists []. by rewrite app_nil_r. }
  destruct a as [i|i n|i err| | | | |]; try done; simpl.
  - intros (_ & _ & ->). exists []. by rewrite app_nil_r.
  - intros (k & _ & _ & [[_ ->]|[_ ->]]); [exists []; by rewrite app_nil_r|].
    eexists [_]. split; [done|]. apply Forall_singleton. right. by exists i.
  - intros (k & _ & _ & ->). exists [err]. split; [done|].
    apply Forall_singleton. left. set_solver.
Qed.

Lemma pool_run_errs_any sched : ∀ st st',
  pool_inv st → pool_run content t procs sched st = Some st' →
  ∃ es, p_errs st' = p_errs st ++ es ∧ Forall (worker_error sched) es.
Proof using HU Hwf Hprocs Hlen.
  clear Hvac Hmax. induction sched as [|a sched IH]; intros st st' Hinv; simpl.
  { intros [= <-]. exists []. by rewrite app_nil_r. }
  destruct (step a st) as [st1|] eqn:E; [|done]. simpl. intros Hrun.
  apply pool_step_result in E; [|done].
  destruct (IH st1 st' (step_result_inv a st st1 Hinv E) Hrun) as (es2 & -> & Hes2).
  destruct (step_result_errs_any a st st1 E) as (es1 & -> & Hes1).
  exists (es1 ++ es2). rewrite <-app_assoc. split; [done|].
  apply Forall_app; split; (eapply Forall_impl; [done|]);
    intros e [He|He]; (by right) || left;
    rewrite transport_errors_cons; apply elem_of_app; by eauto.
Qed.

(** *** With room for the resource *)

Section room.
Hypothesis Hfree : U_FileSize t ≤ Z.of_nat (free fs0).

(** The parts are as long as the resource, so there is room for every
    write. *)
Lemma total_room st i k n :
  pool_inv st → p_workers st !! i = Some (Fetching k) →
  (k + n ≤ length (pd i))%nat → (n ≤ free (p_fs st))%nat.
Proof using Hprocs Hlen Hfree.
  clear Hvac Hmax. intros Hinv Hi Hn.
  destruct (inv_range _ _ _ _ st Hinv i _ Hi) as [Hr _].
  pose proof (inv_free _ _ _ _ st Hinv) as Hf.
  assert (total st + n ≤ length content)%nat; [|lia].
  rewrite <-(parts_size_all content t procs Hprocs Hlen).
  rewrite <-(total_insert procs st
               (advance i (Fetching (k + n)) (p_fs st) st) i (Fetching (k + n)) n)
    by (done || unfold got_of; by rewrite Hi).
  apply sum_list_with_le. intros j _. unfold got_of, compose; simpl.
  destruct (decide (j = i)) as [->|Hne].
  - by rewrite lookup_insert_eq.
  - rewrite lookup_insert_ne by done.
    destruct (p_workers st !! j) as [w|] eqn:E; simpl; [|lia].
    by apply (inv_range _ _ _ _ st Hinv j).
Qed.

(** No worker fails on its own: the errors are those of the transport. *)
Lemma step_result_errs a st st' :
  pool_inv st → step_result a st st' →
  p_errs st' = p_errs st ++ transport_errors [a].
Proof using HU Hprocs Hlen Hfree.
  clear Hvac Hmax. intros Hinv. destruct (decide (of_worker a)) as [Ha|Ha].
  2:{ intros (_ & _ & He)%step_result_same_work; [|done].
      rewrite He. by destruct a; rewrite ?app_nil_r. }
  destruct a as [i|i n|i err| | | | |]; try done; simpl.
  - intros (_ & _ & ->). by rewrite app_nil_r.
  - intros (k & Hi & (_ & Hkn) & [[_ ->]|[Hshort _]]); [by rewrite app_nil_r|].
    pose proof (total_room st i k n Hinv Hi Hkn). lia.
  - by intros (k & _ & _ & ->).
Qed.

Lemma pool_run_errs sched : ∀ st st',
  pool_inv st → pool_run content t procs sched st = Some st' →
  p_errs st' = p_errs st ++ transport_errors sched.
Proof using HU Hwf Hprocs Hlen Hfree.
  clear Hvac Hmax. induction sched as [|a sched IH]; intros st st' Hinv.
  { intros [= <-]. by rewrite app_nil_r. }
  rewrite transport_errors_cons. cbn [pool_run].
  destruct (step a st) as [st1|] eqn:E; [|done]. simpl. intros Hrun.
  apply pool_step_result in E; [|done].
  rewrite (IH st1 st' (step_result_inv a st st1 Hinv E) Hrun).
  by rewrite (step_result_errs a st st1 Hinv E), <-app_assoc.
Qed.

(** *** The workers can finish *)

Lemma start_enabled st i :
  pool_inv st → 0 ≤ i < procs → p_workers st !! i = None →
  ∃ st', step (Start i) st = Some st' ∧ pool_inv st' ∧ p_errs st' = p_errs st ∧
         p_workers st' = <[i := Fetching 0]> (p_workers st).
Proof using HU Hwf Hprocs Hlen.
  clear Hvac Hmax Hfree. intros Hinv Hi Hnone.
  assert (step_result (Start i) st
            (advance i (Fetching 0)
               (Fsys (<[pname i := File []]> (nodes (p_fs st))) (free (p_fs st))) st))
    as Hres by done.
  eexists. split; [by apply pool_step_enabled|].
  split; [by eapply step_result_inv|done].
Qed.

Lemma write_enabled st i k n :
  pool_inv st → p_workers st !! i = Some (Fetching k) →
  (0 < n)%nat → (k + n ≤ length (pd i))%nat →
  ∃ st', step (Write i n) st = Some st' ∧ pool_inv st' ∧ p_errs st' = p_errs st ∧
         p_workers st' = <[i := Fetching (k + n)]> (p_workers st).
Proof using HU Hwf Hprocs Hlen Hfree.
  clear Hvac Hmax. intros Hinv Hi Hn Hkn.
  pose proof (total_room st i k n Hinv Hi Hkn).
  assert (step_result (Write i n) st
            (advance i (Fetching (k + n))
               (Fsys (<[pname i := File (take (k + n) (pd i))]> (nodes (p_fs st)))
                  (free (p_fs st) - n)) st))
    as Hres by (exists k; split_and!; [done..|by left]).
  eexists. split; [by apply pool_step_enabled|].
  split; [by eapply step_result_inv|done].
Qed.

(** A worker that has not failed can be brought to the end of its range. *)
Lemma finish_worker_run st i :
  pool_inv st → p_errs st = [] → 0 ≤ i < procs →
  ∃ st', pool_run content t procs (finish_worker content t procs st i) st = Some st' ∧
         pool_inv st' ∧ p_errs st' = [] ∧
         p_workers st' = <[i := Fetching (length (pd i))]> (p_workers st).
Proof using HU Hwf Hprocs Hlen Hfree.
  clear Hvac Hmax.
  intros Hinv Herr Hi. unfold finish_worker. rewrite (wanted_part i Hi).
  pose proof (part_positive content t procs Hprocs Hlen i Hi) as Hpos.
  destruct (p_workers st !! i) as [[k|k]|] eqn:Hw.
  - destruct (inv_range _ _ _ _ st Hinv i _ Hw) as [_ Hk]. simpl in Hk. case_decide as Hlt.
    + destruct (write_enabled st i k (length (pd i) - k) Hinv Hw)
        as (st' & Hstep & Hinv' & Herr' & Hws); [lia..|].
      exists st'. cbn [pool_run]. rewrite Hstep. simpl. rewrite Hws.
      split_and!; [done|done|congruence|]. do 2 f_equal. lia.
    + exists st. rewrite insert_id; [done|]. rewrite Hw. do 2 f_equal. lia.
  - by destruct (proj1 (inv_errs _ _ _ _ st Hinv) Herr i k).
  - destruct (start_enabled st i Hinv Hi Hw) as (st1 & Hstep1 & Hinv1 & Herr1 & Hws1).
    destruct (write_enabled st1 i 0 (length (pd i)) Hinv1)
      as (st2 & Hstep2 & Hinv2 & Herr2 & Hws2);
      [by rewrite Hws1, lookup_insert_eq|done..|].
    exists st2. cbn [pool_run]. rewrite Hstep1. cbn [mbind option_bind].
    rewrite Hstep2. simpl.
    split_and!; [done|done|congruence|].
    by rewrite Hws2, Hws1, insert_insert_eq.
Qed.

(** So can the workers of a list, one after the other. *)
Lemma finish_workers_run st0 l : ∀ st,
  NoDup l → Forall (λ i, 0 ≤ i < procs) l →
  (∀ i, i ∈ l → p_workers st !! i = p_workers st0 !! i) →
  pool_inv st → p_errs st = [] →
  ∃ st', pool_run content t procs (l ≫= finish_worker content t procs st0) st = Some st' ∧
         pool_inv st' ∧ p_errs st' = [] ∧
         (∀ i, i ∈ l → p_workers st' !! i = Some (Fetching (length (pd i)))) ∧
         (∀ i, i ∉ l → p_workers st' !! i = p_workers st !! i).
Proof using HU Hwf Hprocs Hlen Hfree.
  clear Hvac Hmax.
  induction l as [|i l IH]; intros st Hnd Hl Hsame Hinv Herr.
  { exists st. split_and!; try done. by intros i ?%elem_of_nil. }
  apply NoDup_cons in Hnd as [Hi Hnd]. apply Forall_cons in Hl as [Hr Hl].
  destruct (finish_worker_run st i Hinv Herr Hr) as (st1 & Hrun1 & Hinv1 & Herr1 & Hws1).
  destruct (IH st1 Hnd Hl) as (st' & Hrun' & Hinv' & Herr' & Hin & Hout); [|done..|].
  { intros j Hj. rewrite Hws1, lookup_insert_ne by (by intros ->).
    apply Hsame. by right. }
  exists st'. split_and!; [|done..| |].
  - cbn [mbind list_bind]. rewrite pool_run_app.
    replace (finish_worker content t procs st0 i)
      with (finish_worker content t procs st i)
      by (unfold finish_worker; by rewrite (Hsame i) by by left).
    by rewrite Hrun1.
  - intros j [->|Hj]%elem_of_cons; [|by apply Hin].
    by rewrite (Hout i Hi), Hws1, lookup_insert_eq.
  - intros j [Hne Hj]%not_elem_of_cons.
    by rewrite (Hout j Hj), Hws1, lookup_insert_ne.
Qed.

(** From any state in which no worker has failed, the schedule
    [completion] brings every worker to the end of its range. *)
Lemma pool_can_finish st :
  pool_inv st → p_errs st = [] →
  ∃ st', pool_run content t procs (completion content t procs st) st = Some st' ∧
         pool_inv st' ∧ finished content t procs st'.
Proof using HU Hwf Hprocs Hlen Hfree.
  clear Hvac Hmax.
  intros Hinv Herr.
  assert (Forall (λ i, 0 ≤ i < procs) (seqZ 0 procs)) as Hl
    by (apply Forall_forall; intros i ?%elem_of_seqZ; lia).
  destruct (finish_workers_run st (seqZ 0 procs) st (NoDup_seqZ _ _) Hl)
    as (st' & Hrun & Hinv' & _ & Hin & _); [done..|].
  exists st'. split_and!; [done..|]. apply Forall_forall. intros i Hi.
  rewrite Forall_forall in Hl. rewrite (wanted_part i (Hl i Hi)). by apply Hin.
Qed.

(** No deadlock: while no worker has failed, either every worker has
    finished or one of them can make its next step, and none needs another
    to move first. *)
Lemma pool_progress st :
  pool_inv st → p_errs st = [] →
  finished content t procs st ∨
  ∃ a st', of_worker a ∧ step a st = Some st' ∧ pool_inv st' ∧ p_errs st' = [].
Proof using HU Hwf Hprocs Hlen Hfree.
  clear Hvac Hmax. intros Hinv Herr.
  destruct (decide (finished content t procs st)) as [|Hnot]; [by left|right].
  apply not_Forall_Exists, Exists_exists in Hnot as (i & Hi%elem_of_seqZ & Hw);
    [|apply _].
  assert (0 ≤ i < procs) as Hr by lia. simpl in Hw.
  rewrite (wanted_part i Hr) in Hw.
  destruct (p_workers st !! i) as [[k|k]|] eqn:E.
  - destruct (inv_range _ _ _ _ st Hinv i _ E) as [_ Hk]. simpl in Hk.
    assert (k ≠ length (pd i)) by congruence.
    destruct (write_enabled st i k (length (pd i) - k) Hinv E)
      as (st' & ? & ? & ? & _); [lia..|].
    exists (Write i (length (pd i) - k)), st'. split_and!; [done..|congruence].
  - by destruct (proj1 (inv_errs _ _ _ _ st Hinv) Herr i k).
  - destruct (start_enabled st i Hinv Hr E) as (st' & ? & ? & ? & _).
    exists (Start i), st'. split_and!; [done..|congruence].
Qed.

End room.

End runs.

(** ** The size of the volume *)

Section volume.
Context `{HU : UtilsSpec T}.
Context (content : bytes) (t : T) (procs : Z).

(** No step changes the size of the volume, in any state. *)
Lemma pool_step_capacity a st st' :
  pool_step content t procs a st = Some st' →
  capacity (p_fs st') = capacity (p_fs st).
Proof using Type.
  destruct (decide (of_worker a)) as [Ha|Ha];
    [|by intros (-> & _)%pool_step_same_work].
  destruct a as [i|i n|i err| | | | |]; try done; simpl.
  - case_decide; [|done].
    destruct (os_Create _ (p_fs st)) as [[fh fs1]|err] eqn:E; intros [= <-]; simpl;
      [by eapply os_Create_capacity|done].
  - destruct (p_workers st !! i) as [[k|k]|]; [|done..]. case_decide; [|done].
    pose proof (file_Write_capacity (part_name (view t) procs i)
                  (take n (drop k (wanted content t procs i))) (p_fs st)) as Hw.
    destruct (file_Write _ _ (p_fs st)) as [fs1 [m [e|]]]; by intros [= <-].
  - destruct (p_workers st !! i) as [[k|k]|]; [|done..].
    case_decide; [|done]. by intros [= <-].
Qed.

Lemma pool_run_capacity sched : ∀ st st',
  pool_run content t procs sched st = Some st' →
  capacity (p_fs st') = capacity (p_fs st).
Proof using Type.
  induction sched as [|a sched IH]; intros st st'; simpl; [by intros [= <-]|].
  destruct (pool_step content t procs a st) as [st1|] eqn:E; [|done]. simpl.
  intros Hrun. rewrite (IH _ _ Hrun). by eapply pool_step_capacity.
Qed.

End volume.

(** ** The monitor and the cancellation

    The rounds of the monitor and the cancellation of its context can be
    taken out of a schedule without a change for the workers: the reference
    design does not propagate the cancellation into them. *)

Section monitor_reads.
Context `{HU : UtilsSpec T}.
Context (content : bytes) (t : T) (procs : Z).

Lemma workers_only_workers sched : Forall of_worker (workers_only sched).
Proof.
  apply Forall_forall. intros a Ha. by apply list_elem_of_filter in Ha as [? _].
Qed.

(** The workers do the same with and without the monitor. *)
Lemma pool_run_workers_only sched : ∀ st st',
  pool_run content t procs sched st = Some st' →
  ∃ st'', pool_run content t procs (workers_only sched) st = Some st'' ∧
          same_work st' st''.
Proof.
  induction sched as [|a sched IH]; intros st st'; [intros [= <-]; by eexists|].
  unfold workers_only. rewrite filter_cons. cbn [pool_run].
  destruct (pool_step content t procs a st) as [st1|] eqn:E; [|done].
  cbn [mbind option_bind]. intros (st'' & Hrun & Hst)%IH. case_decide as Ha.
  - cbn [pool_run]. rewrite E. eauto.
  - pose proof (pool_step_same_work _ _ _ _ _ _ Ha E) as H1.
    pose proof (pool_run_proper content t procs (workers_only sched)
                  (workers_only_workers sched) st1 st H1) as Hp.
    fold (workers_only sched) in Hrun. rewrite Hrun in Hp.
    inversion Hp as [? st2 Hst2|]; subst. exists st2. split; [done|].
    by etrans.
Qed.

(** The monitor does not interfere.  Whatever a schedule reaches, the
    schedule without the rounds of the monitor and without the cancellation
    reaches the same file system, the same workers and the same errors. *)
Theorem monitor_only_reads sched st st' :
  pool_run content t procs sched st = Some st' →
  ∃ st'', pool_run content t procs (workers_only sched) st = Some st'' ∧
          same_work st' st''.
Proof. apply pool_run_workers_only. Qed.

(** A step of a worker leaves the monitor as it is. *)
Lemma pool_step_worker a st st' :
  of_worker a → pool_step content t procs a st = Some st' →
  p_cancelled st' = p_cancelled st ∧ p_obs st' = p_obs st ∧ p_walk st' = p_walk st.
Proof.
  destruct a as [i|i n|i err| | | | |]; try done; simpl; intros _;
    repeat case_match; by intros [= <-].
Qed.

Lemma pool_run_workers sched : ∀ st st',
  Forall of_worker sched → pool_run content t procs sched st = Some st' →
  p_cancelled st' = p_cancelled st ∧ p_obs st' = p_obs st ∧ p_walk st' = p_walk st.
Proof.
  induction sched as [|a sched IH]; intros st st'; simpl; [by intros _ [= <-]|].
  intros [Ha Hsched]%Forall_cons.
  destruct (pool_step content t procs a st) as [st1|] eqn:E; [|done]. simpl.
  intros Hrun. destruct (IH _ _ Hsched Hrun) as (-> & -> & ->).
  by apply pool_step_worker in E.
Qed.

Lemma completion_workers st : Forall of_worker (completion content t procs st).
Proof.
  unfold completion. apply Forall_bind, Forall_forall. intros i _.
  unfold finish_worker, compose. repeat case_match; by repeat constructor.
Qed.

(** Once the context is cancelled between two rounds it stays so, every
    round of the monitor finds it cancelled, and no walk begins. *)
Lemma pool_step_after_cancel a st st' :
  p_cancelled st = true → p_walk st = None →
  pool_step content t procs a st = Some st' →
  p_cancelled st' = true ∧ p_walk st' = None ∧
  ∃ more, p_obs st' = p_obs st ++ more ∧ Forall cancelled more.
Proof.
  intros Hc Hw. destruct (decide (of_worker a)) as [Ha|Ha].
  { intros (-> & -> & ->)%pool_step_worker; [|done].
    split_and!; [done..|]. exists []. by rewrite app_nil_r. }
  destruct a as [i|i n|i err| | | | |]; try (by destruct Ha); simpl;
    rewrite ?Hw, ?Hc; try done; intros [= <-]; simpl; rewrite ?Hc;
    (split_and!; [done..|]).
  - exists [(true, p_fs st)]. split; [done|]. by apply Forall_singleton.
  - exists []. by rewrite app_nil_r.
  - exists [(true, p_fs st)]. split; [done|]. by apply Forall_singleton.
Qed.

Lemma pool_run_after_cancel sched : ∀ st st',
  p_cancelled st = true → p_walk st = None →
  pool_run content t procs sched st = Some st' →
  ∃ more, p_obs st' = p_obs st ++ more ∧ Forall cancelled more.
Proof.
  induction sched as [|a sched IH]; intros st st' Hc Hw; simpl.
  { intros [= <-]. exists []. by rewrite app_nil_r. }
  destruct (pool_step content t procs a st) as [st1|] eqn:E; [|done]. simpl.
  intros Hrun.
  destruct (pool_step_after_cancel _ _ _ Hc Hw E) as (Hc1 & Hw1 & more1 & Ho1 & Hm1).
  destruct (IH st1 st' Hc1 Hw1 Hrun) as (more & -> & Hmore).
  rewrite Ho1, <-app_assoc. eexists. split; [done|]. by apply Forall_app.
Qed.

End monitor_reads.
