(* ===== verification/Session.v ===== *)
(** * The download with its pool and its monitor

    [runDownload] of the specification: the space check, the workspace, the
    pool of workers with the monitor beside it, and then either the merge,
    when every worker has returned without error and the monitor has
    signalled completion, or the removal of the workspace, when a worker or
    the monitor has failed.  It is not in [src/util.go] and is modelled from
    the specification, on the interface [Utils]; the monitor is known by its
    state machine only.

    The lemmas hold for every schedule of the pool: whatever the
    interleaving of the workers, of the walks of the monitor and of the
    cancellation.  They say when the monitor completes, how a download can
    end (still waiting, an error with the file system as it was, nil with the
    output written), that it can go on to its end while no worker has failed
    and the monitor is not cancelled, and that it cannot once the monitor is.
    The theorems on [Data] that follow from them are in [Pget]. *)

From S2P Require Import Prelude GoInt FileSys Data Merge Progress Iface Download.
From S2P Require Import Pool PoolMonitor PoolRuns.
From stdpp Require Import gmap sorting.

#[local] Open Scope Z_scope.

(** ** Definitions *)

(** How a download ends: it is still waiting for a worker or for the
    monitor when the schedule is over; the monitor has panicked; it has
    returned. *)
Inductive session : Type :=
| Blocked
| Crashed (why : string)
| Finished (o : outcome).

(** The first error the monitor sent on [ch.Err]. *)
Definition sent_error (evs : list event) : option error :=
  head (omap (λ e, if e is SendErr err then Some err else None) evs).

Section session.
Context `{UtilsSpec T}.
Context (goos : string) (content : bytes) (t : T) (procs : Z).

(** The workspace is removed; an error of the removal is dropped. *)
Definition cleanup (fs : fsys) : fsys :=
  match os_RemoveAll (U_DirName t) fs with
  | Ok fs' => fs'
  | Err _ => fs
  end.

(** The merge, after the events [evs] of the monitor; when it fails the
    workspace is removed as on the other abort paths. *)
Definition conclude (evs : list event) (fs : fsys) : session :=
  let '(fs', evs', e) := U_BindwithFiles t procs fs in
  Finished (if e is Some _ then cleanup fs' else fs', evs ++ evs', e).

(** What the orchestrator does with the pool at the end of the schedule. *)
Definition orchestrate (st : pool) : session :=
  let '(evs, status) := U_ProgressBar t (p_obs st) in
  match status with
  | Panicked why => Crashed why
  | _ =>
      match p_errs st, sent_error evs with
      | err :: _, _ | [], Some err =>
          Finished (cleanup (p_fs st), evs, Some err)
      | [], None =>
          if decide (finished content t procs st ∧ SendDone ∈ evs)
          then conclude evs (p_fs st)
          else Blocked
      end
  end.

(** The download on a schedule; [None] when the schedule has a step that
    cannot happen. *)
Definition runDownload (sched : list action) (fs : fsys) : option session :=
  match U_IsFree goos t (U_FileSize t / procs) fs with
  | Some err => Some (Finished (fs, [], Some err))
  | None =>
      match os_MkdirAll (U_DirName t) fs with
      | Err err => Some (Finished (fs, [], Some err))
      | Ok fs1 => orchestrate <$> pool_run content t procs sched (pool_init fs1)
      end
  end.

(** The file system once the workspace directory is made. *)
Definition workspace (fs : fsys) : fsys :=
  Fsys (<[U_DirName t := Dir true]> (nodes fs)) (free fs).

End session.

(** ** The monitor on any implementation of the contract *)

Section machine.
Context `{HU : UtilsSpec T}.
Context (t : T).

(** The contract gives a run of the machine, and the machine is
    deterministic: on rounds that measure, [ProgressBar] is [bar_trace]. *)
Lemma U_ProgressBar_trace obs sizes :
  Forall2 (measured (view t)) obs sizes →
  U_ProgressBar t obs =
    (BarStart (Progress.total (view t))
       :: (bar_trace (Progress.total (view t)) sizes).1,
     (bar_trace (Progress.total (view t)) sizes).2).
Proof using HU.
  intros Hobs%mon_run_measured.
  destruct (ProgressBar_machine t obs) as (evs & s & -> & Hrun).
  destruct (mon_run_det _ _ _ _ _ _ _ Hrun Hobs) as [-> ->].
  by destruct (bar_trace_cases (Progress.total (view t)) sizes)
    as (szs & [] & _ & _ & ->).
Qed.

(** Rounds that find the context cancelled add no event; the first of them
    makes a monitor that was polling return. *)
Lemma U_ProgressBar_then_cancelled obs more :
  Forall cancelled more →
  U_ProgressBar t (obs ++ more)
  = ((U_ProgressBar t obs).1,
     match (U_ProgressBar t obs).2, more with
     | Running, _ :: _ => Returned
     | status, _ => status
     end).
Proof using HU.
  intros Hmore.
  destruct (ProgressBar_machine t obs) as (evs & s & -> & Hrun).
  destruct (ProgressBar_machine t (obs ++ more)) as (evs' & s' & -> & Hrun').
  destruct (mon_run_det _ _ _ _ _ _ _ Hrun'
              (mon_run_then_cancelled _ _ _ _ more Hrun Hmore)) as [-> ->].
  simpl. f_equal. by destruct s, more.
Qed.

(** A round whose measurement panics takes a monitor that was polling with
    it, without an event. *)
Lemma U_ProgressBar_then_crash obs fs why :
  (U_ProgressBar t obs).2 = Running →
  subDirsize (view t) (dirname (view t)) fs = Panics why →
  U_ProgressBar t (obs ++ [(false, fs)]) = ((U_ProgressBar t obs).1, Panicked why).
Proof using HU.
  intros Hst Hfs.
  destruct (ProgressBar_machine t obs) as (evs & s & Heq & Hrun).
  rewrite Heq in *. simpl in Hst. assert (s = Polling) as -> by (by destruct s).
  destruct (ProgressBar_machine t (obs ++ [(false, fs)])) as (evs' & s' & -> & Hrun').
  pose proof (mon_run_app _ _ _ _ _ _ _ _ Hrun
                (run_step _ _ _ _ _ _ _ _ (mon_crash _ fs why Hfs) (run_nil _ _)))
    as Hrun2.
  destruct (mon_run_det _ _ _ _ _ _ _ Hrun' Hrun2) as [-> ->].
  simpl. by rewrite !app_nil_r.
Qed.

Lemma sent_error_trace tot szs evs :
  sent_error (BarStart tot :: (BarSet <$> szs) ++ evs) = sent_error evs.
Proof.
  unfold sent_error. simpl. rewrite omap_app. f_equal.
  rewrite <-(app_nil_l (omap _ evs)). f_equal.
  induction szs as [|v szs IH]; [done|by csimpl].
Qed.

End machine.

(** ** The pool under the orchestrator *)

Section orchestra.
Context `{HU : UtilsSpec T}.
Context (goos : string) (content : bytes) (t : T) (procs : Z) (fs0 : fsys).
Hypothesis Hwf : is_u64 (U_FileSize t).
Hypothesis Hprocs : 0 < procs ≤ U_FileSize t.
Hypothesis Hlen : Z.of_nat (length content) = U_FileSize t.
Hypothesis Hvac : vacant (U_DirName t) fs0.
Hypothesis Hmax : U_FileSize t ≤ i64_max.
Hypothesis Hsep : separate (view t).

#[local] Abbreviation dir := (U_DirName t).
#[local] Abbreviation size := (U_FileSize t).
#[local] Abbreviation split := (U_FileSize t / procs).
#[local] Abbreviation pd := (part content (U_FileSize t) procs).
#[local] Abbreviation ws := (workspace t fs0).
#[local] Abbreviation run := (pool_run content t procs).
#[local] Abbreviation inv := (pool_inv content t procs fs0).
#[local] Abbreviation seen := (obs_inv t procs).
Implicit Types (st : pool) (sched : list action).

(** What the bar shows: sizes, and then perhaps the completion. *)
Definition shows (szs : list Z) (done : bool) : list event :=
  BarStart size :: (BarSet <$> szs)
    ++ (if done then [BarSet size; BarFinish; SendDone] else []).

Lemma total_size : Progress.total (view t) = size.
Proof using Hwf Hmax.
  clear Hlen Hprocs Hvac Hsep. unfold Progress.total. simpl.
  apply to_int64_small. revert Hwf Hmax. unfold_int. lia.
Qed.

(** The state a schedule reaches keeps the invariants. *)
Lemma run_inv sched st : run sched (pool_init ws) = Some st → inv st ∧ seen st.
Proof using HU Hwf Hprocs Hlen Hvac Hmax.
  apply pool_run_inv; try done; [by apply pool_inv_init|apply obs_inv_init].
Qed.

(** After the space check and the workspace, the pool. *)
Lemma runDownload_pool sched :
  is_u64 (Z.of_nat (free fs0)) → size + split ≤ Z.of_nat (free fs0) →
  runDownload goos content t procs sched fs0
  = orchestrate content t procs <$> run sched (pool_init ws).
Proof using HU Hwf Hprocs Hvac.
  clear Hlen Hmax Hsep. intros Hu Hroom. unfold runDownload.
  assert (0 ≤ split) by (apply Z.div_pos; lia).
  destruct (U_IsFree goos t split fs0) as [err|] eqn:E.
  { apply eq_None_ne_Some_1 with (x := err) in E; [done|].
    apply IsFree_spec; [done|unfold_int; lia|done]. }
  by rewrite os_MkdirAll_new by (apply (vacant_lookup dir); auto).
Qed.

(** The monitor of the job on rounds that measure. *)
Lemma monitor_sizes obs sizes :
  Forall2 (measured (view t)) obs sizes →
  U_ProgressBar t obs
  = (BarStart size :: (bar_trace size sizes).1, (bar_trace size sizes).2).
Proof using HU Hwf Hmax.
  clear Hlen Hprocs Hvac Hsep. intros Hobs.
  rewrite (U_ProgressBar_trace t obs sizes Hobs). by rewrite total_size.
Qed.

(** What the monitor shows in a state of the pool: the trace of the bytes
    written at its rounds before the cancellation. *)
Lemma monitor_trace st :
  inv st → seen st →
  ∃ ks (stopped : bool),
    Forall (λ k, (k ≤ pool_total procs st)%nat) ks ∧
    Sorted Z.le (Z.of_nat <$> ks) ∧
    (p_cancelled st = false → stopped = false) ∧
    U_ProgressBar t (p_obs st)
    = (BarStart size :: (bar_trace size (Z.of_nat <$> ks)).1,
       if stopped then Returned else (bar_trace size (Z.of_nat <$> ks)).2).
Proof using HU Hwf Hmax.
  clear Hlen Hprocs Hvac Hsep.
  intros Hinv (pre & post & ks & Hobs & Hmeas & Hks & Hsorted & Hpost & Hlive & _).
  exists ks, (if post is [] then false else true).
  split_and!; [done..|by intros ->%Hlive|].
  rewrite Hobs, (U_ProgressBar_then_cancelled t pre post Hpost).
  rewrite (monitor_sizes _ _ Hmeas). simpl.
  by destruct (bar_trace_cases size (Z.of_nat <$> ks)) as (szs & [] & _ & _ & ->),
    post.
Qed.

(** It shows sizes that never go down, all of them below the total, and
    then either polls on, or completes, or returns because it is cancelled:
    in a download the monitor does not panic and sends no error. *)
Lemma monitor_cases st :
  inv st → seen st →
  ∃ szs (done stopped : bool),
    Forall (λ v, 0 ≤ v < size) szs ∧ Sorted Z.le szs ∧
    (p_cancelled st = false → stopped = false) ∧
    U_ProgressBar t (p_obs st)
    = (shows szs done, if done || stopped then Returned else Running).
Proof using HU Hwf Hmax.
  clear Hlen Hprocs Hvac Hsep. intros Hinv Hseen.
  destruct (monitor_trace st Hinv Hseen) as (ks & stopped & _ & Hsorted & Hlive & ->).
  destruct (bar_trace_cases size (Z.of_nat <$> ks))
    as (szs & done & Hpre & Hlt & ->).
  exists szs, done, stopped.
  split_and!; [|by eapply Sorted_le_prefix|done|by destruct done, stopped].
  destruct Hpre as [rest Heq]. apply Forall_forall. intros v Hv.
  rewrite Forall_forall in Hlt. split; [|by apply Hlt].
  assert (v ∈ Z.of_nat <$> ks) as (k & -> & _)%list_elem_of_fmap
    by (rewrite Heq; set_solver).
  lia.
Qed.

Lemma sent_error_shows szs done : sent_error (shows szs done) = None.
Proof using.
  clear. unfold shows. rewrite sent_error_trace. by destruct done.
Qed.

(** What the orchestrator does when the monitor has shown that. *)
Lemma orchestrate_shows st szs (done stopped : bool) :
  U_ProgressBar t (p_obs st)
  = (shows szs done, if done || stopped then Returned else Running) →
  orchestrate content t procs st
  = match p_errs st with
    | err :: _ => Finished (cleanup t (p_fs st), shows szs done, Some err)
    | [] =>
        if decide (finished content t procs st ∧ done = true)
        then conclude t procs (shows szs done) (p_fs st)
        else Blocked
    end.
Proof using HU.
  clear Hwf Hlen Hprocs Hvac Hsep Hmax. intros Hmon.
  assert (SendDone ∈ shows szs done ↔ done = true) as Hdone.
  { unfold shows. destruct done; [set_solver|]. rewrite app_nil_r.
    split; [|done]. intros [?|(? & ? & _)%list_elem_of_fmap]%elem_of_cons; done. }
  pose proof (sent_error_shows szs done) as Hsent.
  unfold orchestrate. rewrite Hmon, Hsent.
  destruct (p_errs st); [|by destruct done, stopped].
  rewrite (decide_ext _ (finished content t procs st ∧ done = true)) by (by rewrite Hdone).
  by destruct done, stopped.
Qed.

(** Completion is signalled only when every worker has finished. *)
Lemma monitor_done_finished st :
  inv st → seen st → SendDone ∈ (U_ProgressBar t (p_obs st)).1 →
  finished content t procs st.
Proof using HU Hwf Hprocs Hlen Hmax.
  clear Hvac Hsep. intros Hinv Hseen.
  destruct (monitor_trace st Hinv Hseen) as (ks & stopped & Hks & _ & _ & ->). simpl.
  intros [?|Hdone]%elem_of_cons; [done|].
  apply bar_trace_done in Hdone as (v & (k & -> & Hk)%list_elem_of_fmap & Hv).
  rewrite Forall_forall in Hks. specialize (Hks k Hk).
  pose proof (total_le content t procs Hprocs Hlen st
                (λ i w Hi, proj2 (inv_range _ _ _ _ st Hinv i w Hi))).
  apply (total_finished content t procs fs0); try done. lia.
Qed.

(** The workspace removed, the file system is as it was. *)
Lemma cleanup_restores sched st :
  run sched (pool_init ws) = Some st → cleanup t (p_fs st) = fs0.
Proof using HU Hwf Hprocs Hlen Hvac Hsep.
  clear Hmax. intros Hrun.
  pose proof (pool_run_pool_inv content t procs fs0 Hwf Hprocs Hlen sched _ st
                (pool_inv_init content t procs fs0 Hvac) Hrun) as Hinv.
  pose proof (pool_run_capacity content t procs sched _ _ Hrun) as Hcap.
  assert (filter (λ kv, ¬ in_tree dir kv) (nodes (p_fs st)) = nodes fs0) as Hout.
  { apply map_eq. intros p. rewrite filter_not_in_tree_lookup. case_decide as Hp.
    - symmetry. by apply (vacant_lookup dir).
    - rewrite (inv_other _ _ _ _ st Hinv), lookup_insert_ne; [done|naive_solver|].
      intros i _ ->. apply Hp. right. apply (part_name_under (view t)). }
  unfold cleanup. rewrite os_RemoveAll_listable.
  - rewrite Hout, <-(fsys_eta fs0). f_equal.
    unfold capacity in Hcap. simpl in Hcap.
    rewrite <-(du_filter (in_tree dir) (nodes (p_fs st))), Hout in Hcap.
    rewrite du_insert in Hcap by (apply (vacant_lookup dir); auto).
    simpl in Hcap. lia.
  - by destruct Hsep.
  - rewrite (inv_other _ _ _ _ st Hinv), lookup_insert_eq; [done|].
    intros i _. apply (part_name_ne_dirname (view t)).
Qed.

(** The end of a schedule in which a worker has failed. *)
Lemma orchestrate_abort sched st err errs :
  run sched (pool_init ws) = Some st → p_errs st = err :: errs →
  ∃ evs, orchestrate content t procs st = Finished (fs0, evs, Some err).
Proof using HU Hwf Hprocs Hlen Hvac Hmax Hsep.
  intros Hrun Herr. destruct (run_inv sched st Hrun) as [Hinv Hseen].
  destruct (monitor_cases st Hinv Hseen) as (szs & done & stopped & _ & _ & _ & Hmon).
  rewrite (orchestrate_shows st _ _ _ Hmon), Herr, (cleanup_restores sched) by done.
  eauto.
Qed.

(** A round of the monitor, at the end of a schedule. *)
Lemma run_observe sched st :
  run sched (pool_init ws) = Some st → p_walk st = None →
  run (sched ++ [Poll]) (pool_init ws) = Some (observe st).
Proof using HU.
  clear Hwf Hlen Hprocs Hvac Hsep Hmax. intros Hrun Hw.
  rewrite pool_run_app, Hrun. simpl. by rewrite Hw.
Qed.

(** Once every worker has finished, the next round of the monitor
    completes, unless the monitor is cancelled. *)
Lemma monitor_completes sched st :
  run sched (pool_init ws) = Some st → idle st →
  finished content t procs st →
  ∃ szs, Forall (λ v, v < size) szs ∧
    U_ProgressBar t (p_obs (observe st)) = (shows szs true, Returned).
Proof using HU Hwf Hprocs Hlen Hvac Hmax.
  clear Hsep. intros Hrun [Hc Hw] Hfin.
  destruct (run_inv _ _ Hrun) as [Hinv Hseen].
  destruct (run_inv _ _ (run_observe _ _ Hrun Hw)) as [Hinv' Hseen'].
  destruct (obs_inv_live t procs _ Hseen' Hc) as (ks & Hobs & Hks & _).
  rewrite (monitor_sizes _ _ Hobs). simpl in Hobs. rewrite Hc in Hobs.
  apply Forall2_app_inv_l in Hobs as (sz1 & sz2 & _ & Hlast & Hsz).
  apply Forall2_cons_inv_l in Hlast as (v & sz3 & [_ Hv] & _ & ->). simpl in Hv.
  rewrite (pool_subDirsize content t procs fs0) in Hv by done.
  injection Hv as <-.
  rewrite (finished_total content t procs fs0) in Hsz by done.
  destruct (bar_trace_reaches size (Z.of_nat <$> ks) (Z.of_nat (length content)))
    as (szs & Hszs & ->); [rewrite Hsz; set_solver|lia|].
  by exists szs.
Qed.

(** The two conditions on which the orchestrator waits are one: at a round
    of a monitor that is not cancelled, completion is signalled exactly when
    every worker has finished. *)
Lemma session_gate sched st :
  run sched (pool_init ws) = Some st → idle st →
  finished content t procs st
  ↔ SendDone ∈ (U_ProgressBar t (p_obs st ++ [(false, p_fs st)])).1.
Proof using HU Hwf Hprocs Hlen Hvac Hmax.
  clear Hsep. intros Hrun Hidle. pose proof Hidle as [Hc Hw].
  replace (p_obs st ++ [(false, p_fs st)]) with (p_obs (observe st))
    by (simpl; by rewrite Hc).
  split.
  - intros Hfin. destruct (monitor_completes sched st Hrun Hidle Hfin) as (szs & _ & ->).
    unfold shows. simpl. set_solver.
  - destruct (run_inv _ _ (run_observe _ _ Hrun Hw)) as [Hinv' Hseen'].
    apply (monitor_done_finished _ Hinv' Hseen').
Qed.

(** The end of a schedule in which every worker has finished, after one
    more round of the monitor. *)
Lemma orchestrate_finished sched st :
  run sched (pool_init ws) = Some st → idle st →
  finished content t procs st →
  ∃ szs, Forall (λ v, v < size) szs ∧
    orchestrate content t procs <$> run (sched ++ [Poll]) (pool_init ws)
    = Some (conclude t procs (shows szs true)
              (Fsys (downloaded content t procs fs0)
                    (free fs0 - length content)%nat)).
Proof using HU Hwf Hprocs Hlen Hvac Hmax.
  clear Hsep. intros Hrun Hc Hfin. destruct (run_inv _ _ Hrun) as [Hinv _].
  destruct (monitor_completes sched st Hrun Hc Hfin) as (szs & Hszs & Hmon).
  exists szs. split; [done|]. rewrite (run_observe _ _ Hrun (proj2 Hc)). simpl.
  f_equal.
  rewrite (orchestrate_shows (observe st) szs true false Hmon). simpl.
  rewrite (finished_no_error content t procs fs0) by done.
  rewrite decide_True by done.
  by rewrite (finished_fs content t procs fs0 Hwf Hprocs Hlen st).
Qed.

(** *** The download on a schedule *)

(** Every schedule that ends its workers leaves what the workers leave when
    they run one after the other, in any order. *)
Lemma pool_sequential sched st order :
  order ≡ₚ seqZ 0 procs →
  run sched (pool_init ws) = Some st → finished content t procs st →
  p_fs st = (workers content t procs order ws).1.
Proof using HU Hwf Hprocs Hlen Hvac Hmax.
  clear Hsep. intros Hperm Hrun Hfin. destruct (run_inv _ _ Hrun) as [Hinv _].
  pose proof (finished_room content t procs fs0 Hwf Hprocs Hlen st Hinv Hfin).
  unfold workspace. rewrite workers_downloaded by (done || lia). simpl.
  by apply (finished_fs content t procs fs0).
Qed.

Lemma session_no_early sched st :
  run sched (pool_init ws) = Some st →
  SendDone ∈ (U_ProgressBar t (p_obs st)).1 → finished content t procs st.
Proof using HU Hwf Hprocs Hlen Hvac Hmax.
  clear Hsep. intros Hrun. destruct (run_inv _ _ Hrun) as [Hinv Hseen].
  by apply monitor_done_finished.
Qed.

Lemma session_abort sched st err errs :
  is_u64 (Z.of_nat (free fs0)) → size + split ≤ Z.of_nat (free fs0) →
  run sched (pool_init ws) = Some st → p_errs st = err :: errs →
  ∃ evs, runDownload goos content t procs sched fs0
         = Some (Finished (fs0, evs, Some err)).
Proof using HU Hwf Hprocs Hlen Hvac Hmax Hsep.
  intros Hu Hroom Hrun Herr. rewrite runDownload_pool, Hrun by done. simpl.
  destruct (orchestrate_abort sched st err errs Hrun Herr) as [evs ->]. eauto.
Qed.

Lemma session_correct sched st :
  nodes fs0 !! U_FileName t = None → U_FileName t ≠ "" →
  is_u64 (Z.of_nat (free fs0)) → size + size ≤ Z.of_nat (free fs0) →
  run sched (pool_init ws) = Some st → idle st →
  finished content t procs st →
  ∃ szs, Forall (λ v, v < size) szs ∧
    runDownload goos content t procs (sched ++ [Poll]) fs0 =
    Some (Finished
      (Fsys (<[U_FileName t := File content]> (nodes fs0))
            (free fs0 - length content)%nat,
       shows szs true
         ++ hello (view t)
         ++ ((λ i, BarAdd (Z.of_nat (length (pd i)))) <$> seqZ 0 procs)
         ++ [BarFinish; Println "Complete"],
       None)).
Proof using HU Hwf Hprocs Hlen Hvac Hmax Hsep.
  intros Hout Hname Hu Hroom Hrun Hc Hfin.
  pose proof (split_le_size t procs Hprocs).
  rewrite runDownload_pool by (done || div_atoms; lia).
  destruct (orchestrate_finished sched st Hrun Hc Hfin) as (szs & Hszs & ->).
  exists szs. split; [done|]. unfold conclude.
  by rewrite (merge_correct content t procs Hprocs Hlen fs0).
Qed.

(** The concurrent download does what the pipeline with sequential workers
    does: on every schedule in which every worker finishes, after one more
    round of the monitor, the merge runs on the file system the sequential
    workers leave, so the download returns what [Download] returns, after
    the events of the monitor, and with the workspace removed if the merge
    fails. *)
Lemma session_refines sched st order :
  order ≡ₚ seqZ 0 procs →
  is_u64 (Z.of_nat (free fs0)) → size + split ≤ Z.of_nat (free fs0) →
  run sched (pool_init ws) = Some st → idle st →
  finished content t procs st →
  ∃ szs, Forall (λ v, v < size) szs ∧
    runDownload goos content t procs (sched ++ [Poll]) fs0
    = Some (let '(fs', evs', e) := Download goos content t procs order fs0 in
            Finished (if e is Some _ then cleanup t fs' else fs',
                      shows szs true ++ evs', e)).
Proof using HU Hwf Hprocs Hlen Hvac Hmax Hsep.
  intros Hperm Hu Hroom Hrun Hc Hfin. rewrite runDownload_pool by done.
  destruct (orchestrate_finished sched st Hrun Hc Hfin) as (szs & Hszs & ->).
  exists szs. split; [done|].
  by rewrite (Download_workers goos content t procs Hwf Hprocs Hlen order fs0).
Qed.

(** *** How a download can end *)

(** The values the bar is set to never go down and stay within the total. *)
Lemma session_monotone sched st :
  run sched (pool_init ws) = Some st →
  let r := U_ProgressBar t (p_obs st) in
  sent_error r.1 = None ∧ (∀ why, r.2 ≠ Panicked why) ∧
  Sorted Z.le (shown r.1) ∧ Forall (λ v, 0 ≤ v ≤ size) (shown r.1).
Proof using HU Hwf Hprocs Hlen Hvac Hmax.
  clear Hsep. intros Hrun. destruct (run_inv _ _ Hrun) as [Hinv Hseen].
  destruct (monitor_cases st Hinv Hseen)
    as (szs & done & stopped & Hszs & Hsorted & _ & ->).
  cbn [fst snd]. split; [apply sent_error_shows|].
  split; [by destruct done, stopped|].
  unfold shown, shows. cbn [fst omap list_omap]. rewrite omap_app.
  fold (shown (BarSet <$> szs)). rewrite shown_BarSet.
  assert (Forall (λ v, 0 ≤ v ≤ size) szs) as Hle
    by (eapply Forall_impl; [done|]; simpl; intros; lia).
  destruct done; simpl; rewrite ?app_nil_r; [|done]. split.
  - apply Sorted_le_snoc; [done|]. eapply Forall_impl; [done|]. simpl. intros; lia.
  - apply Forall_app. split; [done|]. repeat constructor; lia.
Qed.

(** A walk of the monitor that the workers write beside finds a size
    between the one at its beginning and the one at its end. *)
Lemma session_walk sched mid st st' :
  run sched (pool_init ws) = Some st → idle st → WalkEnd ∉ mid →
  run (WalkBegin :: mid ++ [WalkEnd]) st = Some st' →
  ∃ o k, p_obs st' = p_obs st ++ [o] ∧ measured (view t) o (Z.of_nat k) ∧
         (pool_total procs st ≤ k ≤ pool_total procs st')%nat.
Proof using HU Hwf Hprocs Hlen Hvac Hmax.
  clear Hsep. intros Hrun. destruct (run_inv _ _ Hrun) as [Hinv _].
  by apply (walk_between content t procs fs0).
Qed.

(** A walk under way can be ended, whatever the workers have done: one
    step for each path it has left, and the end of the round. *)
Lemma session_walk_ends sched st w :
  run sched (pool_init ws) = Some st → p_walk st = Some w →
  ∃ st' o k,
    run (replicate (length (w_pending w)) WalkVisit ++ [WalkEnd]) st = Some st' ∧
    same_work st' st ∧ p_walk st' = None ∧ p_cancelled st' = p_cancelled st ∧
    p_obs st' = p_obs st ++ [o] ∧ measured (view t) o (Z.of_nat k) ∧
    (k ≤ pool_total procs st)%nat.
Proof using HU Hwf Hprocs Hlen Hvac Hmax.
  clear Hsep. intros Hrun Hw.
  destruct (run_inv _ _ Hrun) as [Hinv (pre & post & ks & Hat)].
  destruct Hat as (_ & _ & _ & _ & _ & _ & Hwalk).
  destruct (Hwalk w Hw) as [_ Hok]. destruct w as [pend seen].
  by eapply (walk_can_end content t procs).
Qed.

(** The workers make at most one step per byte and one more each. *)
Lemma session_terminates sched st :
  run sched (pool_init ws) = Some st →
  (worker_steps sched ≤ length content + Z.to_nat procs)%nat.
Proof using HU Hwf Hprocs Hlen Hvac.
  clear Hsep Hmax. intros Hrun.
  pose proof (pool_run_variant content t procs fs0 Hwf Hprocs Hlen sched
                _ _ (pool_inv_init content t procs fs0 Hvac) Hrun) as Hv.
  rewrite (variant_init content t procs Hwf Hprocs Hlen) in Hv. lia.
Qed.

(** The workers do not touch the output. *)
Lemma pool_output st :
  inv st → nodes (p_fs st) !! U_FileName t = nodes fs0 !! U_FileName t.
Proof using Hsep.
  clear Hlen Hprocs Hvac Hwf Hmax. intros Hinv.
  rewrite (inv_other _ _ _ _ st Hinv)
    by (intros; apply (part_name_ne_filename (view t))).
  destruct Hsep as (_ & ? & _). by rewrite lookup_insert_ne.
Qed.

(** The merge after the workers have finished, when the name of the output
    is not that of a file: it fails and the file system is as it was, or it
    leaves the output, which holds what fitted beside the partial files. *)
Lemma conclude_cases sched st evs :
  (∀ bs, nodes fs0 !! U_FileName t ≠ Some (File bs)) →
  run sched (pool_init ws) = Some st → finished content t procs st →
  (∃ evs' err, conclude t procs evs (p_fs st) = Finished (fs0, evs', Some err)) ∨
  (∃ evs',
     let output := take (free fs0 - length content) content in
     conclude t procs evs (p_fs st)
     = Finished (Fsys (<[U_FileName t := File output]> (nodes fs0))
                   (free fs0 - length output), evs', None)).
Proof using HU Hwf Hprocs Hlen Hvac Hmax Hsep.
  intros Hnofile Hrun Hfin. destruct (run_inv _ _ Hrun) as [Hinv _].
  pose proof (cleanup_restores sched st Hrun) as Hclean.
  pose proof (pool_output st Hinv) as Hout.
  pose proof (finished_room content t procs fs0 Hwf Hprocs Hlen st Hinv Hfin).
  unfold conclude.
  rewrite (finished_fs content t procs fs0 Hwf Hprocs Hlen st Hinv Hfin) in *.
  destruct (decide (creatable (U_FileName t) fs0)) as [Hcr|Hcr].
  - right. unfold creatable in Hcr.
    destruct (nodes fs0 !! U_FileName t) as [[bs|b]|] eqn:E;
      [by destruct (Hnofile bs)|done|].
    rewrite (merge_result content t procs Hprocs Hlen fs0) by (done || lia).
    eauto.
  - left. edestruct (BindwithFiles_uncreatable t procs) as [Hfs [e He]];
      [unfold creatable; by rewrite Hout|].
    destruct (U_BindwithFiles t procs _) as [[fs1 evs1] e1].
    unfold fs_of, err_of in *. simpl in *. subst. rewrite Hclean. eauto.
Qed.

(** When the name of the output is not that of a file, a download is still
    waiting at the end of the schedule, or has returned an error and left the
    file system as it was, or has returned nil after every worker has finished
    and left the output. *)
Lemma orchestrate_cases sched st :
  (∀ bs, nodes fs0 !! U_FileName t ≠ Some (File bs)) →
  run sched (pool_init ws) = Some st →
  orchestrate content t procs st = Blocked ∨
  (∃ evs err, orchestrate content t procs st = Finished (fs0, evs, Some err)) ∨
  (∃ evs, finished content t procs st ∧
     let output := take (free fs0 - length content) content in
     orchestrate content t procs st
     = Finished (Fsys (<[U_FileName t := File output]> (nodes fs0))
                   (free fs0 - length output), evs, None)).
Proof using HU Hwf Hprocs Hlen Hvac Hmax Hsep.
  intros Hnofile Hrun. destruct (run_inv _ _ Hrun) as [Hinv Hseen].
  destruct (monitor_cases st Hinv Hseen) as (szs & done & stopped & _ & _ & _ & Hmon).
  rewrite (orchestrate_shows st _ _ _ Hmon).
  destruct (p_errs st) as [|err errs];
    [|right; left; rewrite (cleanup_restores sched) by done; eauto].
  case_decide as Hc; [|by left]. destruct Hc as [Hfin _]. right.
  destruct (conclude_cases sched st (shows szs done) Hnofile Hrun Hfin)
    as [(evs & err & ->)|(evs & ->)]; eauto.
Qed.

(** The monitor does not panic in a download. *)
Lemma orchestrate_no_crash sched st why :
  run sched (pool_init ws) = Some st → orchestrate content t procs st ≠ Crashed why.
Proof using HU Hwf Hprocs Hlen Hvac Hmax.
  clear Hsep. intros Hrun. destruct (run_inv _ _ Hrun) as [Hinv Hseen].
  destruct (monitor_cases st Hinv Hseen) as (szs & done & stopped & _ & _ & _ & Hmon).
  rewrite (orchestrate_shows st _ _ _ Hmon). unfold conclude.
  destruct (U_BindwithFiles t procs (p_fs st)) as [[fs1 evs1] e1].
  by destruct (p_errs st); try case_decide.
Qed.

(** From a state in which no worker has failed and the monitor is not
    cancelled, the schedule can go on to the end of the download. *)
Lemma session_can_finish sched st :
  nodes fs0 !! U_FileName t = None → U_FileName t ≠ "" →
  is_u64 (Z.of_nat (free fs0)) → size + size ≤ Z.of_nat (free fs0) →
  run sched (pool_init ws) = Some st → p_errs st = [] → idle st →
  ∃ evs,
    runDownload goos content t procs
      (sched ++ completion content t procs st ++ [Poll]) fs0 =
    Some (Finished
      (Fsys (<[U_FileName t := File content]> (nodes fs0))
            (free fs0 - length content)%nat, evs, None)).
Proof using HU Hwf Hprocs Hlen Hvac Hmax Hsep.
  intros Hout Hname Hu Hroom Hrun Herr Hc. destruct (run_inv _ _ Hrun) as [Hinv _].
  assert (size ≤ Z.of_nat (free fs0)) as Hfree by lia.
  destruct (pool_can_finish content t procs fs0 Hwf Hprocs Hlen Hfree st Hinv Herr)
    as (st' & Hrun' & _ & Hfin).
  assert (run (sched ++ completion content t procs st) (pool_init ws) = Some st')
    as Hall by (rewrite pool_run_app, Hrun; done).
  destruct (pool_run_workers content t procs _ _ _ (completion_workers _ _ _ st) Hrun')
    as (Hc' & _ & Hw').
  assert (idle st') as Hidle by (destruct Hc; split; congruence).
  destruct (session_correct _ st' Hout Hname Hu Hroom Hall Hidle Hfin) as (szs & _ & Hd).
  rewrite <-app_assoc in Hd. eauto.
Qed.

(** *** After a cancellation *)

(** Once the context is cancelled between two rounds the monitor shows
    nothing more. *)
Lemma cancelled_shows sched st st' :
  p_cancelled st = true → p_walk st = None → run sched st = Some st' →
  (U_ProgressBar t (p_obs st')).1 = (U_ProgressBar t (p_obs st)).1.
Proof using HU.
  clear Hwf Hlen Hprocs Hvac Hsep Hmax. intros Hc Hw Hrun.
  destruct (pool_run_after_cancel content t procs sched st st' Hc Hw Hrun)
    as (more & -> & Hmore).
  by rewrite (U_ProgressBar_then_cancelled t _ more Hmore).
Qed.

(** A cancellation that comes between two rounds and before the completion
    leaves the download waiting for ever, unless a worker fails: the monitor
    will not signal the completion on which the merge waits.  When a worker
    has failed the orchestrator returns the first error of the workers, with
    what the monitor had shown before the cancellation. *)
Lemma session_cancelled sched1 sched2 st1 st :
  run sched1 (pool_init ws) = Some st1 → p_walk st1 = None →
  SendDone ∉ (U_ProgressBar t (p_obs st1)).1 →
  run (sched1 ++ CancelCtx :: sched2) (pool_init ws) = Some st →
  orchestrate content t procs st
  = match p_errs st with
    | [] => Blocked
    | err :: _ => Finished (fs0, (U_ProgressBar t (p_obs st1)).1, Some err)
    end.
Proof using HU Hwf Hprocs Hlen Hvac Hmax Hsep.
  intros Hrun1 Hw Hearly Hrun. destruct (run_inv _ _ Hrun) as [Hinv Hseen].
  rewrite pool_run_app, Hrun1 in Hrun. simpl in Hrun.
  pose proof (cancelled_shows sched2 (cancel_ctx st1) st eq_refl Hw Hrun) as Hsame.
  simpl in Hsame. rewrite <-Hsame in *.
  destruct (monitor_cases st Hinv Hseen) as (szs & done & stopped & _ & _ & _ & Hmon).
  rewrite (orchestrate_shows st _ _ _ Hmon). rewrite Hmon in *.
  destruct (p_errs st) as [|err errs];
    [|by rewrite (cleanup_restores (sched1 ++ CancelCtx :: sched2))
        by (by rewrite pool_run_app, Hrun1)].
  case_decide as Hc; [|done]. destruct Hc as [_ ->].
  destruct Hearly. unfold shows. simpl. set_solver.
Qed.

End orchestra.

(** ** Every way a download ends *)

Section outcomes.
Context `{HU : UtilsSpec T}.
Context (goos : string) (content : bytes) (t : T) (procs : Z) (fs0 : fsys).
Hypothesis Hwf : is_u64 (U_FileSize t).
Hypothesis Hprocs : 0 < procs ≤ U_FileSize t.
Hypothesis Hlen : Z.of_nat (length content) = U_FileSize t.
Hypothesis Hvac : vacant (U_DirName t) fs0.
Hypothesis Hmax : U_FileSize t ≤ i64_max.
Hypothesis Hsep : separate (view t).
Hypothesis Hu : is_u64 (Z.of_nat (free fs0)).

(** The space check decides between a refusal that touches nothing and the
    pool on a volume that has room for every partial file. *)
Lemma runDownload_admission sched :
  (∃ err, U_IsFree goos t (U_FileSize t / procs) fs0 = Some err ∧
          runDownload goos content t procs sched fs0
          = Some (Finished (fs0, [], Some err))) ∨
  (U_FileSize t ≤ Z.of_nat (free fs0) ∧
   runDownload goos content t procs sched fs0
   = orchestrate content t procs
       <$> pool_run content t procs sched (pool_init (workspace t fs0))).
Proof using HU Hwf Hprocs Hvac Hmax Hu.
  clear Hlen Hsep. pose proof (split_le_size t procs Hprocs) as Hsplit.
  unfold runDownload at 1.
  destruct (U_IsFree goos t (U_FileSize t / procs) fs0) as [err|] eqn:E; [eauto|].
  right. apply IsFree_spec in E; [|done|revert Hmax; unfold_int; div_atoms; lia].
  split; [div_atoms; lia|]. by apply (runDownload_pool goos content t procs fs0).
Qed.

Lemma session_cases sched r :
  (∀ bs, nodes fs0 !! U_FileName t ≠ Some (File bs)) →
  runDownload goos content t procs sched fs0 = Some r →
  r = Blocked ∨ (∃ evs err, r = Finished (fs0, evs, Some err)) ∨
  (∃ st evs, pool_run content t procs sched (pool_init (workspace t fs0)) = Some st ∧
     finished content t procs st ∧
     let output := take (free fs0 - length content) content in
     r = Finished (Fsys (<[U_FileName t := File output]> (nodes fs0))
                     (free fs0 - length output), evs, None)).
Proof using HU Hwf Hprocs Hlen Hvac Hmax Hsep Hu.
  intros Hnofile.
  destruct (runDownload_admission sched) as [(err & _ & ->)|[Hfree ->]];
    [intros [= <-]; eauto|].
  destruct (pool_run _ _ _ sched _) as [st|] eqn:Hrun; [|done]. intros [= <-].
  destruct (orchestrate_cases content t procs fs0 Hwf Hprocs Hlen Hvac
              Hmax Hsep sched st Hnofile Hrun) as [?|[?|(evs & Hfin & ?)]];
    eauto 7.
Qed.

Lemma session_no_crash sched why :
  runDownload goos content t procs sched fs0 ≠ Some (Crashed why).
Proof using HU Hwf Hprocs Hlen Hvac Hmax Hu.
  clear Hsep.
  destruct (runDownload_admission sched) as [(err & _ & ->)|[Hfree ->]]; [done|].
  destruct (pool_run _ _ _ sched _) as [st|] eqn:Hrun; [|done]. intros [= Hc].
  by eapply (orchestrate_no_crash content t procs fs0).
Qed.

End outcomes.

(** ** The size of the volume *)

Section volume.
Context `{HU : UtilsSpec T}.
Context (goos : string) (content : bytes) (t : T) (procs : Z).

Lemma cleanup_capacity fs : capacity (cleanup t fs) = capacity fs.
Proof using Type.
  unfold cleanup. destruct (os_RemoveAll _ fs) eqn:E; [|done].
  by eapply os_RemoveAll_capacity.
Qed.

Lemma orchestrate_capacity st o :
  orchestrate content t procs st = Finished o →
  capacity (fs_of o) = capacity (p_fs st).
Proof using HU.
  unfold orchestrate, conclude.
  destruct (U_ProgressBar t (p_obs st)) as [evs status].
  pose proof (BindwithFiles_volume t procs (p_fs st)) as Hvol.
  destruct (U_BindwithFiles t procs (p_fs st)) as [[fs' evs'] [e|]].
  all: destruct status; [| |done];
    (destruct (p_errs st), (sent_error evs); [|case_decide; [|done]|..]);
    intros [= <-]; unfold fs_of in *; simpl in *;
    by rewrite ?cleanup_capacity.
Qed.

(** A download returns nil only after the merge, which comes only when
    every worker has finished. *)
Lemma orchestrate_nil st o :
  orchestrate content t procs st = Finished o → err_of o = None →
  finished content t procs st.
Proof using Type.
  unfold orchestrate, conclude.
  destruct (U_ProgressBar t (p_obs st)) as [evs status].
  destruct (U_BindwithFiles t procs (p_fs st)) as [[fs' evs'] e].
  destruct status; [| |done];
    (destruct (p_errs st), (sent_error evs); [|case_decide as Hc; [|done]|..]);
    intros [= <-]; try done; by destruct Hc.
Qed.

(** Whatever the schedule and however the download ends, the volume is the
    size it was. *)
Lemma session_capacity sched fs o :
  runDownload goos content t procs sched fs = Some (Finished o) →
  capacity (fs_of o) = capacity fs.
Proof using HU.
  unfold runDownload. destruct (U_IsFree _ _ _ _); [by intros [= <-]|].
  destruct (os_MkdirAll _ fs) as [fs1|err] eqn:Hm; [|by intros [= <-]].
  destruct (pool_run _ _ _ sched _) as [st|] eqn:Hrun; [|done]. simpl.
  intros [= Ho]. rewrite (orchestrate_capacity st o Ho).
  rewrite (pool_run_capacity _ _ _ _ _ _ Hrun). simpl.
  by eapply os_MkdirAll_capacity.
Qed.

End volume.
