(* ===== verification/Teardown.v ===== *)
(** * The monitor when the workspace is removed

    On its abort paths the orchestrator removes the workspace (section 7 of
    the specification).  The monitor is a task of its own, and the only hold
    the orchestrator has on it is the cancellation, which it notices at the
    beginning of a round: unless it has returned, the monitor goes on after
    the removal, with the [Lstat] of the next path of its walk
    ([lstat_visit]) or with its next round.  The function it gives to
    [filepath.Walk] looks at [info] before it looks at [err], so either of
    them panics ([removal_round], [removal_walk]); [ProgressBar] sends nothing
    when it returns on [ctx.Done()], so the orchestrator cannot wait for it.
    The merge removes the workspace too: an orchestrator that did not wait
    for the signal of the monitor would take the workspace from under it
    ([merge_beside_monitor]). *)

From S2P Require Import Prelude GoInt FileSys Data Merge Progress Iface Download.
From S2P Require Import Pool PoolMonitor PoolRuns Session.
From stdpp Require Import gmap sorting.

#[local] Open Scope Z_scope.

Section teardown.
Context `{HU : UtilsSpec T}.
Context (content : bytes) (t : T) (procs : Z) (fs0 : fsys).
Hypothesis Hwf : is_u64 (U_FileSize t).
Hypothesis Hprocs : 0 < procs ≤ U_FileSize t.
Hypothesis Hlen : Z.of_nat (length content) = U_FileSize t.
Hypothesis Hvac : vacant (U_DirName t) fs0.
Hypothesis Hmax : U_FileSize t ≤ i64_max.
Hypothesis Hsep : separate (view t).
Implicit Types (sched : list action) (st : pool).

#[local] Abbreviation dir := (U_DirName t).
#[local] Abbreviation ws := (workspace t fs0).
#[local] Abbreviation run := (pool_run content t procs).

(** What the dereference of a nil [FileInfo] is reported as. *)
Definition nil_dereference : string :=
  "invalid memory address or nil pointer dereference".

(** A monitor whose context is open polls until it has signalled
    completion. *)
Lemma monitor_polls sched st :
  run sched (pool_init ws) = Some st → p_cancelled st = false →
  SendDone ∉ (U_ProgressBar t (p_obs st)).1 →
  (U_ProgressBar t (p_obs st)).2 = Running.
Proof using HU Hwf Hprocs Hlen Hvac Hmax.
  clear Hsep. intros Hrun Hlive.
  destruct (run_inv content t procs fs0 Hwf Hprocs Hlen Hvac Hmax _ _ Hrun)
    as [Hinv Hseen].
  destruct (monitor_cases content t procs fs0 Hwf Hmax st Hinv Hseen)
    as (szs & done & stopped & _ & _ & Hstop & ->).
  rewrite (Hstop Hlive). destruct done; [|done].
  intros []. unfold shows. set_solver.
Qed.

(** While a worker's error is waiting for the orchestrator the monitor has
    not completed, since a worker has not. *)
Lemma failed_not_done sched st err errs :
  run sched (pool_init ws) = Some st → p_errs st = err :: errs →
  SendDone ∉ (U_ProgressBar t (p_obs st)).1.
Proof using HU Hwf Hprocs Hlen Hvac Hmax.
  clear Hsep. intros Hrun Herr Hdone.
  destruct (run_inv content t procs fs0 Hwf Hprocs Hlen Hvac Hmax _ _ Hrun)
    as [Hinv Hseen].
  apply (monitor_done_finished content t procs fs0 Hwf Hprocs Hlen Hmax st Hinv Hseen)
    in Hdone.
  by rewrite (finished_no_error content t procs fs0 Hwf Hprocs st Hinv) in Herr.
Qed.

(** A round of a monitor that polls, on a file system without the
    workspace: it panics. *)
Lemma missing_round obs fs :
  nodes fs !! dir = None → (U_ProgressBar t obs).2 = Running →
  U_ProgressBar t (obs ++ [(false, fs)])
  = ((U_ProgressBar t obs).1, Panicked nil_dereference).
Proof using HU.
  clear Hwf Hprocs Hlen Hvac Hmax Hsep. intros Hgone Hpoll.
  apply U_ProgressBar_then_crash; [done|]. by apply subDirsize_missing.
Qed.

(** Between two rounds: the next round of a monitor that polls finds no
    workspace and panics. *)
Lemma removal_round obs :
  (U_ProgressBar t obs).2 = Running →
  U_ProgressBar t (obs ++ [(false, fs0)])
  = ((U_ProgressBar t obs).1, Panicked nil_dereference).
Proof using HU Hvac.
  clear Hwf Hprocs Hlen Hmax Hsep.
  apply missing_round, (vacant_lookup dir); auto.
Qed.

(** In a walk: the next path is gone, whether the context is cancelled or
    not, and the function given to [filepath.Walk] panics on it. *)
Lemma removal_walk sched st p rest seen size :
  run sched (pool_init ws) = Some st →
  p_walk st = Some (Walk (p :: rest) seen) →
  subDirsize_fn size (lstat_visit fs0 p) = Panics nil_dereference.
Proof using HU Hwf Hprocs Hlen Hvac Hmax.
  clear Hsep. intros Hrun Hw.
  destruct (run_inv content t procs fs0 Hwf Hprocs Hlen Hvac Hmax _ _ Hrun)
    as [_ (pre & post & ks & Hat)].
  destruct Hat as (_ & _ & _ & _ & _ & _ & Hwalk).
  destruct (Hwalk _ Hw) as [_ (_ & (_ & Hunder & _)%Forall_cons_1%proj1 & _)].
  unfold lstat_visit. by rewrite (vacant_lookup dir fs0 p) by auto.
Qed.

(** The abort path: the orchestrator returns the first error of a worker
    with what the monitor has shown so far, and has removed the workspace. *)
Lemma abort_result sched st err errs :
  run sched (pool_init ws) = Some st → p_errs st = err :: errs →
  orchestrate content t procs st
  = Finished (fs0, (U_ProgressBar t (p_obs st)).1, Some err).
Proof using HU Hwf Hprocs Hlen Hvac Hmax Hsep.
  intros Hrun Herr.
  destruct (run_inv content t procs fs0 Hwf Hprocs Hlen Hvac Hmax _ _ Hrun)
    as [Hinv Hseen].
  destruct (monitor_cases content t procs fs0 Hwf Hmax st Hinv Hseen)
    as (szs & done & stopped & _ & _ & _ & Hmon).
  rewrite (orchestrate_shows content t procs st _ _ _ Hmon), Herr, Hmon.
  by rewrite (cleanup_restores content t procs fs0 Hwf Hprocs Hlen Hvac Hsep sched).
Qed.

(** What the removal of the workspace does to a monitor that has not
    returned. *)
Lemma abort_beside_monitor sched st err errs :
  run sched (pool_init ws) = Some st → p_errs st = err :: errs →
  orchestrate content t procs st
  = Finished (fs0, (U_ProgressBar t (p_obs st)).1, Some err) ∧
  (idle st →
   U_ProgressBar t (p_obs st ++ [(false, fs0)])
   = ((U_ProgressBar t (p_obs st)).1, Panicked nil_dereference)) ∧
  (∀ p rest seen size, p_walk st = Some (Walk (p :: rest) seen) →
     subDirsize_fn size (lstat_visit fs0 p) = Panics nil_dereference).
Proof using HU Hwf Hprocs Hlen Hvac Hmax Hsep.
  intros Hrun Herr. split_and!.
  - by eapply abort_result.
  - intros [Hlive _].
    by apply removal_round, (monitor_polls sched), (failed_not_done sched st err errs).
  - intros p rest seen size. by apply (removal_walk sched st).
Qed.

(** The merge removes the workspace as well.  An orchestrator that waits
    for the workers and not for the signal of the monitor merges while the
    monitor polls: the merge succeeds, and the next round of the monitor
    finds no workspace. *)
Lemma merge_beside_monitor sched st :
  nodes fs0 !! U_FileName t = None → U_FileName t ≠ "" →
  run sched (pool_init ws) = Some st → p_cancelled st = false →
  finished content t procs st →
  SendDone ∉ (U_ProgressBar t (p_obs st)).1 →
  err_of (U_BindwithFiles t procs (p_fs st)) = None ∧
  U_ProgressBar t (p_obs st ++ [(false, fs_of (U_BindwithFiles t procs (p_fs st)))])
  = ((U_ProgressBar t (p_obs st)).1, Panicked nil_dereference).
Proof using HU Hwf Hprocs Hlen Hvac Hmax Hsep.
  intros Hout Hname Hrun Hlive Hfin Hearly.
  destruct (run_inv content t procs fs0 Hwf Hprocs Hlen Hvac Hmax _ _ Hrun)
    as [Hinv _].
  rewrite (finished_fs content t procs fs0 Hwf Hprocs Hlen st Hinv Hfin).
  destruct (merge_fetched t procs (part content (U_FileSize t) procs) fs0 Hsep Hvac
              (free fs0 - length content) Hout Hname) as [Heq _].
  unfold downloaded. rewrite Heq. split; [done|].
  apply missing_round; [|by apply (monitor_polls sched)].
  unfold merge_outcome, fs_of. simpl.
  by rewrite filter_not_in_tree_lookup, decide_True by (by left).
Qed.

End teardown.
