(* ===== verification/Pget.v ===== *)
(** * The download of pget

    The theorems of the download on the job of [src/util.go], [Data]: what
    [Session] proves on any implementation of the contract, stated for the
    functions of the program, with the job of ten bytes and three workers as
    their witness.  They hold on every schedule of the pool: whatever the
    interleaving of the workers' writes, of the steps of the monitor's walks
    of the workspace and of the cancellation. *)

From S2P Require Import Prelude GoInt FileSys Data Merge Progress Iface Download.
From S2P Require Import Pool PoolMonitor PoolRuns Session Teardown.
From stdpp Require Import gmap sorting.

#[local] Open Scope Z_scope.

(** ** The download of [Data] *)

Section pget.
Context (goos : string) (content : bytes) (d : Data) (procs : Z) (fs : fsys).
Hypothesis Hwf : Data_wf d.
Hypothesis Hprocs : 0 < procs ≤ filesize d.
Hypothesis Hlen : Z.of_nat (length content) = filesize d.
Hypothesis Hmax : filesize d ≤ i64_max.
Hypothesis Hvac : vacant (dirname d) fs.
Implicit Types (sched : list action) (st : pool).

#[local] Abbreviation run := (pool_run content d procs).
#[local] Abbreviation start := (pool_init (workspace d fs)).

(** C1: the download is correct on every schedule.  For a job on a volume
    with twice [filesize] bytes free, no workspace left over and a free name
    for the output: whatever the interleaving of the workers' writes and of the
    monitor's rounds, and however the ranges arrive in pieces, once every
    worker has written its range and the monitor has made one more round, the
    download returns nil; the file system is as it was but for the output,
    which holds the resource; the monitor has shown sizes below the total and
    then completion, and the merge its greeting, one step per part and
    "Complete".  (The monitor is between two rounds and has not been
    cancelled: see [runDownload_cancelled].) *)
Theorem runDownload_correct sched st :
  separate d → nodes fs !! filename d = None → filename d ≠ "" →
  is_u64 (Z.of_nat (free fs)) → filesize d + filesize d ≤ Z.of_nat (free fs) →
  run sched start = Some st → idle st →
  finished content d procs st →
  ∃ szs, Forall (λ v, v < filesize d) szs ∧
    runDownload goos content d procs (sched ++ [Poll]) fs =
    Some (Finished
      (Fsys (<[filename d := File content]> (nodes fs))
            (free fs - length content)%nat,
       (BarStart (filesize d) :: (BarSet <$> szs)
          ++ [BarSet (filesize d); BarFinish; SendDone])
         ++ hello d
         ++ ((λ i, BarAdd (Z.of_nat (length (part content (filesize d) procs i))))
               <$> seqZ 0 procs)
         ++ [BarFinish; Println "Complete"],
       None)).
Proof using Hwf Hprocs Hlen Hmax Hvac.
  intros Hsep Hout Hname Hu Hroom Hrun Hc Hfin.
  pose proof (session_correct goos content d procs fs Hwf Hprocs Hlen Hvac Hmax)
    as Hs.
  rewrite view_Data in Hs. by apply (Hs Hsep sched st).
Qed.

(** C2: the concurrent download refines the sequential pipeline.  On a
    volume that passes the space check, for every schedule of the pool in
    which every worker writes its whole range and the monitor is between
    two rounds and not cancelled, followed by one round of the monitor, and
    for every order of
    the sequential workers: the download returns the error the pipeline
    [Download] returns, nil included; its events are those of the monitor
    (sizes below the total, then the completion) followed by those of the
    pipeline; and it leaves the file system the pipeline leaves, but for the
    workspace, which it removes when the merge has failed.  Nothing is asked
    of the output name or of the room for the merge: the two agree on the
    outputs that are cut short and on the merges that fail as well. *)
Theorem runDownload_refines_Download sched st order :
  separate d → order ≡ₚ seqZ 0 procs →
  is_u64 (Z.of_nat (free fs)) →
  filesize d + filesize d / procs ≤ Z.of_nat (free fs) →
  run sched start = Some st → idle st →
  finished content d procs st →
  ∃ szs, Forall (λ v, v < filesize d) szs ∧
    runDownload goos content d procs (sched ++ [Poll]) fs
    = Some (let '(fs', evs', e) := Download goos content d procs order fs in
            Finished (if e is Some _ then cleanup d fs' else fs',
                      (BarStart (filesize d) :: (BarSet <$> szs)
                         ++ [BarSet (filesize d); BarFinish; SendDone]) ++ evs',
                      e)).
Proof using Hwf Hprocs Hlen Hmax Hvac.
  intros Hsep Hperm Hu Hroom Hrun Hc Hfin.
  pose proof (session_refines goos content d procs fs Hwf Hprocs Hlen Hvac Hmax)
    as Hs.
  rewrite view_Data in Hs. by apply (Hs Hsep sched st order).
Qed.

(** A failed transfer leaves no trace.  When the volume passes the
    space check and a worker returns an error (its transfer fails, at any
    point of any schedule), the download returns the first such error, and
    the file system is exactly as it was before: the workspace and the
    partial files written by the other workers are removed, their bytes are
    free again, and the output was not created. *)
Theorem runDownload_abort sched st err errs :
  separate d → is_u64 (Z.of_nat (free fs)) →
  filesize d + filesize d / procs ≤ Z.of_nat (free fs) →
  run sched start = Some st → p_errs st = err :: errs →
  ∃ evs, runDownload goos content d procs sched fs
         = Some (Finished (fs, evs, Some err)).
Proof using Hwf Hprocs Hlen Hmax Hvac.
  intros Hsep Hu Hroom Hrun Herr.
  pose proof (session_abort goos content d procs fs Hwf Hprocs Hlen Hvac Hmax)
    as Hs.
  rewrite view_Data in Hs. by apply (Hs Hsep sched st err errs).
Qed.

(** C12: no early completion.  On every schedule of the pool, if the monitor
    has signalled completion then every worker has written its whole range
    and returned without error: the signal on which the merge waits is never
    sent while a byte is missing.  This holds although the monitor takes no
    lock: its walk of the workspace may look at each partial file at another
    instant, while the workers go on writing. *)
Theorem ProgressBar_no_early_completion sched st :
  run sched start = Some st →
  SendDone ∈ (ProgressBar d (p_obs st)).1 → finished content d procs st.
Proof using Hwf Hprocs Hlen Hmax Hvac.
  exact (session_no_early content d procs fs Hwf Hprocs Hlen Hvac Hmax sched st).
Qed.

(** C6: the schedule does not matter.  Two schedules of the pool in which
    every worker finishes, however their steps interleave and however the
    ranges are cut into pieces, leave the same file system, and it is the one
    the workers leave when they run one after the other, each writing its
    range at once. *)
Theorem pool_schedule_independent sched1 sched2 st1 st2 order :
  order ≡ₚ seqZ 0 procs →
  run sched1 start = Some st1 → finished content d procs st1 →
  run sched2 start = Some st2 → finished content d procs st2 →
  p_fs st1 = p_fs st2 ∧
  p_fs st1 = (workers content d procs order (workspace d fs)).1.
Proof using Hwf Hprocs Hlen Hmax Hvac.
  intros Hperm Hrun1 Hfin1 Hrun2 Hfin2.
  pose proof (pool_sequential content d procs fs Hwf Hprocs Hlen Hvac Hmax)
    as Hseq.
  by rewrite (Hseq sched1 st1 order), (Hseq sched2 st2 order).
Qed.

(** The two conditions on which the orchestrator waits are one.  On
    every schedule of the pool, a round the monitor makes at once, with its
    context open, signals completion exactly when every worker has written
    its whole range and returned without error: waiting for the workers and
    waiting for the monitor's signal let the merge start at the same
    states. *)
Theorem ProgressBar_completion_iff_finished sched st :
  run sched start = Some st → idle st →
  finished content d procs st
  ↔ SendDone ∈ (ProgressBar d (p_obs st ++ [(false, p_fs st)])).1.
Proof using Hwf Hprocs Hlen Hmax Hvac.
  exact (session_gate content d procs fs Hwf Hprocs Hlen Hvac Hmax sched st).
Qed.

(** C17: the monitor needs no lock.  On every schedule of the pool, the walks
    of the monitor interleaved entry by entry with the writes of the workers,
    no measurement fails (the monitor sends no error and does not panic), and
    the values it sets the bar to are non-decreasing and lie between 0 and
    the size of the file: the workers only add bytes, a walk finds of each
    file what was written when it looked at it, and a round that finds all
    the bytes shows the total. *)
Theorem ProgressBar_monotone_on_schedules sched st :
  run sched start = Some st →
  let r := ProgressBar d (p_obs st) in
  sent_error r.1 = None ∧ (∀ why, r.2 ≠ Panicked why) ∧
  Sorted Z.le (shown r.1) ∧ Forall (λ v, 0 ≤ v ≤ filesize d) (shown r.1).
Proof using Hwf Hprocs Hlen Hmax Hvac.
  exact (session_monotone content d procs fs Hwf Hprocs Hlen Hvac Hmax sched st).
Qed.

(** C14: what a walk without a lock measures.  The monitor reads the names
    below the workspace and then the size of each file in turn, while the
    workers create files and write: the sizes it adds up were never on the
    disk together.  Whatever the workers do between the beginning and the
    end of a walk, [subDirsize] returns without error on what the walk has
    seen, and the size it returns is at least the number of bytes written
    when the walk began and at most the number written when it ends. *)
Theorem subDirsize_beside_workers sched mid st st' :
  run sched start = Some st → idle st → WalkEnd ∉ mid →
  run (WalkBegin :: mid ++ [WalkEnd]) st = Some st' →
  ∃ seen k, p_obs st' = p_obs st ++ [(false, seen)] ∧
    subDirsize d (dirname d) seen = Returns (Z.of_nat k, None) ∧
    (pool_total procs st ≤ k ≤ pool_total procs st')%nat.
Proof using Hwf Hprocs Hlen Hmax Hvac.
  intros Hrun Hidle Hmid Hwalk.
  pose proof (session_walk content d procs fs) as Hs.
  destruct (Hs Hwf Hprocs Hlen Hvac Hmax sched mid st st' Hrun Hidle Hmid Hwalk)
    as ([c seen] & k & Hobs & [Hc Hm] & Hk).
  simpl in Hc, Hm. subst c. by exists seen, k.
Qed.

(** C18: the walk is never kept waiting.  In every state a schedule reaches
    with a walk of the monitor under way, whatever the workers have done
    since the names were read, the monitor can look at each path it has left
    and end its round: one step for each path, none of which waits for a
    worker or fails; [subDirsize] returns without error on what the walk
    has seen, a size that is at most the bytes written, and the round takes
    nothing from the workers. *)
Theorem subDirsize_wait_free sched st w :
  run sched start = Some st → p_walk st = Some w →
  ∃ st' seen k,
    run (replicate (length (w_pending w)) WalkVisit ++ [WalkEnd]) st = Some st' ∧
    same_work st' st ∧ p_walk st' = None ∧ p_cancelled st' = p_cancelled st ∧
    p_obs st' = p_obs st ++ [(false, seen)] ∧
    subDirsize d (dirname d) seen = Returns (Z.of_nat k, None) ∧
    (k ≤ pool_total procs st)%nat.
Proof using Hwf Hprocs Hlen Hmax Hvac.
  intros Hrun Hw.
  pose proof (session_walk_ends content d procs fs) as Hs.
  destruct (Hs Hwf Hprocs Hlen Hvac Hmax sched st w Hrun Hw)
    as (st' & [c seen] & k & ? & ? & ? & ? & ? & [Hc ?] & ?).
  simpl in Hc. subst c. by exists st', seen, k.
Qed.

(** C16: the abort path and the monitor.  When a worker has failed the
    orchestrator returns its error and removes the workspace, while the
    monitor has not returned: it has not completed, it sends nothing when it
    is cancelled, and it looks at the cancellation at the beginning of a
    round only.  What the monitor does next panics: between two rounds with
    the context open, its next round finds no workspace; in a walk with a
    path left, cancelled or not, the [Lstat] of that path fails and the
    function given to [filepath.Walk] dereferences the nil [FileInfo]. *)
Theorem cleanup_beside_monitor sched st err errs :
  separate d → run sched start = Some st → p_errs st = err :: errs →
  orchestrate content d procs st
  = Finished (fs, (ProgressBar d (p_obs st)).1, Some err) ∧
  (idle st →
   ProgressBar d (p_obs st ++ [(false, fs)])
   = ((ProgressBar d (p_obs st)).1, Panicked nil_dereference)) ∧
  (∀ p rest seen size, p_walk st = Some (Walk (p :: rest) seen) →
     subDirsize_fn size (lstat_visit fs p) = Panics nil_dereference).
Proof using Hwf Hprocs Hlen Hmax Hvac.
  intros Hsep.
  pose proof (abort_beside_monitor content d procs fs Hwf Hprocs Hlen Hvac Hmax)
    as Hs.
  rewrite view_Data in Hs. exact (Hs Hsep sched st err errs).
Qed.

(** C13: the merge has to wait for the monitor.  The specification has the
    orchestrator wait for the workers and for the signal of the monitor
    (section 5) and notes that the reference flow waits for the workers only
    (sections 4.4 and 9).  When every worker has written its range and the
    monitor, whose context is open, has not yet made the round that finds
    it, the merge succeeds and removes the workspace, and the next round of
    the monitor finds no workspace and panics: the signal of the monitor
    is what tells the orchestrator that [ProgressBar] has returned. *)
Theorem merge_needs_monitor_signal sched st :
  separate d → nodes fs !! filename d = None → filename d ≠ "" →
  run sched start = Some st → p_cancelled st = false →
  finished content d procs st →
  SendDone ∉ (ProgressBar d (p_obs st)).1 →
  err_of (BindwithFiles d procs (p_fs st)) = None ∧
  ProgressBar d (p_obs st ++ [(false, fs_of (BindwithFiles d procs (p_fs st)))])
  = ((ProgressBar d (p_obs st)).1, Panicked nil_dereference).
Proof using Hwf Hprocs Hlen Hmax Hvac.
  intros Hsep.
  pose proof (merge_beside_monitor content d procs fs Hwf Hprocs Hlen Hvac Hmax)
    as Hs.
  rewrite view_Data in Hs. exact (Hs Hsep sched st).
Qed.

(** The workers terminate.  A schedule of the pool has at most one step
    of a worker per byte of the file and one more per worker: each worker
    starts once and every write brings a byte at least, so after
    [filesize + procs] steps of the workers only the monitor and the caller
    can move. *)
Theorem pool_run_terminates sched st :
  run sched start = Some st →
  (worker_steps sched ≤ length content + Z.to_nat procs)%nat.
Proof using Hwf Hprocs Hlen Hvac.
  exact (session_terminates content d procs fs Hwf Hprocs Hlen Hvac sched st).
Qed.

(** C27: a download can always finish.  From any state of the pool in which
    no worker has failed and the monitor is between two rounds and not
    cancelled, however far each worker is, the schedule [completion] lets every worker write the rest of
    its range; after one more round of the monitor the download returns nil
    with the resource in the output. *)
Theorem runDownload_can_finish sched st :
  separate d → nodes fs !! filename d = None → filename d ≠ "" →
  is_u64 (Z.of_nat (free fs)) → filesize d + filesize d ≤ Z.of_nat (free fs) →
  run sched start = Some st → p_errs st = [] → idle st →
  ∃ evs,
    runDownload goos content d procs
      (sched ++ completion content d procs st ++ [Poll]) fs =
    Some (Finished
      (Fsys (<[filename d := File content]> (nodes fs))
            (free fs - length content)%nat, evs, None)).
Proof using Hwf Hprocs Hlen Hmax Hvac.
  intros Hsep Hout Hname Hu Hroom Hrun Herr Hc.
  pose proof (session_can_finish goos content d procs fs Hwf Hprocs Hlen Hvac Hmax)
    as Hs.
  rewrite view_Data in Hs. by apply (Hs Hsep sched st).
Qed.

(** C15: a cancellation before the completion blocks the download.  The
    cancellation stops the monitor and nothing else.  When the context is
    cancelled between two rounds of the monitor, before it has signalled
    completion, then whatever the
    workers do afterwards, and even when all of them write their whole range,
    the download never reaches the merge.  Either the space check has
    refused the download before any of this, or, at the end of every such
    schedule: when no worker has failed the download is still waiting for
    the signal of the monitor, with the partial files on disk; when a worker
    has failed it returns the first error of the workers, with what the
    monitor had shown before the cancellation, and leaves the file system
    as it was. *)
Theorem runDownload_cancelled sched1 sched2 st1 r :
  separate d → is_u64 (Z.of_nat (free fs)) →
  run sched1 start = Some st1 → p_walk st1 = None →
  SendDone ∉ (ProgressBar d (p_obs st1)).1 →
  runDownload goos content d procs (sched1 ++ CancelCtx :: sched2) fs = Some r →
  (∃ err, IsFree goos d (filesize d / procs) fs = Some err ∧
          r = Finished (fs, [], Some err)) ∨
  ∃ st, run (sched1 ++ CancelCtx :: sched2) start = Some st ∧
        r = match p_errs st with
            | [] => Blocked
            | err :: _ => Finished (fs, (ProgressBar d (p_obs st1)).1, Some err)
            end.
Proof using Hwf Hprocs Hlen Hmax Hvac.
  intros Hsep Hu Hrun1 Hw Hearly.
  pose proof (runDownload_admission goos content d procs fs) as Hadm.
  destruct (Hadm Hwf Hprocs Hvac Hmax Hu (sched1 ++ CancelCtx :: sched2))
    as [(err & Hfree & ->)|[_ ->]]; [intros [= <-]; eauto|].
  destruct (pool_run _ _ _ (sched1 ++ _) _) as [st|] eqn:Hrun; [|done].
  intros [= <-]. right. exists st. split; [done|].
  pose proof (session_cancelled content d procs fs Hwf Hprocs Hlen Hvac Hmax) as Hs.
  rewrite view_Data in Hs. by apply (Hs Hsep sched1 sched2 st1 st).
Qed.

(** C23: a worker that finds the volume full.  When the bytes a worker has
    received do not fit on the volume, it writes those that fit (its partial
    file then holds the first [k + free] bytes of its range, and the volume
    is full) and returns "write <part>: no space left on device"; if no
    worker had failed before, the download returns that error, and the file
    system is as it was before the download: the partial files, that of this
    worker included, are removed with the workspace. *)
Theorem worker_disk_full sched st i k n :
  separate d → run sched start = Some st → p_errs st = [] →
  p_workers st !! i = Some (Fetching k) →
  (0 < n)%nat → (k + n ≤ length (part content (filesize d) procs i))%nat →
  (free (p_fs st) < n)%nat →
  ∃ st' evs,
    run (sched ++ [Write i n]) start = Some st' ∧
    nodes (p_fs st') !! part_name d procs i
    = Some (File (take (k + free (p_fs st)) (part content (filesize d) procs i))) ∧
    free (p_fs st') = 0%nat ∧
    orchestrate content d procs st'
    = Finished (fs, evs, Some (ENOSPC "write" (part_name d procs i))).
Proof using Hwf Hprocs Hlen Hmax Hvac.
  intros Hsep Hrun Herr Hi Hn Hkn Hshort.
  pose proof (pool_run_pool_inv content d procs fs Hwf Hprocs Hlen sched _ st
                (pool_inv_init content d procs fs Hvac) Hrun) as Hinv.
  pose proof (write_short content d procs fs Hwf Hprocs Hlen st i k n Hinv Hi Hn
                Hkn Hshort) as Hstep.
  assert (run (sched ++ [Write i n]) start = Some
            (stop i (k + free (p_fs st)) (ENOSPC "write" (part_name d procs i))
               (Fsys (<[part_name d procs i
                        := File (take (k + free (p_fs st))
                                   (part content (filesize d) procs i))]>
                        (nodes (p_fs st))) 0) st)) as Hrun'
    by (rewrite pool_run_app, Hrun; cbn [mbind option_bind pool_run];
        by rewrite Hstep).
  pose proof (orchestrate_abort content d procs fs Hwf Hprocs Hlen Hvac Hmax) as Ho.
  rewrite view_Data in Ho.
  destruct (Ho Hsep _ _ (ENOSPC "write" (part_name d procs i)) [] Hrun')
    as [evs Hend]; [by simpl; rewrite Herr|].
  eexists _, evs. split_and!; [exact Hrun'| |done|exact Hend].
  simpl. by rewrite lookup_insert_eq.
Qed.

(** C7: a download that fails leaves the file system as it found it.
    Whatever the schedule and whatever the error returned (the space check
    refuses, a worker fails, the output cannot be created), when the name of
    the output is not that of an existing file the file system after the
    download is the one before it: no workspace, no partial file and no
    output are left, and the free space is what it was. *)
Theorem runDownload_failure_atomic sched o :
  separate d → is_u64 (Z.of_nat (free fs)) →
  (∀ bs, nodes fs !! filename d ≠ Some (File bs)) →
  runDownload goos content d procs sched fs = Some (Finished o) →
  is_Some (err_of o) → fs_of o = fs.
Proof using Hwf Hprocs Hlen Hmax Hvac.
  intros Hsep Hu Hnofile Hrun [err Herr].
  pose proof (session_cases goos content d procs fs Hwf Hprocs Hlen Hvac Hmax) as Hs.
  rewrite view_Data in Hs.
  destruct (Hs Hsep Hu sched _ Hnofile Hrun) as [?|[(? & ? & ?)|(? & ? & _ & _ & ?)]];
    cbv zeta in *; simplify_eq; by unfold fs_of, err_of in *.
Qed.

(** C11: what a download that returns nil has written.  On every schedule,
    when the download returns nil every worker has finished, and the file
    system is the one before the download with the output added, which holds
    the first [free - filesize] bytes of the resource: all of it when twice
    [filesize] bytes were free, and a proper prefix otherwise, without any
    error. *)
Theorem runDownload_output sched fs' evs :
  separate d → is_u64 (Z.of_nat (free fs)) →
  (∀ bs, nodes fs !! filename d ≠ Some (File bs)) →
  runDownload goos content d procs sched fs = Some (Finished (fs', evs, None)) →
  let output := take (free fs - length content) content in
  fs' = Fsys (<[filename d := File output]> (nodes fs)) (free fs - length output) ∧
  (output = content ↔ filesize d + filesize d ≤ Z.of_nat (free fs)).
Proof using Hwf Hprocs Hlen Hmax Hvac.
  intros Hsep Hu Hnofile Hrun output.
  pose proof (session_cases goos content d procs fs Hwf Hprocs Hlen Hvac Hmax) as Hs.
  rewrite view_Data in Hs.
  destruct (Hs Hsep Hu sched _ Hnofile Hrun) as [?|[(? & ? & ?)|(? & ? & _ & _ & ?)]];
    cbv zeta in *; simplify_eq.
  split; [done|]. unfold output. split.
  - intros Heq%(f_equal length). rewrite length_take in Heq. lia.
  - intros Hroom. apply take_ge. lia.
Qed.

(** The monitor does not panic in a download.  [ProgressBar] panics when
    the workspace is missing; in a download the workspace is made before the
    first round and removed after the last, so on no schedule does the
    download end with the panic of the monitor. *)
Theorem runDownload_no_crash sched why :
  is_u64 (Z.of_nat (free fs)) →
  runDownload goos content d procs sched fs ≠ Some (Crashed why).
Proof using Hwf Hprocs Hlen Hmax Hvac.
  intros Hu. by apply (session_no_crash goos content d procs fs).
Qed.

(** No deadlock.  On a volume with room for the file, in every state a
    schedule reaches in which no worker has failed, either every worker has
    written its whole range or some worker can make its next step (start, or
    write the rest of its range) without an error: no worker waits for
    another, and with [pool_run_terminates] every schedule that goes on while
    it can ends with all the workers finished. *)
Theorem pool_deadlock_free sched st :
  filesize d ≤ Z.of_nat (free fs) →
  run sched start = Some st → p_errs st = [] →
  finished content d procs st ∨
  ∃ a st', of_worker a ∧ pool_step content d procs a st = Some st' ∧ p_errs st' = [].
Proof using Hwf Hprocs Hlen Hvac.
  intros Hroom Hrun Herr.
  pose proof (pool_run_pool_inv content d procs fs Hwf Hprocs Hlen sched _ st
                (pool_inv_init content d procs fs Hvac) Hrun) as Hinv.
  pose proof (pool_progress content d procs fs) as Hp.
  destruct (Hp Hwf Hprocs Hlen Hroom st Hinv Herr) as [?|(a & st' & ? & ? & _ & ?)];
    eauto 7.
Qed.

End pget.

(** C35: a workspace that is not new.  [os.MkdirAll] accepts a workspace that is
    there already and leaves the file system as it is.  When the files left
    in it hold at least [filesize] bytes, the first round of the monitor on
    that file system signals completion although no worker has written a
    byte: the hypothesis of [ProgressBar_no_early_completion] that nothing is
    at the workspace when the download starts is needed. *)
Theorem ProgressBar_stale_workspace content (d : Data) procs fs1 :
  0 < procs → measurable (dirname d) fs1 → measure (dirname d) fs1 ≤ i64_max →
  Progress.total d ≤ measure (dirname d) fs1 →
  os_MkdirAll (dirname d) fs1 = Ok fs1 ∧
  ∃ st, pool_run content d procs [Poll] (pool_init fs1) = Some st ∧
        SendDone ∈ (ProgressBar d (p_obs st)).1 ∧
        ¬ finished content d procs st.
Proof.
  intros Hprocs Hm Hmax Hstale.
  split; [unfold os_MkdirAll; by rewrite (proj1 Hm)|].
  exists (observe (pool_init fs1)).
  split_and!; [done| |].
  - assert (ProgressBar d (p_obs (observe (pool_init fs1)))
            = (BarStart (Progress.total d)
                 :: (BarSet <$> []) ++ [BarSet (Progress.total d); BarFinish; SendDone],
               Returned)) as ->; [|set_solver].
    apply (ProgressBar_stops d [] [] (false, fs1) []); [constructor|].
    apply round_complete. split; [done|]. exists (measure (dirname d) fs1).
    split; [by apply subDirsize_walk|done].
  - intros Hfin. unfold finished in Hfin. rewrite Forall_forall in Hfin.
    specialize (Hfin 0). rewrite elem_of_seqZ in Hfin. by specialize (Hfin ltac:(lia)).
Qed.

(** A download that returns nil had room for the file.  Whatever
    [IsFree] has answered (its sum wraps for sizes near 2^64), and whatever
    the schedule, when the download returns nil every worker has written its
    whole range, and the volume had at least [filesize] bytes free: on a
    volume with less room every download fails or waits. *)
Theorem runDownload_needs_room goos content (d : Data) procs sched fs o :
  Data_wf d → 0 < procs ≤ filesize d → Z.of_nat (length content) = filesize d →
  vacant (dirname d) fs →
  runDownload goos content d procs sched fs = Some (Finished o) →
  err_of o = None →
  filesize d ≤ Z.of_nat (free fs).
Proof.
  intros Hwf Hprocs Hlen Hvac. unfold runDownload.
  destruct (U_IsFree _ _ _ _); [by intros [= <-]|].
  rewrite os_MkdirAll_new by (apply (vacant_lookup (dirname d)); auto).
  destruct (pool_run _ _ _ sched _) as [st|] eqn:Hrun; [|done]. simpl.
  intros [= Ho] He.
  pose proof (orchestrate_nil content d procs st o Ho He) as Hfin.
  pose proof (pool_run_pool_inv content d procs fs Hwf Hprocs Hlen sched _ st
                (pool_inv_init content d procs fs Hvac) Hrun) as Hinv.
  pose proof (finished_room content d procs fs Hwf Hprocs Hlen st Hinv Hfin).
  change (U_FileSize d) with (filesize d) in *. lia.
Qed.

(** C22: the space check is enough for the workers.  When [IsFree] accepts,
    no worker fails for lack of space, on any schedule: the errors the
    workers return are those of the transport, in the order in which it
    failed.  (The merge is another matter: see [runDownload_output].) *)
Theorem IsFree_room_for_workers goos content (d : Data) procs sched fs st :
  Data_wf d → 0 < procs ≤ filesize d → Z.of_nat (length content) = filesize d →
  filesize d ≤ i64_max → vacant (dirname d) fs → is_u64 (Z.of_nat (free fs)) →
  IsFree goos d (filesize d / procs) fs = None →
  pool_run content d procs sched (pool_init (workspace d fs)) = Some st →
  p_errs st = transport_errors sched.
Proof.
  intros Hwf Hprocs Hlen Hmax Hvac Hu Hfree Hrun.
  pose proof (split_le_size d procs Hprocs) as Hsplit.
  change (0 ≤ filesize d / procs ≤ filesize d) in Hsplit.
  apply IsFree_iff in Hfree; [|done|revert Hmax; unfold_int; div_atoms; lia].
  assert (filesize d ≤ Z.of_nat (free fs)) as Hroom by (div_atoms; lia).
  pose proof (pool_inv_init content d procs fs) as Hinit.
  pose proof (pool_run_errs content d procs fs) as He.
  by rewrite (He Hwf Hprocs Hlen Hroom sched _ st (Hinit Hvac) Hrun).
Qed.

(** The download leaks no space.  Whatever the job, the file system,
    the schedule and the way the download ends (refused, aborted after a
    failed worker, merged, with or without error), the volume has as many
    bytes, free and in files together, as before. *)
Theorem runDownload_conserves goos content (d : Data) procs sched fs o :
  runDownload goos content d procs sched fs = Some (Finished o) →
  capacity (fs_of o) = capacity fs.
Proof. apply session_capacity. Qed.

(** ** Witnesses *)

(** The job of ten bytes and three workers.  The workers start in the order
    1, 0, 2; worker 1 receives its three bytes in two pieces; the monitor
    looks twice on the way. *)
Definition ex_sched : list action :=
  [Start 1; Start 0; Write 1 2; Poll; Write 0 3; Start 2; Write 2 4; Poll;
   Write 1 1].

(** The same beginning, and then the transfer of worker 2 fails. *)
Definition ex_sched_fail : list action :=
  [Start 1; Start 0; Write 1 2; Poll; Write 0 3; Start 2; Write 2 1;
   Fail 2 "connection reset by peer"; Write 1 1].

(** The monitor lists the workspace when the files of workers 1 and 0 are
    there, looks at one of them after worker 0 has written, at the other after
    worker 2 has started and written, and ends its round; its last round is
    made at once. *)
Definition ex_sched_walk : list action :=
  [Start 1; Start 0; Write 1 2; WalkBegin; Write 0 3; WalkVisit; Start 2;
   Write 2 4; WalkVisit; WalkEnd; Write 1 1; Poll].

Definition ex_pool (sched : list action) : pool :=
  default (pool_init (workspace ex_target (ex_disk 20)))
    (pool_run ex_resource ex_target 3 sched
       (pool_init (workspace ex_target (ex_disk 20)))).

Lemma runDownload_correct_witness :
  ∃ szs, Forall (λ v, v < 10) szs ∧
    runDownload "linux" ex_resource ex_target 3 (ex_sched ++ [Poll]) (ex_disk 20) =
    Some (Finished
      (Fsys (<["f" := File ex_resource]> (nodes (ex_disk 20))) 10,
       (BarStart 10 :: (BarSet <$> szs) ++ [BarSet 10; BarFinish; SendDone])
         ++ hello ex_target ++ [BarAdd 3; BarAdd 3; BarAdd 4]
         ++ [BarFinish; Println "Complete"],
       None)).
Proof.
  apply (runDownload_correct "linux" ex_resource ex_target 3 (ex_disk 20)
           ltac:(solve_job) ltac:(solve_job) ltac:(solve_job) ltac:(solve_job)
           ltac:(solve_job) ex_sched (ex_pool ex_sched)); solve_job.
Defined.

Lemma runDownload_abort_witness :
  ∃ evs, runDownload "linux" ex_resource ex_target 3 ex_sched_fail (ex_disk 20)
         = Some (Finished (ex_disk 20, evs, Some "connection reset by peer")).
Proof.
  apply (runDownload_abort "linux" ex_resource ex_target 3 (ex_disk 20)
           ltac:(solve_job) ltac:(solve_job) ltac:(solve_job) ltac:(solve_job)
           ltac:(solve_job) ex_sched_fail (ex_pool ex_sched_fail) _ []); solve_job.
Defined.

Lemma ProgressBar_no_early_completion_witness :
  finished ex_resource ex_target 3 (ex_pool ex_sched_walk).
Proof.
  apply (ProgressBar_no_early_completion ex_resource ex_target 3 (ex_disk 20)
           ltac:(solve_job) ltac:(solve_job) ltac:(solve_job) ltac:(solve_job)
           ltac:(solve_job) ex_sched_walk); solve_job.
Defined.

Lemma pool_schedule_independent_witness :
  p_fs (ex_pool ex_sched)
  = p_fs (ex_pool (sequential ex_resource ex_target 3 [2; 0; 1])) ∧
  p_fs (ex_pool ex_sched)
  = (workers ex_resource ex_target 3 [1; 0; 2]
       (workspace ex_target (ex_disk 20))).1.
Proof.
  apply (pool_schedule_independent ex_resource ex_target 3 (ex_disk 20)
           ltac:(solve_job) ltac:(solve_job) ltac:(solve_job) ltac:(solve_job)
           ltac:(solve_job) ex_sched
           (sequential ex_resource ex_target 3 [2; 0; 1])); solve_job.
Defined.

Lemma ProgressBar_completion_iff_finished_witness :
  finished ex_resource ex_target 3 (ex_pool ex_sched)
  ↔ SendDone ∈ (ProgressBar ex_target
                  (p_obs (ex_pool ex_sched) ++ [(false, p_fs (ex_pool ex_sched))])).1.
Proof.
  apply (ProgressBar_completion_iff_finished ex_resource ex_target 3 (ex_disk 20)
           ltac:(solve_job) ltac:(solve_job) ltac:(solve_job) ltac:(solve_job)
           ltac:(solve_job) ex_sched); solve_job.
Defined.

(** The walk of [ex_sched_walk] finds the three bytes of worker 0 and the
    two of worker 1, and not the file of worker 2, which was not there when
    the workspace was listed: five bytes, when nine are written. *)
Example ex_sched_walk_shown :
  shown (ProgressBar ex_target (p_obs (ex_pool ex_sched_walk))).1 = [5; 10] ∧
  pool_total 3 (ex_pool (take 10 ex_sched_walk)) = 9%nat.
Proof. by vm_compute. Qed.

Lemma ProgressBar_monotone_on_schedules_witness :
  let r := ProgressBar ex_target (p_obs (ex_pool ex_sched_walk)) in
  sent_error r.1 = None ∧ (∀ why, r.2 ≠ Panicked why) ∧
  Sorted Z.le (shown r.1) ∧ Forall (λ v, 0 ≤ v ≤ 10) (shown r.1).
Proof.
  apply (ProgressBar_monotone_on_schedules ex_resource ex_target 3 (ex_disk 20)
           ltac:(solve_job) ltac:(solve_job) ltac:(solve_job) ltac:(solve_job)
           ltac:(solve_job) ex_sched_walk); solve_job.
Defined.

(** Two bytes are written when the walk of [ex_sched_walk] begins and nine
    when it ends; it finds five. *)
Lemma subDirsize_beside_workers_witness :
  ∃ seen k,
    p_obs (ex_pool (take 10 ex_sched_walk))
    = p_obs (ex_pool (take 3 ex_sched_walk)) ++ [(false, seen)] ∧
    subDirsize ex_target (dirname ex_target) seen = Returns (Z.of_nat k, None) ∧
    (pool_total 3 (ex_pool (take 3 ex_sched_walk)) ≤ k
     ≤ pool_total 3 (ex_pool (take 10 ex_sched_walk)))%nat.
Proof.
  apply (subDirsize_beside_workers ex_resource ex_target 3 (ex_disk 20)
           ltac:(solve_job) ltac:(solve_job) ltac:(solve_job) ltac:(solve_job)
           ltac:(solve_job) (take 3 ex_sched_walk)
           [Write 0 3; WalkVisit; Start 2; Write 2 4; WalkVisit]); solve_job.
Defined.

(** The walk of [ex_sched_walk] when it has read the two names and looked
    at neither file: two visits end it. *)
Lemma subDirsize_wait_free_witness :
  ∃ st' seen k,
    pool_run ex_resource ex_target 3 ([WalkVisit; WalkVisit] ++ [WalkEnd])
      (ex_pool (take 5 ex_sched_walk)) = Some st' ∧
    same_work st' (ex_pool (take 5 ex_sched_walk)) ∧ p_walk st' = None ∧
    p_cancelled st' = false ∧ p_obs st' = [] ++ [(false, seen)] ∧
    subDirsize ex_target (dirname ex_target) seen = Returns (Z.of_nat k, None) ∧
    (k ≤ 5)%nat.
Proof.
  pose proof (subDirsize_wait_free ex_resource ex_target 3 (ex_disk 20)
                ltac:(solve_job) ltac:(solve_job) ltac:(solve_job) ltac:(solve_job)
                ltac:(solve_job) (take 5 ex_sched_walk) (ex_pool (take 5 ex_sched_walk))
                (Walk ["_f.3/f.3.1"; "_f.3/f.3.0"] ∅)) as Hw.
  apply Hw; by vm_compute.
Defined.

(** The transfer of worker 0 fails while the monitor is in a walk and has
    one file left to look at; the cancellation that follows does not stop
    the walk. *)
Definition ex_sched_torn : list action :=
  [Start 1; Start 0; Write 1 2; WalkBegin; WalkVisit;
   Fail 0 "connection reset by peer"; CancelCtx].

Lemma cleanup_beside_monitor_witness :
  orchestrate ex_resource ex_target 3 (ex_pool ex_sched_torn)
  = Finished (ex_disk 20, (ProgressBar ex_target (p_obs (ex_pool ex_sched_torn))).1,
              Some "connection reset by peer") ∧
  (idle (ex_pool ex_sched_torn) →
   ProgressBar ex_target (p_obs (ex_pool ex_sched_torn) ++ [(false, ex_disk 20)])
   = ((ProgressBar ex_target (p_obs (ex_pool ex_sched_torn))).1,
      Panicked nil_dereference)) ∧
  (∀ p rest seen size,
     p_walk (ex_pool ex_sched_torn) = Some (Walk (p :: rest) seen) →
     subDirsize_fn size (lstat_visit (ex_disk 20) p) = Panics nil_dereference).
Proof.
  apply (cleanup_beside_monitor ex_resource ex_target 3 (ex_disk 20)
           ltac:(solve_job) ltac:(solve_job) ltac:(solve_job) ltac:(solve_job)
           ltac:(solve_job) ex_sched_torn (ex_pool ex_sched_torn) _ []); solve_job.
Defined.

(** At the end of [ex_sched] every worker has finished and the monitor has
    made one round, which found two bytes. *)
Lemma merge_needs_monitor_signal_witness :
  err_of (BindwithFiles ex_target 3 (p_fs (ex_pool ex_sched))) = None ∧
  ProgressBar ex_target
    (p_obs (ex_pool ex_sched)
       ++ [(false, fs_of (BindwithFiles ex_target 3 (p_fs (ex_pool ex_sched))))])
  = ((ProgressBar ex_target (p_obs (ex_pool ex_sched))).1, Panicked nil_dereference).
Proof.
  apply (merge_needs_monitor_signal ex_resource ex_target 3 (ex_disk 20)
           ltac:(solve_job) ltac:(solve_job) ltac:(solve_job) ltac:(solve_job)
           ltac:(solve_job) ex_sched); solve_job.
Defined.

Lemma pool_run_terminates_witness :
  (worker_steps ex_sched ≤ length ex_resource + Z.to_nat 3)%nat.
Proof.
  apply (pool_run_terminates ex_resource ex_target 3 (ex_disk 20)
           ltac:(solve_job) ltac:(solve_job) ltac:(solve_job) ltac:(solve_job)
           ex_sched (ex_pool ex_sched)); solve_job.
Defined.

(** Worker 1 has two of its three bytes and worker 0 has just started:
    [completion] is [Write 0 3; Write 1 1; Start 2; Write 2 4]. *)
Definition ex_sched_begun : list action := [Start 1; Write 1 2; Poll; Start 0].

Lemma runDownload_can_finish_witness :
  ∃ evs,
    runDownload "linux" ex_resource ex_target 3
      (ex_sched_begun
         ++ completion ex_resource ex_target 3 (ex_pool ex_sched_begun) ++ [Poll])
      (ex_disk 20) =
    Some (Finished (Fsys (<["f" := File ex_resource]> (nodes (ex_disk 20))) 10,
                    evs, None)).
Proof.
  apply (runDownload_can_finish "linux" ex_resource ex_target 3 (ex_disk 20)
           ltac:(solve_job) ltac:(solve_job) ltac:(solve_job) ltac:(solve_job)
           ltac:(solve_job) ex_sched_begun (ex_pool ex_sched_begun)); solve_job.
Defined.

Lemma runDownload_failure_atomic_witness :
  fs_of (ex_disk 20, [BarStart 10; BarSet 2], Some "connection reset by peer")
  = ex_disk 20.
Proof.
  apply (runDownload_failure_atomic "linux" ex_resource ex_target 3 (ex_disk 20)
           ltac:(solve_job) ltac:(solve_job) ltac:(solve_job) ltac:(solve_job)
           ltac:(solve_job) ex_sched_fail);
    [solve_job | solve_job | intros bs; by vm_compute | by vm_compute | by eexists].
Defined.

(** With 17 bytes free the check passes (13 are asked for) and the output
    gets the 7 bytes that are left beside the partial files. *)
Lemma runDownload_output_witness :
  Fsys (<["f" := File (take 7 ex_resource)]> (nodes (ex_disk 17))) 10
  = Fsys (<["f" := File (take (17 - 10) ex_resource)]> (nodes (ex_disk 17)))
      (17 - length (take (17 - 10) ex_resource)) ∧
  (take (17 - 10) ex_resource = ex_resource ↔ 10 + 10 ≤ Z.of_nat 17).
Proof.
  apply (runDownload_output "linux" ex_resource ex_target 3 (ex_disk 17)
           ltac:(solve_job) ltac:(solve_job) ltac:(solve_job) ltac:(solve_job)
           ltac:(solve_job) (ex_sched ++ [Poll]) _
           ([BarStart 10; BarSet 2; BarSet 9; BarSet 10; BarFinish; SendDone]
              ++ hello ex_target
              ++ [BarAdd 3; BarAdd 3; BarAdd 1; BarFinish; Println "Complete"]));
    [solve_job | solve_job | intros bs; by vm_compute | by vm_compute].
Defined.

Lemma runDownload_no_crash_witness :
  runDownload "linux" ex_resource ex_target 3 ex_sched (ex_disk 20)
  ≠ Some (Crashed "invalid memory address or nil pointer dereference").
Proof.
  apply (runDownload_no_crash "linux" ex_resource ex_target 3 (ex_disk 20)
           ltac:(solve_job) ltac:(solve_job) ltac:(solve_job) ltac:(solve_job)
           ltac:(solve_job) ex_sched). solve_job.
Defined.

Lemma IsFree_room_for_workers_witness :
  p_errs (ex_pool ex_sched_fail) = transport_errors ex_sched_fail.
Proof.
  apply (IsFree_room_for_workers "linux" ex_resource ex_target 3 ex_sched_fail
           (ex_disk 20)); solve_job.
Defined.

Lemma monitor_only_reads_witness :
  ∃ st'', pool_run ex_resource ex_target 3 (workers_only ex_sched)
            (pool_init (workspace ex_target (ex_disk 20))) = Some st'' ∧
          same_work (ex_pool ex_sched) st''.
Proof.
  apply (monitor_only_reads ex_resource ex_target 3 ex_sched). by vm_compute.
Defined.

Lemma runDownload_conserves_witness :
  capacity (fs_of (ex_disk 20, [BarStart 10; BarSet 2],
                   Some "connection reset by peer"))
  = capacity (ex_disk 20).
Proof.
  apply (runDownload_conserves "linux" ex_resource ex_target 3 ex_sched_fail).
  by vm_compute.
Defined.

(** The monitor is cancelled after its first round, which found two bytes;
    the workers write all the rest, and the download waits. *)
Definition ex_sched_begin : list action := [Start 1; Start 0; Write 1 2; Poll].

Definition ex_sched_rest : list action :=
  [Write 0 3; Start 2; Write 2 4; Poll; Write 1 1; Poll].

Lemma runDownload_cancelled_witness :
  finished ex_resource ex_target 3
    (ex_pool (ex_sched_begin ++ CancelCtx :: ex_sched_rest)) ∧
  runDownload "linux" ex_resource ex_target 3
    (ex_sched_begin ++ CancelCtx :: ex_sched_rest) (ex_disk 20) = Some Blocked ∧
  ((∃ err, IsFree "linux" ex_target (10 / 3) (ex_disk 20) = Some err ∧
           Blocked = Finished (ex_disk 20, [], Some err)) ∨
   ∃ st, pool_run ex_resource ex_target 3
           (ex_sched_begin ++ CancelCtx :: ex_sched_rest)
           (pool_init (workspace ex_target (ex_disk 20))) = Some st ∧
         Blocked = match p_errs st with
                   | [] => Blocked
                   | err :: _ =>
                       Finished (ex_disk 20,
                                 (ProgressBar ex_target
                                    (p_obs (ex_pool ex_sched_begin))).1, Some err)
                   end).
Proof.
  split_and!; [solve_job|by vm_compute|].
  apply (runDownload_cancelled "linux" ex_resource ex_target 3 (ex_disk 20)
           ltac:(solve_job) ltac:(solve_job) ltac:(solve_job) ltac:(solve_job)
           ltac:(solve_job) ex_sched_begin ex_sched_rest (ex_pool ex_sched_begin));
    [solve_job | solve_job | solve_job | solve_job | | by vm_compute].
  apply (bool_decide_unpack _). by vm_compute.
Defined.

(** On a volume with five bytes free, worker 0 writes its three bytes and
    the first two of the three of worker 1 fill the volume. *)
Definition ex_sched_full : list action := [Start 0; Write 0 3; Start 1].

Definition ex_pool_on (free : nat) (sched : list action) : pool :=
  default (pool_init (workspace ex_target (ex_disk free)))
    (pool_run ex_resource ex_target 3 sched
       (pool_init (workspace ex_target (ex_disk free)))).

Lemma worker_disk_full_witness :
  ∃ st' evs,
    pool_run ex_resource ex_target 3 (ex_sched_full ++ [Write 1 3])
      (pool_init (workspace ex_target (ex_disk 5))) = Some st' ∧
    nodes (p_fs st') !! "_f.3/f.3.1" = Some (File (take (0 + 2) (bytes_of "345"))) ∧
    free (p_fs st') = 0%nat ∧
    orchestrate ex_resource ex_target 3 st'
    = Finished (ex_disk 5, evs, Some (ENOSPC "write" "_f.3/f.3.1")).
Proof.
  apply (worker_disk_full ex_resource ex_target 3 (ex_disk 5)
           ltac:(solve_job) ltac:(solve_job) ltac:(solve_job) ltac:(solve_job)
           ltac:(solve_job) ex_sched_full (ex_pool_on 5 ex_sched_full) 1 0%nat 3%nat);
    solve_job || (vm_compute; lia).
Defined.

Lemma runDownload_needs_room_witness : 10 ≤ Z.of_nat 20.
Proof.
  apply (runDownload_needs_room "linux" ex_resource ex_target 3 (ex_sched ++ [Poll])
           (ex_disk 20)
           (Fsys (<["f" := File ex_resource]> (nodes (ex_disk 20))) 10,
            [BarStart 10; BarSet 2; BarSet 9; BarSet 10; BarFinish; SendDone]
              ++ hello ex_target
              ++ [BarAdd 3; BarAdd 3; BarAdd 4; BarFinish; Println "Complete"],
            None)); solve_job.
Defined.

(** With 17 bytes free the pipeline and the download both leave the first
    seven bytes of the resource in the output and return nil. *)
Lemma runDownload_refines_Download_witness :
  ∃ szs, Forall (λ v, v < 10) szs ∧
    runDownload "linux" ex_resource ex_target 3 (ex_sched ++ [Poll]) (ex_disk 17)
    = Some (let '(fs', evs', e) :=
              Download "linux" ex_resource ex_target 3 [1; 0; 2] (ex_disk 17) in
            Finished (if e is Some _ then cleanup ex_target fs' else fs',
                      (BarStart 10 :: (BarSet <$> szs)
                         ++ [BarSet 10; BarFinish; SendDone]) ++ evs', e)).
Proof.
  apply (runDownload_refines_Download "linux" ex_resource ex_target 3 (ex_disk 17)
           ltac:(solve_job) ltac:(solve_job) ltac:(solve_job) ltac:(solve_job)
           ltac:(solve_job) ex_sched (ex_pool_on 17 ex_sched)); solve_job.
Defined.

Lemma pool_deadlock_free_witness :
  finished ex_resource ex_target 3 (ex_pool ex_sched_begun) ∨
  ∃ a st', of_worker a ∧
    pool_step ex_resource ex_target 3 a (ex_pool ex_sched_begun) = Some st' ∧
    p_errs st' = [].
Proof.
  apply (pool_deadlock_free ex_resource ex_target 3 (ex_disk 20)
           ltac:(solve_job) ltac:(solve_job) ltac:(solve_job) ltac:(solve_job)
           ex_sched_begun); solve_job.
Defined.

(** The workspace of an earlier download of the same file is still there,
    with one partial file of ten bytes. *)
Definition ex_stale : fsys :=
  Fsys {["_f.3" := Dir true; "_f.3/f.1.0" := File ex_resource]} 20.

Lemma ProgressBar_stale_workspace_witness :
  os_MkdirAll (dirname ex_target) ex_stale = Ok ex_stale ∧
  ∃ st, pool_run ex_resource ex_target 3 [Poll] (pool_init ex_stale) = Some st ∧
        SendDone ∈ (ProgressBar ex_target (p_obs st)).1 ∧
        ¬ finished ex_resource ex_target 3 st.
Proof.
  apply (ProgressBar_stale_workspace ex_resource ex_target 3 ex_stale); solve_job.
Defined.
